(** * Bipartite matching by phased augmenting paths

    A shallow embedding of [Graph.cpp], [FordFulkerson.cpp] and the parts of
    [GraphPrepare.cpp] and [BipartiteMatcher.cpp] that build the network:
    the residual capacity matrix, the breadth-first level graph, the
    iterative depth-first path search with dead-end pruning, and the unit
    push along a found path; followed by the properties of these functions.

    Conventions.
    - A C++ [int] capacity or depth is a [Z].  Signed overflow is undefined
      behaviour in C++, so no wrap-around is modelled: a theorem about the
      increments and decrements of capacities either is about the wired
      network of a bipartite graph, whose capacities stay within [0, 1], or
      assumes the bound under which no entry passes [INT_MAX] or
      [INT_MIN].
    - A node index that is used as a vector subscript is a [nat]; the two
      functions that validate their arguments ([calculateMaxFlow] and
      [updateResidualGraph]) take [Z], as the source compares them with 0.
    - [std::vector::operator[]] outside the bounds is undefined behaviour;
      the model reads 0 there and ignores the write.  The same holds for
      [pop_back] on an empty vector, which the model ignores.
    - Every function of [FordFulkerson] wraps its body in
      [try { ... } catch (const std::exception &e) { throw
      std::runtime_error(prefix + e.what()); }].  The handler is modelled
      ([rethrow]) in the functions through which an exception can pass:
      [updateResidualGraph], [augmentFlowAlongPath] and [calculateMaxFlow].
      The bodies of the other functions contain no [throw] and call nothing
      that throws (failure of allocation is not modelled).
    - Every [while] loop is a [Fixpoint] on a fuel argument, and running
      out of fuel is a result of its own ([OutOfFuel], or [None]); the
      termination theorems show that it does not happen with the fuel of
      [enoughFuel].
    - [augmentFlowAlongPath] and [calculateMaxFlow] return [void]; the
      model lets them return a record of what they did (the bottleneck
      computed for every committed path, the number of phases and of
      committed paths), which the code does not store.
    - The second part of the definitions models the reading of the input
      file ([GraphPrepare], from the characters of the file on), the
      methods of [BipartiteMatcher] and [main].  There a call ends in a
      [result], which tells apart a return, an exception, [std::terminate]
      and a write of [createEdge] or of a name outside its vector, which
      the input file can cause and which is left undefined. *)

From stdpp Require Import base relations list numbers strings.
From Stdlib Require Import ZArith Lia Sorted Ascii.

Local Open Scope Z_scope.

(** ** The capacity matrix: [std::vector<std::vector<int>>] *)

Module Matrix.

Abbreviation t := (list (list Z)).

Definition row (m : t) (i : nat) : list Z := default [] (m !! i).

(** [m[i][j]] *)
Definition get (m : t) (i j : nat) : Z := default 0 (row m i !! j).

(** [m[i][j] = v] *)
Definition set (m : t) (i j : nat) (v : Z) : t :=
  <[i := <[j := v]> (row m i)]> m.

(** [assign(n, std::vector<int>(n, 0))] *)
Definition zero (n : nat) : t := replicate n (replicate n 0).

(** A square matrix of side [n]. *)
Definition square (n : nat) (m : t) : Prop :=
  length m = n ∧ ∀ i r, m !! i = Some r → length r = n.

End Matrix.

(** ** [Graph] *)

Record Graph := mkGraph {
  nodes : nat;
  totalNodes : nat;
  adjacencyMatrix : Matrix.t
}.

Definition setAdjacencyMatrix (g : Graph) (m : Matrix.t) : Graph :=
  {| nodes := nodes g; totalNodes := totalNodes g; adjacencyMatrix := m |}.

(** [Graph::initializeAdjacencyMatrix] *)
Definition initializeAdjacencyMatrix (n : nat) : Matrix.t := Matrix.zero n.

(** [Graph::Graph(int nodes)] *)
Definition newGraph (n : nat) : Graph :=
  {| nodes := n; totalNodes := n + 2;
     adjacencyMatrix := initializeAdjacencyMatrix (n + 2) |}.

(** [Graph::getNodes] returns [totalNodes]. *)
Definition getNodes (g : Graph) : nat := totalNodes g.

(** [Graph::getAdjacencyMatrix] *)
Definition getAdjacencyMatrix (g : Graph) : Matrix.t := adjacencyMatrix g.

(** [Graph::createEdge] *)
Definition createEdge (g : Graph) (node1 node2 : nat) (maxFlow : Z) : Graph :=
  setAdjacencyMatrix g (Matrix.set (adjacencyMatrix g) node1 node2 maxFlow).

(** [Graph::createSourceNode]: [for (i = 1; i <= nodes / 2; ++i)] *)
Definition createSourceNode (g : Graph) (source : nat) : Graph :=
  fold_left (λ g i, createEdge g source i 1) (seq 1 (nodes g / 2)) g.

(** [Graph::createSinkNode]: [for (i = nodes / 2 + 1; i <= nodes; ++i)] *)
Definition createSinkNode (g : Graph) (sink : nat) : Graph :=
  fold_left (λ g i, createEdge g i sink 1)
            (seq (nodes g / 2 + 1) (nodes g - nodes g / 2)) g.

(** [Graph::connectSourceAndSinkNodes] *)
Definition connectSourceAndSinkNodes (g : Graph) (source sink : nat) : Graph :=
  createSinkNode (createSourceNode g source) sink.

(** [Graph::findAdjacentNodes]: the indices [i] of [0 .. totalNodes - 1], in
    that order, with [adjacencyMatrix[node][i] > 0]. *)
Definition findAdjacentNodes (g : Graph) (node : nat) : list nat :=
  List.filter (λ i, 0 <? Matrix.get (adjacencyMatrix g) node i)
              (seq 0 (totalNodes g)).

(** [Graph::printResults].  The line written for a pair is
    [names[i] / names[n]]; the last line, "<matches> total matches", is
    represented by the returned counter.  The source indexes [names]
    unchecked: [nameOf] is [names[i]] for an index within the vector, which
    is where a theorem about the text of a line applies (the names that
    [GraphPrepare] has read are [nodes + 1] many); beyond it the model
    writes an empty name. *)
Definition nameOf (names : list string) (i : nat) : string :=
  default EmptyString (names !! i).

Definition printLine (names : list string) (i n : nat) : string :=
  nameOf names i +:+ " / " +:+ nameOf names n.

Definition printResults (g : Graph) (names : list string) : list string * Z :=
  fold_left
    (λ acc i,
       fold_left
         (λ '(out, matches) n,
            if Matrix.get (adjacencyMatrix g) n i =? 1
            then (out ++ [printLine names i n], matches + 1)
            else (out, matches))
         (seq (nodes g / 2 + 1) (nodes g - nodes g / 2)) acc)
    (seq 1 (nodes g / 2)) ([], 0).

(** The index pairs behind the lines of [printResults], in printing order. *)
Definition matchedPairs (g : Graph) : list (nat * nat) :=
  flat_map
    (λ i, flat_map
            (λ n, if Matrix.get (adjacencyMatrix g) n i =? 1 then [(i, n)] else [])
            (seq (nodes g / 2 + 1) (nodes g - nodes g / 2)))
    (seq 1 (nodes g / 2)).

(** ** Exceptions *)

Inductive exception :=
| invalid_argument (what : string)
| out_of_range (what : string)
| runtime_error (what : string).

Definition what (e : exception) : string :=
  match e with
  | invalid_argument w | out_of_range w | runtime_error w => w
  end.

(** [catch (const std::exception &e) { throw std::runtime_error(prefix + e.what()); }] *)
Definition rethrow (prefix : string) (e : exception) : exception :=
  runtime_error (prefix +:+ what e).

(** ** [FordFulkerson] *)

Record FordFulkerson := mkFF {
  depth : list Z;
  maxFlow : Matrix.t;
  graph : Graph
}.

Definition setDepth (ff : FordFulkerson) (d : list Z) : FordFulkerson :=
  {| depth := d; maxFlow := maxFlow ff; graph := graph ff |}.
Definition setMaxFlow (ff : FordFulkerson) (m : Matrix.t) : FordFulkerson :=
  {| depth := depth ff; maxFlow := m; graph := graph ff |}.
Definition setGraph (ff : FordFulkerson) (g : Graph) : FordFulkerson :=
  {| depth := depth ff; maxFlow := maxFlow ff; graph := g |}.

(** The result of a call that may throw or (in the model) run out of fuel.
    The object is passed along in both the normal and the exceptional
    result, since the source mutates it in place. *)
Inductive outcome (A : Type) :=
| Returned (a : A) (ff : FordFulkerson)
| Thrown (e : exception) (ff : FordFulkerson)
| OutOfFuel.
Arguments Returned {A} a ff.
Arguments Thrown {A} e ff.
Arguments OutOfFuel {A}.

(** [depth[v]] *)
Definition depthAt (d : list Z) (v : nat) : Z := default 0 (d !! v).

(** [FordFulkerson::FordFulkerson]: [initializeMaxFlow] then
    [initializeDepth]. *)
Definition newFordFulkerson (g : Graph) : FordFulkerson :=
  {| depth := replicate (getNodes g) 0;
     maxFlow := Matrix.zero (getNodes g);
     graph := g |}.

(** *** [levelGraph] *)

(** The [for] loop over the neighbours of [currentNode].  The queue of the
    source is a vector of [totalNodes] slots with two cursors; [queue] is
    its part between [front] and [back], in order: [bfsQueue[front++]] takes
    its head and [bfsQueue[back++] = adjacent] appends to it.  (Every node
    is appended at most once, as its depth is set when it is, so that
    [back] stays within the vector.) *)
Fixpoint levelGraph_scan (m : Matrix.t) (sink currentNode : nat)
    (adj : list nat) (d : list Z) (queue : list nat)
    : bool * list Z * list nat :=
  match adj with
  | [] => (false, d, queue)
  | adjacent :: rest =>
      if (depthAt d adjacent =? -1) && (0 <? Matrix.get m currentNode adjacent)
      then
        let d' := <[adjacent := depthAt d currentNode + 1]> d in
        if (adjacent =? sink)%nat then (true, d', queue)
        else levelGraph_scan m sink currentNode rest d' (queue ++ [adjacent])
      else levelGraph_scan m sink currentNode rest d queue
  end.

(** [while (front < back)] *)
Fixpoint levelGraph_loop (fuel : nat) (g : Graph) (sink : nat)
    (d : list Z) (queue : list nat) : option (bool * list Z) :=
  match fuel with
  | O => None
  | S fuel' =>
      match queue with
      | [] => Some (false, d)
      | currentNode :: queue' =>
          match levelGraph_scan (getAdjacencyMatrix g) sink currentNode
                  (findAdjacentNodes g currentNode) d queue' with
          | (true, d', _) => Some (true, d')
          | (false, d', queue'') => levelGraph_loop fuel' g sink d' queue''
          end
      end
  end.

Definition levelGraph (fuel : nat) (ff : FordFulkerson) (source sink : nat)
    : option (bool * FordFulkerson) :=
  let totalNodes := getNodes (graph ff) in
  let d0 := <[source := 0]> (replicate totalNodes (-1)) in
  match levelGraph_loop fuel (graph ff) sink d0 [source] with
  | Some (b, d) => Some (b, setDepth ff d)
  | None => None
  end.

(** *** [clearMaxFlowAtNode] *)
Definition clearMaxFlowAtNode (ff : FordFulkerson) (node : nat) : FordFulkerson :=
  setMaxFlow ff
    (fold_left (λ m i, Matrix.set m i node 0)
               (seq 0 (getNodes (graph ff))) (maxFlow ff)).

(** *** [findNextNodeInPath] *)

(** The test of the [for] loop of [findNextNodeInPath]. *)
Definition admissible (ff : FordFulkerson) (node neighbor : nat) : bool :=
  (depthAt (depth ff) node + 1 =? depthAt (depth ff) neighbor)
  && (0 <? Matrix.get (maxFlow ff) node neighbor).

(** The state that [findNextNodeInPath] updates through its reference
    parameters, together with the object. *)
Record Search := mkSearch {
  sFF : FordFulkerson;
  sNode : nat;
  sPath : list nat;
  sBacktracking : bool
}.

Definition findNextNodeInPath (s : Search) (source : nat) : bool * Search :=
  let ff := sFF s in
  let node := sNode s in
  let path := if sBacktracking s then sPath s else sPath s ++ [node] in
  match List.find (admissible ff node) (findAdjacentNodes (graph ff) node) with
  | Some neighbor => (true, mkSearch ff neighbor path false)
  | None =>
      if (node =? source)%nat then (false, mkSearch ff node path false)
      else
        let ff' := clearMaxFlowAtNode ff node in
        let path' := removelast path in
        let node' := default node (last path') in
        (true, mkSearch ff' node' path' true)
  end.

(** *** [findAugmentingPath] *)

Fixpoint findAugmentingPath_loop (fuel : nat) (s : Search) (source sink : nat)
    : option (bool * FordFulkerson * list nat) :=
  match fuel with
  | O => None
  | S fuel' =>
      if (sNode s =? sink)%nat then Some (false, sFF s, sPath s)
      else
        match findNextNodeInPath s source with
        | (false, s') => Some (false, sFF s', sPath s')
        | (true, s') =>
            if (sNode s' =? sink)%nat
            then Some (true, sFF s', sPath s' ++ [sink])
            else findAugmentingPath_loop fuel' s' source sink
        end
  end.

Definition findAugmentingPath (fuel : nat) (ff : FordFulkerson)
    (path : list nat) (source sink : nat)
    : option (bool * FordFulkerson * list nat) :=
  findAugmentingPath_loop fuel (mkSearch ff source path false) source sink.

(** *** [updateResidualGraph] *)

Definition inRange (g : Graph) (v : Z) : bool :=
  negb ((v <? 0) || (Z.of_nat (getNodes g) <=? v)).

(** The limits of [int]. *)
Definition INT_MAX : Z := 2147483647.
Definition INT_MIN : Z := -2147483648.

(** [adjacencyMatrix[dst][src] += 1; adjacencyMatrix[src][dst] -= 1;].  The
    two operations are those of [int] as long as the first entry is below
    [INT_MAX] and the second above [INT_MIN]; beyond that the C++ is
    undefined (signed overflow).  The theorems about a push carry these
    bounds. *)
Definition pushUnit (m : Matrix.t) (src dst : nat) : Matrix.t :=
  let m1 := Matrix.set m dst src (Matrix.get m dst src + 1) in
  Matrix.set m1 src dst (Matrix.get m1 src dst - 1).

Definition updateResidualGraph (ff : FordFulkerson) (src dst : Z)
    : outcome unit :=
  if inRange (graph ff) src && inRange (graph ff) dst then
    Returned tt
      (setGraph ff
         (setAdjacencyMatrix (graph ff)
            (pushUnit (adjacencyMatrix (graph ff)) (Z.to_nat src) (Z.to_nat dst))))
  else
    Thrown
      (rethrow "Error in updateResidualGraph: "
         (out_of_range "Source or destination node is out of valid range."))
      ff.

(** *** [augmentFlowAlongPath] *)

(** The pairs [(path[i], path[i + 1])] for [i < path.size() - 1]; the path
    that [findAugmentingPath] returns is never empty. *)
Fixpoint consecutive (path : list nat) : list (nat * nat) :=
  match path with
  | u :: (v :: _) as rest => (u, v) :: consecutive rest
  | _ => []
  end.

(** The first [for] loop: the bottleneck of the path in [maxFlow]. *)
Definition pathFlowOf (ff : FordFulkerson) (path : list nat) : Z :=
  fold_left (λ pathFlow '(u, v), Z.min pathFlow (Matrix.get (maxFlow ff) u v))
            (consecutive path) INT_MAX.

(** The second [for] loop: [updateResidualGraph(u, v)] for each pair. *)
Fixpoint updateAlong (ff : FordFulkerson) (pairs : list (nat * nat))
    : outcome unit :=
  match pairs with
  | [] => Returned tt ff
  | (u, v) :: rest =>
      match updateResidualGraph ff (Z.of_nat u) (Z.of_nat v) with
      | Returned _ ff' => updateAlong ff' rest
      | other => other
      end
  end.

(** [while (findAugmentingPath(path, source, sink))]; the result counts the
    paths committed and lists the bottleneck computed for each. *)
Fixpoint augmentFlowAlongPath_loop (fuel0 fuel : nat) (ff : FordFulkerson)
    (path : list nat) (source sink : nat) (flows : list Z)
    : outcome (list Z) :=
  match fuel with
  | O => OutOfFuel
  | S fuel' =>
      match findAugmentingPath fuel0 ff path source sink with
      | None => OutOfFuel
      | Some (false, ff1, _) => Returned flows ff1
      | Some (true, ff1, path1) =>
          let pathFlow := pathFlowOf ff1 path1 in
          match updateAlong ff1 (consecutive path1) with
          | Returned _ ff2 =>
              augmentFlowAlongPath_loop fuel0 fuel' ff2 [] source sink
                (flows ++ [pathFlow])
          | Thrown e ff2 => Thrown e ff2
          | OutOfFuel => OutOfFuel
          end
      end
  end.

Definition augmentFlowAlongPath (fuel : nat) (ff : FordFulkerson)
    (path : list nat) (source sink : nat) : outcome (list Z) :=
  match augmentFlowAlongPath_loop fuel fuel ff path source sink [] with
  | Thrown e ff' => Thrown (rethrow "Error in augmentFlowAlongPath: " e) ff'
  | other => other
  end.

(** *** [calculateMaxFlow] *)

(** What a completed call has done: the number of phases (iterations of the
    [while (levelGraph(source, sink))] loop) and of paths committed. *)
Record Stats := mkStats { phases : nat; pushed : nat }.

Fixpoint calculateMaxFlow_loop (fuel0 fuel : nat) (ff : FordFulkerson)
    (source sink : nat) (st : Stats) : outcome Stats :=
  match fuel with
  | O => OutOfFuel
  | S fuel' =>
      match levelGraph fuel0 ff source sink with
      | None => OutOfFuel
      | Some (false, ff1) => Returned st ff1
      | Some (true, ff1) =>
          let ff2 := setMaxFlow ff1 (getAdjacencyMatrix (graph ff1)) in
          match augmentFlowAlongPath fuel0 ff2 [] source sink with
          | Returned flows ff3 =>
              calculateMaxFlow_loop fuel0 fuel' ff3 source sink
                (mkStats (S (phases st)) (pushed st + length flows))
          | Thrown e ff3 => Thrown e ff3
          | OutOfFuel => OutOfFuel
          end
      end
  end.

Definition calculateMaxFlow (fuel : nat) (ff : FordFulkerson) (source sink : Z)
    : outcome Stats :=
  if inRange (graph ff) source && inRange (graph ff) sink then
    match calculateMaxFlow_loop fuel fuel ff (Z.to_nat source) (Z.to_nat sink)
            (mkStats 0 0) with
    | Thrown e ff' => Thrown (rethrow "Error in calculateMaxFlow: " e) ff'
    | other => other
    end
  else
    Thrown
      (rethrow "Error in calculateMaxFlow: "
         (invalid_argument "Source or sink is out of valid range."))
      ff.

(** ** [GraphPrepare] and [BipartiteMatcher] *)

(** [GraphPrepare::readEdges], after parsing: [createEdge(first, second, 1)]
    for each edge of the file, in the order of the file. *)
Definition readEdges (edges : list (nat * nat)) (g : Graph) : Graph :=
  fold_left (λ g '(node1, node2), createEdge g node1 node2 1) edges g.

(** [GraphPrepare::fileRead], after parsing and validation: [Graph(nodes)]
    and then the edges. *)
Definition fileRead (n : nat) (edges : list (nat * nat)) : Graph :=
  readEdges edges (newGraph n).

(** [BipartiteMatcher::solve]; its [catch] re-throws the exception as it
    is. *)
Definition solve (fuel : nat) (g : Graph) (names : list string)
    : outcome (list string * Z) :=
  let n := nodes g in
  let g1 := connectSourceAndSinkNodes g 0 (n + 1) in
  match calculateMaxFlow fuel (newFordFulkerson g1) 0 (Z.of_nat n + 1) with
  | Returned _ ff => Returned (printResults (graph ff) names) ff
  | Thrown e ff => Thrown e ff
  | OutOfFuel => OutOfFuel
  end.

(** ** How the calls that read the input end *)

(** Beside a normal return and an exception, a call of [BipartiteMatcher]
    can end in [std::terminate], and a write of [createEdge] can leave the
    matrix, which is undefined behaviour: for the functions below the model
    says so instead of ignoring the write.  [NoFuel] is the model running
    out of fuel in [calculateMaxFlow]. *)
Inductive result (A : Type) : Type :=
| Ok (a : A)
| Throw (e : exception)
| Terminate
| Undefined
| NoFuel.
Arguments Ok {A} a.
Arguments Throw {A} e.
Arguments Terminate {A}.
Arguments Undefined {A}.
Arguments NoFuel {A}.

(** ** [GraphPrepare] *)

Module GraphPrepare.

(** The members of the class. *)
Record t := mk {
  nodes : Z;
  edges : Z;
  names : list string
}.

(** [GraphPrepare::GraphPrepare] *)
Definition new : t := {| nodes := 0; edges := 0; names := [] |}.

(** [GraphPrepare::getNodes] and [GraphPrepare::getNames] *)
Definition getNodes (this : t) : Z := nodes this.
Definition getNames (this : t) : list string := names this.

(** *** Characters and numbers

    A [std::string] whose characters are inspected is a [list ascii].  The
    functions of the C++ library are those of the "C" locale: [isalnum]
    holds of the digits and of the unaccented letters, [isspace] of the
    space and of the characters 9 to 13.  ([std::isalnum] is given a
    [char]; for a byte above 127 and a signed [char] the call is undefined,
    and the model answers false.) *)

Definition isdigit (ch : ascii) : bool :=
  let n := N_of_ascii ch in ((48 <=? n) && (n <=? 57))%N.

Definition isalnum (ch : ascii) : bool :=
  let n := N_of_ascii ch in
  (((48 <=? n) && (n <=? 57)) || ((65 <=? n) && (n <=? 90))
   || ((97 <=? n) && (n <=? 122)))%N.

Definition isspace (ch : ascii) : bool := Ascii.is_space ch.

Definition digit (ch : ascii) : Z := Z.of_N (N_of_ascii ch) - 48.

Definition fitsInt (v : Z) : bool := (INT_MIN <=? v) && (v <=? INT_MAX).

Fixpoint skipws (s : list ascii) : list ascii :=
  match s with
  | ch :: rest => if isspace ch then skipws rest else s
  | [] => []
  end.

Definition readSign (s : list ascii) : bool * list ascii :=
  match s with
  | "-"%char :: rest => (true, rest)
  | "+"%char :: rest => (false, rest)
  | _ => (false, s)
  end.

Fixpoint readDigits (s : list ascii) (acc : Z) : Z * list ascii :=
  match s with
  | ch :: rest =>
      if isdigit ch then readDigits rest (10 * acc + digit ch) else (acc, s)
  | [] => (acc, [])
  end.

(** The number at the head of a text, as [strtol] in base 10 and the
    extraction of an [int] from a stream read it: white space, an optional
    sign, and decimal digits, of which there must be one.  The result is
    the number and the text that follows it. *)
Definition readNumber (s : list ascii) : option (Z * list ascii) :=
  let '(negative, s1) := readSign (skipws s) in
  match s1 with
  | ch :: _ =>
      if isdigit ch then
        let '(v, rest) := readDigits s1 0 in
        Some (if negative : bool then - v else v, rest)
      else None
  | [] => None
  end.

(** [std::stoi(str)]: [std::invalid_argument] when there is no number,
    [std::out_of_range] when it is not an [int].  (The messages are those
    of libstdc++; [fileRead] replaces them.) *)
Definition stoi (str : list ascii) : result Z :=
  match readNumber str with
  | None => Throw (invalid_argument "stoi")
  | Some (v, _) => if fitsInt v then Ok v else Throw (out_of_range "stoi")
  end.

(** [ss >> n] for an [int n]: the stream fails when there is no number or
    when it is not an [int]. *)
Definition extract (ss : list ascii) : option (Z * list ascii) :=
  match readNumber ss with
  | Some (v, rest) => if fitsInt v then Some (v, rest) else None
  | None => None
  end.

(** *** [GraphPrepare::validateName] *)

Definition validateName (name : list ascii) : list ascii :=
  fold_left
    (λ cleanName ch,
       if isalnum ch
          || (negb (bool_decide (cleanName = []))
              && bool_decide (ch = " "%char)
              && negb (bool_decide (last cleanName = Some " "%char)))
       then cleanName ++ [ch]
       else cleanName)
    name [].

(** *** [GraphPrepare::parseEdge] *)

Definition parseEdge (edge : list ascii) : result (Z * Z) :=
  match extract edge with
  | Some (node1, ss) =>
      match extract ss with
      | Some (node2, _) => Ok (node1, node2)
      | None => Throw (invalid_argument "Edge is Invalid.")
      end
  | None => Throw (invalid_argument "Edge is Invalid.")
  end.

(** *** [GraphPrepare::validateNodes] and [GraphPrepare::validateEdges] *)

Definition validateNodes (nodes : Z) : result unit :=
  if (nodes <? 2) || negb (Z.rem nodes 2 =? 0)
  then Throw (invalid_argument "There should be a positive even number of nodes.")
  else Ok tt.

Definition validateEdges (edges : Z) : result unit :=
  if edges <? 1
  then Throw (invalid_argument "Edges must be greater than 0.")
  else Ok tt.

(** *** The functions that read the stream

    What they read and write: the object, the unread part of the file
    behind [inputFile], and the graph of the caller. *)
Record state := mkState {
  this : t;
  inputFile : list ascii;
  theGraph : Graph
}.

Definition M (A : Type) : Type := state → result A * state.

#[global] Instance M_ret : MRet M := λ A a s, (Ok a, s).

#[global] Instance M_bind : MBind M := λ A B f m s,
  match m s with
  | (Ok a, s') => f a s'
  | (Throw e, s') => (Throw e, s')
  | (Terminate, s') => (Terminate, s')
  | (Undefined, s') => (Undefined, s')
  | (NoFuel, s') => (NoFuel, s')
  end.

(** The result of a function that has no effect on the state. *)
Definition lift {A} (r : result A) : M A := λ s, (r, s).

Definition throw {A} (e : exception) : M A := lift (Throw e).

Definition getThis : M t := λ s, (Ok (this s), s).

Definition setNodes (n : Z) : M unit := λ s,
  (Ok tt, mkState (mk n (edges (this s)) (names (this s)))
                  (inputFile s) (theGraph s)).

Definition setEdges (e : Z) : M unit := λ s,
  (Ok tt, mkState (mk (nodes (this s)) e (names (this s)))
                  (inputFile s) (theGraph s)).

Definition setNames (l : list string) : M unit := λ s,
  (Ok tt, mkState (mk (nodes (this s)) (edges (this s)) l)
                  (inputFile s) (theGraph s)).

Definition setInputFile (f : list ascii) : M unit := λ s,
  (Ok tt, mkState (this s) f (theGraph s)).

Definition setGraph (g : Graph) : M unit := λ s,
  (Ok tt, mkState (this s) (inputFile s) g).

(** The text up to the first line feed, and the text after it. *)
Fixpoint splitLine (s : list ascii) : list ascii * list ascii :=
  match s with
  | [] => ([], [])
  | ch :: rest =>
      if bool_decide (ch = "010"%char) then ([], rest)
      else let '(line, rest') := splitLine rest in (ch :: line, rest')
  end.

(** [std::getline(inputFile, line)]: the next line, without its line feed;
    the call fails when nothing is left to read. *)
Definition getline : M (option (list ascii)) := λ s,
  match inputFile s with
  | [] => (Ok None, s)
  | _ :: _ =>
      let '(line, rest) := splitLine (inputFile s) in
      (Ok (Some line), mkState (this s) rest (theGraph s))
  end.

(** [GraphPrepare::openFile]; [file] is the content of the file of the
    given name, if it can be opened. *)
Definition openFile (file : option (list ascii)) : M unit :=
  match file with
  | None => throw (runtime_error "Error opening the file.")
  | Some [] => throw (runtime_error "Empty File.")
  | Some content => setInputFile content
  end.

(** [GraphPrepare::readNumberOfNodes] *)
Definition readNumberOfNodes : M Z :=
  line ← getline;
  match line with
  | Some line => lift (stoi line)
  | None => throw (runtime_error "Reading number of nodes failed.")
  end.

(** [GraphPrepare::readNumberOfEdges] *)
Definition readNumberOfEdges : M Z :=
  line ← getline;
  match line with
  | Some line => lift (stoi line)
  | None => throw (runtime_error "Reading number of edges failed.")
  end.

(** [names[i] = cleanName], which is undefined outside the vector. *)
Definition setName (i : nat) (cleanName : list ascii) : M unit := λ s,
  if decide (i < length (names (this s)))%nat
  then setNames (<[i := String.string_of_list_ascii cleanName]> (names (this s))) s
  else (Undefined, s).

(** [GraphPrepare::readNodeNames]: [for (int i = 1; i <= nodes; ++i)], with
    [count] iterations left. *)
Fixpoint readNodeNames_loop (count : nat) (i : nat) : M unit :=
  match count with
  | O => mret tt
  | S count' =>
      line ← getline;
      match line with
      | Some line =>
          let cleanName := validateName line in
          if bool_decide (cleanName = [])
          then throw (invalid_argument "Name is invalid.")
          else (setName i cleanName;; readNodeNames_loop count' (S i))
      | None => throw (runtime_error "Reading node name failed.")
      end
  end.

Definition readNodeNames (nodes : Z) : M unit :=
  readNodeNames_loop (Z.to_nat nodes) 1.

(** [graph.createEdge(node1, node2, maxFlow)] on numbers read from the
    file: [adjacencyMatrix[node1][node2] = maxFlow], which is undefined
    outside the matrix. *)
Definition graph_createEdge (node1 node2 maxFlow : Z) : M unit := λ s,
  if inRange (theGraph s) node1 && inRange (theGraph s) node2
  then setGraph (createEdge (theGraph s) (Z.to_nat node1) (Z.to_nat node2)
                            maxFlow) s
  else (Undefined, s).

(** [GraphPrepare::readEdges]: [for (int i = 0; i < edges; ++i)], with
    [count] iterations left. *)
Fixpoint readEdges_loop (count : nat) : M unit :=
  match count with
  | O => mret tt
  | S count' =>
      line ← getline;
      match line with
      | Some line =>
          edgeNodes ← lift (parseEdge line);
          graph_createEdge edgeNodes.1 edgeNodes.2 1;;
          readEdges_loop count'
      | None => throw (runtime_error "Reading edge Failed.")
      end
  end.

Definition readEdges (edges : Z) : M unit := readEdges_loop (Z.to_nat edges).

(** The [try] block of [GraphPrepare::fileRead]. *)
Definition fileRead_try (file : option (list ascii)) : M unit :=
  openFile file;;
  n ← readNumberOfNodes;
  setNodes n;;
  lift (validateNodes n);;
  setGraph (newGraph (Z.to_nat n));;
  self ← getThis;
  setNames (resize (Z.to_nat (n + 1)) EmptyString (names self));;
  readNodeNames n;;
  e ← readNumberOfEdges;
  setEdges e;;
  lift (validateEdges e);;
  readEdges e.

(** [GraphPrepare::fileRead]: [catch (...)] replaces whatever was thrown.
    The stream is local to the function and closed on both ways out; the
    result is the object and the graph of the caller. *)
Definition fileRead (file : option (list ascii)) (this0 : t) (graph : Graph)
    : result unit * t * Graph :=
  match fileRead_try file (mkState this0 [] graph) with
  | (Throw _, s) =>
      (Throw (runtime_error "Function fileRead failed."), this s, theGraph s)
  | (r, s) => (r, this s, theGraph s)
  end.

End GraphPrepare.

(** ** [BipartiteMatcher] *)

Module BipartiteMatcher.

(** The members of the class; the two pointers are null until they are
    set. *)
Record t := mk {
  readGraph : GraphPrepare.t;
  graph : option Graph;
  algorithm : option FordFulkerson
}.

(** [BipartiteMatcher::BipartiteMatcher] *)
Definition new : t :=
  {| readGraph := GraphPrepare.new; graph := None; algorithm := None |}.

(** [BipartiteMatcher::fileRead]: a graph of 0 nodes is made and handed to
    [GraphPrepare::fileRead]; the handler re-throws what it catches. *)
Definition fileRead (file : option (list ascii)) (this : t) : result unit * t :=
  let '(r, readGraph', graph') :=
    GraphPrepare.fileRead file (readGraph this) (newGraph 0) in
  (r, {| readGraph := readGraph'; graph := Some graph';
         algorithm := algorithm this |}).

(** [BipartiteMatcher::solve].  Its first [throw;] has no exception to
    re-throw, which calls [std::terminate]; the one of its handler
    re-throws what [calculateMaxFlow] threw.  [createSinkNode] writes
    [adjacencyMatrix[i][sink]] for every right node [i] of the graph, which
    is undefined when there is one and the sink is not a node of the
    graph. *)
Definition solve (fuel : nat) (this : t)
    : result (list string * Z) * t :=
  match graph this with
  | None => (Terminate, this)
  | Some g =>
      if (getNodes g =? 0)%nat then (Terminate, this)
      else
        let rightNodes := (nodes g - nodes g / 2)%nat in
        let nodes := GraphPrepare.getNodes (readGraph this) in
        let names := GraphPrepare.getNames (readGraph this) in
        if negb (rightNodes =? 0)%nat && negb (inRange g (nodes + 1))
        then (Undefined, this)
        else
          let g1 := connectSourceAndSinkNodes g 0 (Z.to_nat (nodes + 1)) in
          match calculateMaxFlow fuel (newFordFulkerson g1) 0 (nodes + 1) with
          | Returned _ (mkFF _ _ g2 as ff) =>
              (Ok (printResults g2 names),
               {| readGraph := readGraph this; graph := Some g2;
                  algorithm := Some ff |})
          | Thrown e (mkFF _ _ g2 as ff) =>
              (Throw e,
               {| readGraph := readGraph this; graph := Some g2;
                  algorithm := Some ff |})
          | OutOfFuel => (NoFuel, this)
          end
  end.

(** [main] of [Driver.cpp]: the result is what [printResults] has written,
    or nothing when the handler has written "Program 3 Failed". *)
Definition main (fuel : nat) (file : option (list ascii))
    : result (option (list string * Z)) :=
  let bipartiteSolver := new in
  match fileRead file bipartiteSolver with
  | (Ok _, bipartiteSolver1) =>
      match solve fuel bipartiteSolver1 with
      | (Ok out, _) => Ok (Some out)
      | (Throw _, _) => Ok None
      | (Terminate, _) => Terminate
      | (Undefined, _) => Undefined
      | (NoFuel, _) => NoFuel
      end
  | (Throw _, _) => Ok None
  | (Terminate, _) => Terminate
  | (Undefined, _) => Undefined
  | (NoFuel, _) => NoFuel
  end.

End BipartiteMatcher.

(** * Specification vocabulary *)

(** The matrix of a graph has one row and one column per node. *)
Definition wfGraph (g : Graph) : Prop :=
  Matrix.square (totalNodes g) (adjacencyMatrix g).

(** [capacity[u][v]] *)
Definition capacity (g : Graph) (u v : nat) : Z :=
  Matrix.get (adjacencyMatrix g) u v.

(** An edge of the residual graph: positive capacity between two nodes. *)
Definition edge (g : Graph) (u v : nat) : Prop :=
  (u < totalNodes g)%nat ∧ (v < totalNodes g)%nat ∧ 0 < capacity g u v.

(** [v] can be reached from [u] through edges of positive capacity. *)
Inductive reachable (g : Graph) (u : nat) : nat → Prop :=
| reachable_refl : reachable g u u
| reachable_step v w : reachable g u v → edge g v w → reachable g u w.

(** [v] has been assigned a depth. *)
Definition visited (d : list Z) (v : nat) : Prop := depthAt d v ≠ -1.

(** The number of entries of a depth vector that are still [-1]. *)
Definition unvisited (d : list Z) : nat :=
  length (List.filter (λ x, x =? -1) d).

(** What the depth vector of a breadth-first search satisfies at every point
    of the search. *)
Record bfsTree (g : Graph) (source : nat) (d : list Z) : Prop := {
  bfs_length : length d = totalNodes g;
  bfs_source : depthAt d source = 0;
  bfs_range : ∀ v, depthAt d v = -1 ∨ 0 ≤ depthAt d v;
  bfs_parent : ∀ v, (v < totalNodes g)%nat → visited d v → v ≠ source →
      ∃ u, edge g u v ∧ visited d u ∧ depthAt d v = depthAt d u + 1;
  bfs_reach : ∀ v, (v < totalNodes g)%nat → visited d v → reachable g source v
}.

(** Every edge that leaves a visited node leads to a visited node, except
    for the edges in [todo]. *)
Definition closedExcept (g : Graph) (d : list Z) (todo : nat → nat → Prop)
    : Prop :=
  ∀ u v, visited d u → edge g u v → visited d v ∨ todo u v.

(** The content of [path] once the cursor has been appended: on entry of
    [findNextNodeInPath] the cursor is the last element of [path] exactly
    when [backtracking] is set. *)
Definition fullPath (s : Search) : list nat :=
  if sBacktracking s then sPath s else sPath s ++ [sNode s].

(** A path of the level graph that starts at depth 0: its [i]-th node has
    depth [i], and each of its edges has capacity left both in the graph and
    in the snapshot [maxFlow]. *)
Record levelChain (ff : FordFulkerson) (p : list nat) : Prop := {
  lc_depth : ∀ i a, p !! i = Some a →
      (a < totalNodes (graph ff))%nat ∧ depthAt (depth ff) a = Z.of_nat i;
  lc_edges : ∀ i a b, p !! i = Some a → p !! S i = Some b →
      0 < capacity (graph ff) a b ∧ 0 < Matrix.get (maxFlow ff) a b
}.

(** The invariant of the loop of [findAugmentingPath]. *)
Record searchInv (source sink : nat) (s : Search) : Prop := {
  si_square : Matrix.square (totalNodes (graph (sFF s))) (maxFlow (sFF s));
  si_chain : levelChain (sFF s) (fullPath s);
  si_head : fullPath s !! 0%nat = Some source;
  si_last : last (fullPath s) = Some (sNode s);
  si_sink : sink ∉ removelast (fullPath s)
}.

(** One iteration of the loop of [findAugmentingPath] that finds a next
    cursor. *)
Definition searchStep (source sink : nat) (s s' : Search) : Prop :=
  sNode s ≠ sink ∧ findNextNodeInPath s source = (true, s').

(** Every entry of column [v] of the snapshot is zero: [v] has been
    abandoned. *)
Definition abandoned (ff : FordFulkerson) (v : nat) : Prop :=
  ∀ u, Matrix.get (maxFlow ff) u v = 0.

(** [v] is an admissible neighbour of [u]: what the [for] loop of
    [findNextNodeInPath] looks for. *)
Definition admissibleEdge (ff : FordFulkerson) (u v : nat) : Prop :=
  v ∈ findAdjacentNodes (graph ff) u ∧ admissible ff u v = true.

(** The sink can be reached from [v] through admissible edges. *)
Inductive canReach (ff : FordFulkerson) (sink : nat) : nat → Prop :=
| canReach_here : canReach ff sink sink
| canReach_step u v :
    admissibleEdge ff u v → canReach ff sink v → canReach ff sink u.

(** The number of columns of the snapshot that still hold a positive
    entry. *)
Definition liveColumn (n : nat) (m : Matrix.t) (v : nat) : bool :=
  existsb (λ u, 0 <? Matrix.get m u v) (seq 0 n).
Definition liveColumns (n : nat) (m : Matrix.t) : nat :=
  length (List.filter (liveColumn n m) (seq 0 n)).

(** The measure that decreases with every iteration of the loop of
    [findAugmentingPath]. *)
Definition searchMeasure (s : Search) : nat :=
  let n := totalNodes (graph (sFF s)) in
  (liveColumns n (maxFlow (sFF s)) * (n + 1) + (n - length (fullPath s)))%nat.

(** The three ways in which a call of [findNextNodeInPath] ends. *)
Inductive stepCase (s : Search) (source : nat) : bool → Search → Prop :=
| step_advance nb :
    admissibleEdge (sFF s) (sNode s) nb →
    stepCase s source true (mkSearch (sFF s) nb (fullPath s) false)
| step_fail :
    (∀ v, ¬ admissibleEdge (sFF s) (sNode s) v) → sNode s = source →
    stepCase s source false (mkSearch (sFF s) (sNode s) (fullPath s) false)
| step_dead_end :
    (∀ v, ¬ admissibleEdge (sFF s) (sNode s) v) → sNode s ≠ source →
    stepCase s source true
      (mkSearch (clearMaxFlowAtNode (sFF s) (sNode s))
                (default (sNode s) (last (removelast (fullPath s))))
                (removelast (fullPath s)) true).


(** How the loop of [findAugmentingPath] ends when it is in state [s]. *)
Definition searchEnd (source sink : nat) (s : Search)
    (r : bool * FordFulkerson * list nat) : Prop :=
  (sNode s = sink ∧ r = (false, sFF s, sPath s))
  ∨ (sNode s ≠ sink ∧
     ∃ s', findNextNodeInPath s source = (false, s')
           ∧ r = (false, sFF s', sPath s'))
  ∨ (sNode s ≠ sink ∧
     ∃ s', findNextNodeInPath s source = (true, s') ∧ sNode s' = sink
           ∧ r = (true, sFF s', sPath s' ++ [sink])).

(** Pruning is sound with respect to the state [ff0] in which a search
    began: the snapshot differs from that of [ff0] only in columns of nodes
    from which the sink cannot be reached. *)
Record pruneSound (ff0 : FordFulkerson) (sink : nat) (ff : FordFulkerson)
    : Prop := {
  ps_graph : graph ff = graph ff0;
  ps_depth : depth ff = depth ff0;
  ps_columns : ∀ u v,
      Matrix.get (maxFlow ff) u v ≠ Matrix.get (maxFlow ff0) u v →
      ¬ canReach ff0 sink v
}.

(** The graph after [updateResidualGraph(u, v)] on in-range nodes. *)
Definition pushGraph (g : Graph) (u v : nat) : Graph :=
  setAdjacencyMatrix g (pushUnit (adjacencyMatrix g) u v).

(** The graph after the second loop of [augmentFlowAlongPath]. *)
Definition pushAll (g : Graph) (pairs : list (nat * nat)) : Graph :=
  fold_left (λ g '(u, v), pushGraph g u v) pairs g.

(** The number of occurrences of a pair in a list of pairs. *)
Fixpoint occ (x : nat * nat) (l : list (nat * nat)) : Z :=
  match l with
  | [] => 0
  | y :: l' => (if decide (y = x) then 1 else 0) + occ x l'
  end.

(** [sumTo n f] is [f 0 + ... + f (n - 1)]. *)
Fixpoint sumTo (n : nat) (f : nat → Z) : Z :=
  match n with
  | O => 0
  | S k => sumTo k f + f k
  end.

Definition rowSum (g : Graph) (u : nat) : Z :=
  sumTo (totalNodes g) (λ v, capacity g u v).
Definition colSum (g : Graph) (v : nat) : Z :=
  sumTo (totalNodes g) (λ u, capacity g u v).

(** The capacity that is left on the edges out of [source]: it bounds the
    number of paths that can still be committed. *)
Definition sourceCapacity (g : Graph) (source : nat) : Z :=
  sumTo (totalNodes g) (λ v, Z.max 0 (capacity g source v)).

(** An augmenting path of the residual graph: a simple path from the source
    to the sink along edges of positive capacity. *)
Record augmenting (g : Graph) (source sink : nat) (p : list nat) : Prop := {
  aug_head : p !! 0%nat = Some source;
  aug_last : last p = Some sink;
  aug_nodup : NoDup p;
  aug_range : ∀ v, v ∈ p → (v < totalNodes g)%nat;
  aug_edges : ∀ u v, (u, v) ∈ consecutive p → 0 < capacity g u v;
  aug_distinct : source ≠ sink
}.

(** Fuel that suffices for [calculateMaxFlow]: an iteration per step of the
    longest path search, and one per unit that can leave the source. *)
Definition enoughFuel (g : Graph) (source : nat) (fuel : nat) : Prop :=
  ((totalNodes g + 1) * (totalNodes g + 1) ≤ fuel)%nat
  ∧ sourceCapacity g source < Z.of_nat fuel.

(** One step of a phase, that is, of one call of [augmentFlowAlongPath]:
    an iteration of the search loop, or the iteration that reaches the sink
    followed by the commit of the path and the start of the next search. *)
Inductive phaseStep (source sink : nat) : Search → Search → Prop :=
| phase_search s s' :
    searchStep source sink s s' → sNode s' ≠ sink →
    phaseStep source sink s s'
| phase_commit s s' ff2 :
    searchStep source sink s s' → sNode s' = sink →
    updateAlong (sFF s') (consecutive (sPath s' ++ [sink])) = Returned tt ff2 →
    phaseStep source sink s (mkSearch ff2 source [] false).

(** ** Bipartite networks and matchings *)

(** Nodes [1 .. n/2] are the left nodes and [n/2+1 .. n] the right nodes. *)
Definition isLeft (n l : nat) : Prop := (1 ≤ l ≤ n / 2)%nat.
Definition isRight (n r : nat) : Prop := (n / 2 + 1 ≤ r ≤ n)%nat.

(** The edges of the input go from a left node to a right node. *)
Definition validEdges (n : nat) (edges : list (nat * nat)) : Prop :=
  ∀ l r, (l, r) ∈ edges → isLeft n l ∧ isRight n r.

(** The fully wired network, as [BipartiteMatcher] builds it: the edges of
    the input with capacity 1, then the source 0 to every left node and
    every right node to the sink [n + 1]. *)
Definition wired (n : nat) (edges : list (nat * nat)) : Graph :=
  connectSourceAndSinkNodes (fileRead n edges) 0 (n + 1).

(** The capacities of the wired network. *)
Definition wiredCapacity (n : nat) (edges : list (nat * nat)) (u v : nat) : Z :=
  if decide ((u = 0%nat ∧ isLeft n v) ∨ (u, v) ∈ edges
             ∨ (isRight n u ∧ v = (n + 1)%nat))
  then 1 else 0.

(** A matching: a list of edges without repetition, no two of which share a
    left node or a right node. *)
Record matching (edges M : list (nat * nat)) : Prop := {
  m_edges : ∀ e, e ∈ M → e ∈ edges;
  m_nodup : NoDup M;
  m_left : ∀ l r r', (l, r) ∈ M → (l, r') ∈ M → r = r';
  m_right : ∀ l l' r, (l, r) ∈ M → (l', r) ∈ M → l = l'
}.

(** [fold_left] of [createEdge] with capacity 1 over a list of pairs. *)
Definition setEdges (g : Graph) (pairs : list (nat * nat)) : Graph :=
  fold_left (λ g '(a, b), createEdge g a b 1) pairs g.

(** The sum of [f] over a list of nodes. *)
Fixpoint sumList (f : nat → Z) (l : list nat) : Z :=
  match l with
  | [] => 0
  | x :: l' => f x + sumList f l'
  end.

(** The residual graphs that the computation goes through on the wired
    network of [n] nodes and [edges]: capacities are not negative, what a
    push takes from an entry it gives to the opposite entry, and what
    enters a left node or leaves a right node is one unit in all. *)
Record matchState (n : nat) (edges : list (nat * nat)) (g : Graph) : Prop := {
  ms_nodes : nodes g = n;
  ms_total : totalNodes g = (n + 2)%nat;
  ms_nonneg : ∀ u v, 0 ≤ capacity g u v;
  ms_pair : ∀ u v,
      capacity g u v + capacity g v u
      = wiredCapacity n edges u v + wiredCapacity n edges v u;
  ms_left : ∀ l, isLeft n l → colSum g l = 1;
  ms_right : ∀ r, isRight n r → rowSum g r = 1
}.

(** The right node matched with a left node, and the left node matched with
    a right node, in a residual graph: the first one in the order of the
    loops of [printResults]. *)
Definition mateOfLeft (g : Graph) (l : nat) : nat :=
  default 0%nat
    (List.find (λ j, capacity g j l =? 1)
               (seq (nodes g / 2 + 1) (nodes g - nodes g / 2))).
Definition mateOfRight (g : Graph) (r : nat) : nat :=
  default 0%nat
    (List.find (λ i, capacity g r i =? 1) (seq 1 (nodes g / 2))).

(** The edge of the computed matching that covers an edge [(l, r)] of
    another matching: the one at [r] when [l] can be reached from the
    source in the final residual graph, and the one at [l] otherwise. *)
Definition coverBy (g : Graph) (d : list Z) (e : nat * nat) : nat * nat :=
  if decide (visited d e.1) then (mateOfRight g e.2, e.2)
  else (e.1, mateOfLeft g e.1).

(** ** Flows and cuts *)

(** No capacity of the graph is negative. *)
Definition nonnegative (g : Graph) : Prop := ∀ u v, 0 ≤ capacity g u v.

(** The same, as a test on the matrix. *)
Definition nonnegativeb (g : Graph) : bool :=
  forallb (forallb (Z.leb 0)) (adjacencyMatrix g).

(** The capacities are values of an [int], and so is the sum of the two
    capacities between any two nodes.  A push along an edge of positive
    capacity then stays within [int]: the entry that is decremented is
    positive, and the one that is incremented is below [INT_MAX]. *)
Record intCapacities (g : Graph) : Prop := {
  ic_range : ∀ u v, INT_MIN ≤ capacity g u v ≤ INT_MAX;
  ic_pair : ∀ u v, capacity g u v + capacity g v u ≤ INT_MAX
}.

(** The same, as a test on the matrix. *)
Definition intCapacitiesb (g : Graph) : bool :=
  forallb
    (λ u, forallb
            (λ v, (INT_MIN <=? capacity g u v) && (capacity g u v <=? INT_MAX)
                  && (capacity g u v + capacity g v u <=? INT_MAX))
            (seq 0 (totalNodes g)))
    (seq 0 (totalNodes g)).

(** The capacity that leads from the nodes in [inS] to the nodes outside. *)
Definition cutCapacity (g : Graph) (inS : nat → bool) : Z :=
  sumTo (totalNodes g)
    (λ u, sumTo (totalNodes g)
            (λ v, if inS u && negb (inS v) then capacity g u v else 0)).

(** [inS] holds the source and not the sink. *)
Definition separates (inS : nat → bool) (source sink : nat) : Prop :=
  inS source = true ∧ inS sink = false.

(** The nodes to which a depth vector gives a depth. *)
Definition reached (d : list Z) (v : nat) : bool := negb (depthAt d v =? -1).

(** What the residual graphs [g] of a computation that began with [g0]
    have in common: the size, the sum of the two capacities between any two
    nodes, what leaves and what enters every node other than the source and
    the sink, and, across every cut, the units that have left the source. *)
Record residualOf (g0 : Graph) (source sink : nat) (g : Graph) : Prop := {
  ro_total : totalNodes g = totalNodes g0;
  ro_nonneg : nonnegative g0 → nonnegative g;
  ro_pair : ∀ u v,
      capacity g u v + capacity g v u = capacity g0 u v + capacity g0 v u;
  ro_row : ∀ v, v ≠ source → v ≠ sink → rowSum g v = rowSum g0 v;
  ro_col : ∀ v, v ≠ source → v ≠ sink → colSum g v = colSum g0 v;
  ro_source : rowSum g0 source - rowSum g source
              = sourceCapacity g0 source - sourceCapacity g source;
  ro_sink : colSum g0 sink - colSum g sink
            = sourceCapacity g0 source - sourceCapacity g source;
  ro_cut : ∀ inS, separates inS source sink →
      cutCapacity g0 inS - cutCapacity g inS
      = sourceCapacity g0 source - sourceCapacity g source
}.

(** ** The text of the input *)

(** A clean name: letters, digits and spaces, of which none comes first and
    no two are adjacent. *)
Record cleanName (s : list ascii) : Prop := {
  cn_chars : ∀ ch, ch ∈ s → GraphPrepare.isalnum ch = true ∨ ch = " "%char;
  cn_head : head s ≠ Some " "%char;
  cn_single : ∀ i, s !! i = Some " "%char → s !! S i ≠ Some " "%char
}.

(** The test of the loop of [validateName]. *)
Definition keeps (cleanName : list ascii) (ch : ascii) : bool :=
  GraphPrepare.isalnum ch
  || (negb (bool_decide (cleanName = []))
      && bool_decide (ch = " "%char)
      && negb (bool_decide (last cleanName = Some " "%char))).

(** The loop of [validateName], from any content of [cleanName]. *)
Definition validateFrom (cleanName name : list ascii) : list ascii :=
  fold_left (λ cleanName ch, if keeps cleanName ch then cleanName ++ [ch]
                             else cleanName)
            name cleanName.

(** The characters of the file are those of ASCII, the ones on which
    [std::isalnum] is defined whether [char] is signed or not. *)
Definition asciiFile (file : option (list ascii)) : Prop :=
  match file with
  | Some content => forallb (λ ch, (N_of_ascii ch <? 128)%N) content = true
  | None => True
  end.

(** The line feed that ends a line. *)
Definition lineFeed : ascii := "010"%char.

(** The text of a list of lines, each followed by its line feed. *)
Definition unlines (ls : list (list ascii)) : list ascii :=
  flat_map (λ l, l ++ [lineFeed]) ls.

(** [line] is a piece of [text]. *)
Definition occursIn (line text : list ascii) : Prop :=
  ∃ pre post, text = pre ++ line ++ post.

(** What an exception, or another way in which a call does not return,
    becomes in the caller. *)
Definition carried {A B} (r0 : result A) (r : result B) : Prop :=
  match r0, r with
  | Throw e, Throw e' => e = e'
  | Terminate, Terminate => True
  | Undefined, Undefined => True
  | NoFuel, NoFuel => True
  | _, _ => False
  end.

(** The graph and the object in which [fileRead] leaves them when it has
    gone past the check of the number of nodes. *)
Definition readSoFar (this1 : GraphPrepare.t) (g1 : Graph) (n : nat)
    (es : list (nat * nat)) : Prop :=
  GraphPrepare.nodes this1 = Z.of_nat n ∧ (2 ≤ n)%nat ∧ Nat.Even n
  ∧ length (GraphPrepare.names this1) = S n
  ∧ (∀ a b, (a, b) ∈ es → (a < n + 2)%nat ∧ (b < n + 2)%nat)
  ∧ g1 = fileRead n es.

(** ** Distances *)

(** A walk of [k] edges of positive capacity from [u] to a node. *)
Inductive walk (g : Graph) (u : nat) : nat → nat → Prop :=
| walk_nil : walk g u u 0
| walk_step v w k : walk g u v k → edge g v w → walk g u w (S k).

(** What the depths satisfy while the breadth-first search is at depth
    [D]: no depth exceeds [D + 1], and every node that a walk of at most
    [D] edges reaches has a depth, which is at most the length of the
    walk. *)
Record levelBounds (g : Graph) (source : nat) (d : list Z) (D : Z) : Prop := {
  lb_depth : 0 ≤ D;
  lb_length : length d = totalNodes g;
  lb_nonneg : ∀ v, (v < totalNodes g)%nat → visited d v → 0 ≤ depthAt d v;
  lb_bound : ∀ v, (v < totalNodes g)%nat → visited d v → depthAt d v ≤ D + 1;
  lb_walks : ∀ v k, walk g source v k → Z.of_nat k ≤ D →
                    visited d v ∧ depthAt d v ≤ Z.of_nat k
}.

(** The queue of the search: nodes with a depth, in the order of their
    depths, which are [D] or [D + 1]. *)
Record levelQueue (g : Graph) (d : list Z) (queue : list nat) (D : Z) : Prop := {
  lq_nodes : ∀ q, q ∈ queue →
      (q < totalNodes g)%nat ∧ visited d q ∧ D ≤ depthAt d q ≤ D + 1;
  lq_sorted : ∀ i j qi qj, queue !! i = Some qi → queue !! j = Some qj →
      (i ≤ j)%nat → depthAt d qi ≤ depthAt d qj
}.

(** The invariant of the [for] loop of [levelGraph] over the neighbours
    [rest] of [cur] that are still to be looked at. *)
Record scanLevels (g : Graph) (source : nat) (d : list Z) (cur : nat)
    (rest queue : list nat) : Prop := {
  sl_cur : (cur < totalNodes g)%nat ∧ visited d cur;
  sl_bounds : levelBounds g source d (depthAt d cur);
  sl_queue : levelQueue g d queue (depthAt d cur);
  sl_edges : ∀ u v, visited d u → edge g u v →
      (visited d v ∧ depthAt d v ≤ depthAt d u + 1)
      ∨ u ∈ queue ∨ (u = cur ∧ v ∈ rest)
}.

(** The invariant of the [while] loop of [levelGraph], [D] being the depth
    of the node that was taken from the queue last. *)
Record loopLevels (g : Graph) (source : nat) (d : list Z) (queue : list nat)
    (D : Z) : Prop := {
  ll_bounds : levelBounds g source d D;
  ll_queue : levelQueue g d queue D;
  ll_edges : ∀ u v, visited d u → edge g u v →
      (visited d v ∧ depthAt d v ≤ depthAt d u + 1) ∨ u ∈ queue
}.
(** * Properties *)

(** ** The capacity matrix *)

Lemma get_out_row (m : Matrix.t) (i j : nat) :
  (length m ≤ i)%nat → Matrix.get m i j = 0.
Proof.
  intros H. unfold Matrix.get, Matrix.row.
  by rewrite (lookup_ge_None_2 m i H).
Qed.

Lemma get_out_col (n : nat) (m : Matrix.t) (i j : nat) :
  Matrix.square n m → (n ≤ j)%nat → Matrix.get m i j = 0.
Proof.
  intros [Hl Hr] H. unfold Matrix.get, Matrix.row.
  destruct (m !! i) as [r|] eqn:E; simpl; [|done].
  rewrite lookup_ge_None_2; [done|]. rewrite (Hr _ _ E). lia.
Qed.

Lemma square_set (n : nat) (m : Matrix.t) (i j : nat) (v : Z) :
  Matrix.square n m → Matrix.square n (Matrix.set m i j v).
Proof.
  intros [Hl Hr]. split.
  - unfold Matrix.set. by rewrite length_insert.
  - intros k r. unfold Matrix.set, Matrix.row.
    destruct (decide (i = k)) as [->|Hne].
    + destruct (m !! k) as [r0|] eqn:E; simpl.
      * rewrite list_lookup_insert_eq; [|by eapply lookup_lt_Some].
        intros [= <-]. rewrite length_insert. eauto.
      * rewrite list_insert_ge; [|by apply lookup_ge_None_1]. rewrite E. done.
    + rewrite list_lookup_insert_ne; [|done]. eauto.
Qed.

Lemma get_set_eq (n : nat) (m : Matrix.t) (i j : nat) (v : Z) :
  Matrix.square n m → (i < n)%nat → (j < n)%nat →
  Matrix.get (Matrix.set m i j v) i j = v.
Proof.
  intros [Hl Hr] Hi Hj. unfold Matrix.get, Matrix.set, Matrix.row.
  destruct (lookup_lt_is_Some_2 m i) as [r E]; [lia|].
  rewrite E; simpl. rewrite list_lookup_insert_eq; [|lia]. simpl.
  rewrite list_lookup_insert_eq; [done|]. rewrite (Hr _ _ E). lia.
Qed.

Lemma get_set_ne (m : Matrix.t) (i j i' j' : nat) (v : Z) :
  (i, j) ≠ (i', j') →
  Matrix.get (Matrix.set m i j v) i' j' = Matrix.get m i' j'.
Proof.
  intros Hne. unfold Matrix.get, Matrix.set, Matrix.row.
  destruct (decide (i = i')) as [->|Hi].
  - destruct (m !! i') as [r|] eqn:E; simpl.
    + rewrite list_lookup_insert_eq; [|by eapply lookup_lt_Some]. simpl.
      rewrite list_lookup_insert_ne; [done|congruence].
    + rewrite list_insert_ge; [|by apply lookup_ge_None_1]. by rewrite E.
  - by rewrite list_lookup_insert_ne.
Qed.

Lemma get_set (n : nat) (m : Matrix.t) (i j i' j' : nat) (v : Z) :
  Matrix.square n m → (i < n)%nat → (j < n)%nat →
  Matrix.get (Matrix.set m i j v) i' j' =
  if decide ((i, j) = (i', j')) then v else Matrix.get m i' j'.
Proof.
  intros Hsq Hi Hj. case_decide as E.
  - inversion E; subst. by eapply get_set_eq.
  - by apply get_set_ne.
Qed.

Lemma square_zero (n : nat) : Matrix.square n (Matrix.zero n).
Proof.
  split; [apply length_replicate|].
  intros i r [-> _]%lookup_replicate. apply length_replicate.
Qed.

Lemma get_zero (n i j : nat) : Matrix.get (Matrix.zero n) i j = 0.
Proof.
  unfold Matrix.get, Matrix.row, Matrix.zero.
  destruct (replicate n (replicate n 0) !! i) as [r|] eqn:E; simpl; [|done].
  apply lookup_replicate in E as [-> _].
  destruct (replicate n 0 !! j) as [x|] eqn:E'; simpl; [|done].
  by apply lookup_replicate in E' as [-> _].
Qed.

(** ** Depth vectors *)

Lemma depthAt_insert_eq (d : list Z) (v : nat) (x : Z) :
  (v < length d)%nat → depthAt (<[v := x]> d) v = x.
Proof. intros H. unfold depthAt. by rewrite list_lookup_insert_eq. Qed.

Lemma depthAt_insert_ne (d : list Z) (v w : nat) (x : Z) :
  v ≠ w → depthAt (<[v := x]> d) w = depthAt d w.
Proof. intros H. unfold depthAt. by rewrite list_lookup_insert_ne. Qed.

Lemma depthAt_replicate (n v : nat) (x : Z) :
  (v < n)%nat → depthAt (replicate n x) v = x.
Proof. intros H. unfold depthAt. by rewrite lookup_replicate_2. Qed.

(** ** [findAdjacentNodes] *)

Lemma findAdjacentNodes_spec (g : Graph) (u v : nat) :
  v ∈ findAdjacentNodes g u ↔
  (v < totalNodes g)%nat ∧ 0 < Matrix.get (adjacencyMatrix g) u v.
Proof.
  unfold findAdjacentNodes. rewrite list_elem_of_In, filter_In, in_seq.
  rewrite Z.ltb_lt. intuition lia.
Qed.

Lemma filter_seq_sorted (f : nat → bool) (a n : nat) :
  StronglySorted lt (List.filter f (seq a n)).
Proof.
  revert a. induction n as [|n IH]; intros a; simpl; [constructor|].
  destruct (f a).
  - constructor; [apply IH|].
    apply Forall_forall. intros x [Hx _]%list_elem_of_In%filter_In.
    apply in_seq in Hx. lia.
  - apply IH.
Qed.

Lemma findAdjacentNodes_sorted (g : Graph) (u : nat) :
  StronglySorted lt (findAdjacentNodes g u).
Proof. apply filter_seq_sorted. Qed.

(** ** The level graph *)

Lemma unvisited_insert (d : list Z) (v : nat) (x : Z) :
  (v < length d)%nat → depthAt d v = -1 → x ≠ -1 →
  S (unvisited (<[v := x]> d)) = unvisited d.
Proof.
  unfold unvisited, depthAt. revert v.
  induction d as [|y d IH]; intros [|v] Hlt Hv Hx; simpl in *; try lia.
  - subst y. simpl. destruct (Z.eqb_spec x (-1)); [done|]. done.
  - destruct (y =? -1); simpl; rewrite <- (IH v); auto; lia.
Qed.

Lemma unvisited_replicate (n : nat) : unvisited (replicate n (-1)) = n.
Proof.
  unfold unvisited. induction n as [|n IH]; simpl; [done|]. by rewrite IH.
Qed.

Lemma visited_insert_mono (d : list Z) (a v : nat) (x : Z) :
  ¬ visited d a → visited d v → visited (<[a := x]> d) v.
Proof.
  intros Ha Hv. unfold visited in *.
  destruct (decide (a = v)) as [->|Hne]; [done|].
  by rewrite depthAt_insert_ne.
Qed.

Section BreadthFirst.

Variable g : Graph.
Variable source sink : nat.
Hypothesis source_lt : (source < totalNodes g)%nat.

Lemma bfsTree_init :
  bfsTree g source (<[source := 0]> (replicate (totalNodes g) (-1))).
Proof.
  assert (Hlen : length (replicate (totalNodes g) (-1)) = totalNodes g)
    by apply length_replicate.
  assert (Hother : ∀ v, v ≠ source →
            ¬ visited (<[source := 0]> (replicate (totalNodes g) (-1))) v
            ∨ (totalNodes g ≤ v)%nat).
  { intros v Hv. destruct (decide (v < totalNodes g)%nat); [left|right; lia].
    unfold visited. rewrite depthAt_insert_ne, depthAt_replicate; auto. }
  split.
  - by rewrite length_insert.
  - apply depthAt_insert_eq. lia.
  - intros v. destruct (decide (v = source)) as [->|Hne].
    + right. rewrite depthAt_insert_eq; lia.
    + destruct (decide (v < totalNodes g)%nat).
      * left. rewrite depthAt_insert_ne, depthAt_replicate; auto.
      * right. unfold depthAt. rewrite lookup_ge_None_2; [done|].
        rewrite length_insert. lia.
  - intros v Hlt Hv Hne. destruct (Hother v Hne); [done|lia].
  - intros v Hlt Hv. destruct (decide (v = source)) as [->|Hne]; [constructor|].
    destruct (Hother v Hne); [done|lia].
Qed.

Lemma bfsTree_visit (d : list Z) (cur a : nat) :
  bfsTree g source d → visited d cur → edge g cur a → depthAt d a = -1 →
  bfsTree g source (<[a := depthAt d cur + 1]> d).
Proof.
  intros [Hlen Hsrc Hrange Hparent Hreach] Hcur Hedge Ha.
  assert (Hacur : a ≠ cur) by (intros ->; done).
  assert (Hasrc : a ≠ source) by (intros ->; lia).
  assert (Halt : (a < length d)%nat) by (destruct Hedge as (_ & ? & _); lia).
  assert (Hcur0 : 0 ≤ depthAt d cur) by (destruct (Hrange cur); [done|lia]).
  assert (Hnv : ¬ visited d a) by (unfold visited; lia).
  split.
  - by rewrite length_insert.
  - by rewrite depthAt_insert_ne.
  - intros v. destruct (decide (a = v)) as [<-|Hne].
    + right. rewrite depthAt_insert_eq; lia.
    + rewrite depthAt_insert_ne; auto.
  - intros v Hlt Hv Hne. destruct (decide (a = v)) as [<-|Hav].
    + exists cur. split; [done|]. split; [by apply visited_insert_mono|].
      rewrite depthAt_insert_eq, depthAt_insert_ne; auto.
    + unfold visited in Hv. rewrite depthAt_insert_ne in Hv by done.
      destruct (Hparent v Hlt Hv Hne) as (u & Hu1 & Hu2 & Hu3).
      exists u. split; [done|]. split; [by apply visited_insert_mono|].
      assert (a ≠ u) by (intros ->; done).
      by rewrite !depthAt_insert_ne.
  - intros v Hlt Hv. destruct (decide (a = v)) as [<-|Hav].
    + eapply reachable_step; [|exact Hedge]. apply Hreach; [|done].
      by destruct Hedge.
    + unfold visited in Hv. rewrite depthAt_insert_ne in Hv by done. auto.
Qed.

(** The scan of the neighbours of one node. *)
Lemma levelGraph_scan_inv (cur : nat) (rest : list nat) :
  ∀ (d : list Z) (queue : list nat),
  bfsTree g source d → visited d cur →
  (∀ v, v ∈ rest → edge g cur v) →
  (∀ q, q ∈ queue → (q < totalNodes g)%nat ∧ visited d q) →
  closedExcept g d (λ u v, u ∈ queue ∨ (u = cur ∧ v ∈ rest)) →
  (sink ≠ source → ¬ visited d sink) →
  ∃ b d' queue',
    levelGraph_scan (adjacencyMatrix g) sink cur rest d queue = (b, d', queue')
    ∧ bfsTree g source d'
    ∧ (b = true → sink ≠ source ∧ visited d' sink)
    ∧ (b = false →
         (∀ q, q ∈ queue' → (q < totalNodes g)%nat ∧ visited d' q)
         ∧ closedExcept g d' (λ u v, u ∈ queue')
         ∧ (sink ≠ source → ¬ visited d' sink)
         ∧ (length queue' + unvisited d' = length queue + unvisited d)%nat).
Proof.
  induction rest as [|a rest IH]; intros d queue Htree Hcur Hrest Hq Hclosed Hsink.
  - exists false, d, queue. simpl.
    split; [done|]. split; [done|]. split; [intros [=]|]. intros _.
    split; [done|]. split; [|done].
    intros u v Hu He. destruct (Hclosed u v Hu He) as [?|[?|[_ H]]]; auto.
    by apply elem_of_nil in H.
  - simpl.
    assert (Hedge : edge g cur a) by (apply Hrest; left).
    assert (Hcap : (0 <? Matrix.get (adjacencyMatrix g) cur a) = true)
      by (apply Z.ltb_lt, Hedge).
    rewrite Hcap, andb_true_r.
    destruct (Z.eqb_spec (depthAt d a) (-1)) as [Ha|Ha].
    + pose proof (bfsTree_visit d cur a Htree Hcur Hedge Ha) as Htree'.
      assert (Hnv : ¬ visited d a) by (unfold visited; lia).
      assert (Hva : visited (<[a := depthAt d cur + 1]> d) a).
      { unfold visited. rewrite depthAt_insert_eq.
        - destruct (bfs_range _ _ _ Htree cur); [done|lia].
        - rewrite (bfs_length _ _ _ Htree). by destruct Hedge as (_ & ? & _). }
      destruct (Nat.eqb_spec a sink) as [->|Hne].
      * exists true, (<[sink := depthAt d cur + 1]> d), queue.
        split; [done|]. split; [done|]. split; [|intros [=]]. intros _.
        split; [|done].
        intros ->. apply Hnv. unfold visited.
        rewrite (bfs_source _ _ _ Htree). done.
      * destruct (IH (<[a := depthAt d cur + 1]> d) (queue ++ [a]))
          as (b & d' & queue' & Heq & Ht & Htrue & Hfalse); auto.
        -- by apply visited_insert_mono.
        -- intros v Hv. apply Hrest. by right.
        -- intros q [Hq'|Hq']%elem_of_app.
           ++ destruct (Hq q Hq'). split; [done|]. by apply visited_insert_mono.
           ++ apply list_elem_of_singleton in Hq' as ->. split; [|done].
              by destruct Hedge as (_ & ? & _).
        -- intros u v Hu He. destruct (decide (a = u)) as [<-|Hau].
           { right. left. apply elem_of_app. right. by left. }
           unfold visited in Hu. rewrite depthAt_insert_ne in Hu by done.
           destruct (Hclosed u v Hu He) as [H|[H|[H1 H2]]].
           ++ left. by apply visited_insert_mono.
           ++ right. left. apply elem_of_app. by left.
           ++ apply elem_of_cons in H2 as [->|H2]; [by left|].
              right. by right.
        -- intros Hss Hv. unfold visited in Hv.
           rewrite depthAt_insert_ne in Hv by done. by apply Hsink.
        -- exists b, d', queue'.
           split; [done|]. split; [done|]. split; [done|]. intros Hb.
           destruct (Hfalse Hb) as (H1 & H2 & H3 & Hm).
           split; [done|]. split; [done|]. split; [done|].
           rewrite Hm, length_app. simpl.
           rewrite <- (unvisited_insert d a (depthAt d cur + 1)); [lia| |done|].
           ++ rewrite (bfs_length _ _ _ Htree). by destruct Hedge as (_ & ? & _).
           ++ destruct (bfs_range _ _ _ Htree cur); [done|lia].
    + apply IH; auto.
      * intros v Hv. apply Hrest. by right.
      * intros u v Hu He. destruct (Hclosed u v Hu He) as [H|[H|[H1 H2]]]; auto.
        apply elem_of_cons in H2 as [->|H2]; [by left|]. right. by right.
Qed.

(** The search loop. *)
Lemma levelGraph_loop_inv (fuel : nat) :
  ∀ (d : list Z) (queue : list nat),
  bfsTree g source d →
  (∀ q, q ∈ queue → (q < totalNodes g)%nat ∧ visited d q) →
  closedExcept g d (λ u v, u ∈ queue) →
  (sink ≠ source → ¬ visited d sink) →
  (length queue + unvisited d < fuel)%nat →
  ∃ b d',
    levelGraph_loop fuel g sink d queue = Some (b, d')
    ∧ bfsTree g source d'
    ∧ (b = true → sink ≠ source ∧ visited d' sink)
    ∧ (b = false →
         closedExcept g d' (λ _ _, False) ∧ (sink ≠ source → ¬ visited d' sink)).
Proof.
  induction fuel as [|fuel IH]; intros d queue Htree Hq Hclosed Hsink Hfuel;
    [lia|].
  destruct queue as [|cur queue]; simpl.
  - exists false, d.
    split; [done|]. split; [done|]. split; [intros [=]|]. intros _.
    split; [|done].
    intros u v Hu He. destruct (Hclosed u v Hu He) as [?|H]; auto.
    by apply elem_of_nil in H.
  - destruct (Hq cur) as [Hcur Hvcur]; [by left|].
    destruct (levelGraph_scan_inv cur (findAdjacentNodes g cur) d queue)
      as (b & d' & queue' & Heq & Ht & Htrue & Hfalse); auto.
    + intros v Hv. apply findAdjacentNodes_spec in Hv. split; [done|]. done.
    + intros q Hq'. apply Hq. by right.
    + intros u v Hu He. destruct (Hclosed u v Hu He) as [?|H]; auto.
      apply elem_of_cons in H as [->|H]; [|by right; left].
      right. right. split; [done|]. apply findAdjacentNodes_spec.
      destruct He as (_ & ? & ?). done.
    + unfold getAdjacencyMatrix. rewrite Heq. destruct b.
      * exists true, d'.
        split; [done|]. split; [done|]. split; [done|]. intros [=].
      * destruct (Hfalse eq_refl) as (Hq' & Hc' & Hs' & Hm).
        apply IH; auto. simpl in Hfuel. lia.
Qed.

End BreadthFirst.

Lemma closed_reachable (g : Graph) (source : nat) (d : list Z) (v : nat) :
  bfsTree g source d → closedExcept g d (λ _ _, False) →
  reachable g source v → visited d v.
Proof.
  intros Htree Hclosed. induction 1 as [|v w _ IH He].
  - unfold visited. rewrite (bfs_source _ _ _ Htree). done.
  - destruct (Hclosed v w IH He) as [?|[]]. done.
Qed.

(** What [levelGraph] returns, given fuel for one iteration per node. *)
Lemma levelGraph_result (fuel : nat) (ff : FordFulkerson) (source sink : nat) :
  (source < totalNodes (graph ff))%nat →
  (sink < totalNodes (graph ff))%nat →
  (totalNodes (graph ff) < fuel)%nat →
  ∃ b d,
    levelGraph fuel ff source sink = Some (b, setDepth ff d)
    ∧ bfsTree (graph ff) source d
    ∧ (b = true → sink ≠ source ∧ visited d sink)
    ∧ (b = false →
         closedExcept (graph ff) d (λ _ _, False)
         ∧ (sink ≠ source → ¬ visited d sink)).
Proof.
  intros Hsrc Hsnk Hfuel. unfold levelGraph, getNodes.
  pose proof (bfsTree_init (graph ff) source Hsrc) as Hinit.
  set (d0 := <[source := 0]> (replicate (totalNodes (graph ff)) (-1))) in *.
  assert (Hvs : visited d0 source).
  { unfold visited. rewrite (bfs_source _ _ _ Hinit). done. }
  assert (Hother : ∀ v, visited d0 v → (v < totalNodes (graph ff))%nat →
                        v = source).
  { intros v Hv Hlt. destruct (decide (v = source)) as [|Hne]; [done|].
    exfalso. apply Hv. unfold d0.
    rewrite depthAt_insert_ne, depthAt_replicate; auto. }
  destruct (levelGraph_loop_inv (graph ff) source sink Hsrc fuel d0 [source])
    as (b & d & Heq & Ht & Htrue & Hfalse); auto.
  - intros q ->%list_elem_of_singleton. done.
  - intros u v Hu He. right. apply list_elem_of_singleton.
    apply Hother; [done|]. by destruct He.
  - pose proof (unvisited_insert (replicate (totalNodes (graph ff)) (-1))
                  source 0) as Hu.
    rewrite unvisited_replicate, length_replicate in Hu.
    specialize (Hu Hsrc (depthAt_replicate _ _ _ Hsrc)).
    fold d0 in Hu. simpl. lia.
  - exists b, d. rewrite Heq. done.
Qed.

(** ** Lists: [removelast] and [last] *)

Lemma removelast_take {A} (p : list A) : removelast p = take (pred (length p)) p.
Proof. apply removelast_firstn_len. Qed.

Lemma lookup_removelast {A} (p : list A) (i : nat) (a : A) :
  removelast p !! i = Some a ↔ p !! i = Some a ∧ (S i < length p)%nat.
Proof. rewrite removelast_take, lookup_take_Some. intuition lia. Qed.

Lemma length_removelast {A} (p : list A) :
  length (removelast p) = pred (length p).
Proof. rewrite removelast_take, length_take. lia. Qed.

Lemma elem_of_removelast {A} (p : list A) (x : A) :
  x ∈ removelast p → x ∈ p.
Proof.
  intros [i Hi]%list_elem_of_lookup. apply lookup_removelast in Hi as [Hi _].
  by eapply list_elem_of_lookup_2.
Qed.

Lemma elem_of_removelast_or_last {A} (p : list A) (x : A) :
  x ∈ p → x ∈ removelast p ∨ last p = Some x.
Proof.
  intros [i Hi]%list_elem_of_lookup.
  destruct (decide (S i < length p)%nat) as [Hlt|Hge].
  - left. apply list_elem_of_lookup. exists i. by apply lookup_removelast.
  - right. rewrite last_lookup. apply lookup_lt_Some in Hi as Hi'.
    by replace (pred (length p)) with i by lia.
Qed.

(** ** [clearMaxFlowAtNode] *)

Lemma clear_fold_square (n : nat) (node : nat) (l : list nat) :
  ∀ m, Matrix.square n m →
       Matrix.square n (fold_left (λ m i, Matrix.set m i node 0) l m).
Proof.
  induction l as [|x l IH]; intros m Hm; simpl; [done|].
  apply IH. by apply square_set.
Qed.

Lemma clear_fold_get (n : nat) (node : nat) (l : list nat) (i j : nat) :
  (node < n)%nat → (∀ x, x ∈ l → (x < n)%nat) →
  ∀ m, Matrix.square n m →
    Matrix.get (fold_left (λ m i, Matrix.set m i node 0) l m) i j =
    if decide (j = node ∧ i ∈ l) then 0 else Matrix.get m i j.
Proof.
  intros Hnode. induction l as [|x l IH]; intros Hl m Hm; simpl.
  - case_decide as H; [|done]. destruct H as [_ H]. by apply elem_of_nil in H.
  - rewrite IH; [| intros y Hy; apply Hl; by right | by apply square_set].
    rewrite (get_set n); [|done|apply Hl; by left|done].
    destruct (decide (j = node ∧ i ∈ l)) as [[-> Hin]|Hn].
    + rewrite decide_True; [done|]. split; [done|]. by right.
    + destruct (decide ((x, node) = (i, j))) as [E|E].
      * inversion E; subst. rewrite decide_True; [done|]. split; [done|]. by left.
      * rewrite decide_False; [done|]. intros [-> [->|Hin]%elem_of_cons]; tauto.
Qed.

Lemma clearMaxFlowAtNode_square (ff : FordFulkerson) (node : nat) :
  Matrix.square (totalNodes (graph ff)) (maxFlow ff) →
  Matrix.square (totalNodes (graph ff)) (maxFlow (clearMaxFlowAtNode ff node)).
Proof. intros H. by apply clear_fold_square. Qed.

Lemma clearMaxFlowAtNode_get (ff : FordFulkerson) (node i j : nat) :
  Matrix.square (totalNodes (graph ff)) (maxFlow ff) →
  (node < totalNodes (graph ff))%nat →
  Matrix.get (maxFlow (clearMaxFlowAtNode ff node)) i j =
  if decide (j = node) then 0 else Matrix.get (maxFlow ff) i j.
Proof.
  intros Hsq Hnode. unfold clearMaxFlowAtNode, getNodes. simpl.
  rewrite (clear_fold_get (totalNodes (graph ff))); [|done| |done].
  - destruct (decide (j = node)) as [->|Hj].
    + case_decide as H; [done|]. apply get_out_row.
      destruct Hsq as [-> _].
      destruct (decide (totalNodes (graph ff) ≤ i)%nat); [done|].
      exfalso. apply H. split; [done|].
      apply list_elem_of_In, in_seq. lia.
    + rewrite decide_False; [done|]. tauto.
  - intros x Hx%list_elem_of_In%in_seq. lia.
Qed.

(** ** [findNextNodeInPath] *)

Lemma admissible_true (ff : FordFulkerson) (u v : nat) :
  admissible ff u v = true ↔
  depthAt (depth ff) v = depthAt (depth ff) u + 1
  ∧ 0 < Matrix.get (maxFlow ff) u v.
Proof.
  unfold admissible. rewrite andb_true_iff, Z.eqb_eq, Z.ltb_lt. intuition lia.
Qed.

Lemma find_admissible_Some (ff : FordFulkerson) (node nb : nat) :
  List.find (admissible ff node) (findAdjacentNodes (graph ff) node) = Some nb →
  admissibleEdge ff node nb.
Proof.
  intros [H1 H2]%find_some. split; [|done]. by apply list_elem_of_In.
Qed.

Lemma find_admissible_None (ff : FordFulkerson) (node : nat) :
  List.find (admissible ff node) (findAdjacentNodes (graph ff) node) = None →
  ∀ v, ¬ admissibleEdge ff node v.
Proof.
  intros H v [H1 H2]. apply list_elem_of_In in H1.
  pose proof (find_none _ _ H v H1). congruence.
Qed.

Lemma findNextNodeInPath_cases (s : Search) (source : nat) (b : bool) (s' : Search) :
  findNextNodeInPath s source = (b, s') → stepCase s source b s'.
Proof.
  unfold findNextNodeInPath. fold (fullPath s).
  destruct (List.find _ _) as [nb|] eqn:Hfind.
  - intros [= <- <-]. constructor. by apply find_admissible_Some.
  - pose proof (find_admissible_None _ _ Hfind) as Hnone.
    destruct (Nat.eqb_spec (sNode s) source) as [Heq|Hne]; intros [= <- <-].
    + by constructor.
    + by constructor.
Qed.

(** ** The invariant of the path search *)

Lemma levelChain_NoDup (ff : FordFulkerson) (p : list nat) :
  levelChain ff p → NoDup p.
Proof.
  intros [Hd _]. apply NoDup_alt. intros i j x Hi Hj.
  destruct (Hd i x Hi) as [_ H1]. destruct (Hd j x Hj) as [_ H2]. lia.
Qed.

Lemma levelChain_length (ff : FordFulkerson) (p : list nat) :
  levelChain ff p → (length p ≤ totalNodes (graph ff))%nat.
Proof.
  intros Hc. pose proof (levelChain_NoDup _ _ Hc) as Hnd.
  assert (Hle : (length p ≤ length (seq 0 (totalNodes (graph ff))))%nat);
    [|by rewrite length_seq in Hle].
  apply NoDup_incl_length; [by apply NoDup_ListNoDup|].
  intros x Hx%list_elem_of_In. apply in_seq.
  apply list_elem_of_lookup in Hx as [i Hi].
  destruct (lc_depth _ _ Hc i x Hi). lia.
Qed.

Lemma levelChain_snoc (ff : FordFulkerson) (p : list nat) (a nb : nat) :
  levelChain ff p → last p = Some a → admissibleEdge ff a nb →
  levelChain ff (p ++ [nb]).
Proof.
  intros [Hd He] Hlast [Hadj Hadm].
  apply findAdjacentNodes_spec in Hadj as [Hlt Hcap].
  apply admissible_true in Hadm as [Hdepth Hmf].
  rewrite last_lookup in Hlast.
  assert (Hlen : (0 < length p)%nat) by (apply lookup_lt_Some in Hlast; lia).
  destruct (Hd _ _ Hlast) as [_ Hda].
  split.
  - intros i x [[Hi Hx]|[-> <-]]%lookup_snoc_Some; [by apply Hd|].
    split; [done|]. lia.
  - intros i x y [[Hi Hx]|[-> <-]]%lookup_snoc_Some
               [[Hj Hy]|[Hj <-]]%lookup_snoc_Some.
    + by eapply He.
    + assert (i = pred (length p)) as -> by lia.
      rewrite Hlast in Hx. by inversion Hx; subst.
    + lia.
    + lia.
Qed.

Section Search.

Variable source sink : nat.

Lemma searchInv_length (s : Search) :
  searchInv source sink s → (0 < length (fullPath s))%nat.
Proof. intros H. eapply lookup_lt_Some, si_head. exact H. Qed.

Lemma searchInv_node (s : Search) :
  searchInv source sink s →
  fullPath s !! pred (length (fullPath s)) = Some (sNode s).
Proof. intros H. rewrite <- last_lookup. eapply si_last. exact H. Qed.

Lemma searchInv_source_depth (s : Search) :
  searchInv source sink s → depthAt (depth (sFF s)) source = 0.
Proof.
  intros H. destruct (lc_depth _ _ (si_chain _ _ _ H) 0%nat source) as [_ ->];
    [eapply si_head; exact H|done].
Qed.

Lemma searchInv_no_sink (s : Search) :
  searchInv source sink s → sNode s ≠ sink → sink ∉ fullPath s.
Proof.
  intros H Hne Hin. apply elem_of_removelast_or_last in Hin as [Hin|Hin].
  - by apply (si_sink _ _ _ H).
  - rewrite (si_last _ _ _ H) in Hin. congruence.
Qed.

Lemma searchInv_back_length (s : Search) :
  searchInv source sink s → sNode s ≠ source →
  (1 < length (fullPath s))%nat.
Proof.
  intros H Hne. pose proof (searchInv_length s H).
  destruct (decide (length (fullPath s) = 1%nat)) as [E|]; [|lia].
  exfalso. pose proof (searchInv_node s H) as Hn. rewrite E in Hn. simpl in Hn.
  rewrite (si_head _ _ _ H) in Hn. congruence.
Qed.

Lemma searchInv_step (s s' : Search) :
  searchInv source sink s → sNode s ≠ sink → stepCase s source true s' →
  searchInv source sink s'
  ∧ graph (sFF s') = graph (sFF s) ∧ depth (sFF s') = depth (sFF s).
Proof.
  intros Hinv Hns Hstep. inversion Hstep as [nb Hadm| |Hnone Hne]; subst; clear Hstep.
  - (* advance *)
    split; [|done]. split; unfold fullPath at 1;
      cbn [sFF sNode sPath sBacktracking].
    + apply (si_square _ _ _ Hinv).
    + eapply levelChain_snoc; [apply Hinv|apply Hinv|done].
    + rewrite lookup_app_l; [apply Hinv|]. by apply searchInv_length.
    + apply last_snoc.
    + rewrite removelast_last. by apply searchInv_no_sink.
  - (* dead end *)
    pose proof (searchInv_back_length s Hinv Hne) as Hlen.
    pose proof (searchInv_node s Hinv) as Hnode.
    destruct (lc_depth _ _ (si_chain _ _ _ Hinv) _ _ Hnode) as [Hlt Hdn].
    split; [|done]. split; unfold fullPath at 1;
      cbn [sFF sNode sPath sBacktracking].
    + apply (clearMaxFlowAtNode_square (sFF s)), Hinv.
    + split; cbn [graph depth clearMaxFlowAtNode setMaxFlow].
      * intros i a [Hi _]%lookup_removelast.
        apply (lc_depth _ _ (si_chain _ _ _ Hinv) _ _ Hi).
      * intros i a b [Hi _]%lookup_removelast [Hj Hlj]%lookup_removelast.
        destruct (lc_edges _ _ (si_chain _ _ _ Hinv) _ _ _ Hi Hj) as [Hc Hm].
        split; [done|].
        change (0 < Matrix.get (maxFlow (clearMaxFlowAtNode (sFF s) (sNode s))) a b).
        rewrite clearMaxFlowAtNode_get; [|apply Hinv|done].
        rewrite decide_False; [done|]. intros ->.
        destruct (lc_depth _ _ (si_chain _ _ _ Hinv) _ _ Hj) as [_ Hdj]. lia.
    + apply lookup_removelast. split; [apply Hinv|lia].
    + destruct (last (removelast (fullPath s))) as [x|] eqn:E; [done|].
      apply last_None in E. apply (f_equal length) in E.
      rewrite length_removelast in E. simpl in E. lia.
    + intros Hin%elem_of_removelast. by apply (si_sink _ _ _ Hinv).
Qed.

Lemma searchInv_searchStep (s s' : Search) :
  searchInv source sink s → searchStep source sink s s' →
  searchInv source sink s'
  ∧ graph (sFF s') = graph (sFF s) ∧ depth (sFF s') = depth (sFF s).
Proof.
  intros Hinv [Hns Hstep]. apply findNextNodeInPath_cases in Hstep.
  by apply searchInv_step.
Qed.

Lemma searchInv_rtc (s s' : Search) :
  searchInv source sink s → rtc (searchStep source sink) s s' →
  searchInv source sink s'
  ∧ graph (sFF s') = graph (sFF s) ∧ depth (sFF s') = depth (sFF s).
Proof.
  intros Hinv Hrtc. induction Hrtc as [|s s1 s2 Hstep _ IH]; [done|].
  destruct (searchInv_searchStep _ _ Hinv Hstep) as (H1 & H2 & H3).
  destruct (IH H1) as (? & -> & ->). done.
Qed.

End Search.

(** ** Termination of the path search *)

Lemma filter_length_mono {A} (f f' : A → bool) (l : list A) :
  (∀ x, x ∈ l → f' x = true → f x = true) →
  (length (List.filter f' l) ≤ length (List.filter f l))%nat.
Proof.
  induction l as [|x l IH]; intros H; simpl; [done|].
  assert (IH' := IH (λ y Hy, H y (list_elem_of_further _ _ _ Hy))).
  destruct (f' x) eqn:E'.
  - rewrite (H x (list_elem_of_here _ _) E'). simpl. lia.
  - destruct (f x); simpl; lia.
Qed.

Lemma filter_length_strict {A} (f f' : A → bool) (l : list A) (x0 : A) :
  (∀ x, x ∈ l → f' x = true → f x = true) →
  x0 ∈ l → f x0 = true → f' x0 = false →
  (length (List.filter f' l) < length (List.filter f l))%nat.
Proof.
  induction l as [|x l IH]; intros H Hin Hf Hf'.
  - by apply elem_of_nil in Hin.
  - assert (Hl : ∀ y, y ∈ l → f' y = true → f y = true)
      by (intros y Hy; apply H; by right).
    apply elem_of_cons in Hin as [<-|Hin]; simpl.
    + rewrite Hf, Hf'. simpl. pose proof (filter_length_mono f f' l Hl). lia.
    + specialize (IH Hl Hin Hf Hf'). destruct (f' x) eqn:E'.
      * rewrite (H x (list_elem_of_here _ _) E'). simpl. lia.
      * destruct (f x); simpl; lia.
Qed.

Lemma liveColumn_true (n : nat) (m : Matrix.t) (v : nat) :
  liveColumn n m v = true ↔ ∃ u, (u < n)%nat ∧ 0 < Matrix.get m u v.
Proof.
  unfold liveColumn. rewrite existsb_exists. split.
  - intros (u & Hu%in_seq & Hpos%Z.ltb_lt). exists u. split; [lia|done].
  - intros (u & Hu & Hpos). exists u. split; [apply in_seq; lia|].
    by apply Z.ltb_lt.
Qed.

Lemma liveColumns_clear (ff : FordFulkerson) (u node : nat) :
  Matrix.square (totalNodes (graph ff)) (maxFlow ff) →
  (u < totalNodes (graph ff))%nat → (node < totalNodes (graph ff))%nat →
  0 < Matrix.get (maxFlow ff) u node →
  (liveColumns (totalNodes (graph ff)) (maxFlow (clearMaxFlowAtNode ff node))
   < liveColumns (totalNodes (graph ff)) (maxFlow ff))%nat.
Proof.
  intros Hsq Hu Hnode Hpos. unfold liveColumns.
  apply (filter_length_strict _ _ _ node).
  - intros v _ (w & Hw & Hv)%liveColumn_true. apply liveColumn_true.
    exists w. split; [done|].
    rewrite clearMaxFlowAtNode_get in Hv by done. by case_decide; [lia|].
  - apply list_elem_of_In, in_seq. lia.
  - apply liveColumn_true. eauto.
  - apply not_true_is_false. intros (w & Hw & Hv)%liveColumn_true.
    rewrite clearMaxFlowAtNode_get in Hv by done.
    rewrite decide_True in Hv by done. lia.
Qed.

Section SearchTermination.

Variable source sink : nat.

Lemma searchMeasure_step (s s' : Search) :
  searchInv source sink s → sNode s ≠ sink → stepCase s source true s' →
  (searchMeasure s' < searchMeasure s)%nat.
Proof.
  intros Hinv Hns Hstep.
  destruct (searchInv_step source sink s s' Hinv Hns Hstep) as (Hinv' & Hg & _).
  pose proof (levelChain_length _ _ (si_chain _ _ _ Hinv')) as Hlen'.
  unfold searchMeasure. rewrite Hg. rewrite Hg in Hlen'.
  inversion Hstep as [nb Hadm| |Hnone Hne]; subst; clear Hstep.
  - change (fullPath (mkSearch (sFF s) nb (fullPath s) false))
      with (fullPath s ++ [nb]) in *.
    cbn [sFF] in *. rewrite length_app in *. simpl in *. lia.
  - pose proof (searchInv_back_length source sink s Hinv Hne) as Hlen.
    pose proof (searchInv_node source sink s Hinv) as Hnode.
    destruct (lc_depth _ _ (si_chain _ _ _ Hinv) _ _ Hnode) as [Hlt _].
    assert (Hprev : is_Some (fullPath s !! pred (pred (length (fullPath s))))).
    { apply lookup_lt_is_Some. lia. }
    destruct Hprev as [u Hu].
    destruct (lc_depth _ _ (si_chain _ _ _ Hinv) _ _ Hu) as [Hult _].
    destruct (lc_edges _ _ (si_chain _ _ _ Hinv)
                (pred (pred (length (fullPath s)))) u (sNode s)) as [_ Hpos].
    { done. }
    { by replace (S (pred (pred (length (fullPath s)))))
        with (pred (length (fullPath s))) by lia. }
    pose proof (liveColumns_clear (sFF s) u (sNode s)
                  (si_square _ _ _ Hinv) Hult Hlt Hpos) as Hlive.
    match goal with |- context [fullPath (mkSearch ?a ?b ?c true)] =>
      change (fullPath (mkSearch a b c true)) with c end.
    cbn [sFF]. rewrite length_removelast.
    set (n := totalNodes (graph (sFF s))) in *.
    set (a := liveColumns n (maxFlow (clearMaxFlowAtNode (sFF s) (sNode s)))) in *.
    set (b := liveColumns n (maxFlow (sFF s))) in *.
    clearbody a b n. nia.
Qed.

Lemma findAugmentingPath_loop_end (fuel : nat) :
  ∀ s r, findAugmentingPath_loop fuel s source sink = Some r →
         ∃ s1, rtc (searchStep source sink) s s1 ∧ searchEnd source sink s1 r
               ∧ (sNode s ≠ sink → sNode s1 ≠ sink).
Proof.
  induction fuel as [|fuel IH]; intros s r; simpl; [done|].
  destruct (Nat.eqb_spec (sNode s) sink) as [Heq|Hne].
  - intros [= <-]. exists s. split; [done|]. split; [by left|done].
  - destruct (findNextNodeInPath s source) as [[|] s'] eqn:E.
    + destruct (Nat.eqb_spec (sNode s') sink) as [Heq'|Hne'].
      * intros [= <-]. exists s. split; [done|]. split; [|done]. right. right.
        split; [done|]. by exists s'.
      * intros Hr. destruct (IH s' r Hr) as (s1 & Hrtc & Hend & Hs1).
        exists s1. split; [by eapply rtc_l|]. split; [done|]. auto.
    + intros [= <-]. exists s. split; [done|]. split; [|done]. right. left.
      split; [done|]. by exists s'.
Qed.

Lemma findAugmentingPath_loop_terminates (fuel : nat) :
  ∀ s, searchInv source sink s → (searchMeasure s < fuel)%nat →
       is_Some (findAugmentingPath_loop fuel s source sink).
Proof.
  induction fuel as [|fuel IH]; intros s Hinv Hfuel; [lia|]. simpl.
  destruct (Nat.eqb_spec (sNode s) sink) as [Heq|Hne]; [done|].
  destruct (findNextNodeInPath s source) as [[|] s'] eqn:E; [|done].
  destruct (Nat.eqb_spec (sNode s') sink) as [Heq'|Hne']; [done|].
  apply findNextNodeInPath_cases in E.
  apply IH.
  - by eapply searchInv_step.
  - pose proof (searchMeasure_step s s' Hinv Hne E). lia.
Qed.

End SearchTermination.

(** ** What [findAugmentingPath] returns *)

Lemma liveColumns_le (n : nat) (m : Matrix.t) : (liveColumns n m ≤ n)%nat.
Proof.
  unfold liveColumns.
  pose proof (List.filter_length_le (liveColumn n m) (seq 0 n)) as H.
  by rewrite length_seq in H.
Qed.

Lemma searchInv_init (ff : FordFulkerson) (source sink : nat) :
  Matrix.square (totalNodes (graph ff)) (maxFlow ff) →
  (source < totalNodes (graph ff))%nat →
  depthAt (depth ff) source = 0 →
  searchInv source sink (mkSearch ff source [] false).
Proof.
  intros Hsq Hsrc Hd. split; try done.
  - split.
    + intros [|i] a; simpl; [|done]. intros [= <-]. done.
    + intros [|i] a b; simpl; done.
  - simpl. apply not_elem_of_nil.
Qed.

Lemma searchMeasure_init (ff : FordFulkerson) (source : nat) :
  (searchMeasure (mkSearch ff source [] false)
   < (totalNodes (graph ff) + 1) * (totalNodes (graph ff) + 1))%nat.
Proof.
  unfold searchMeasure. cbn [sFF].
  pose proof (liveColumns_le (totalNodes (graph ff)) (maxFlow ff)).
  set (n := totalNodes (graph ff)) in *.
  set (a := liveColumns n (maxFlow ff)) in *. clearbody a n. nia.
Qed.

(** The fuel that one call of [findAugmentingPath] needs at most. *)
Lemma findAugmentingPath_terminates (fuel : nat) (ff : FordFulkerson)
    (source sink : nat) :
  Matrix.square (totalNodes (graph ff)) (maxFlow ff) →
  (source < totalNodes (graph ff))%nat →
  depthAt (depth ff) source = 0 →
  ((totalNodes (graph ff) + 1) * (totalNodes (graph ff) + 1) ≤ fuel)%nat →
  is_Some (findAugmentingPath fuel ff [] source sink).
Proof.
  intros Hsq Hsrc Hd Hfuel. apply findAugmentingPath_loop_terminates.
  - by apply searchInv_init.
  - pose proof (searchMeasure_init ff source). lia.
Qed.

Lemma searchEnd_found (source sink : nat) (s : Search)
    (ff' : FordFulkerson) (p : list nat) :
  searchInv source sink s → searchEnd source sink s (true, ff', p) →
  ∃ s', searchStep source sink s s' ∧ searchInv source sink s'
        ∧ sNode s' = sink ∧ ff' = sFF s' ∧ p = fullPath s'
        ∧ source ≠ sink.
Proof.
  intros Hinv [[_ [=]]|[(_ & s' & _ & [=])|(Hne & s' & Hstep & Hsink & [= -> ->])]].
  exists s'. split; [done|].
  destruct (searchInv_searchStep source sink s s' Hinv) as (Hinv' & _); [done|].
  split; [done|]. split; [done|]. split; [done|].
  apply findNextNodeInPath_cases in Hstep.
  inversion Hstep as [nb Hadm| |Hnone Hne']; subst.
  - cbn [sNode sPath]. split; [done|]. intros ->.
    cbn [sNode] in Hne.
    pose proof (searchInv_source_depth _ _ _ Hinv') as Hd0.
    pose proof (searchInv_node _ _ _ Hinv') as Hn.
    destruct (lc_depth _ _ (si_chain _ _ _ Hinv') _ _ Hn) as [_ Hd].
    cbn [sNode] in Hd. rewrite Hd0 in Hd.
    change (fullPath (mkSearch (sFF s) nb (fullPath s) false))
      with (fullPath s ++ [nb]) in Hd.
    rewrite length_app in Hd. simpl in Hd.
    pose proof (searchInv_length _ _ _ Hinv). lia.
  - exfalso. apply (si_sink _ _ _ Hinv).
    pose proof (si_last _ _ _ Hinv') as Hl.
    apply last_Some_elem_of in Hl. done.
Qed.

Lemma findAugmentingPath_result (fuel : nat) (ff ff' : FordFulkerson)
    (source sink : nat) (b : bool) (p : list nat) :
  Matrix.square (totalNodes (graph ff)) (maxFlow ff) →
  (source < totalNodes (graph ff))%nat →
  depthAt (depth ff) source = 0 →
  findAugmentingPath fuel ff [] source sink = Some (b, ff', p) →
  graph ff' = graph ff ∧ depth ff' = depth ff
  ∧ Matrix.square (totalNodes (graph ff)) (maxFlow ff')
  ∧ (b = true →
       levelChain ff' p ∧ p !! 0%nat = Some source ∧ last p = Some sink
       ∧ source ≠ sink).
Proof.
  intros Hsq Hsrc Hd Hrun.
  apply findAugmentingPath_loop_end in Hrun as (s1 & Hrtc & Hend & _).
  pose proof (searchInv_init ff source sink Hsq Hsrc Hd) as Hinv0.
  destruct (searchInv_rtc source sink _ _ Hinv0 Hrtc) as (Hinv & Hg & Hdep).
  cbn [sFF] in Hg, Hdep.
  destruct b.
  - destruct (searchEnd_found _ _ _ _ _ Hinv Hend)
      as (s' & Hstep & Hinv' & Hsink & -> & -> & Hdist).
    destruct (searchInv_searchStep _ _ _ _ Hinv Hstep) as (_ & Hg' & Hdep').
    rewrite Hg', Hg, Hdep', Hdep. split; [done|]. split; [done|].
    split; [rewrite <- Hg, <- Hg'; apply Hinv'|]. intros _.
    split; [apply Hinv'|]. split; [apply Hinv'|]. split; [|done].
    rewrite <- Hsink. apply Hinv'.
  - destruct Hend as [[_ [= -> ->]]|[(_ & s' & Hstep & [= -> ->])|(_ & s' & _ & _ & [=])]].
    + rewrite Hg, Hdep. split; [done|]. split; [done|].
      split; [rewrite <- Hg; apply Hinv|]. done.
    + apply findNextNodeInPath_cases in Hstep. inversion Hstep; subst.
      cbn [sFF]. rewrite Hg, Hdep. split; [done|]. split; [done|].
      split; [rewrite <- Hg; apply Hinv|]. done.
Qed.

(** ** The first search of a phase finds a path *)

Lemma canReach_inv (ff : FordFulkerson) (sink u : nat) :
  canReach ff sink u →
  u = sink ∨ ∃ v, admissibleEdge ff u v ∧ canReach ff sink v.
Proof. intros [|? v]; [by left|right; by exists v]. Qed.

Lemma pruneSound_edge (ff0 ff : FordFulkerson) (sink u : nat) :
  pruneSound ff0 sink ff → canReach ff0 sink u → u ≠ sink →
  ∃ w, admissibleEdge ff u w.
Proof.
  intros [Hg Hd Hcol] Hreach Hne.
  apply canReach_inv in Hreach as [?|(w & [Hadj Hadm] & Hw)]; [done|].
  exists w. split; [by rewrite Hg|].
  apply admissible_true in Hadm as [Hdw Hpos]. apply admissible_true.
  rewrite Hd. split; [done|].
  destruct (decide (Matrix.get (maxFlow ff) u w = Matrix.get (maxFlow ff0) u w))
    as [->|Hneq]; [done|].
  by destruct (Hcol u w Hneq).
Qed.

Lemma pruneSound_step (ff0 : FordFulkerson) (source sink : nat) (s s' : Search) :
  searchInv source sink s → pruneSound ff0 sink (sFF s) →
  searchStep source sink s s' → pruneSound ff0 sink (sFF s').
Proof.
  intros Hinv Hps [Hns Hstep]. apply findNextNodeInPath_cases in Hstep.
  inversion Hstep as [nb Hadm| |Hnone Hne]; subst; cbn [sFF]; [done|].
  pose proof (searchInv_node source sink s Hinv) as Hnode.
  destruct (lc_depth _ _ (si_chain _ _ _ Hinv) _ _ Hnode) as [Hlt _].
  split.
  - apply Hps.
  - apply Hps.
  - intros u v. rewrite clearMaxFlowAtNode_get; [|apply Hinv|done].
    case_decide as Hv; [subst v|apply Hps].
    intros _ Hreach.
    destruct (pruneSound_edge ff0 (sFF s) sink (sNode s) Hps Hreach Hns)
      as [w Hw].
    by apply (Hnone w).
Qed.

Lemma pruneSound_rtc (ff0 : FordFulkerson) (source sink : nat) (s s' : Search) :
  searchInv source sink s → pruneSound ff0 sink (sFF s) →
  rtc (searchStep source sink) s s' → pruneSound ff0 sink (sFF s').
Proof.
  intros Hinv Hps Hrtc. induction Hrtc as [|s s1 s2 Hstep _ IH]; [done|].
  apply IH.
  - by destruct (searchInv_searchStep source sink s s1 Hinv Hstep).
  - by eapply pruneSound_step.
Qed.

Lemma findAugmentingPath_complete (fuel : nat) (ff ff' : FordFulkerson)
    (source sink : nat) (b : bool) (p : list nat) :
  Matrix.square (totalNodes (graph ff)) (maxFlow ff) →
  (source < totalNodes (graph ff))%nat →
  depthAt (depth ff) source = 0 →
  source ≠ sink → canReach ff sink source →
  findAugmentingPath fuel ff [] source sink = Some (b, ff', p) →
  b = true.
Proof.
  intros Hsq Hsrc Hd Hne Hreach Hrun.
  apply findAugmentingPath_loop_end in Hrun as (s1 & Hrtc & Hend & Hs1).
  pose proof (searchInv_init ff source sink Hsq Hsrc Hd) as Hinv0.
  destruct (searchInv_rtc source sink _ _ Hinv0 Hrtc) as (Hinv & _).
  assert (Hps : pruneSound ff sink (sFF s1)).
  { eapply pruneSound_rtc; [exact Hinv0| |exact Hrtc]. by split. }
  specialize (Hs1 Hne).
  destruct Hend as [[? _]|[(_ & s' & Hstep & _)|(_ & s' & _ & _ & [= -> _ _])]];
    [done| |done].
  exfalso. apply findNextNodeInPath_cases in Hstep.
  inversion Hstep as [|Hnone Hsrc'|].
  rewrite Hsrc' in Hnone.
  destruct (pruneSound_edge ff (sFF s1) sink source Hps Hreach Hne) as [w Hw].
  by apply (Hnone w).
Qed.

(** The level graph of a successful [levelGraph] holds a path to the sink. *)
Lemma bfsTree_canReach (ff : FordFulkerson) (source sink : nat) :
  bfsTree (graph ff) source (depth ff) →
  maxFlow ff = adjacencyMatrix (graph ff) →
  ∀ (n : nat) (v : nat),
    (v < totalNodes (graph ff))%nat → visited (depth ff) v →
    depthAt (depth ff) v = Z.of_nat n →
    canReach ff sink v → canReach ff sink source.
Proof.
  intros Htree Hmf. induction n as [|n IH]; intros v Hlt Hv Hd Hreach.
  - destruct (decide (v = source)) as [->|Hne]; [done|].
    destruct (bfs_parent _ _ _ Htree v Hlt Hv Hne) as (u & _ & Hu & Hdu).
    destruct (bfs_range _ _ _ Htree u); [done|lia].
  - destruct (decide (v = source)) as [->|Hne]; [done|].
    destruct (bfs_parent _ _ _ Htree v Hlt Hv Hne) as (u & He & Hu & Hdu).
    destruct He as (Hult & _ & Hcap).
    apply (IH u); [done|done|lia|].
    apply (canReach_step _ _ u v); [|done]. split.
    + apply findAdjacentNodes_spec. done.
    + apply admissible_true. rewrite Hmf. done.
Qed.

(** ** [updateResidualGraph] and the push along a path *)

Lemma inRange_true (g : Graph) (v : Z) :
  inRange g v = true ↔ 0 ≤ v < Z.of_nat (totalNodes g).
Proof.
  unfold inRange, getNodes.
  rewrite negb_true_iff, orb_false_iff, Z.ltb_ge, Z.leb_gt. done.
Qed.

Lemma inRange_of_nat (g : Graph) (v : nat) :
  inRange g (Z.of_nat v) = true ↔ (v < totalNodes g)%nat.
Proof. rewrite inRange_true. lia. Qed.

Lemma pushUnit_square (n : nat) (m : Matrix.t) (u v : nat) :
  Matrix.square n m → Matrix.square n (pushUnit m u v).
Proof. intros H. unfold pushUnit. by do 2 apply square_set. Qed.

Lemma pushUnit_get (n : nat) (m : Matrix.t) (u v a b : nat) :
  Matrix.square n m → (u < n)%nat → (v < n)%nat →
  Matrix.get (pushUnit m u v) a b =
  Matrix.get m a b + (if decide ((v, u) = (a, b)) then 1 else 0)
                   - (if decide ((u, v) = (a, b)) then 1 else 0).
Proof.
  intros Hsq Hu Hv. unfold pushUnit.
  rewrite (get_set n); [|by apply square_set|done|done].
  rewrite !(get_set n) by done.
  destruct (decide ((u, v) = (a, b))) as [E1|E1],
           (decide ((v, u) = (a, b))) as [E2|E2];
    try (inversion E1; subst); try (inversion E2; subst);
    repeat case_decide; try lia; try congruence.
Qed.

Lemma pushGraph_capacity (g : Graph) (u v a b : nat) :
  wfGraph g → (u < totalNodes g)%nat → (v < totalNodes g)%nat →
  capacity (pushGraph g u v) a b =
  capacity g a b + (if decide ((v, u) = (a, b)) then 1 else 0)
                 - (if decide ((u, v) = (a, b)) then 1 else 0).
Proof. intros. by apply (pushUnit_get (totalNodes g)). Qed.

Lemma pushGraph_wf (g : Graph) (u v : nat) :
  wfGraph g → wfGraph (pushGraph g u v).
Proof. intros H. by apply pushUnit_square. Qed.

Lemma pushAll_totalNodes (pairs : list (nat * nat)) :
  ∀ g, totalNodes (pushAll g pairs) = totalNodes g
       ∧ nodes (pushAll g pairs) = nodes g.
Proof.
  induction pairs as [|[u v] pairs IH]; intros g; [done|].
  simpl. destruct (IH (pushGraph g u v)) as [-> ->]. done.
Qed.

Lemma pushAll_wf (pairs : list (nat * nat)) :
  ∀ g, wfGraph g → wfGraph (pushAll g pairs).
Proof.
  induction pairs as [|[u v] pairs IH]; intros g Hg; [done|].
  simpl. apply IH. by apply pushGraph_wf.
Qed.

Lemma occ_nonneg (x : nat * nat) (l : list (nat * nat)) : 0 ≤ occ x l.
Proof. induction l as [|y l IH]; simpl; [done|]. case_decide; lia. Qed.

Lemma occ_pos (x : nat * nat) (l : list (nat * nat)) : 0 < occ x l ↔ x ∈ l.
Proof.
  induction l as [|y l IH]; simpl.
  - split; [lia|]. by intros ?%elem_of_nil.
  - pose proof (occ_nonneg x l). rewrite elem_of_cons. case_decide.
    + subst. split; [by left|lia].
    + split.
      * intros H'. right. apply IH. lia.
      * intros [->|H']; [done|]. apply IH in H'. lia.
Qed.

Lemma occ_zero (x : nat * nat) (l : list (nat * nat)) : x ∉ l → occ x l = 0.
Proof.
  intros H. pose proof (occ_nonneg x l). pose proof (occ_pos x l).
  destruct (decide (0 < occ x l)); [|lia]. tauto.
Qed.

Lemma pushAll_capacity (pairs : list (nat * nat)) (a b : nat) :
  ∀ g, wfGraph g →
       (∀ u v, (u, v) ∈ pairs → (u < totalNodes g)%nat ∧ (v < totalNodes g)%nat) →
       capacity (pushAll g pairs) a b =
       capacity g a b + occ (b, a) pairs - occ (a, b) pairs.
Proof.
  induction pairs as [|[u v] pairs IH]; intros g Hg Hrange; simpl; [lia|].
  destruct (Hrange u v) as [Hu Hv]; [by left|].
  rewrite IH.
  - rewrite pushGraph_capacity by done.
    destruct (decide ((v, u) = (a, b))) as [E1|E1],
             (decide ((u, v) = (a, b))) as [E2|E2],
             (decide ((u, v) = (b, a))) as [E3|E3],
             (decide ((u, v) = (a, b))) as [E4|E4];
      try lia; try congruence.
  - by apply pushGraph_wf.
  - intros u' v' H'. apply (Hrange u' v'). by right.
Qed.

Lemma updateResidualGraph_in_range (ff : FordFulkerson) (u v : nat) :
  (u < totalNodes (graph ff))%nat → (v < totalNodes (graph ff))%nat →
  updateResidualGraph ff (Z.of_nat u) (Z.of_nat v) =
  Returned tt (setGraph ff (pushGraph (graph ff) u v)).
Proof.
  intros Hu Hv. unfold updateResidualGraph.
  rewrite (proj2 (inRange_of_nat _ u) Hu), (proj2 (inRange_of_nat _ v) Hv).
  simpl. by rewrite !Nat2Z.id.
Qed.

Lemma updateAlong_in_range (pairs : list (nat * nat)) :
  ∀ ff,
    (∀ u v, (u, v) ∈ pairs →
            (u < totalNodes (graph ff))%nat ∧ (v < totalNodes (graph ff))%nat) →
    updateAlong ff pairs = Returned tt (setGraph ff (pushAll (graph ff) pairs)).
Proof.
  induction pairs as [|[u v] pairs IH]; intros ff Hrange; simpl.
  - by destruct ff.
  - destruct (Hrange u v) as [Hu Hv]; [by left|].
    rewrite updateResidualGraph_in_range by done.
    rewrite IH; [done|]. intros u' v' H'. apply (Hrange u' v'). by right.
Qed.

(** *** The pairs of a path *)

Lemma elem_of_consecutive (p : list nat) (a b : nat) :
  (a, b) ∈ consecutive p ↔ ∃ i, p !! i = Some a ∧ p !! S i = Some b.
Proof.
  induction p as [|u [|v rest] IH].
  - simpl. split; [by intros ?%elem_of_nil|]. by intros (i & [=] & _).
  - simpl. split; [by intros ?%elem_of_nil|]. by intros (i & _ & [=]).
  - change (consecutive (u :: v :: rest)) with ((u, v) :: consecutive (v :: rest)).
    rewrite elem_of_cons, IH. split.
    + intros [[= -> ->]|(i & H1 & H2)]; [by exists 0%nat|]. by exists (S i).
    + intros ([|i] & H1 & H2).
      * left. simpl in *. congruence.
      * right. by exists i.
Qed.

Lemma levelChain_consecutive_range (ff : FordFulkerson) (p : list nat) (u v : nat) :
  levelChain ff p → (u, v) ∈ consecutive p →
  (u < totalNodes (graph ff))%nat ∧ (v < totalNodes (graph ff))%nat.
Proof.
  intros Hc (i & H1 & H2)%elem_of_consecutive.
  split; [apply (lc_depth _ _ Hc i u H1)|apply (lc_depth _ _ Hc (S i) v H2)].
Qed.

Lemma occ_consecutive_le (p : list nat) (a b : nat) :
  NoDup p → occ (a, b) (consecutive p) ≤ 1.
Proof.
  induction p as [|u [|v rest] IH]; intros Hnd; [simpl; lia|simpl; lia|].
  change (consecutive (u :: v :: rest)) with ((u, v) :: consecutive (v :: rest)).
  apply NoDup_cons in Hnd as [Hu Hnd]. specialize (IH Hnd).
  cbn [occ]. case_decide as E; [|lia].
  inversion E; subst. rewrite occ_zero; [lia|].
  intros (i & H1 & _)%elem_of_consecutive.
  apply Hu. by eapply list_elem_of_lookup_2.
Qed.

Lemma occ_consecutive_one (p : list nat) (a b : nat) :
  NoDup p → (a, b) ∈ consecutive p → occ (a, b) (consecutive p) = 1.
Proof.
  intros Hnd Hin. pose proof (occ_consecutive_le p a b Hnd).
  apply occ_pos in Hin. lia.
Qed.

(** *** Sums *)

Lemma sumTo_ext (n : nat) (f f' : nat → Z) :
  (∀ i, (i < n)%nat → f i = f' i) → sumTo n f = sumTo n f'.
Proof.
  induction n as [|n IH]; intros H; simpl; [done|].
  rewrite IH, H; auto with lia.
Qed.

Lemma sumTo_plus (n : nat) (f f' : nat → Z) :
  sumTo n (λ i, f i + f' i) = sumTo n f + sumTo n f'.
Proof. induction n as [|n IH]; simpl; [done|]. rewrite IH. lia. Qed.

Lemma sumTo_minus (n : nat) (f f' : nat → Z) :
  sumTo n (λ i, f i - f' i) = sumTo n f - sumTo n f'.
Proof. induction n as [|n IH]; simpl; [done|]. rewrite IH. lia. Qed.

Lemma sumTo_zero (n : nat) (f : nat → Z) :
  (∀ i, (i < n)%nat → f i = 0) → sumTo n f = 0.
Proof.
  induction n as [|n IH]; intros H; simpl; [done|].
  rewrite IH, H; auto with lia.
Qed.

Lemma sumTo_nonneg (n : nat) (f : nat → Z) :
  (∀ i, (i < n)%nat → 0 ≤ f i) → 0 ≤ sumTo n f.
Proof.
  induction n as [|n IH]; intros H; simpl; [done|].
  assert (0 ≤ f n) by (apply H; lia). assert (0 ≤ sumTo n f); [|lia].
  apply IH. intros i Hi. apply H. lia.
Qed.

Lemma sumTo_indicator (n x : nat) (P : nat → Prop) `{∀ i, Decision (P i)} :
  (∀ i, (i < n)%nat → P i ↔ i = x) →
  sumTo n (λ i, if decide (P i) then 1 else 0) = if decide (x < n)%nat then 1 else 0.
Proof.
  induction n as [|n IH]; intros HP; cbn [sumTo].
  - by rewrite decide_False by lia.
  - rewrite IH by (intros i Hi; apply HP; lia).
    destruct (decide (x < n)%nat) as [Hlt|Hge].
    + rewrite (decide_True (P := (x < S n)%nat)) by lia.
      rewrite decide_False; [lia|]. intros Hn%HP; lia.
    + destruct (decide (x = n)) as [->|Hne].
      * rewrite (decide_True (P := (n < S n)%nat)) by lia.
        rewrite decide_True; [lia|]. apply HP; lia.
      * rewrite (decide_False (P := (x < S n)%nat)) by lia.
        rewrite decide_False; [lia|]. intros Hn%HP; lia.
Qed.

(** ** Committing an augmenting path *)

Lemma levelChain_augmenting (ff : FordFulkerson) (p : list nat)
    (source sink : nat) :
  levelChain ff p → p !! 0%nat = Some source → last p = Some sink →
  source ≠ sink → augmenting (graph ff) source sink p.
Proof.
  intros Hc Hhead Hlast Hne. split; try done.
  - by eapply levelChain_NoDup.
  - intros v [i Hi]%list_elem_of_lookup. apply (lc_depth _ _ Hc i v Hi).
  - intros u v (i & H1 & H2)%elem_of_consecutive.
    apply (lc_edges _ _ Hc i u v H1 H2).
Qed.

Lemma augmenting_pairs_range (g : Graph) (source sink : nat) (p : list nat)
    (u v : nat) :
  augmenting g source sink p → (u, v) ∈ consecutive p →
  (u < totalNodes g)%nat ∧ (v < totalNodes g)%nat.
Proof.
  intros Ha (i & H1 & H2)%elem_of_consecutive.
  split; apply (aug_range _ _ _ _ Ha); by eapply list_elem_of_lookup_2.
Qed.

Lemma augmenting_second (g : Graph) (source sink : nat) (p : list nat) :
  augmenting g source sink p → ∃ p1, p !! 1%nat = Some p1.
Proof.
  intros Ha. apply lookup_lt_is_Some.
  pose proof (aug_head _ _ _ _ Ha) as Hh. pose proof (aug_last _ _ _ _ Ha) as Hl.
  rewrite last_lookup in Hl. apply lookup_lt_Some in Hh as Hlen.
  destruct (decide (length p = 1%nat)) as [E|]; [|lia].
  rewrite E in Hl. simpl in Hl. rewrite Hh in Hl.
  destruct (aug_distinct _ _ _ _ Ha). congruence.
Qed.

Lemma augmenting_source_row (g : Graph) (source sink : nat) (p : list nat)
    (p1 b : nat) :
  wfGraph g → augmenting g source sink p → p !! 1%nat = Some p1 →
  capacity (pushAll g (consecutive p)) source b =
  capacity g source b - (if decide (b = p1) then 1 else 0).
Proof.
  intros Hwf Ha Hp1.
  pose proof (aug_head _ _ _ _ Ha) as Hh. pose proof (aug_nodup _ _ _ _ Ha) as Hnd.
  rewrite pushAll_capacity;
    [|done|intros u v; apply (augmenting_pairs_range _ _ _ _ _ _ Ha)].
  rewrite (occ_zero (b, source)).
  - case_decide as Hb.
    + subst b. rewrite occ_consecutive_one; [lia|done|].
      apply elem_of_consecutive. by exists 0%nat.
    + rewrite occ_zero; [lia|]. intros (i & H1 & H2)%elem_of_consecutive.
      assert (i = 0%nat) as -> by (eapply NoDup_alt; eauto).
      congruence.
  - intros (i & H1 & H2)%elem_of_consecutive.
    assert (S i = 0%nat) by (eapply NoDup_alt; eauto). lia.
Qed.

Lemma sourceCapacity_commit (g : Graph) (source sink : nat) (p : list nat) :
  wfGraph g → augmenting g source sink p →
  sourceCapacity (pushAll g (consecutive p)) source
  = sourceCapacity g source - 1.
Proof.
  intros Hwf Ha. destruct (augmenting_second _ _ _ _ Ha) as [p1 Hp1].
  unfold sourceCapacity.
  destruct (pushAll_totalNodes (consecutive p) g) as [-> _].
  assert (Hlt : (p1 < totalNodes g)%nat).
  { apply (aug_range _ _ _ _ Ha). by eapply list_elem_of_lookup_2. }
  assert (Hpos : 0 < capacity g source p1).
  { apply (aug_edges _ _ _ _ Ha). apply elem_of_consecutive.
    exists 0%nat. split; [apply Ha|done]. }
  rewrite (sumTo_ext _ _
             (λ b, Z.max 0 (capacity g source b)
                   - (if decide (b = p1) then 1 else 0))).
  - rewrite sumTo_minus. rewrite (sumTo_indicator _ p1) by done.
    by rewrite decide_True.
  - intros b _. rewrite (augmenting_source_row g source sink p p1) by done.
    case_decide; [subst; lia|lia].
Qed.

Lemma sourceCapacity_nonneg (g : Graph) (source : nat) :
  0 ≤ sourceCapacity g source.
Proof. apply sumTo_nonneg. intros. lia. Qed.

Lemma levelGraph_setDepth (fuel : nat) (ff : FordFulkerson) (d : list Z)
    (source sink : nat) (b : bool) (d' : list Z) :
  levelGraph fuel ff source sink = Some (b, setDepth ff d') →
  levelGraph fuel (setDepth ff d) source sink = Some (b, setDepth ff d').
Proof.
  unfold levelGraph. cbn [graph setDepth].
  destruct (levelGraph_loop _ _ _ _ _) as [[b0 d0]|]; [|done].
  intros [= -> Hd]. by rewrite Hd.
Qed.

(** ** The loops of [augmentFlowAlongPath] and [calculateMaxFlow] *)

Section Loops.

Variable source sink : nat.

(** A property of the graph that every committed path preserves. *)
Variable Keeps : Graph → Prop.
Hypothesis Keeps_commit : ∀ g p,
  wfGraph g → Keeps g → augmenting g source sink p →
  Keeps (pushAll g (consecutive p)).

Lemma augmentFlowAlongPath_loop_run (fuel0 fuel : nat) :
  ∀ (ff : FordFulkerson) (flows : list Z),
  wfGraph (graph ff) → Keeps (graph ff) →
  Matrix.square (totalNodes (graph ff)) (maxFlow ff) →
  (source < totalNodes (graph ff))%nat →
  depthAt (depth ff) source = 0 →
  ((totalNodes (graph ff) + 1) * (totalNodes (graph ff) + 1) ≤ fuel0)%nat →
  sourceCapacity (graph ff) source < Z.of_nat fuel →
  ∃ flows' ff',
    augmentFlowAlongPath_loop fuel0 fuel ff [] source sink flows
      = Returned (flows ++ flows') ff'
    ∧ wfGraph (graph ff') ∧ Keeps (graph ff')
    ∧ totalNodes (graph ff') = totalNodes (graph ff)
    ∧ nodes (graph ff') = nodes (graph ff)
    ∧ depth ff' = depth ff
    ∧ sourceCapacity (graph ff') source
      = sourceCapacity (graph ff) source - Z.of_nat (length flows')
    ∧ (source ≠ sink → canReach ff sink source → flows' ≠ []).
Proof.
  induction fuel as [|fuel IH];
    intros ff flows Hwf HK Hsq Hsrc Hd Hfuel0 Hfuel.
  { pose proof (sourceCapacity_nonneg (graph ff) source). lia. }
  cbn [augmentFlowAlongPath_loop].
  destruct (findAugmentingPath_terminates fuel0 ff source sink Hsq Hsrc Hd Hfuel0)
    as [[[b ff1] p] Hrun].
  rewrite Hrun.
  destruct (findAugmentingPath_result _ _ _ _ _ _ _ Hsq Hsrc Hd Hrun)
    as (Hg1 & Hd1 & Hsq1 & Hfound).
  destruct b.
  - destruct (Hfound eq_refl) as (Hchain & Hhead & Hlast & Hne).
    pose proof (levelChain_augmenting _ _ _ _ Hchain Hhead Hlast Hne) as Haug.
    rewrite updateAlong_in_range
      by (intros u v; apply (augmenting_pairs_range _ _ _ _ _ _ Haug)).
    rewrite Hg1 in Haug |- *.
    set (g2 := pushAll (graph ff) (consecutive p)).
    destruct (pushAll_totalNodes (consecutive p) (graph ff)) as [HN Hn].
    fold g2 in HN, Hn.
    destruct (IH (setGraph ff1 g2) (flows ++ [pathFlowOf ff1 p]))
      as (flows' & ff' & Hloop & Hwf' & HK' & HN' & Hn' & Hd' & HΦ & _).
    + by apply pushAll_wf.
    + by apply Keeps_commit.
    + cbn [graph maxFlow setGraph]. by rewrite HN.
    + cbn [graph setGraph]. by rewrite HN.
    + cbn [depth setGraph]. by rewrite Hd1.
    + cbn [graph setGraph]. by rewrite HN.
    + cbn [graph setGraph]. unfold g2.
      rewrite (sourceCapacity_commit _ _ sink) by done. lia.
    + exists (pathFlowOf ff1 p :: flows'), ff'.
      rewrite Hloop, <- app_assoc. cbn [graph depth setGraph] in *.
      split; [done|]. split; [done|]. split; [done|].
      split; [by rewrite HN', HN|]. split; [by rewrite Hn', Hn|].
      split; [by rewrite Hd', Hd1|]. split; [|done].
      rewrite HΦ. unfold g2.
      rewrite (sourceCapacity_commit _ _ sink) by done.
      cbn [length]. lia.
  - exists [], ff1. rewrite app_nil_r, Hg1, Hd1.
    split; [done|]. split; [done|]. split; [done|]. split; [done|].
    split; [done|]. split; [done|]. split; [simpl; lia|].
    intros Hne Hreach.
    pose proof (findAugmentingPath_complete _ _ _ _ _ _ _
                  Hsq Hsrc Hd Hne Hreach Hrun). done.
Qed.

Lemma calculateMaxFlow_loop_run (fuel0 fuel : nat) :
  ∀ (ff : FordFulkerson) (st : Stats),
  wfGraph (graph ff) → Keeps (graph ff) →
  (source < totalNodes (graph ff))%nat →
  (sink < totalNodes (graph ff))%nat →
  ((totalNodes (graph ff) + 1) * (totalNodes (graph ff) + 1) ≤ fuel0)%nat →
  sourceCapacity (graph ff) source < Z.of_nat fuel0 →
  sourceCapacity (graph ff) source < Z.of_nat fuel →
  ∃ st' ff',
    calculateMaxFlow_loop fuel0 fuel ff source sink st = Returned st' ff'
    ∧ wfGraph (graph ff') ∧ Keeps (graph ff')
    ∧ totalNodes (graph ff') = totalNodes (graph ff)
    ∧ nodes (graph ff') = nodes (graph ff)
    ∧ levelGraph fuel0 ff' source sink = Some (false, ff')
    ∧ bfsTree (graph ff') source (depth ff')
    ∧ closedExcept (graph ff') (depth ff') (λ _ _, False)
    ∧ (sink ≠ source → ¬ visited (depth ff') sink)
    ∧ Z.of_nat (pushed st') =
        Z.of_nat (pushed st)
        + (sourceCapacity (graph ff) source - sourceCapacity (graph ff') source)
    ∧ (phases st' + pushed st ≤ pushed st' + phases st)%nat
    ∧ (phases st ≤ phases st')%nat.
Proof.
  induction fuel as [|fuel IH];
    intros ff st Hwf HK Hsrc Hsnk Hfuel0 Hcap0 Hfuel.
  { pose proof (sourceCapacity_nonneg (graph ff) source). lia. }
  cbn [calculateMaxFlow_loop].
  destruct (levelGraph_result fuel0 ff source sink Hsrc Hsnk)
    as (b & d & Hlevel & Htree & Htrue & Hfalse); [nia|].
  rewrite Hlevel. destruct b.
  - destruct (Htrue eq_refl) as [Hne Hvis].
    set (ff2 := setMaxFlow (setDepth ff d)
                  (getAdjacencyMatrix (graph (setDepth ff d)))).
    assert (Hreach : canReach ff2 sink source).
    { destruct (bfs_range _ _ _ Htree sink) as [?|Hge]; [done|].
      apply (bfsTree_canReach ff2 source sink Htree eq_refl
               (Z.to_nat (depthAt d sink)) sink); try done.
      - cbn [depth ff2 setMaxFlow setDepth]. lia.
      - constructor. }
    unfold augmentFlowAlongPath.
    destruct (augmentFlowAlongPath_loop_run fuel0 fuel0 ff2 [])
      as (flows & ff3 & Hloop & Hwf3 & HK3 & HN3 & Hn3 & Hd3 & HΦ & Hprog);
      try done.
    + apply (bfs_source _ _ _ Htree).
    + cbn [app] in Hloop. rewrite Hloop. cbn [graph ff2 setMaxFlow setDepth] in *.
      specialize (Hprog (not_eq_sym Hne) Hreach).
      assert (0 < length flows)%nat by (destruct flows; [done|simpl; lia]).
      destruct (IH ff3 (mkStats (S (phases st)) (pushed st + length flows)))
        as (st' & ff' & Hrun & Hwf' & HK' & HN' & Hn' & Hlev' & Htree' & Hcl'
            & Hsk' & Hpushed & Hphases & Hmono); try done.
      * by rewrite HN3.
      * by rewrite HN3.
      * by rewrite HN3.
      * lia.
      * lia.
      * exists st', ff'. rewrite Hrun. cbn [pushed phases] in *.
        split; [done|]. split; [done|]. split; [done|].
        split; [by rewrite HN', HN3|]. split; [by rewrite Hn', Hn3|].
        split; [done|]. split; [done|]. split; [done|]. split; [done|].
        split; [lia|]. split; lia.
  - exists st, (setDepth ff d). destruct (Hfalse eq_refl) as [Hclosed Hsink].
    split; [done|]. split; [done|]. split; [done|]. split; [done|].
    split; [done|]. split; [by apply levelGraph_setDepth|].
    split; [done|]. split; [done|]. split; [done|].
    cbn [graph setDepth]. split; [lia|]. split; lia.
Qed.

End Loops.

(** ** [calculateMaxFlow] as a whole *)

Lemma calculateMaxFlow_run (Keeps : Graph → Prop) (fuel : nat)
    (ff : FordFulkerson) (source sink : nat) :
  (∀ g p, wfGraph g → Keeps g → augmenting g source sink p →
          Keeps (pushAll g (consecutive p))) →
  wfGraph (graph ff) → Keeps (graph ff) →
  (source < totalNodes (graph ff))%nat →
  (sink < totalNodes (graph ff))%nat →
  enoughFuel (graph ff) source fuel →
  ∃ st ff',
    calculateMaxFlow fuel ff (Z.of_nat source) (Z.of_nat sink) = Returned st ff'
    ∧ wfGraph (graph ff') ∧ Keeps (graph ff')
    ∧ totalNodes (graph ff') = totalNodes (graph ff)
    ∧ nodes (graph ff') = nodes (graph ff)
    ∧ levelGraph fuel ff' source sink = Some (false, ff')
    ∧ bfsTree (graph ff') source (depth ff')
    ∧ closedExcept (graph ff') (depth ff') (λ _ _, False)
    ∧ (sink ≠ source → ¬ visited (depth ff') sink)
    ∧ Z.of_nat (pushed st) =
        sourceCapacity (graph ff) source - sourceCapacity (graph ff') source
    ∧ (phases st ≤ pushed st)%nat.
Proof.
  intros HK Hwf HK0 Hsrc Hsnk [Hfuel HΦ].
  unfold calculateMaxFlow.
  rewrite (proj2 (inRange_of_nat _ source) Hsrc),
          (proj2 (inRange_of_nat _ sink) Hsnk). cbn [andb].
  rewrite !Nat2Z.id.
  destruct (calculateMaxFlow_loop_run source sink Keeps HK fuel fuel ff
              (mkStats 0 0) Hwf HK0 Hsrc Hsnk Hfuel HΦ HΦ)
    as (st & ff' & Hrun & H1 & H2 & H3 & H4 & H5 & H6 & H7 & H8 & H9 & H10 & _).
  exists st, ff'. rewrite Hrun. cbn [pushed phases] in *.
  repeat (split; [done|]). first [split; lia | lia].
Qed.

(** When the loop of [calculateMaxFlow] ends, [levelGraph] has just returned
    false, and would do so again. *)
Lemma calculateMaxFlow_loop_exit (fuel0 fuel : nat) (source sink : nat) :
  ∀ ff st st' ff',
    calculateMaxFlow_loop fuel0 fuel ff source sink st = Returned st' ff' →
    levelGraph fuel0 ff' source sink = Some (false, ff').
Proof.
  induction fuel as [|fuel IH]; intros ff st st' ff'; cbn [calculateMaxFlow_loop];
    [done|].
  destruct (levelGraph fuel0 ff source sink) as [[[|] ff1]|] eqn:Hlevel; [| |done].
  - destruct (augmentFlowAlongPath _ _ _ _ _) as [flows ff3| |]; [|done|done].
    apply IH.
  - intros [= <- <-]. revert Hlevel. unfold levelGraph.
    destruct (levelGraph_loop _ _ _ _ _) as [[b d]|] eqn:E; [|done].
    intros [= -> <-]. cbn [graph setDepth]. by rewrite E.
Qed.

(** ** [findAdjacentNodes] and [printResults] *)

(** C8: for every node [u], [findAdjacentNodes] returns exactly the nodes [v]
    with [capacity[u][v] > 0], in strictly increasing order of index; and the
    result of [solve], matching included, is determined by the number of
    nodes, the edges in their input order, and the names. *)
Theorem findAdjacentNodes_exact_ascending (g : Graph) (u : nat) :
  (∀ v, v ∈ findAdjacentNodes g u ↔
        (v < totalNodes g)%nat ∧ 0 < capacity g u v)
  ∧ StronglySorted lt (findAdjacentNodes g u)
  ∧ (∀ fuel n names edges1 edges2,
       edges1 = edges2 →
       solve fuel (fileRead n edges1) names = solve fuel (fileRead n edges2) names).
Proof.
  split; [apply findAdjacentNodes_spec|].
  split; [apply findAdjacentNodes_sorted|].
  by intros fuel n names edges1 edges2 ->.
Qed.

Lemma printResults_inner (g : Graph) (names : list string) (i : nat)
    (l : list nat) :
  ∀ (out : list string) (matches : Z),
    fold_left
      (λ '(out, matches) n,
         if Matrix.get (adjacencyMatrix g) n i =? 1
         then (out ++ [printLine names i n], matches + 1)
         else (out, matches)) l (out, matches)
    = (out ++ map (λ '(i, n), printLine names i n)
                (flat_map (λ n, if Matrix.get (adjacencyMatrix g) n i =? 1
                                then [(i, n)] else []) l),
       matches +
       Z.of_nat (length (flat_map (λ n, if Matrix.get (adjacencyMatrix g) n i =? 1
                                        then [(i, n)] else []) l))).
Proof.
  induction l as [|n l IH]; intros out matches; simpl.
  - by rewrite app_nil_r, Z.add_0_r.
  - destruct (Matrix.get (adjacencyMatrix g) n i =? 1).
    + rewrite IH. simpl. rewrite <- app_assoc. simpl. f_equal. lia.
    + rewrite IH. done.
Qed.

Lemma printResults_outer (g : Graph) (names : list string) (r : list nat)
    (l : list nat) :
  ∀ (acc : list string * Z),
    fold_left
      (λ acc i,
         fold_left
           (λ '(out, matches) n,
              if Matrix.get (adjacencyMatrix g) n i =? 1
              then (out ++ [printLine names i n], matches + 1)
              else (out, matches)) r acc) l acc
    = (acc.1 ++ map (λ '(i, n), printLine names i n)
                  (flat_map
                     (λ i, flat_map
                             (λ n, if Matrix.get (adjacencyMatrix g) n i =? 1
                                   then [(i, n)] else []) r) l),
       acc.2 +
       Z.of_nat (length
                   (flat_map
                      (λ i, flat_map
                              (λ n, if Matrix.get (adjacencyMatrix g) n i =? 1
                                    then [(i, n)] else []) r) l))).
Proof.
  induction l as [|i l IH]; intros [out matches]; simpl.
  - by rewrite app_nil_r, Z.add_0_r.
  - rewrite printResults_inner, IH. simpl.
    rewrite map_app, length_app, <- app_assoc. f_equal. lia.
Qed.

Lemma elem_of_matchedPairs (g : Graph) (i j : nat) :
  (i, j) ∈ matchedPairs g ↔
  (1 ≤ i ≤ nodes g / 2)%nat ∧ (nodes g / 2 + 1 ≤ j ≤ nodes g)%nat
  ∧ capacity g j i = 1.
Proof.
  unfold matchedPairs, capacity. rewrite list_elem_of_In, in_flat_map. split.
  - intros (i' & Hi'%in_seq & Hin). apply in_flat_map in Hin as (j' & Hj'%in_seq & Hin).
    destruct (Z.eqb_spec (Matrix.get (adjacencyMatrix g) j' i') 1) as [E|E];
      [|by destruct Hin].
    destruct Hin as [[= -> ->]|[]].
    split; [lia|]. split; [lia|done].
  - intros (Hi & Hj & Hcap). exists i. split; [apply in_seq; lia|].
    apply in_flat_map. exists j. split; [apply in_seq; lia|].
    rewrite Hcap. simpl. by left.
Qed.

Lemma printResults_matchedPairs (g : Graph) (names : list string) :
  printResults g names =
    (map (λ '(i, j), printLine names i j) (matchedPairs g),
     Z.of_nat (length (matchedPairs g))).
Proof. unfold printResults, matchedPairs. by rewrite printResults_outer. Qed.

(** C9: [printResults] writes a line for the left node [i] and the right
    node [j] exactly when [capacity[j][i] == 1], in the order of its two
    loops, and its counter is the number of these pairs.  The function
    returns its output only: the graph is not changed (it is [const] in the
    source). *)
Theorem printResults_reports_unit_reverse_edges (g : Graph)
    (names : list string) :
  printResults g names =
    (map (λ '(i, j), printLine names i j) (matchedPairs g),
     Z.of_nat (length (matchedPairs g)))
  ∧ (∀ i j, (i, j) ∈ matchedPairs g ↔
            (1 ≤ i ≤ nodes g / 2)%nat ∧ (nodes g / 2 + 1 ≤ j ≤ nodes g)%nat
            ∧ capacity g j i = 1).
Proof.
  split; [apply printResults_matchedPairs|apply elem_of_matchedPairs].
Qed.
(** ** [updateResidualGraph] *)

(** C4, as stated, fails in what leaves the function when a node is out of
    range: the [out_of_range] of the check is caught by the handler of the
    function itself, and what the caller receives is a [runtime_error]
    whose message has the prefix of the handler.  It also fails when the
    two nodes are the same: the increment and the decrement then fall on
    the same entry, which is left as it was. *)
Lemma updateResidualGraph_as_stated_counterexample :
  (inRange (graph (newFordFulkerson (createEdge (newGraph 2) 0 1 5))) 4 = false
   ∧ ∃ e,
       updateResidualGraph
         (newFordFulkerson (createEdge (newGraph 2) 0 1 5)) 0 4
       = Thrown e (newFordFulkerson (createEdge (newGraph 2) 0 1 5))
       ∧ e = runtime_error
               "Error in updateResidualGraph: Source or destination node is out of valid range."
       ∧ ∀ w, e ≠ out_of_range w)
  ∧ (inRange (graph (newFordFulkerson (createEdge (newGraph 2) 0 1 5))) 1 = true
     ∧ ∃ ff',
         updateResidualGraph
           (newFordFulkerson (createEdge (newGraph 2) 0 1 5)) 1 1
         = Returned tt ff'
         ∧ capacity (graph ff') 1 1
           ≠ capacity (graph (newFordFulkerson (createEdge (newGraph 2) 0 1 5)))
               1 1 - 1).
Proof.
  split.
  - split; [done|]. eexists. split; [reflexivity|]. split; [reflexivity|].
    intros w. discriminate.
  - split; [done|]. eexists. split; [reflexivity|]. by vm_compute.
Qed.

(** C4 (amended): with both nodes in range, [capacity[v][u]] below
    [INT_MAX] and [capacity[u][v]] above [INT_MIN] (so that neither
    operation on an [int] overflows), [updateResidualGraph(u, v)] returns
    normally, adds 1 to [capacity[v][u]], subtracts 1 from [capacity[u][v]]
    and changes no other entry, so that for [u <> v] the first goes up by
    exactly 1 and the second down by exactly 1, and for [u = v] the entry
    is unchanged; in both cases [capacity[u][v] + capacity[v][u]] is what
    it was, and the two entries are still within [INT_MIN .. INT_MAX].  It
    throws exactly when a node is out of range: the [out_of_range] of its
    check is re-thrown by its handler as a [runtime_error] with the prefix
    of the handler before the message, which is what leaves the function,
    and the object is then unchanged. *)
Theorem updateResidualGraph_spec (ff : FordFulkerson) (u v : Z) :
  wfGraph (graph ff) →
  (inRange (graph ff) u && inRange (graph ff) v = true →
   capacity (graph ff) (Z.to_nat v) (Z.to_nat u) < INT_MAX →
   INT_MIN < capacity (graph ff) (Z.to_nat u) (Z.to_nat v) →
   ∃ ff',
     updateResidualGraph ff u v = Returned tt ff'
     ∧ depth ff' = depth ff ∧ maxFlow ff' = maxFlow ff
     ∧ (∀ a b,
          capacity (graph ff') a b =
          capacity (graph ff) a b
          + (if decide ((Z.to_nat v, Z.to_nat u) = (a, b)) then 1 else 0)
          - (if decide ((Z.to_nat u, Z.to_nat v) = (a, b)) then 1 else 0))
     ∧ (u ≠ v →
        capacity (graph ff') (Z.to_nat u) (Z.to_nat v)
          = capacity (graph ff) (Z.to_nat u) (Z.to_nat v) - 1
        ∧ capacity (graph ff') (Z.to_nat v) (Z.to_nat u)
          = capacity (graph ff) (Z.to_nat v) (Z.to_nat u) + 1)
     ∧ (u = v →
        capacity (graph ff') (Z.to_nat u) (Z.to_nat u)
          = capacity (graph ff) (Z.to_nat u) (Z.to_nat u))
     ∧ capacity (graph ff') (Z.to_nat u) (Z.to_nat v)
       + capacity (graph ff') (Z.to_nat v) (Z.to_nat u)
       = capacity (graph ff) (Z.to_nat u) (Z.to_nat v)
         + capacity (graph ff) (Z.to_nat v) (Z.to_nat u)
     ∧ capacity (graph ff') (Z.to_nat v) (Z.to_nat u) ≤ INT_MAX
     ∧ INT_MIN ≤ capacity (graph ff') (Z.to_nat u) (Z.to_nat v))
  ∧ (inRange (graph ff) u && inRange (graph ff) v = false →
     updateResidualGraph ff u v =
     Thrown (runtime_error
               "Error in updateResidualGraph: Source or destination node is out of valid range.")
            ff)
  ∧ ((∃ e ff', updateResidualGraph ff u v = Thrown e ff')
     ↔ inRange (graph ff) u && inRange (graph ff) v = false).
Proof.
  intros Hwf. unfold updateResidualGraph.
  destruct (inRange (graph ff) u && inRange (graph ff) v) eqn:Hr.
  - apply andb_true_iff in Hr as [Hu%inRange_true Hv%inRange_true].
    split; [|split; [done|]].
    + intros _ Hmax Hmin. eexists. split; [reflexivity|].
      cbn [depth maxFlow graph setGraph]. split; [done|]. split; [done|].
      assert (Hcap : ∀ a b,
        capacity (setAdjacencyMatrix (graph ff)
                    (pushUnit (adjacencyMatrix (graph ff)) (Z.to_nat u) (Z.to_nat v)))
                 a b
        = capacity (graph ff) a b
          + (if decide ((Z.to_nat v, Z.to_nat u) = (a, b)) then 1 else 0)
          - (if decide ((Z.to_nat u, Z.to_nat v) = (a, b)) then 1 else 0)).
      { intros a b. apply (pushGraph_capacity (graph ff)); [done|lia|lia]. }
      split; [done|]. split; [|split; [|split; [|split]]].
      * intros Hne. rewrite !Hcap.
        repeat case_decide; simplify_eq; try lia; try done.
      * intros ->. rewrite Hcap. rewrite !decide_True by done. lia.
      * rewrite !Hcap. repeat case_decide; simplify_eq; try lia; try done.
      * rewrite Hcap. repeat case_decide; simplify_eq; lia.
      * rewrite Hcap. repeat case_decide; simplify_eq; lia.
    + split; [by intros (e & ff' & [=])|done].
  - split; [done|]. split; [done|]. split; [done|]. intros _. eauto.
Qed.

Lemma updateResidualGraph_spec_witness :
  wfGraph (graph (newFordFulkerson (createEdge (newGraph 2) 0 1 5)))
  ∧ ∃ ff',
      updateResidualGraph (newFordFulkerson (createEdge (newGraph 2) 0 1 5)) 0 1
      = Returned tt ff'
      ∧ capacity (graph ff') 0 1 = 4 ∧ capacity (graph ff') 1 0 = 1.
Proof.
  assert (Hwf : wfGraph (graph (newFordFulkerson (createEdge (newGraph 2) 0 1 5))))
    by apply square_set, square_zero.
  split; [exact Hwf|].
  destruct (updateResidualGraph_spec
              (newFordFulkerson (createEdge (newGraph 2) 0 1 5)) 0 1 Hwf)
    as [Hin _].
  destruct Hin as (ff' & Hrun & _ & _ & _ & Hne & _).
  - reflexivity.
  - vm_compute. reflexivity.
  - vm_compute. reflexivity.
  - exists ff'. split; [exact Hrun|]. destruct Hne as [H1 H2]; [lia|].
    split; [exact H1|exact H2].
Defined.

(** ** [levelGraph] *)

Lemma levelGraph_scan_app (m : Matrix.t) (sink cur : nat) (l1 l2 : list nat) :
  ∀ d queue,
    levelGraph_scan m sink cur (l1 ++ l2) d queue =
    match levelGraph_scan m sink cur l1 d queue with
    | (true, d1, queue1) => (true, d1, queue1)
    | (false, d1, queue1) => levelGraph_scan m sink cur l2 d1 queue1
    end.
Proof.
  induction l1 as [|a l1 IH]; intros d queue; simpl; [done|].
  destruct (_ && _); [|apply IH].
  destruct (a =? sink)%nat; [done|apply IH].
Qed.

(** *** The depths are distances *)

Lemma walk_range (g : Graph) (source v : nat) (k : nat) :
  (source < totalNodes g)%nat → walk g source v k → (v < totalNodes g)%nat.
Proof. intros Hs [|u w k' _ (_ & Hw & _)]; done. Qed.

Lemma levelBounds_shortest (g : Graph) (source : nat) (d : list Z) (D : Z)
    (v : nat) (k : nat) :
  (source < totalNodes g)%nat →
  levelBounds g source d D → visited d v → walk g source v k →
  depthAt d v ≤ Z.of_nat k.
Proof.
  intros Hs [_ _ _ Hbound Hwalks] Hv Hw.
  destruct (decide (Z.of_nat k ≤ D)) as [Hk|Hk].
  - by destruct (Hwalks v k Hw Hk).
  - pose proof (Hbound v (walk_range g source v k Hs Hw) Hv). lia.
Qed.

Lemma bfsTree_walk (g : Graph) (source : nat) (d : list Z) :
  bfsTree g source d →
  ∀ (n : nat) (v : nat),
    (v < totalNodes g)%nat → visited d v → depthAt d v = Z.of_nat n →
    walk g source v n.
Proof.
  intros Htree. induction n as [|n IH]; intros v Hlt Hv Hd.
  - destruct (decide (v = source)) as [->|Hne]; [constructor|].
    destruct (bfs_parent _ _ _ Htree v Hlt Hv Hne) as (u & _ & Hu & Hdu).
    destruct (bfs_range _ _ _ Htree u); [done|lia].
  - destruct (decide (v = source)) as [->|Hne].
    { rewrite (bfs_source _ _ _ Htree) in Hd. lia. }
    destruct (bfs_parent _ _ _ Htree v Hlt Hv Hne) as (u & He & Hu & Hdu).
    apply (walk_step g source u v n); [|done].
    apply IH; [by destruct He|done|lia].
Qed.

Lemma levelBounds_insert (g : Graph) (source : nat) (d : list Z) (D : Z)
    (a : nat) :
  levelBounds g source d D → (a < totalNodes g)%nat → depthAt d a = -1 →
  levelBounds g source (<[a := D + 1]> d) D.
Proof.
  intros [HD Hlen Hnn Hbound Hwalks] Ha Hda.
  assert (Hold : ∀ v, v ≠ a → depthAt (<[a := D + 1]> d) v = depthAt d v).
  { intros v Hv. by rewrite depthAt_insert_ne. }
  assert (Hnew : depthAt (<[a := D + 1]> d) a = D + 1).
  { apply depthAt_insert_eq. lia. }
  split.
  - done.
  - by rewrite length_insert.
  - intros v Hlt Hv. destruct (decide (v = a)) as [->|Hne]; [lia|].
    unfold visited in Hv. rewrite Hold in * by done. by apply Hnn.
  - intros v Hlt Hv. destruct (decide (v = a)) as [->|Hne]; [lia|].
    unfold visited in Hv. rewrite Hold in * by done. by apply Hbound.
  - intros v k Hw Hk. destruct (Hwalks v k Hw Hk) as [Hv Hdv].
    assert (v ≠ a) by (intros ->; done).
    unfold visited. by rewrite Hold.
Qed.

Lemma scanLevels_skip (g : Graph) (source : nat) (d : list Z) (cur a : nat)
    (rest queue : list nat) :
  scanLevels g source d cur (a :: rest) queue →
  edge g cur a → depthAt d a ≠ -1 →
  scanLevels g source d cur rest queue.
Proof.
  intros [Hcur Hb Hq He] Hedge Ha. split; try done.
  intros u v Hu Huv. destruct (He u v Hu Huv) as [?|[?|[-> Hin]]]; auto.
  apply elem_of_cons in Hin as [->|Hin]; [|by right; right].
  left. split; [done|].
  apply (lb_bound _ _ _ _ Hb); [by destruct Hedge as (_ & ? & _)|done].
Qed.

Lemma scanLevels_visit (g : Graph) (source : nat) (d : list Z) (cur a : nat)
    (rest queue : list nat) :
  scanLevels g source d cur (a :: rest) queue →
  edge g cur a → depthAt d a = -1 →
  scanLevels g source (<[a := depthAt d cur + 1]> d) cur rest (queue ++ [a]).
Proof.
  intros [[Hcur Hvcur] Hb [Hqn Hqs] He] Hedge Ha.
  set (D := depthAt d cur) in *.
  assert (Halt : (a < totalNodes g)%nat) by (by destruct Hedge as (_ & ? & _)).
  assert (HD : 0 ≤ D) by apply Hb.
  assert (Hacur : a ≠ cur) by (intros ->; done).
  assert (Hold : ∀ v, v ≠ a → depthAt (<[a := D + 1]> d) v = depthAt d v).
  { intros v Hv. by rewrite depthAt_insert_ne. }
  assert (Hnew : depthAt (<[a := D + 1]> d) a = D + 1).
  { apply depthAt_insert_eq. rewrite (lb_length _ _ _ _ Hb). lia. }
  assert (Hvis : ∀ v, visited d v → v ≠ a) by (intros v Hv ->; done).
  assert (Hvis' : ∀ v, visited d v → visited (<[a := D + 1]> d) v).
  { intros v Hv. unfold visited. rewrite Hold; [done|by apply Hvis]. }
  assert (Hq' : ∀ q, q ∈ queue → depthAt (<[a := D + 1]> d) q = depthAt d q).
  { intros q Hq. apply Hold, Hvis. by destruct (Hqn q Hq) as (_ & ? & _). }
  split.
  - split; [done|]. by apply Hvis'.
  - rewrite (Hold cur) by done. by apply levelBounds_insert.
  - rewrite (Hold cur) by done. fold D. split.
    + intros q [Hq| ->%list_elem_of_singleton]%elem_of_app.
      * destruct (Hqn q Hq) as (H1 & H2 & H3).
        rewrite (Hq' q Hq). split; [done|]. split; [by apply Hvis'|done].
      * split; [done|]. split; [unfold visited; lia|lia].
    + intros i j qi qj Hi Hj Hij.
      destruct (decide (j < length queue)%nat) as [Hjlt|Hjge].
      * rewrite lookup_app_l in Hi by lia. rewrite lookup_app_l in Hj by lia.
        rewrite (Hq' qi), (Hq' qj) by (by eapply list_elem_of_lookup_2).
        by apply (Hqs i j).
      * rewrite lookup_app_r in Hj by lia.
        apply list_lookup_singleton_Some in Hj as [_ <-].
        rewrite Hnew.
        destruct (decide (i < length queue)%nat) as [Hilt|Hige].
        -- rewrite lookup_app_l in Hi by lia.
           apply list_elem_of_lookup_2 in Hi as Hin.
           rewrite (Hq' qi Hin). by destruct (Hqn qi Hin) as (_ & _ & ? & ?).
        -- rewrite lookup_app_r in Hi by lia.
           apply list_lookup_singleton_Some in Hi as [_ <-]. lia.
  - intros u v Hu Huv. destruct (decide (u = a)) as [->|Hua].
    { right. left. apply elem_of_app. right. by left. }
    unfold visited in Hu. rewrite Hold in Hu by done.
    rewrite (Hold u) by done.
    destruct (He u v Hu Huv) as [[Hv Hdv]|[Hin|[-> Hin]]].
    + left. split; [by apply Hvis'|]. rewrite Hold; [done|by apply Hvis].
    + right. left. apply elem_of_app. by left.
    + apply elem_of_cons in Hin as [->|Hin]; [|by right; right].
      left. split; [unfold visited; lia|]. fold D. lia.
Qed.

Lemma levelGraph_scan_levels (g : Graph) (source sink cur : nat)
    (rest : list nat) :
  ∀ (d : list Z) (queue : list nat) (b : bool) (d' : list Z)
    (queue' : list nat),
    levelGraph_scan (adjacencyMatrix g) sink cur rest d queue = (b, d', queue') →
    (∀ v, v ∈ rest → edge g cur v) →
    scanLevels g source d cur rest queue →
    if b then levelBounds g source d' (depthAt d cur)
    else scanLevels g source d' cur [] queue'.
Proof.
  induction rest as [|a rest IH]; intros d queue b d' queue' Hrun Hrest Hinv.
  - injection Hrun as <- <- <-. done.
  - cbn [levelGraph_scan] in Hrun.
    assert (Hedge : edge g cur a) by (apply Hrest; by left).
    assert (Hcap : (0 <? Matrix.get (adjacencyMatrix g) cur a) = true)
      by (apply Z.ltb_lt, Hedge).
    rewrite Hcap, andb_true_r in Hrun.
    assert (Hrest' : ∀ v, v ∈ rest → edge g cur v)
      by (intros v Hv; apply Hrest; by right).
    destruct (Z.eqb_spec (depthAt d a) (-1)) as [Ha|Ha].
    + pose proof (scanLevels_visit g source d cur a rest queue Hinv Hedge Ha)
        as Hinv'.
      assert (Hcur' : depthAt (<[a := depthAt d cur + 1]> d) cur = depthAt d cur).
      { apply depthAt_insert_ne. intros ->. by destruct (sl_cur _ _ _ _ _ _ Hinv). }
      destruct (Nat.eqb_spec a sink) as [->|Hne].
      * injection Hrun as <- <- <-.
        pose proof (sl_bounds _ _ _ _ _ _ Hinv') as Hb. by rewrite Hcur' in Hb.
      * specialize (IH _ _ _ _ _ Hrun Hrest' Hinv').
        destruct b; [by rewrite Hcur' in IH|done].
    + apply (IH _ _ _ _ _ Hrun Hrest').
      by apply (scanLevels_skip g source d cur a rest queue).
Qed.

Lemma loopLevels_scan (g : Graph) (source : nat) (d : list Z) (cur : nat)
    (queue : list nat) (D : Z) :
  loopLevels g source d (cur :: queue) D →
  scanLevels g source d cur (findAdjacentNodes g cur) queue.
Proof.
  intros [Hb [Hqn Hqs] He].
  destruct (Hqn cur) as (Hcur & Hvcur & HD1 & HD2); [by left|].
  assert (Hmin : ∀ q, q ∈ queue → depthAt d cur ≤ depthAt d q).
  { intros q [i Hi]%list_elem_of_lookup.
    apply (Hqs 0%nat (S i)); [done|done|lia]. }
  split.
  - done.
  - destruct Hb as [HD Hlen Hnn Hbound Hwalks]. split; [lia|done|done| |].
    + intros v Hlt Hv. pose proof (Hbound v Hlt Hv). lia.
    + intros v k Hw Hk. destruct (decide (Z.of_nat k ≤ D)) as [HkD|HkD].
      { by apply Hwalks. }
      inversion Hw as [|u w k' Hw' Huv]; subst; [lia|].
      destruct (Hwalks u k' Hw') as [Hu Hdu]; [lia|].
      destruct (He u v Hu Huv) as [[Hv Hdv]|Hin].
      * split; [done|]. lia.
      * apply elem_of_cons in Hin as [->|Hin]; [lia|].
        pose proof (Hmin u Hin). lia.
  - split.
    + intros q Hq. destruct (Hqn q) as (H1 & H2 & H3 & H4); [by right|].
      pose proof (Hmin q Hq). split; [done|]. split; [done|]. lia.
    + intros i j qi qj Hi Hj Hij. apply (Hqs (S i) (S j)); [done|done|lia].
  - intros u v Hu Huv. destruct (He u v Hu Huv) as [?|Hin]; [by left|].
    apply elem_of_cons in Hin as [->|Hin]; [|by right; left].
    right. right. split; [done|]. apply findAdjacentNodes_spec.
    by destruct Huv as (_ & ? & ?).
Qed.

Lemma scanLevels_loop (g : Graph) (source : nat) (d : list Z) (cur : nat)
    (queue : list nat) :
  scanLevels g source d cur [] queue →
  loopLevels g source d queue (depthAt d cur).
Proof.
  intros [Hcur Hb Hq He]. split; [done|done|].
  intros u v Hu Huv. destruct (He u v Hu Huv) as [?|[?|[_ H]]]; auto.
  by apply elem_of_nil in H.
Qed.

Lemma levelGraph_loop_levels (g : Graph) (source sink : nat) (fuel : nat) :
  ∀ (d : list Z) (queue : list nat) (D : Z) (b : bool) (d' : list Z),
    levelGraph_loop fuel g sink d queue = Some (b, d') →
    loopLevels g source d queue D →
    ∃ D', levelBounds g source d' D'.
Proof.
  induction fuel as [|fuel IH]; intros d queue D b d' Hrun Hinv; [done|].
  cbn [levelGraph_loop] in Hrun. destruct queue as [|cur queue].
  - injection Hrun as <- <-. exists D. apply Hinv.
  - pose proof (loopLevels_scan g source d cur queue D Hinv) as Hscan.
    destruct (levelGraph_scan (getAdjacencyMatrix g) sink cur
                (findAdjacentNodes g cur) d queue) as [[b1 d1] q1] eqn:E.
    pose proof (levelGraph_scan_levels g source sink cur _ _ _ _ _ _ E) as H.
    destruct b1.
    + injection Hrun as <- <-. exists (depthAt d cur). apply H; [|done].
      intros v Hv%findAdjacentNodes_spec. split; [|done].
      by destruct (sl_cur _ _ _ _ _ _ Hscan).
    + apply (IH _ _ (depthAt d1 cur) _ _ Hrun).
      apply scanLevels_loop, H; [|done].
      intros v Hv%findAdjacentNodes_spec. split; [|done].
      by destruct (sl_cur _ _ _ _ _ _ Hscan).
Qed.

Lemma loopLevels_init (g : Graph) (source : nat) :
  (source < totalNodes g)%nat →
  loopLevels g source (<[source := 0]> (replicate (totalNodes g) (-1)))
    [source] 0.
Proof.
  intros Hs.
  set (d0 := <[source := 0]> (replicate (totalNodes g) (-1))).
  assert (Hsrc : depthAt d0 source = 0).
  { apply depthAt_insert_eq. rewrite length_replicate. lia. }
  assert (Hother : ∀ v, (v < totalNodes g)%nat → visited d0 v → v = source).
  { intros v Hlt Hv. destruct (decide (v = source)) as [|Hne]; [done|].
    exfalso. apply Hv. unfold d0.
    rewrite depthAt_insert_ne, depthAt_replicate; auto. }
  split.
  - split.
    + done.
    + unfold d0. by rewrite length_insert, length_replicate.
    + intros v Hlt Hv. rewrite (Hother v Hlt Hv). lia.
    + intros v Hlt Hv. rewrite (Hother v Hlt Hv). lia.
    + intros v k Hw Hk. assert (k = 0%nat) as -> by lia.
      inversion Hw; subst. split; [unfold visited|]; lia.
  - split.
    + intros q ->%list_elem_of_singleton. split; [done|].
      split; [unfold visited|]; lia.
    + intros i j qi qj Hi Hj _.
      apply list_lookup_singleton_Some in Hi as [_ <-].
      apply list_lookup_singleton_Some in Hj as [_ <-]. lia.
  - intros u v Hu (Hlt & _ & _). right.
    rewrite (Hother u Hlt Hu). by left.
Qed.

(** The depths that [levelGraph] leaves satisfy the bounds of a search by
    levels. *)
Lemma levelGraph_levels (fuel : nat) (ff : FordFulkerson) (source sink : nat)
    (b : bool) (d : list Z) :
  (source < totalNodes (graph ff))%nat →
  levelGraph fuel ff source sink = Some (b, setDepth ff d) →
  ∃ D, levelBounds (graph ff) source d D.
Proof.
  intros Hsrc Hrun. unfold levelGraph, getNodes in Hrun.
  destruct (levelGraph_loop fuel (graph ff) sink _ [source])
    as [[b' d']|] eqn:Hloop; [|done].
  assert (d' = d) as -> by (by injection Hrun as _ Hd).
  exact (levelGraph_loop_levels (graph ff) source sink fuel _ _ 0 _ _ Hloop
           (loopLevels_init (graph ff) source Hsrc)).
Qed.

(** C6, as stated, fails when the source is the sink: the sink then has
    depth 0 from the start and can be reached (here even by the cycle
    0 -> 1 -> 0), but [levelGraph] returns false. *)
Lemma levelGraph_source_is_sink_counterexample :
  ∃ ff',
    levelGraph 3
      (newFordFulkerson (createEdge (createEdge (newGraph 0) 0 1 1) 1 0 1))
      0 0 = Some (false, ff')
    ∧ depthAt (depth ff') 0 = 0
    ∧ edge (createEdge (createEdge (newGraph 0) 0 1 1) 1 0 1) 0 1
    ∧ edge (createEdge (createEdge (newGraph 0) 0 1 1) 1 0 1) 1 0
    ∧ reachable (createEdge (createEdge (newGraph 0) 0 1 1) 1 0 1) 0 0.
Proof.
  eexists. split; [reflexivity|]. split; [done|].
  assert (H01 : edge (createEdge (createEdge (newGraph 0) 0 1 1) 1 0 1) 0 1)
    by (vm_compute; repeat split; lia).
  assert (H10 : edge (createEdge (createEdge (newGraph 0) 0 1 1) 1 0 1) 1 0)
    by (vm_compute; repeat split; lia).
  split; [done|]. split; [done|].
  eapply reachable_step; [|exact H10].
  eapply reachable_step; [|exact H01]. constructor.
Qed.

(** C6 (amended): for a source and a sink in range and different from each
    other, [levelGraph] (given an iteration of fuel per node) is a
    breadth-first search from the source along edges of positive capacity:
    the source gets depth 0, every other node that gets a depth gets that of
    a parent plus 1, only reachable nodes get a depth, and the other entries
    stay -1.  The search goes by levels: the depth of a node is the length
    of a shortest walk from the source to it, so that a walk of that many
    edges of positive capacity leads to it and no walk with fewer edges
    does.  It returns true exactly when the sink can be reached, which is
    exactly when the sink gets a depth; the scan of the neighbours stops at
    the sink, whatever neighbours and queue entries are left.  When it
    returns false every reachable node has a depth.  When the source is the
    sink it returns false. *)
Theorem levelGraph_spec (fuel : nat) (ff : FordFulkerson) (source sink : nat) :
  (source < totalNodes (graph ff))%nat →
  (sink < totalNodes (graph ff))%nat →
  (totalNodes (graph ff) < fuel)%nat →
  ∃ b d,
    levelGraph fuel ff source sink = Some (b, setDepth ff d)
    ∧ length d = totalNodes (graph ff)
    ∧ depthAt d source = 0
    ∧ (∀ v, depthAt d v = -1 ∨ 0 ≤ depthAt d v)
    ∧ (∀ v, (v < totalNodes (graph ff))%nat → visited d v → v ≠ source →
            ∃ u, edge (graph ff) u v ∧ visited d u
                 ∧ depthAt d v = depthAt d u + 1)
    ∧ (∀ v, (v < totalNodes (graph ff))%nat → visited d v →
            reachable (graph ff) source v)
    ∧ (∀ v, (v < totalNodes (graph ff))%nat → visited d v →
            walk (graph ff) source v (Z.to_nat (depthAt d v))
            ∧ ∀ k, walk (graph ff) source v k →
                   (Z.to_nat (depthAt d v) ≤ k)%nat)
    ∧ (source ≠ sink →
         (b = true ↔ reachable (graph ff) source sink)
         ∧ (b = true ↔ visited d sink)
         ∧ (b = false →
              ∀ v, (v < totalNodes (graph ff))%nat →
                   (visited d v ↔ reachable (graph ff) source v)))
    ∧ (source = sink → b = false)
    ∧ (∀ m cur pre post d0 queue0 d1 queue1,
         levelGraph_scan m sink cur pre d0 queue0 = (false, d1, queue1) →
         depthAt d1 sink = -1 → 0 < Matrix.get m cur sink →
         levelGraph_scan m sink cur (pre ++ sink :: post) d0 queue0
         = (true, <[sink := depthAt d1 cur + 1]> d1, queue1))
    ∧ (∀ fuel' g cur d0 queue0 d1 queue1,
         levelGraph_scan (getAdjacencyMatrix g) sink cur
           (findAdjacentNodes g cur) d0 queue0 = (true, d1, queue1) →
         levelGraph_loop (S fuel') g sink d0 (cur :: queue0) = Some (true, d1)).
Proof.
  intros Hsrc Hsnk Hfuel.
  destruct (levelGraph_result fuel ff source sink Hsrc Hsnk Hfuel)
    as (b & d & Hrun & Htree & Htrue & Hfalse).
  exists b, d. split; [done|].
  split; [apply Htree|]. split; [apply Htree|]. split; [apply Htree|].
  split; [apply Htree|]. split; [apply Htree|].
  split; [|split; [|split; [|split]]].
  - destruct (levelGraph_levels fuel ff source sink b d Hsrc Hrun) as [D Hb].
    intros v Hlt Hv.
    assert (Hnn : 0 ≤ depthAt d v) by (by apply (lb_nonneg _ _ _ _ Hb)).
    split.
    + apply (bfsTree_walk (graph ff) source d Htree); [done|done|lia].
    + intros k Hw.
      pose proof (levelBounds_shortest (graph ff) source d D v k Hsrc Hb Hv Hw).
      lia.
  - intros Hne. destruct b.
    + destruct (Htrue eq_refl) as [_ Hv].
      split; [|done]. split; [|done]. intros _. by apply (bfs_reach _ _ _ Htree).
    + destruct (Hfalse eq_refl) as [Hclosed Hnv].
      assert (Hnot : ¬ visited d sink) by (apply Hnv; congruence).
      split; [|split].
      * split; [done|]. intros Hr. destruct Hnot. by eapply closed_reachable.
      * split; [done|]. intros Hv. by destruct Hnot.
      * intros _ v Hv. split; [by apply (bfs_reach _ _ _ Htree)|].
        by eapply closed_reachable.
  - intros ->. destruct b; [|done]. by destruct (Htrue eq_refl).
  - intros m cur pre post d0 queue0 d1 queue1 Hpre Hd1 Hcap.
    rewrite levelGraph_scan_app, Hpre. cbn [levelGraph_scan].
    rewrite Hd1, (proj2 (Z.ltb_lt _ _) Hcap), Nat.eqb_refl. done.
  - intros fuel' g cur d0 queue0 d1 queue1 Hscan.
    cbn [levelGraph_loop]. by rewrite Hscan.
Qed.

Lemma levelGraph_spec_witness :
  ∃ d,
    levelGraph 5
      (newFordFulkerson (connectSourceAndSinkNodes (fileRead 2 [(1, 2)%nat]) 0 3))
      0 3
    = Some (true,
            setDepth
              (newFordFulkerson
                 (connectSourceAndSinkNodes (fileRead 2 [(1, 2)%nat]) 0 3)) d)
    ∧ reachable (connectSourceAndSinkNodes (fileRead 2 [(1, 2)%nat]) 0 3) 0 3
    ∧ depthAt d 3 = 3
    ∧ walk (connectSourceAndSinkNodes (fileRead 2 [(1, 2)%nat]) 0 3) 0 3 3
    ∧ ∀ k, walk (connectSourceAndSinkNodes (fileRead 2 [(1, 2)%nat]) 0 3) 0 3 k →
           (3 ≤ k)%nat.
Proof.
  destruct (levelGraph_spec 5
              (newFordFulkerson
                 (connectSourceAndSinkNodes (fileRead 2 [(1, 2)%nat]) 0 3)) 0 3)
    as (b & d & Hrun & _ & _ & _ & _ & _ & Hdist & Hne & _ & _ & _);
    [vm_compute; lia|vm_compute; lia|vm_compute; lia|].
  destruct (Hne ltac:(lia)) as [Hiff _].
  assert (Hb : b = true).
  { vm_compute in Hrun. destruct b; [reflexivity|discriminate Hrun]. }
  assert (Hd : depthAt d 3 = 3).
  { vm_compute in Hrun. injection Hrun as _ <-. reflexivity. }
  exists d. split; [by rewrite <- Hb|]. split; [by apply Hiff|].
  split; [exact Hd|].
  destruct (Hdist 3%nat) as [Hwalk Hmin].
  { vm_compute; lia. }
  { unfold visited. rewrite Hd. discriminate. }
  rewrite Hd in Hwalk, Hmin. split; [exact Hwalk|exact Hmin].
Defined.

(** ** Termination and idempotence of [calculateMaxFlow] *)

Lemma calculateMaxFlow_returns (fuel : nat) (ff : FordFulkerson)
    (source sink : nat) :
  wfGraph (graph ff) →
  (source < totalNodes (graph ff))%nat →
  (sink < totalNodes (graph ff))%nat →
  enoughFuel (graph ff) source fuel →
  ∃ st ff',
    calculateMaxFlow fuel ff (Z.of_nat source) (Z.of_nat sink) = Returned st ff'
    ∧ wfGraph (graph ff')
    ∧ totalNodes (graph ff') = totalNodes (graph ff)
    ∧ nodes (graph ff') = nodes (graph ff)
    ∧ levelGraph fuel ff' source sink = Some (false, ff')
    ∧ bfsTree (graph ff') source (depth ff')
    ∧ closedExcept (graph ff') (depth ff') (λ _ _, False)
    ∧ (sink ≠ source → ¬ visited (depth ff') sink)
    ∧ Z.of_nat (pushed st) =
        sourceCapacity (graph ff) source - sourceCapacity (graph ff') source
    ∧ (phases st ≤ pushed st)%nat.
Proof.
  intros Hwf Hsrc Hsnk Hfuel.
  destruct (calculateMaxFlow_run (λ _, True) fuel ff source sink)
    as (st & ff' & H0 & H1 & _ & H); try done.
  by exists st, ff'.
Qed.

(** C7: when the sink cannot be reached from the source, [calculateMaxFlow]
    performs no phase, pushes nothing and returns the graph as it was (only
    the depth vector is rewritten); in particular a second call after a
    completed one does so. *)
Theorem calculateMaxFlow_idempotent (fuel : nat) (ff : FordFulkerson)
    (source sink : nat) :
  wfGraph (graph ff) →
  (source < totalNodes (graph ff))%nat →
  (sink < totalNodes (graph ff))%nat →
  enoughFuel (graph ff) source fuel →
  (¬ reachable (graph ff) source sink →
   ∃ ff',
     calculateMaxFlow fuel ff (Z.of_nat source) (Z.of_nat sink)
       = Returned (mkStats 0 0) ff'
     ∧ graph ff' = graph ff ∧ maxFlow ff' = maxFlow ff)
  ∧ (∀ st ff',
       calculateMaxFlow fuel ff (Z.of_nat source) (Z.of_nat sink)
         = Returned st ff' →
       calculateMaxFlow fuel ff' (Z.of_nat source) (Z.of_nat sink)
         = Returned (mkStats 0 0) ff').
Proof.
  intros Hwf Hsrc Hsnk [Hfuel HΦ].
  assert (Hpos : ∃ fuel', fuel = S fuel') by (exists (pred fuel); nia).
  destruct Hpos as [fuel' ->].
  assert (Hstop : ∀ ff0 ff1,
    (source < totalNodes (graph ff0))%nat → (sink < totalNodes (graph ff0))%nat →
    levelGraph (S fuel') ff0 source sink = Some (false, ff1) →
    calculateMaxFlow (S fuel') ff0 (Z.of_nat source) (Z.of_nat sink)
      = Returned (mkStats 0 0) ff1).
  { intros ff0 ff1 H1 H2 Hlevel. unfold calculateMaxFlow.
    rewrite (proj2 (inRange_of_nat _ source) H1),
            (proj2 (inRange_of_nat _ sink) H2). cbn [andb].
    rewrite !Nat2Z.id. cbn [calculateMaxFlow_loop]. by rewrite Hlevel. }
  split.
  - intros Hnr.
    destruct (levelGraph_result (S fuel') ff source sink Hsrc Hsnk)
      as (b & d & Hrun & Htree & Htrue & _); [nia|].
    destruct b.
    + destruct (Htrue eq_refl) as [_ Hv]. destruct Hnr.
      by apply (bfs_reach _ _ _ Htree).
    + exists (setDepth ff d). split; [by apply Hstop|done].
  - intros st ff' Hrun.
    destruct (calculateMaxFlow_returns (S fuel') ff source sink)
      as (st0 & ff0 & Hrun0 & _ & HN & _ & Hlevel & _); try done.
    rewrite Hrun0 in Hrun. injection Hrun as -> ->.
    apply Hstop; [by rewrite HN|by rewrite HN|done].
Qed.

Lemma calculateMaxFlow_idempotent_witness :
  ∃ st ff',
    calculateMaxFlow 30
      (newFordFulkerson (connectSourceAndSinkNodes (fileRead 2 [(1, 2)%nat]) 0 3))
      0 3 = Returned st ff'
    ∧ calculateMaxFlow 30 ff' 0 3 = Returned (mkStats 0 0) ff'.
Proof.
  eexists _, _. split; [vm_compute; reflexivity|].
  refine (proj2 (calculateMaxFlow_idempotent 30
            (newFordFulkerson
               (connectSourceAndSinkNodes (fileRead 2 [(1, 2)%nat]) 0 3)) 0 3
            _ _ _ _) _ _ _).
  - apply square_set, square_set, square_set, square_zero.
  - vm_compute; lia.
  - vm_compute; lia.
  - split; vm_compute; [lia|reflexivity].
  - vm_compute; reflexivity.
Defined.

(** ** Dead ends *)

Section DeadEnds.

Variable source sink : nat.

Lemma updateAlong_found (s s' : Search) (ff2 : FordFulkerson) :
  searchInv source sink s → searchStep source sink s s' → sNode s' = sink →
  updateAlong (sFF s') (consecutive (sPath s' ++ [sink])) = Returned tt ff2 →
  searchInv source sink s'
  ∧ fullPath s' = sPath s' ++ [sink]
  ∧ ff2 = setGraph (sFF s') (pushAll (graph (sFF s')) (consecutive (fullPath s'))).
Proof.
  intros Hinv Hstep Hsink Hup.
  destruct (searchEnd_found source sink s (sFF s') (sPath s' ++ [sink]) Hinv)
    as (s1 & Hstep1 & Hinv1 & _ & Hff & Hpath & _).
  { right. right. destruct Hstep as [Hne Hrun]. split; [done|].
    exists s'. done. }
  destruct Hstep as [_ Hrun]. destruct Hstep1 as [_ Hrun1].
  rewrite Hrun in Hrun1. injection Hrun1 as <-.
  split; [done|]. split; [done|].
  rewrite updateAlong_in_range in Hup.
  - injection Hup as <-. by rewrite Hpath.
  - intros u v Huv. rewrite Hpath in Huv.
    by apply (levelChain_consecutive_range _ _ _ _ (si_chain _ _ _ Hinv1)).
Qed.

Lemma searchInv_phaseStep (s s' : Search) :
  searchInv source sink s → phaseStep source sink s s' →
  searchInv source sink s'.
Proof.
  intros Hinv Hphase.
  inversion Hphase as [s0 s1 Hstep Hn E1 E2|s0 s1 ff2 Hstep Hsink Hup E1 E2];
    subst s0; subst s'.
  - by destruct (searchInv_searchStep _ _ _ _ Hinv Hstep).
  - destruct (updateAlong_found _ _ _ Hinv Hstep Hsink Hup) as (Hinv1 & _ & ->).
    destruct (pushAll_totalNodes (consecutive (fullPath s1)) (graph (sFF s1)))
      as [HN _].
    apply searchInv_init; cbn [graph maxFlow depth setGraph].
    + rewrite HN. apply Hinv1.
    + rewrite HN. apply (lc_depth _ _ (si_chain _ _ _ Hinv1) 0%nat).
      apply Hinv1.
    + by apply (searchInv_source_depth source sink s1).
Qed.

Lemma searchInv_phase_rtc (s s' : Search) :
  searchInv source sink s → rtc (phaseStep source sink) s s' →
  searchInv source sink s'.
Proof.
  intros Hinv Hrtc. induction Hrtc as [|s s1 s2 Hstep _ IH]; [done|].
  apply IH. by eapply searchInv_phaseStep.
Qed.

(** An abandoned node that is not on the path stays so through a step of
    the search. *)
Lemma abandoned_searchStep (v : nat) (s s' : Search) :
  searchInv source sink s → searchStep source sink s s' →
  abandoned (sFF s) v → (v ∉ fullPath s) →
  abandoned (sFF s') v ∧ (v ∉ fullPath s') ∧ sNode s' ≠ v.
Proof.
  intros Hinv Hstep Hab Hnot.
  destruct (searchInv_searchStep _ _ _ _ Hinv Hstep) as (Hinv' & _).
  assert (Hcur : (v ∉ fullPath s') → sNode s' ≠ v).
  { intros Hn Heq. apply Hn. rewrite <- Heq.
    eapply last_Some_elem_of, si_last. exact Hinv'. }
  destruct Hstep as [Hns Hrun]. apply findNextNodeInPath_cases in Hrun.
  inversion Hrun as [nb Hadm| |Hnone Hne]; subst; clear Hrun.
  - assert (Hpath : v ∉ fullPath (mkSearch (sFF s) nb (fullPath s) false)).
    { change (fullPath (mkSearch (sFF s) nb (fullPath s) false))
        with (fullPath s ++ [nb]).
      intros [Hin|Hin%list_elem_of_singleton]%elem_of_app; [done|]. subst nb.
      destruct Hadm as [_ Hadm]. apply admissible_true in Hadm as [_ Hpos].
      rewrite (Hab (sNode s)) in Hpos. lia. }
    split; [done|]. split; [done|]. by apply Hcur.
  - pose proof (searchInv_node source sink s Hinv) as Hnode.
    destruct (lc_depth _ _ (si_chain _ _ _ Hinv) _ _ Hnode) as [Hlt _].
    match goal with |- _ ∧ (_ ∉ fullPath ?s1) ∧ _ =>
      assert (Hpath : v ∉ fullPath s1) end.
    { intros Hin%elem_of_removelast. done. }
    split; [|split; [done|by apply Hcur]].
    intros u. cbn [sFF].
    rewrite clearMaxFlowAtNode_get; [|apply Hinv|done].
    case_decide; [done|apply Hab].
Qed.

Lemma abandoned_phaseStep (v : nat) (s s' : Search) :
  searchInv source sink s → phaseStep source sink s s' →
  v ≠ source → abandoned (sFF s) v → (v ∉ fullPath s) →
  abandoned (sFF s') v ∧ (v ∉ fullPath s') ∧ sNode s' ≠ v.
Proof.
  intros Hinv Hphase Hv Hab Hnot.
  inversion Hphase as [s0 s1 Hstep Hn E1 E2|s0 s1 ff2 Hstep Hsink Hup E1 E2];
    subst s0; subst s'.
  - by eapply abandoned_searchStep.
  - destruct (abandoned_searchStep v s s1 Hinv Hstep Hab Hnot) as (Hab1 & _).
    destruct (updateAlong_found _ _ _ Hinv Hstep Hsink Hup) as (_ & _ & ->).
    split; [done|]. cbn [sNode]. split; [|done].
    intros Hin%list_elem_of_singleton. done.
Qed.

Lemma abandoned_phase_rtc (v : nat) (s s' : Search) :
  searchInv source sink s → rtc (phaseStep source sink) s s' →
  v ≠ source → abandoned (sFF s) v → (v ∉ fullPath s) →
  abandoned (sFF s') v ∧ (v ∉ fullPath s').
Proof.
  intros Hinv Hrtc Hv. induction Hrtc as [|s s1 s2 Hstep _ IH]; [done|].
  intros Hab Hnot.
  destruct (abandoned_phaseStep v s s1 Hinv Hstep Hv Hab Hnot) as (H1 & H2 & _).
  apply IH; [by eapply searchInv_phaseStep|done|done].
Qed.

(** The loops of [findAugmentingPath] and [augmentFlowAlongPath] go through
    states related by [phaseStep]. *)
Lemma findAugmentingPath_loop_phase (fuel : nat) :
  ∀ s r, findAugmentingPath_loop fuel s source sink = Some r →
         ∃ s1, rtc (phaseStep source sink) s s1 ∧ searchEnd source sink s1 r.
Proof.
  induction fuel as [|fuel IH]; intros s r; simpl; [done|].
  destruct (Nat.eqb_spec (sNode s) sink) as [Heq|Hne].
  - intros [= <-]. exists s. split; [done|]. by left.
  - destruct (findNextNodeInPath s source) as [[|] s'] eqn:E.
    + destruct (Nat.eqb_spec (sNode s') sink) as [Heq'|Hne'].
      * intros [= <-]. exists s. split; [done|]. right. right.
        split; [done|]. by exists s'.
      * intros Hr. destruct (IH s' r Hr) as (s1 & Hrtc & Hend).
        exists s1. split; [|done]. eapply rtc_l; [|exact Hrtc].
        by apply phase_search.
    + intros [= <-]. exists s. split; [done|]. right. left.
      split; [done|]. by exists s'.
Qed.

Lemma augmentFlowAlongPath_loop_phase (fuel0 fuel : nat) :
  ∀ ff flows flows' ff',
    augmentFlowAlongPath_loop fuel0 fuel ff [] source sink flows
      = Returned flows' ff' →
    ∃ s p, rtc (phaseStep source sink) (mkSearch ff source [] false) s
           ∧ searchEnd source sink s (false, ff', p).
Proof.
  induction fuel as [|fuel IH]; intros ff flows flows' ff';
    cbn [augmentFlowAlongPath_loop]; [done|].
  destruct (findAugmentingPath fuel0 ff [] source sink) as [[[b ff1] p1]|] eqn:E;
    [|done].
  apply findAugmentingPath_loop_phase in E as (s1 & Hrtc & Hend).
  destruct b.
  - destruct (updateAlong ff1 (consecutive p1)) as [[] ff2| |] eqn:Hup;
      [|done|done].
    intros Hloop. destruct (IH _ _ _ _ Hloop) as (s & p & Hrtc2 & Hend2).
    exists s, p. split; [|done].
    destruct Hend as [[_ [=]]|[(_ & s' & _ & [=])|(Hne & s' & Hstep & Hsink & [= -> ->])]].
    etrans; [exact Hrtc|]. eapply rtc_l; [|exact Hrtc2].
    by apply (phase_commit source sink s1 s' ff2).
  - intros [= <- <-]. by exists s1, p1.
Qed.

End DeadEnds.

(** C3: in a state of the path search whose cursor is not the source (nor
    the sink, for which the loop of [findAugmentingPath] never calls) and
    has no admissible neighbour, that is, no node among
    [findAdjacentNodes(cursor)] of the graph that lies one level deeper and
    has capacity left in the snapshot, [findNextNodeInPath] zeroes the
    column of the cursor in the snapshot and nothing else, pops the cursor
    off the path, makes the last node of the remaining path (the
    predecessor) the cursor, and sets the backtracking flag, so that the
    next call does not append the cursor again.  From then on and through
    every later step of the phase (searches and commits) the column stays
    zero, and the node is never the cursor nor on the path again.  A node
    one level deeper with capacity left in the snapshot does not prevent
    the dead end when the commits of the phase have used up the edge to it
    in the graph. *)
Theorem dead_end_is_abandoned (source sink : nat) (s : Search) :
  searchInv source sink s →
  sNode s ≠ sink → sNode s ≠ source →
  (∀ v, ¬ admissibleEdge (sFF s) (sNode s) v) →
  ∃ s',
    findNextNodeInPath s source = (true, s')
    ∧ graph (sFF s') = graph (sFF s) ∧ depth (sFF s') = depth (sFF s)
    ∧ (∀ u v, Matrix.get (maxFlow (sFF s')) u v =
              if decide (v = sNode s) then 0
              else Matrix.get (maxFlow (sFF s)) u v)
    ∧ sPath s' = removelast (fullPath s)
    ∧ last (sPath s') = Some (sNode s')
    ∧ fullPath s !! pred (pred (length (fullPath s))) = Some (sNode s')
    ∧ sBacktracking s' = true
    ∧ fullPath s' = sPath s'
    ∧ (∀ s'', rtc (phaseStep source sink) s' s'' →
              abandoned (sFF s'') (sNode s)
              ∧ sNode s'' ≠ sNode s
              ∧ (sNode s ∉ fullPath s'')).
Proof.
  intros Hinv Hns Hne Hnone.
  destruct (findNextNodeInPath s source) as [b s'] eqn:Hrun.
  pose proof (findNextNodeInPath_cases _ _ _ _ Hrun) as Hcase.
  inversion Hcase as [nb Hadm|Hn Hsrc|Hn _]; subst.
  - exfalso. by apply (Hnone nb).
  - done.
  - assert (Hstep : searchStep source sink s
              (mkSearch (clearMaxFlowAtNode (sFF s) (sNode s))
                 (default (sNode s) (last (removelast (fullPath s))))
                 (removelast (fullPath s)) true)) by done.
    destruct (searchInv_searchStep _ _ _ _ Hinv Hstep) as (Hinv' & Hg & Hd).
    pose proof (searchInv_node source sink s Hinv) as Hnode.
    destruct (lc_depth _ _ (si_chain _ _ _ Hinv) _ _ Hnode) as [Hlt _].
    pose proof (si_last _ _ _ Hinv') as Hlast.
    change (fullPath (mkSearch (clearMaxFlowAtNode (sFF s) (sNode s))
                 (default (sNode s) (last (removelast (fullPath s))))
                 (removelast (fullPath s)) true))
      with (removelast (fullPath s)) in Hlast.
    eexists. split; [reflexivity|]. cbn [sFF sNode sPath sBacktracking] in *.
    split; [done|]. split; [done|].
    assert (Hcol : ∀ u v,
      Matrix.get (maxFlow (clearMaxFlowAtNode (sFF s) (sNode s))) u v =
      if decide (v = sNode s) then 0 else Matrix.get (maxFlow (sFF s)) u v).
    { intros u v. apply clearMaxFlowAtNode_get; [apply Hinv|done]. }
    split; [done|]. split; [done|]. split; [done|].
    split.
    { set (x := default (sNode s) (last (removelast (fullPath s)))) in *.
      clearbody x. rewrite last_lookup, length_removelast in Hlast.
      by apply lookup_removelast in Hlast as [Hl _]. }
    split; [done|]. split; [done|].
    intros s'' Hrtc.
    assert (Hnotin : sNode s ∉ removelast (fullPath s)).
    { intros [i Hi]%list_elem_of_lookup.
      apply lookup_removelast in Hi as [Hi Hlen].
      pose proof (levelChain_NoDup _ _ (si_chain _ _ _ Hinv)) as Hnd.
      assert (i = pred (length (fullPath s))) by (eapply NoDup_alt; eauto).
      lia. }
    assert (Hab : abandoned (clearMaxFlowAtNode (sFF s) (sNode s)) (sNode s)).
    { intros u. rewrite Hcol. by rewrite decide_True. }
    destruct (abandoned_phase_rtc source sink (sNode s) _ s'' Hinv' Hrtc)
      as [H1 H2]; try done.
    split; [done|]. split; [|done].
    pose proof (searchInv_phase_rtc source sink _ s'' Hinv' Hrtc) as Hinv''.
    intros Heq. apply H2. rewrite <- Heq.
    eapply last_Some_elem_of, si_last. exact Hinv''.
Qed.

(** ** The commit of a found path *)

Lemma fold_min_spec {A} (f : A → Z) (l : list A) :
  ∀ a,
    fold_left (λ acc x, Z.min acc (f x)) l a ≤ a
    ∧ (∀ x, x ∈ l → fold_left (λ acc x, Z.min acc (f x)) l a ≤ f x)
    ∧ (fold_left (λ acc x, Z.min acc (f x)) l a = a
       ∨ ∃ x, x ∈ l ∧ fold_left (λ acc x, Z.min acc (f x)) l a = f x).
Proof.
  induction l as [|y l IH]; intros a; simpl.
  - split; [lia|]. split; [|by left]. by intros x ?%elem_of_nil.
  - destruct (IH (Z.min a (f y))) as (H1 & H2 & H3).
    split; [lia|]. split.
    + intros x [->|Hx]%elem_of_cons; [lia|by apply H2].
    + destruct H3 as [H3|(x & Hx & H3)].
      * destruct (Z.min_spec a (f y)) as [[_ E]|[_ E]].
        -- left. by rewrite H3.
        -- right. exists y. split; [by left|]. by rewrite H3.
      * right. exists x. split; [by right|done].
Qed.

Lemma pathFlowOf_spec (ff : FordFulkerson) (p : list nat) :
  pathFlowOf ff p ≤ INT_MAX
  ∧ (∀ u v, (u, v) ∈ consecutive p →
            pathFlowOf ff p ≤ Matrix.get (maxFlow ff) u v)
  ∧ (pathFlowOf ff p = INT_MAX
     ∨ ∃ u v, (u, v) ∈ consecutive p
              ∧ pathFlowOf ff p = Matrix.get (maxFlow ff) u v).
Proof.
  unfold pathFlowOf.
  assert (Heq : ∀ l a,
    fold_left (λ pathFlow '(u, v), Z.min pathFlow (Matrix.get (maxFlow ff) u v)) l a
    = fold_left (λ acc x, Z.min acc (Matrix.get (maxFlow ff) x.1 x.2)) l a).
  { induction l as [|[u v] l IH]; intros a; simpl; [done|]. apply IH. }
  rewrite Heq.
  destruct (fold_min_spec (λ x, Matrix.get (maxFlow ff) x.1 x.2)
              (consecutive p) INT_MAX) as (H1 & H2 & H3).
  split; [done|]. split.
  - intros u v Huv. apply (H2 (u, v) Huv).
  - destruct H3 as [H3|([u v] & Hx & H3)]; [by left|].
    right. by exists u, v.
Qed.

Lemma consecutive_no_reverse (p : list nat) (u v : nat) :
  NoDup p → (u, v) ∈ consecutive p → (v, u) ∉ consecutive p.
Proof.
  intros Hnd (i & H1 & H2)%elem_of_consecutive (j & H3 & H4)%elem_of_consecutive.
  assert (i = S j) by (eapply NoDup_alt; eauto).
  assert (S i = j) by (eapply NoDup_alt; eauto).
  lia.
Qed.

(** C10: for every path that [findAugmentingPath] finds, with the entries
    of the snapshot along it at most [INT_MAX] and the capacities against it
    below [INT_MAX] (the values of an [int], and room for the increment),
    the first loop of [augmentFlowAlongPath] computes the bottleneck of the
    path in the snapshot (at most the capacity of each of its edges, and
    that of one of them), which only enters the record of the model; the
    second loop takes exactly 1 from [capacity[u][v]], which is positive,
    and adds exactly 1 to [capacity[v][u]] for every consecutive pair
    [(u, v)] of the path and leaves the other entries, the snapshot and the
    depths as they are; then the loop goes on from the graph so
    obtained. *)
Theorem augmentFlowAlongPath_pushes_one_unit (fuel : nat)
    (ff ff1 : FordFulkerson) (source sink : nat) (p : list nat) :
  wfGraph (graph ff) →
  Matrix.square (totalNodes (graph ff)) (maxFlow ff) →
  (source < totalNodes (graph ff))%nat →
  depthAt (depth ff) source = 0 →
  findAugmentingPath fuel ff [] source sink = Some (true, ff1, p) →
  (∀ u v, (u, v) ∈ consecutive p →
          Matrix.get (maxFlow ff1) u v ≤ INT_MAX
          ∧ capacity (graph ff) v u < INT_MAX) →
  ∃ ff2,
    updateAlong ff1 (consecutive p) = Returned tt ff2
    ∧ graph ff1 = graph ff
    ∧ maxFlow ff2 = maxFlow ff1 ∧ depth ff2 = depth ff1
    ∧ (∀ u v, (u, v) ∈ consecutive p →
         0 < capacity (graph ff1) u v
         ∧ capacity (graph ff2) u v = capacity (graph ff1) u v - 1
         ∧ capacity (graph ff2) v u = capacity (graph ff1) v u + 1
         ∧ 0 ≤ capacity (graph ff2) u v
         ∧ capacity (graph ff2) v u ≤ INT_MAX)
    ∧ (∀ u v, (u, v) ∉ consecutive p → (v, u) ∉ consecutive p →
         capacity (graph ff2) u v = capacity (graph ff1) u v)
    ∧ (∀ u v, (u, v) ∈ consecutive p →
         pathFlowOf ff1 p ≤ Matrix.get (maxFlow ff1) u v)
    ∧ (∃ u v, (u, v) ∈ consecutive p
              ∧ pathFlowOf ff1 p = Matrix.get (maxFlow ff1) u v)
    ∧ (∀ flows fuel',
         augmentFlowAlongPath_loop fuel (S fuel') ff [] source sink flows
         = augmentFlowAlongPath_loop fuel fuel' ff2 [] source sink
             (flows ++ [pathFlowOf ff1 p])).
Proof.
  intros Hwf Hsq Hsrc Hd Hrun Hint.
  destruct (findAugmentingPath_result _ _ _ _ _ _ _ Hsq Hsrc Hd Hrun)
    as (Hg1 & Hd1 & Hsq1 & Hfound).
  destruct (Hfound eq_refl) as (Hchain & Hhead & Hlast & Hne).
  pose proof (levelChain_NoDup _ _ Hchain) as Hnd.
  pose proof (levelChain_augmenting ff1 p source sink Hchain Hhead Hlast Hne)
    as Haug.
  assert (Hrange : ∀ u v, (u, v) ∈ consecutive p →
            (u < totalNodes (graph ff1))%nat ∧ (v < totalNodes (graph ff1))%nat)
    by (intros u v; by apply levelChain_consecutive_range).
  assert (Hwf1 : wfGraph (graph ff1)) by (by rewrite Hg1).
  exists (setGraph ff1 (pushAll (graph ff1) (consecutive p))).
  assert (Hup : updateAlong ff1 (consecutive p)
                = Returned tt (setGraph ff1 (pushAll (graph ff1) (consecutive p))))
    by (by apply updateAlong_in_range).
  split; [done|]. split; [done|]. split; [done|]. split; [done|].
  cbn [graph setGraph].
  destruct (pathFlowOf_spec ff1 p) as (_ & Hle & Hmin).
  split; [|split; [|split; [done|split]]].
  - intros u v Huv. rewrite !pushAll_capacity by done.
    rewrite (occ_consecutive_one p u v) by done.
    rewrite (occ_zero (v, u)) by (by apply consecutive_no_reverse).
    pose proof (aug_edges _ _ _ _ Haug u v Huv) as Hpos.
    destruct (Hint u v Huv) as [_ Hroom]. rewrite <- Hg1 in Hroom. lia.
  - intros u v H1 H2. rewrite pushAll_capacity by done.
    rewrite !occ_zero by done. lia.
  - destruct Hmin as [Hmax|Hmin]; [|done].
    destruct (augmenting_second _ _ _ _ Haug) as [p1 Hp1].
    assert (Hpair : (source, p1) ∈ consecutive p).
    { apply elem_of_consecutive. by exists 0%nat. }
    exists source, p1. split; [done|].
    pose proof (Hle source p1 Hpair). destruct (Hint source p1 Hpair) as [? _].
    lia.
  - intros flows fuel'. cbn [augmentFlowAlongPath_loop].
    by rewrite Hrun, Hup.
Qed.

Lemma augmentFlowAlongPath_pushes_one_unit_witness :
  ∃ ff1 ff2,
    findAugmentingPath 9
      (mkFF [0; 1] [[0; 5]; [0; 0]] (createEdge (newGraph 0) 0 1 5)) [] 0 1
    = Some (true, ff1, [0; 1]%nat)
    ∧ updateAlong ff1 (consecutive [0; 1]%nat) = Returned tt ff2
    ∧ pathFlowOf ff1 [0; 1]%nat = 5
    ∧ capacity (graph ff1) 0 1 = 5
    ∧ capacity (graph ff2) 0 1 = 4 ∧ capacity (graph ff2) 1 0 = 1.
Proof.
  exists (mkFF [0; 1] [[0; 5]; [0; 0]] (createEdge (newGraph 0) 0 1 5)).
  destruct (augmentFlowAlongPath_pushes_one_unit 9
              (mkFF [0; 1] [[0; 5]; [0; 0]] (createEdge (newGraph 0) 0 1 5))
              (mkFF [0; 1] [[0; 5]; [0; 0]] (createEdge (newGraph 0) 0 1 5))
              0 1 [0; 1]%nat)
    as (ff2 & Hup & _ & _ & _ & Hpush & _).
  - apply square_set, square_zero.
  - split; [reflexivity|]. intros [|[|i]] r; simpl; intros [= <-]; reflexivity.
  - vm_compute; lia.
  - reflexivity.
  - vm_compute; reflexivity.
  - intros u v Huv. apply list_elem_of_singleton in Huv.
    injection Huv as -> ->. split; vm_compute; [discriminate|reflexivity].
  - exists ff2. split; [reflexivity|]. split; [exact Hup|].
    split; [reflexivity|]. split; [reflexivity|].
    destruct (Hpush 0%nat 1%nat) as (_ & H1 & H2 & _); [by left|].
    split; [rewrite H1; reflexivity|rewrite H2; reflexivity].
Defined.

(** ** Errors and termination of [calculateMaxFlow] *)

Lemma levelGraph_loop_more_fuel (fuel : nat) :
  ∀ g sink d queue r,
    levelGraph_loop fuel g sink d queue = Some r →
    ∀ k, levelGraph_loop (fuel + k) g sink d queue = Some r.
Proof.
  induction fuel as [|fuel IH]; intros g sink d queue r; [done|].
  intros Hrun k. cbn [Nat.add levelGraph_loop] in *.
  destruct queue as [|cur queue]; [done|].
  destruct (levelGraph_scan _ _ _ _ _ _) as [[[|] d'] queue']; [done|].
  by apply IH.
Qed.

Lemma levelGraph_some (fuel : nat) (ff ff1 : FordFulkerson)
    (source sink : nat) (b : bool) :
  (source < totalNodes (graph ff))%nat →
  (sink < totalNodes (graph ff))%nat →
  levelGraph fuel ff source sink = Some (b, ff1) →
  ∃ d, ff1 = setDepth ff d ∧ bfsTree (graph ff) source d.
Proof.
  intros Hsrc Hsnk. unfold levelGraph.
  destruct (levelGraph_loop _ _ _ _ _) as [[b0 d0]|] eqn:Hloop; [|done].
  intros [= -> <-]. exists d0. split; [done|].
  apply (levelGraph_loop_more_fuel _ _ _ _ _ _) with
    (k := S (totalNodes (graph ff))) in Hloop.
  destruct (levelGraph_result (fuel + S (totalNodes (graph ff))) ff source sink
              Hsrc Hsnk) as (b' & d' & Hrun & Htree & _); [lia|].
  unfold levelGraph in Hrun. rewrite Hloop in Hrun.
  injection Hrun as _ Hd. by rewrite Hd.
Qed.

(** With any fuel, the loops end normally or for lack of fuel: no call of
    [updateResidualGraph] throws. *)
Lemma augmentFlowAlongPath_loop_no_throw (fuel0 fuel : nat)
    (source sink : nat) :
  ∀ (ff : FordFulkerson) (flows : list Z),
  wfGraph (graph ff) →
  Matrix.square (totalNodes (graph ff)) (maxFlow ff) →
  (source < totalNodes (graph ff))%nat →
  depthAt (depth ff) source = 0 →
  match augmentFlowAlongPath_loop fuel0 fuel ff [] source sink flows with
  | Returned _ ff' =>
      wfGraph (graph ff') ∧ totalNodes (graph ff') = totalNodes (graph ff)
  | Thrown _ _ => False
  | OutOfFuel => True
  end.
Proof.
  induction fuel as [|fuel IH]; intros ff flows Hwf Hsq Hsrc Hd; [done|].
  cbn [augmentFlowAlongPath_loop].
  destruct (findAugmentingPath fuel0 ff [] source sink) as [[[b ff1] p]|] eqn:Hrun;
    [|done].
  destruct (findAugmentingPath_result _ _ _ _ _ _ _ Hsq Hsrc Hd Hrun)
    as (Hg1 & Hd1 & Hsq1 & Hfound).
  destruct b; [|by rewrite Hg1].
  destruct (Hfound eq_refl) as (Hchain & _).
  rewrite updateAlong_in_range
    by (intros u v; by apply levelChain_consecutive_range).
  destruct (pushAll_totalNodes (consecutive p) (graph ff1)) as [HN _].
  specialize (IH (setGraph ff1 (pushAll (graph ff1) (consecutive p)))
                 (flows ++ [pathFlowOf ff1 p])).
  cbn [graph maxFlow depth setGraph] in IH. rewrite HN, Hg1, Hd1 in IH.
  rewrite Hg1. apply IH; try done. by apply pushAll_wf.
Qed.

Lemma calculateMaxFlow_loop_no_throw (fuel0 fuel : nat) (source sink : nat) :
  ∀ (ff : FordFulkerson) (st : Stats),
  wfGraph (graph ff) →
  (source < totalNodes (graph ff))%nat →
  (sink < totalNodes (graph ff))%nat →
  ∀ e ff', calculateMaxFlow_loop fuel0 fuel ff source sink st ≠ Thrown e ff'.
Proof.
  induction fuel as [|fuel IH]; intros ff st Hwf Hsrc Hsnk e ff'; [done|].
  cbn [calculateMaxFlow_loop].
  destruct (levelGraph fuel0 ff source sink) as [[[|] ff1]|] eqn:Hlevel;
    [|done|done].
  destruct (levelGraph_some _ _ _ _ _ _ Hsrc Hsnk Hlevel) as (d & -> & Htree).
  unfold augmentFlowAlongPath.
  pose proof (augmentFlowAlongPath_loop_no_throw fuel0 fuel0 source sink
                (setMaxFlow (setDepth ff d)
                   (getAdjacencyMatrix (graph (setDepth ff d)))) []
                Hwf Hwf Hsrc (bfs_source _ _ _ Htree)) as Hloop.
  destruct (augmentFlowAlongPath_loop _ _ _ _ _ _ _) as [flows ff3| |];
    [|done|done].
  cbn [graph setMaxFlow setDepth] in Hloop. destruct Hloop as [Hwf3 HN3].
  apply IH; [done|by rewrite HN3|by rewrite HN3].
Qed.

(** C5, as stated, fails in the kind of the error: the [invalid_argument]
    of the check is thrown inside the [try] block of the function and
    caught by its handler, so that what leaves [calculateMaxFlow] is a
    [runtime_error], with the prefix of the handler before the message. *)
Lemma calculateMaxFlow_invalid_argument_counterexample :
  inRange
    (graph (newFordFulkerson
              (connectSourceAndSinkNodes (fileRead 2 [(1, 2)%nat]) 0 3)))
    (-1) = false
  ∧ ∃ e,
      calculateMaxFlow 30
        (newFordFulkerson
           (connectSourceAndSinkNodes (fileRead 2 [(1, 2)%nat]) 0 3))
        (-1) 3
      = Thrown e
          (newFordFulkerson
             (connectSourceAndSinkNodes (fileRead 2 [(1, 2)%nat]) 0 3))
      ∧ e = runtime_error
              "Error in calculateMaxFlow: Source or sink is out of valid range."
      ∧ ∀ w, e ≠ invalid_argument w.
Proof.
  split; [reflexivity|]. eexists. split; [reflexivity|].
  split; [reflexivity|]. intros w. discriminate.
Qed.

(** C5 (amended): [calculateMaxFlow] throws when the source or the sink is
    out of range: the [invalid_argument] of its check is re-thrown by its
    own handler as a [runtime_error] with the prefix of the handler before
    the message, which is what leaves the function, before anything is
    changed, so that the object, capacity matrix included, is as it was.
    With both in range it throws nothing, whatever the fuel, and with the
    fuel of [enoughFuel] it returns normally. *)
Theorem calculateMaxFlow_range_check (fuel : nat) (ff : FordFulkerson)
    (source sink : Z) :
  wfGraph (graph ff) →
  (inRange (graph ff) source && inRange (graph ff) sink = false →
   calculateMaxFlow fuel ff source sink =
   Thrown (runtime_error
             "Error in calculateMaxFlow: Source or sink is out of valid range.")
          ff)
  ∧ (inRange (graph ff) source && inRange (graph ff) sink = true →
     ∀ e ff', calculateMaxFlow fuel ff source sink ≠ Thrown e ff')
  ∧ (inRange (graph ff) source && inRange (graph ff) sink = true →
     enoughFuel (graph ff) (Z.to_nat source) fuel →
     ∃ st ff', calculateMaxFlow fuel ff source sink = Returned st ff').
Proof.
  intros Hwf. split; [|split].
  - intros Hr. unfold calculateMaxFlow. by rewrite Hr.
  - intros Hr e ff'. unfold calculateMaxFlow. rewrite Hr.
    apply andb_true_iff in Hr as [Hs%inRange_true Ht%inRange_true].
    pose proof (calculateMaxFlow_loop_no_throw fuel fuel (Z.to_nat source)
                  (Z.to_nat sink) ff (mkStats 0 0) Hwf) as Hno.
    destruct (calculateMaxFlow_loop _ _ _ _ _ _) as [st1 ff1|e1 ff1|]; try done.
    destruct (Hno ltac:(lia) ltac:(lia) e1 ff1). done.
  - intros [Hs%inRange_true Ht%inRange_true]%andb_true_iff Hfuel.
    destruct (calculateMaxFlow_returns fuel ff (Z.to_nat source) (Z.to_nat sink))
      as (st & ff' & Hrun & _); [done|lia|lia|done|].
    rewrite !Z2Nat.id in Hrun by lia. by exists st, ff'.
Qed.

Lemma calculateMaxFlow_range_check_witness :
  calculateMaxFlow 30
    (newFordFulkerson (connectSourceAndSinkNodes (fileRead 2 [(1, 2)%nat]) 0 3))
    (-1) 3
  = Thrown (runtime_error
              "Error in calculateMaxFlow: Source or sink is out of valid range.")
      (newFordFulkerson (connectSourceAndSinkNodes (fileRead 2 [(1, 2)%nat]) 0 3))
  ∧ ∃ st ff',
      calculateMaxFlow 30
        (newFordFulkerson
           (connectSourceAndSinkNodes (fileRead 2 [(1, 2)%nat]) 0 3)) 0 3
      = Returned st ff'.
Proof.
  destruct (calculateMaxFlow_range_check 30
              (newFordFulkerson
                 (connectSourceAndSinkNodes (fileRead 2 [(1, 2)%nat]) 0 3))
              (-1) 3) as [Hout _].
  { apply square_set, square_set, square_set, square_zero. }
  destruct (calculateMaxFlow_range_check 30
              (newFordFulkerson
                 (connectSourceAndSinkNodes (fileRead 2 [(1, 2)%nat]) 0 3))
              0 3) as (_ & _ & Hin).
  { apply square_set, square_set, square_set, square_zero. }
  split.
  - apply Hout. reflexivity.
  - apply Hin; [reflexivity|]. split; vm_compute; [lia|reflexivity].
Defined.


Lemma dead_end_is_abandoned_witness :
  admissible
    (mkFF [0; 1; 1; 2; 2; 3]
       (adjacencyMatrix
          (wired 4 [(1, 3)%nat; (1, 4)%nat; (2, 3)%nat; (2, 4)%nat]))
       (pushAll (wired 4 [(1, 3)%nat; (1, 4)%nat; (2, 3)%nat; (2, 4)%nat])
          (consecutive [0; 1; 3; 5]%nat)))
    3 5 = true
  ∧ ∃ s',
      findNextNodeInPath
        (mkSearch
           (mkFF [0; 1; 1; 2; 2; 3]
              (adjacencyMatrix
                 (wired 4 [(1, 3)%nat; (1, 4)%nat; (2, 3)%nat; (2, 4)%nat]))
              (pushAll
                 (wired 4 [(1, 3)%nat; (1, 4)%nat; (2, 3)%nat; (2, 4)%nat])
                 (consecutive [0; 1; 3; 5]%nat)))
           3 [0; 2]%nat false) 0
      = (true, s')
      ∧ sNode s' = 2%nat ∧ sPath s' = [0; 2]%nat ∧ sBacktracking s' = true
      ∧ abandoned (sFF s') 3.
Proof.
  split; [reflexivity|].
  assert (Hinv0 : searchInv 0 5
    (mkSearch
       (mkFF [0; 1; 1; 2; 2; 3]
          (adjacencyMatrix
             (wired 4 [(1, 3)%nat; (1, 4)%nat; (2, 3)%nat; (2, 4)%nat]))
          (pushAll (wired 4 [(1, 3)%nat; (1, 4)%nat; (2, 3)%nat; (2, 4)%nat])
             (consecutive [0; 1; 3; 5]%nat)))
       0 [] false)).
  { apply searchInv_init.
    - do 8 apply square_set. apply square_zero.
    - vm_compute; lia.
    - reflexivity. }
  assert (Hinv1 : searchInv 0 5
    (mkSearch
       (mkFF [0; 1; 1; 2; 2; 3]
          (adjacencyMatrix
             (wired 4 [(1, 3)%nat; (1, 4)%nat; (2, 3)%nat; (2, 4)%nat]))
          (pushAll (wired 4 [(1, 3)%nat; (1, 4)%nat; (2, 3)%nat; (2, 4)%nat])
             (consecutive [0; 1; 3; 5]%nat)))
       2 [0%nat] false)).
  { refine (proj1 (searchInv_searchStep 0 5 _ _ Hinv0 _)).
    split; [vm_compute; lia|vm_compute; reflexivity]. }
  assert (Hinv : searchInv 0 5
    (mkSearch
       (mkFF [0; 1; 1; 2; 2; 3]
          (adjacencyMatrix
             (wired 4 [(1, 3)%nat; (1, 4)%nat; (2, 3)%nat; (2, 4)%nat]))
          (pushAll (wired 4 [(1, 3)%nat; (1, 4)%nat; (2, 3)%nat; (2, 4)%nat])
             (consecutive [0; 1; 3; 5]%nat)))
       3 [0; 2]%nat false)).
  { refine (proj1 (searchInv_searchStep 0 5 _ _ Hinv1 _)).
    split; [vm_compute; lia|vm_compute; reflexivity]. }
  destruct (dead_end_is_abandoned 0 5 _ Hinv)
    as (s' & Hrun & _ & _ & _ & Hpath & _ & Hpred & Hbt & _ & Hab).
  - vm_compute; lia.
  - vm_compute; lia.
  - intros v [Hin Hadm]. vm_compute in Hin.
    apply list_elem_of_singleton in Hin as ->.
    vm_compute in Hadm. discriminate Hadm.
  - exists s'. split; [exact Hrun|].
    split; [cbn in Hpred; by injection Hpred as <-|].
    split; [exact Hpath|]. split; [exact Hbt|].
    apply (Hab s'). constructor.
Defined.

(** ** The wired network *)

Lemma createEdge_capacity (g : Graph) (a b : nat) (c : Z) (u v : nat) :
  wfGraph g → (a < totalNodes g)%nat → (b < totalNodes g)%nat →
  capacity (createEdge g a b c) u v =
  if decide ((a, b) = (u, v)) then c else capacity g u v.
Proof. intros Hwf Ha Hb. by apply (get_set (totalNodes g)). Qed.

Lemma createEdge_wf (g : Graph) (a b : nat) (c : Z) :
  wfGraph g → wfGraph (createEdge g a b c).
Proof. intros H. by apply square_set. Qed.

Lemma setEdges_spec (pairs : list (nat * nat)) :
  ∀ g, wfGraph g →
       (∀ a b, (a, b) ∈ pairs → (a < totalNodes g)%nat ∧ (b < totalNodes g)%nat) →
       wfGraph (setEdges g pairs)
       ∧ nodes (setEdges g pairs) = nodes g
       ∧ totalNodes (setEdges g pairs) = totalNodes g
       ∧ ∀ u v, capacity (setEdges g pairs) u v =
                if decide ((u, v) ∈ pairs) then 1 else capacity g u v.
Proof.
  induction pairs as [|[a b] pairs IH]; intros g Hwf Hrange.
  - split; [done|]. split; [done|]. split; [done|]. intros u v.
    rewrite decide_False; [done|]. apply not_elem_of_nil.
  - destruct (Hrange a b) as [Ha Hb]; [by left|].
    destruct (IH (createEdge g a b 1)) as (H1 & H2 & H3 & H4).
    + by apply createEdge_wf.
    + intros a' b' H'. apply (Hrange a' b'). by right.
    + cbn [setEdges fold_left] in *. fold (setEdges (createEdge g a b 1) pairs).
      split; [done|]. split; [done|]. split; [done|]. intros u v.
      rewrite H4, createEdge_capacity by done.
      destruct (decide ((u, v) ∈ pairs)) as [Hin|Hnin].
      * rewrite decide_True; [done|]. by right.
      * destruct (decide ((a, b) = (u, v))) as [E|E].
        -- rewrite decide_True; [done|]. rewrite E. by left.
        -- rewrite decide_False; [done|].
           intros [E'|?]%elem_of_cons; [|done]. by destruct E.
Qed.

Lemma fold_createEdge_source (l : list nat) (source : nat) :
  ∀ g, fold_left (λ g i, createEdge g source i 1) l g
       = setEdges g (map (λ i, (source, i)) l).
Proof. induction l as [|i l IH]; intros g; simpl; [done|]. apply IH. Qed.

Lemma fold_createEdge_sink (l : list nat) (sink : nat) :
  ∀ g, fold_left (λ g i, createEdge g i sink 1) l g
       = setEdges g (map (λ i, (i, sink)) l).
Proof. induction l as [|i l IH]; intros g; simpl; [done|]. apply IH. Qed.

Lemma newGraph_wf (n : nat) : wfGraph (newGraph n).
Proof. apply square_zero. Qed.

Lemma half_le (n : nat) : (n / 2 ≤ n)%nat.
Proof. apply Nat.Div0.div_le_upper_bound. lia. Qed.

Section Wired.

Variable n : nat.
Variable edges : list (nat * nat).
Hypothesis edges_valid : validEdges n edges.

Lemma wired_spec :
  wfGraph (wired n edges)
  ∧ nodes (wired n edges) = n
  ∧ totalNodes (wired n edges) = (n + 2)%nat
  ∧ ∀ u v, capacity (wired n edges) u v = wiredCapacity n edges u v.
Proof.
  pose proof (half_le n) as Hhalf.
  unfold wired, connectSourceAndSinkNodes, fileRead, readEdges.
  fold (setEdges (newGraph n) edges).
  destruct (setEdges_spec edges (newGraph n) (newGraph_wf n))
    as (Hwf1 & Hn1 & HN1 & Hcap1).
  { intros a b Hab. destruct (edges_valid a b Hab) as [Hl Hr].
    unfold isLeft, isRight in *. cbn [totalNodes newGraph]. lia. }
  set (g1 := setEdges (newGraph n) edges) in *.
  unfold createSourceNode. rewrite fold_createEdge_source, Hn1.
  cbn [nodes newGraph].
  destruct (setEdges_spec (map (λ i, (0%nat, i)) (seq 1 (n / 2))) g1 Hwf1)
    as (Hwf2 & Hn2 & HN2 & Hcap2).
  { intros a b [i [[= -> ->] Hi%list_elem_of_In%in_seq]]%list_elem_of_fmap.
    rewrite HN1. cbn [totalNodes newGraph]. lia. }
  set (g2 := setEdges g1 _) in *.
  unfold createSinkNode. rewrite fold_createEdge_sink, Hn2, Hn1.
  cbn [nodes newGraph].
  destruct (setEdges_spec
              (map (λ i, (i, (n + 1)%nat)) (seq (n / 2 + 1) (n - n / 2))) g2 Hwf2)
    as (Hwf3 & Hn3 & HN3 & Hcap3).
  { intros a b [i [[= -> ->] Hi%list_elem_of_In%in_seq]]%list_elem_of_fmap.
    rewrite HN2, HN1. cbn [totalNodes newGraph]. lia. }
  split; [done|]. split; [by rewrite Hn3, Hn2, Hn1|].
  split; [by rewrite HN3, HN2, HN1|].
  intros u v. rewrite Hcap3, Hcap2, Hcap1. unfold wiredCapacity.
  change (capacity (newGraph n) u v) with (Matrix.get (Matrix.zero (n + 2)) u v).
  rewrite get_zero.
  destruct (decide ((u, v) ∈ map (λ i, (i, (n + 1)%nat))
                                 (seq (n / 2 + 1) (n - n / 2)))) as [H3|H3].
  { rewrite decide_True; [done|]. right. right.
    apply list_elem_of_fmap in H3 as [i [[= -> ->] Hi%list_elem_of_In%in_seq]].
    unfold isRight. split; [lia|done]. }
  destruct (decide ((u, v) ∈ map (λ i, (0%nat, i)) (seq 1 (n / 2)))) as [H2|H2].
  { rewrite decide_True; [done|]. left.
    apply list_elem_of_fmap in H2 as [i [[= -> ->] Hi%list_elem_of_In%in_seq]].
    unfold isLeft. split; [done|lia]. }
  destruct (decide ((u, v) ∈ edges)) as [H1|H1].
  { rewrite decide_True; [done|]. right. by left. }
  rewrite decide_False; [done|].
  intros [[-> Hl]|[?|[Hr ->]]]; [|done|].
  - apply H2. apply list_elem_of_fmap. exists v. split; [done|].
    apply list_elem_of_In, in_seq. unfold isLeft in Hl. lia.
  - apply H3. apply list_elem_of_fmap. exists u. split; [done|].
    apply list_elem_of_In, in_seq. unfold isRight in Hr. lia.
Qed.

End Wired.

(** ** Row and column sums *)

Lemma sumList_app (f : nat → Z) (l1 l2 : list nat) :
  sumList f (l1 ++ l2) = sumList f l1 + sumList f l2.
Proof. induction l1 as [|x l1 IH]; simpl; [done|]. rewrite IH. lia. Qed.

Lemma sumList_ext (f f' : nat → Z) (l : list nat) :
  (∀ x, x ∈ l → f x = f' x) → sumList f l = sumList f' l.
Proof.
  induction l as [|x l IH]; intros H; simpl; [done|].
  rewrite IH, (H x); [done|by left|]. intros y Hy. apply H. by right.
Qed.

Lemma sumList_zero (f : nat → Z) (l : list nat) :
  (∀ x, x ∈ l → f x = 0) → sumList f l = 0.
Proof.
  induction l as [|x l IH]; intros H; simpl; [done|].
  rewrite IH, (H x); [done|by left|]. intros y Hy. apply H. by right.
Qed.

Lemma sumList_nonneg (f : nat → Z) (l : list nat) :
  (∀ x, x ∈ l → 0 ≤ f x) → 0 ≤ sumList f l.
Proof.
  induction l as [|x l IH]; intros H; simpl; [done|].
  assert (0 ≤ f x) by (apply H; by left).
  assert (0 ≤ sumList f l) by (apply IH; intros y Hy; apply H; by right). lia.
Qed.

Lemma sumList_complement (f : nat → Z) (l : list nat) :
  sumList (λ x, 1 - f x) l = Z.of_nat (length l) - sumList f l.
Proof. induction l as [|x l IH]; simpl; [done|]. rewrite IH. lia. Qed.

Lemma sumTo_sumList (n : nat) (f : nat → Z) : sumTo n f = sumList f (seq 0 n).
Proof.
  induction n as [|n IH]; [done|].
  rewrite seq_S, sumList_app. simpl. rewrite IH. lia.
Qed.

Lemma sumTo_row_indicator (n x y a : nat) :
  (y < n)%nat →
  sumTo n (λ b, if decide ((x, y) = (a, b)) then 1 else 0)
  = if decide (x = a) then 1 else 0.
Proof.
  intros Hy. destruct (decide (x = a)) as [->|Hne].
  - rewrite (sumTo_indicator n y); [by rewrite decide_True|].
    intros b _. split; [by intros [= ->]|by intros ->].
  - apply sumTo_zero. intros b _. rewrite decide_False; [done|]. congruence.
Qed.

Lemma sumTo_col_indicator (n x y a : nat) :
  (x < n)%nat →
  sumTo n (λ b, if decide ((x, y) = (b, a)) then 1 else 0)
  = if decide (y = a) then 1 else 0.
Proof.
  intros Hx. destruct (decide (y = a)) as [->|Hne].
  - rewrite (sumTo_indicator n x); [by rewrite decide_True|].
    intros b _. split; [by intros [= ->]|by intros ->].
  - apply sumTo_zero. intros b _. rewrite decide_False; [done|]. congruence.
Qed.

Lemma rowSum_pushGraph (g : Graph) (u v a : nat) :
  wfGraph g → (u < totalNodes g)%nat → (v < totalNodes g)%nat →
  rowSum (pushGraph g u v) a
  = rowSum g a + (if decide (v = a) then 1 else 0)
               - (if decide (u = a) then 1 else 0).
Proof.
  intros Hwf Hu Hv. unfold rowSum. cbn [totalNodes pushGraph setAdjacencyMatrix].
  rewrite (sumTo_ext _ _
    (λ b, (capacity g a b + (if decide ((v, u) = (a, b)) then 1 else 0))
          - (if decide ((u, v) = (a, b)) then 1 else 0)))
    by (intros b _; by apply pushGraph_capacity).
  rewrite sumTo_minus, sumTo_plus, !sumTo_row_indicator by done. done.
Qed.

Lemma colSum_pushGraph (g : Graph) (u v a : nat) :
  wfGraph g → (u < totalNodes g)%nat → (v < totalNodes g)%nat →
  colSum (pushGraph g u v) a
  = colSum g a + (if decide (u = a) then 1 else 0)
               - (if decide (v = a) then 1 else 0).
Proof.
  intros Hwf Hu Hv. unfold colSum. cbn [totalNodes pushGraph setAdjacencyMatrix].
  rewrite (sumTo_ext _ _
    (λ b, (capacity g b a + (if decide ((v, u) = (b, a)) then 1 else 0))
          - (if decide ((u, v) = (b, a)) then 1 else 0)))
    by (intros b _; by apply pushGraph_capacity).
  rewrite sumTo_minus, sumTo_plus, !sumTo_col_indicator by done. done.
Qed.

(** Along a path the changes of the inner nodes cancel. *)
Lemma pushAll_path_sums (p : list nat) (a : nat) :
  ∀ (g : Graph) (x0 xk : nat),
    wfGraph g → (∀ v, v ∈ p → (v < totalNodes g)%nat) →
    p !! 0%nat = Some x0 → last p = Some xk →
    rowSum (pushAll g (consecutive p)) a
    = rowSum g a + (if decide (xk = a) then 1 else 0)
                 - (if decide (x0 = a) then 1 else 0)
    ∧ colSum (pushAll g (consecutive p)) a
      = colSum g a + (if decide (x0 = a) then 1 else 0)
                   - (if decide (xk = a) then 1 else 0).
Proof.
  induction p as [|u [|v rest] IH]; intros g x0 xk Hwf Hrange Hhead Hlast.
  - done.
  - simpl in *. injection Hhead as <-. injection Hlast as <-. split; lia.
  - change (consecutive (u :: v :: rest)) with ((u, v) :: consecutive (v :: rest)).
    cbn [pushAll fold_left]. fold (pushAll (pushGraph g u v) (consecutive (v :: rest))).
    simpl in Hhead. injection Hhead as <-.
    assert (Hu : (u < totalNodes g)%nat) by (apply Hrange; by left).
    assert (Hv : (v < totalNodes g)%nat) by (apply Hrange; right; by left).
    destruct (IH (pushGraph g u v) v xk) as [Hrow Hcol].
    + by apply pushGraph_wf.
    + intros w Hw. apply Hrange. by right.
    + done.
    + by rewrite last_cons_cons in Hlast.
    + rewrite Hrow, Hcol, rowSum_pushGraph, colSum_pushGraph by done.
      split; lia.
Qed.

(** ** The residual graphs of a bipartite network *)

Section MatchState.

Variable n : nat.
Variable edges : list (nat * nat).
Hypothesis edges_valid : validEdges n edges.

Lemma wiredCapacity_range (u v : nat) :
  wiredCapacity n edges u v = 0 ∨ wiredCapacity n edges u v = 1.
Proof. unfold wiredCapacity. case_decide; auto. Qed.

Lemma wiredCapacity_one (u v : nat) :
  wiredCapacity n edges u v = 1 ↔
  (u = 0%nat ∧ isLeft n v) ∨ (u, v) ∈ edges ∨ (isRight n u ∧ v = (n + 1)%nat).
Proof. unfold wiredCapacity. case_decide; split; try done; lia. Qed.

Lemma wiredCapacity_into_left (u l : nat) :
  isLeft n l →
  wiredCapacity n edges u l = if decide (u = 0%nat) then 1 else 0.
Proof.
  intros Hl. pose proof (half_le n). unfold wiredCapacity, isLeft, isRight in *.
  destruct (decide (u = 0%nat)) as [->|Hu].
  - rewrite decide_True; [done|]. by left.
  - rewrite decide_False; [done|]. intros [[? _]|[Hin|[_ ?]]]; [done| |lia].
    destruct (edges_valid u l Hin) as [_ Hr]. unfold isRight in Hr. lia.
Qed.

Lemma wiredCapacity_out_of_right (r v : nat) :
  isRight n r →
  wiredCapacity n edges r v = if decide (v = (n + 1)%nat) then 1 else 0.
Proof.
  intros Hr. pose proof (half_le n). unfold wiredCapacity, isLeft, isRight in *.
  destruct (decide (v = (n + 1)%nat)) as [->|Hv].
  - rewrite decide_True; [done|]. right. by right.
  - rewrite decide_False; [done|]. intros [[? _]|[Hin|[_ ?]]]; [lia| |done].
    destruct (edges_valid r v Hin) as [Hl _]. unfold isLeft in Hl. lia.
Qed.

Lemma matchState_wired : matchState n edges (wired n edges).
Proof.
  destruct (wired_spec n edges edges_valid) as (Hwf & Hn & HN & Hcap).
  split; try done.
  - intros u v. rewrite Hcap. destruct (wiredCapacity_range u v); lia.
  - intros u v. by rewrite !Hcap.
  - intros l Hl. unfold colSum. rewrite HN.
    rewrite (sumTo_ext _ _ (λ u, if decide (u = 0%nat) then 1 else 0))
      by (intros u _; rewrite Hcap; by apply wiredCapacity_into_left).
    rewrite (sumTo_indicator _ 0%nat) by done.
    rewrite decide_True; [done|lia].
  - intros r Hr. unfold rowSum. rewrite HN.
    rewrite (sumTo_ext _ _ (λ v, if decide (v = (n + 1)%nat) then 1 else 0))
      by (intros v _; rewrite Hcap; by apply wiredCapacity_out_of_right).
    rewrite (sumTo_indicator _ (n + 1)%nat) by done.
    rewrite decide_True; [done|lia].
Qed.

Lemma matchState_commit (g : Graph) (p : list nat) :
  wfGraph g → matchState n edges g → augmenting g 0 (n + 1) p →
  matchState n edges (pushAll g (consecutive p)).
Proof.
  intros Hwf [Hn HN Hnn Hpair Hleft Hright] Haug.
  pose proof (half_le n) as Hhalf.
  pose proof (aug_nodup _ _ _ _ Haug) as Hnd.
  assert (Hrange : ∀ u v, (u, v) ∈ consecutive p →
            (u < totalNodes g)%nat ∧ (v < totalNodes g)%nat)
    by (intros u v; by eapply augmenting_pairs_range).
  destruct (pushAll_totalNodes (consecutive p) g) as [HN' Hn'].
  split.
  - by rewrite Hn'.
  - by rewrite HN'.
  - intros u v. rewrite pushAll_capacity by done.
    pose proof (occ_nonneg (v, u) (consecutive p)).
    pose proof (occ_consecutive_le p u v Hnd).
    destruct (decide (0 < occ (u, v) (consecutive p))) as [Hpos|Hz].
    + apply occ_pos in Hpos.
      pose proof (aug_edges _ _ _ _ Haug u v Hpos). lia.
    + specialize (Hnn u v). lia.
  - intros u v. rewrite !pushAll_capacity by done. rewrite <- Hpair. lia.
  - intros l Hl.
    destruct (pushAll_path_sums p l g 0 (n + 1) Hwf) as [_ ->];
      [apply Haug|apply Haug|apply Haug|].
    rewrite Hleft by done. unfold isLeft in Hl.
    rewrite !decide_False by lia. lia.
  - intros r Hr.
    destruct (pushAll_path_sums p r g 0 (n + 1) Hwf) as [-> _];
      [apply Haug|apply Haug|apply Haug|].
    rewrite Hright by done. unfold isRight in Hr.
    rewrite !decide_False by lia. lia.
Qed.

End MatchState.

(** ** Counting the matched pairs *)

Lemma sumList_elem_le (f : nat → Z) (l : list nat) (y : nat) :
  (∀ x, x ∈ l → 0 ≤ f x) → y ∈ l → f y ≤ sumList f l.
Proof.
  induction l as [|a l IH]; intros Hnn Hy; [by apply elem_of_nil in Hy|].
  assert (0 ≤ f a) by (apply Hnn; by left).
  assert (Hl : ∀ x, x ∈ l → 0 ≤ f x) by (intros x Hx; apply Hnn; by right).
  pose proof (sumList_nonneg f l Hl).
  apply elem_of_cons in Hy as [->|Hy]; simpl; [lia|].
  specialize (IH Hl Hy). lia.
Qed.

Lemma sumList_unique (f : nat → Z) (l : list nat) (x y : nat) :
  (∀ z, z ∈ l → 0 ≤ f z) → sumList f l ≤ 1 →
  x ∈ l → y ∈ l → 1 ≤ f x → 1 ≤ f y → x = y.
Proof.
  induction l as [|a l IH]; intros Hnn Hsum Hx Hy Hfx Hfy;
    [by apply elem_of_nil in Hx|].
  assert (0 ≤ f a) by (apply Hnn; by left).
  assert (Hl : ∀ z, z ∈ l → 0 ≤ f z) by (intros z Hz; apply Hnn; by right).
  simpl in Hsum.
  apply elem_of_cons in Hx as [->|Hx]; apply elem_of_cons in Hy as [->|Hy].
  - done.
  - pose proof (sumList_elem_le f l y Hl Hy). lia.
  - pose proof (sumList_elem_le f l x Hl Hx). lia.
  - apply IH; try done. lia.
Qed.

Lemma sumList_pos_exists (f : nat → Z) (l : list nat) :
  0 < sumList f l → ∃ x, x ∈ l ∧ 0 < f x.
Proof.
  induction l as [|a l IH]; simpl; [lia|]. intros H.
  destruct (decide (0 < f a)) as [Ha|Ha].
  - exists a. split; [by left|done].
  - destruct IH as (x & Hx & Hfx); [lia|]. exists x. split; [by right|done].
Qed.

Lemma length_flat_map_sum {B} (f : nat → list B) (l : list nat) :
  Z.of_nat (length (flat_map f l)) = sumList (λ x, Z.of_nat (length (f x))) l.
Proof.
  induction l as [|a l IH]; simpl; [done|]. rewrite length_app. lia.
Qed.

Section Counting.

Variable n : nat.
Variable edges : list (nat * nat).
Hypothesis edges_valid : validEdges n edges.
Variable g : Graph.
Hypothesis g_wf : wfGraph g.
Hypothesis g_state : matchState n edges g.

Lemma matchState_zero (u v : nat) :
  wiredCapacity n edges u v = 0 → wiredCapacity n edges v u = 0 →
  capacity g u v = 0.
Proof.
  intros H1 H2. pose proof (ms_pair _ _ _ g_state u v) as Hp.
  pose proof (ms_nonneg _ _ _ g_state u v).
  pose proof (ms_nonneg _ _ _ g_state v u). lia.
Qed.

Lemma wiredCapacity_zero (u v : nat) :
  ¬ ((u = 0%nat ∧ isLeft n v) ∨ (u, v) ∈ edges
     ∨ (isRight n u ∧ v = (n + 1)%nat)) →
  wiredCapacity n edges u v = 0.
Proof. intros H. unfold wiredCapacity. by rewrite decide_False. Qed.

(** Capacities between a right node and a left node are 0 or 1. *)
Lemma capacity_right_left (j i : nat) :
  isRight n j → isLeft n i → capacity g j i = 0 ∨ capacity g j i = 1.
Proof.
  intros Hj Hi. pose proof (half_le n).
  pose proof (ms_pair _ _ _ g_state j i) as Hp.
  pose proof (ms_nonneg _ _ _ g_state j i).
  pose proof (ms_nonneg _ _ _ g_state i j).
  rewrite (wiredCapacity_into_left n edges edges_valid j i Hi) in Hp.
  unfold isRight, isLeft in *. rewrite decide_False in Hp by lia.
  destruct (wiredCapacity_range n edges i j); lia.
Qed.

Lemma seq_nodes :
  seq 0 (n + 2) =
  [0%nat] ++ seq 1 (n / 2) ++ seq (n / 2 + 1) (n - n / 2) ++ [(n + 1)%nat].
Proof.
  pose proof (half_le n). set (h := (n / 2)%nat) in *. clearbody h.
  replace (n + 2)%nat with (1 + (h + ((n - h) + 1)))%nat by lia.
  rewrite !seq_app.
  replace (0 + 1 + h)%nat with (h + 1)%nat by lia.
  replace (h + 1 + (n - h))%nat with (n + 1)%nat by lia.
  done.
Qed.

(** A left node receives its unit from the source or from one right
    node. *)
Lemma left_column (l : nat) :
  isLeft n l →
  capacity g 0 l
  + sumList (λ j, capacity g j l) (seq (n / 2 + 1) (n - n / 2)) = 1.
Proof.
  intros Hl. pose proof (half_le n).
  pose proof (ms_left _ _ _ g_state l Hl) as Hcol.
  unfold colSum in Hcol. rewrite (ms_total _ _ _ g_state) in Hcol.
  rewrite sumTo_sumList, seq_nodes, !sumList_app in Hcol. cbn [sumList] in Hcol.
  rewrite (sumList_zero _ (seq 1 (n / 2))) in Hcol.
  - rewrite (matchState_zero (n + 1) l) in Hcol; [lia| |];
      apply wiredCapacity_zero; unfold isLeft, isRight in *.
    + intros [[? _]|[Hin|[? _]]]; [lia| |lia].
      destruct (edges_valid _ _ Hin) as [Hl' _]. unfold isLeft in Hl'. lia.
    + intros [[? _]|[Hin|[? _]]]; [lia| |lia].
      destruct (edges_valid _ _ Hin) as [_ Hr']. unfold isRight in Hr'. lia.
  - intros u Hu%list_elem_of_In%in_seq.
    apply matchState_zero; apply wiredCapacity_zero; unfold isLeft, isRight in *.
    + intros [[? _]|[Hin|[? _]]]; [lia| |lia].
      destruct (edges_valid _ _ Hin) as [_ Hr']. unfold isRight in Hr'. lia.
    + intros [[? _]|[Hin|[? _]]]; [lia| |lia].
      destruct (edges_valid _ _ Hin) as [_ Hr']. unfold isRight in Hr'. lia.
Qed.

(** A right node sends its unit to the sink or to one left node. *)
Lemma right_row (r : nat) :
  isRight n r →
  capacity g r (n + 1) + sumList (λ i, capacity g r i) (seq 1 (n / 2)) = 1.
Proof.
  intros Hr. pose proof (half_le n).
  pose proof (ms_right _ _ _ g_state r Hr) as Hrow.
  unfold rowSum in Hrow. rewrite (ms_total _ _ _ g_state) in Hrow.
  rewrite sumTo_sumList, seq_nodes, !sumList_app in Hrow. cbn [sumList] in Hrow.
  rewrite (sumList_zero _ (seq (n / 2 + 1) (n - n / 2))) in Hrow.
  - rewrite (matchState_zero r 0) in Hrow; [lia| |];
      apply wiredCapacity_zero; unfold isLeft, isRight in *.
    + intros [[? _]|[Hin|[_ ?]]]; [lia| |lia].
      destruct (edges_valid _ _ Hin) as [Hl' _]. unfold isLeft in Hl'. lia.
    + intros [[_ ?]|[Hin|[? _]]]; [lia| |lia].
      destruct (edges_valid _ _ Hin) as [Hl' _]. unfold isLeft in Hl'. lia.
  - intros v Hv%list_elem_of_In%in_seq.
    apply matchState_zero; apply wiredCapacity_zero; unfold isLeft, isRight in *.
    + intros [[? _]|[Hin|[_ ?]]]; [lia| |lia].
      destruct (edges_valid _ _ Hin) as [Hl' _]. unfold isLeft in Hl'. lia.
    + intros [[? _]|[Hin|[_ ?]]]; [lia| |lia].
      destruct (edges_valid _ _ Hin) as [Hl' _]. unfold isLeft in Hl'. lia.
Qed.

(** What is left at the source is what is left towards the left nodes. *)
Lemma sourceCapacity_left :
  sourceCapacity g 0 = sumList (λ l, capacity g 0 l) (seq 1 (n / 2)).
Proof.
  pose proof (half_le n).
  unfold sourceCapacity. rewrite (ms_total _ _ _ g_state).
  rewrite (sumTo_ext _ _ (λ v, capacity g 0 v))
    by (intros v _; pose proof (ms_nonneg _ _ _ g_state 0%nat v); lia).
  rewrite sumTo_sumList, seq_nodes, !sumList_app. cbn [sumList].
  rewrite (sumList_zero _ (seq (n / 2 + 1) (n - n / 2))).
  - rewrite (matchState_zero 0 0), (matchState_zero 0 (n + 1)); [lia| | | |];
      apply wiredCapacity_zero; unfold isLeft, isRight in *.
    + intros [[_ ?]|[Hin|[? _]]]; [lia| |lia].
      destruct (edges_valid _ _ Hin) as [Hl' _]. unfold isLeft in Hl'. lia.
    + intros [[? _]|[Hin|[_ ?]]]; [lia| |lia].
      destruct (edges_valid _ _ Hin) as [Hl' _]. unfold isLeft in Hl'. lia.
    + intros [[_ ?]|[Hin|[? _]]]; [lia| |lia].
      destruct (edges_valid _ _ Hin) as [Hl' _]. unfold isLeft in Hl'. lia.
    + intros [[_ ?]|[Hin|[? _]]]; [lia| |lia].
      destruct (edges_valid _ _ Hin) as [Hl' _]. unfold isLeft in Hl'. lia.
  - intros v Hv%list_elem_of_In%in_seq.
    apply matchState_zero; apply wiredCapacity_zero; unfold isLeft, isRight in *.
    + intros [[_ ?]|[Hin|[? _]]]; [lia| |lia].
      destruct (edges_valid _ _ Hin) as [Hl' _]. unfold isLeft in Hl'. lia.
    + intros [[? _]|[Hin|[_ ?]]]; [lia| |lia].
      destruct (edges_valid _ _ Hin) as [Hl' _]. unfold isLeft in Hl'. lia.
Qed.

Lemma matched_of_left (i : nat) :
  isLeft n i →
  Z.of_nat
    (length
       (flat_map (λ j, if Matrix.get (adjacencyMatrix g) j i =? 1
                       then [(i, j)] else [])
                 (seq (n / 2 + 1) (n - n / 2))))
  = 1 - capacity g 0 i.
Proof.
  intros Hi. rewrite length_flat_map_sum.
  pose proof (left_column i Hi) as Hcol.
  rewrite (sumList_ext _ (λ j, capacity g j i)); [lia|].
  intros j Hj%list_elem_of_In%in_seq.
  fold (capacity g j i).
  destruct (capacity_right_left j i) as [->| ->]; try done.
  unfold isRight. lia.
Qed.

(** The pairs that [printResults] reports are as many as the units that
    have left the source. *)
Lemma matchedPairs_count :
  Z.of_nat (length (matchedPairs g)) = Z.of_nat (n / 2) - sourceCapacity g 0.
Proof.
  unfold matchedPairs. rewrite (ms_nodes _ _ _ g_state).
  rewrite length_flat_map_sum.
  rewrite (sumList_ext _ (λ i, 1 - capacity g 0 i)).
  - rewrite sumList_complement, length_seq, sourceCapacity_left. done.
  - intros i Hi%list_elem_of_In%in_seq. apply matched_of_left.
    unfold isLeft. lia.
Qed.

End Counting.

(** ** The reported matching is a matching *)

Lemma find_exists {A} (P : A → bool) (l : list A) :
  (∃ x, x ∈ l ∧ P x = true) →
  ∃ y, List.find P l = Some y ∧ y ∈ l ∧ P y = true.
Proof.
  intros (x & Hx & HP). destruct (List.find P l) as [y|] eqn:E.
  - apply find_some in E as [Hy HPy]. exists y.
    split; [done|]. split; [by apply list_elem_of_In|done].
  - apply list_elem_of_In in Hx. pose proof (find_none _ _ E x Hx). congruence.
Qed.

Lemma NoDup_pairs_inner (c : nat → bool) (i : nat) (r : list nat) :
  NoDup r → NoDup (flat_map (λ j, if c j then [(i, j)] else []) r).
Proof.
  induction r as [|j r IH]; intros Hnd; simpl; [constructor|].
  apply NoDup_cons in Hnd as [Hj Hnd]. specialize (IH Hnd).
  destruct (c j); [|done]. simpl. apply NoDup_cons. split; [|done].
  intros Hin%list_elem_of_In%in_flat_map. destruct Hin as (j' & Hj' & Hin).
  destruct (c j'); [|done]. destruct Hin as [[= ->]|[]].
  apply Hj. by apply list_elem_of_In.
Qed.

Lemma NoDup_pairs (c : nat → nat → bool) (l r : list nat) :
  NoDup l → NoDup r →
  NoDup (flat_map (λ i, flat_map (λ j, if c j i then [(i, j)] else []) r) l).
Proof.
  intros Hl Hr. induction l as [|i l IH]; simpl; [constructor|].
  apply NoDup_cons in Hl as [Hi Hl]. apply NoDup_app.
  split; [by apply (NoDup_pairs_inner (λ j, c j i))|]. split; [|by apply IH].
  intros [a b] Hin%list_elem_of_In%in_flat_map Hin2%list_elem_of_In%in_flat_map.
  destruct Hin as (j & _ & Hin). destruct (c j i); [|done].
  destruct Hin as [[= <- <-]|[]].
  destruct Hin2 as (i' & Hi' & Hin2). apply in_flat_map in Hin2 as (j' & _ & Hin2).
  destruct (c j' i'); [|done]. destruct Hin2 as [[= -> _]|[]].
  apply Hi. by apply list_elem_of_In.
Qed.

Section Matched.

Variable n : nat.
Variable edges : list (nat * nat).
Hypothesis edges_valid : validEdges n edges.
Variable g : Graph.
Hypothesis g_wf : wfGraph g.
Hypothesis g_state : matchState n edges g.

Lemma left_unique (l j1 j2 : nat) :
  isLeft n l → isRight n j1 → isRight n j2 →
  capacity g j1 l = 1 → capacity g j2 l = 1 → j1 = j2.
Proof.
  intros Hl H1 H2 Hc1 Hc2.
  pose proof (left_column n edges edges_valid g g_state l Hl) as Hcol.
  pose proof (ms_nonneg _ _ _ g_state 0%nat l).
  apply (sumList_unique (λ j, capacity g j l) (seq (n / 2 + 1) (n - n / 2)));
    try lia.
  - intros z _. apply (ms_nonneg _ _ _ g_state).
  - apply list_elem_of_In, in_seq. unfold isRight in H1. lia.
  - apply list_elem_of_In, in_seq. unfold isRight in H2. lia.
Qed.

Lemma right_unique (r i1 i2 : nat) :
  isRight n r → isLeft n i1 → isLeft n i2 →
  capacity g r i1 = 1 → capacity g r i2 = 1 → i1 = i2.
Proof.
  intros Hr H1 H2 Hc1 Hc2.
  pose proof (right_row n edges edges_valid g g_state r Hr) as Hrow.
  pose proof (ms_nonneg _ _ _ g_state r (n + 1)%nat).
  apply (sumList_unique (λ i, capacity g r i) (seq 1 (n / 2))); try lia.
  - intros z _. apply (ms_nonneg _ _ _ g_state).
  - apply list_elem_of_In, in_seq. unfold isLeft in H1. lia.
  - apply list_elem_of_In, in_seq. unfold isLeft in H2. lia.
Qed.

Lemma matched_is_edge (i j : nat) :
  isLeft n i → isRight n j → capacity g j i = 1 → (i, j) ∈ edges.
Proof.
  intros Hi Hj Hcap. pose proof (half_le n).
  pose proof (ms_pair _ _ _ g_state j i) as Hp.
  pose proof (ms_nonneg _ _ _ g_state i j).
  rewrite (wiredCapacity_into_left n edges edges_valid j i Hi) in Hp.
  unfold isLeft, isRight in *. rewrite decide_False in Hp by lia.
  assert (H1 : wiredCapacity n edges i j = 1)
    by (destruct (wiredCapacity_range n edges i j); lia).
  apply wiredCapacity_one in H1 as [[? _]|[?|[? _]]]; [lia|done|].
  unfold isRight in *. lia.
Qed.

Lemma matchedPairs_matching : matching edges (matchedPairs g).
Proof.
  split.
  - intros [i j] (Hi & Hj & Hcap)%elem_of_matchedPairs.
    rewrite (ms_nodes _ _ _ g_state) in Hi, Hj. by apply matched_is_edge.
  - unfold matchedPairs.
    apply (NoDup_pairs (λ j i, Matrix.get (adjacencyMatrix g) j i =? 1));
      apply NoDup_seq.
  - intros l r r' (Hl & Hr & Hc)%elem_of_matchedPairs
                  (_ & Hr' & Hc')%elem_of_matchedPairs.
    rewrite (ms_nodes _ _ _ g_state) in Hl, Hr, Hr'. by eapply left_unique.
  - intros l l' r (Hl & Hr & Hc)%elem_of_matchedPairs
                  (Hl' & _ & Hc')%elem_of_matchedPairs.
    rewrite (ms_nodes _ _ _ g_state) in Hl, Hr, Hl'. by eapply right_unique.
Qed.

Lemma mateOfLeft_spec (l : nat) :
  isLeft n l → capacity g 0 l = 0 →
  isRight n (mateOfLeft g l) ∧ capacity g (mateOfLeft g l) l = 1.
Proof.
  intros Hl Hzero.
  pose proof (left_column n edges edges_valid g g_state l Hl) as Hcol.
  destruct (sumList_pos_exists (λ j, capacity g j l)
              (seq (n / 2 + 1) (n - n / 2))) as (j & Hj & Hpos); [lia|].
  assert (Hj' := Hj). apply list_elem_of_In, in_seq in Hj'.
  assert (Hjr : isRight n j) by (unfold isRight; lia).
  assert (Hone : capacity g j l = 1)
    by (destruct (capacity_right_left n edges edges_valid g g_state j l);
        try done; lia).
  destruct (find_exists (λ j, capacity g j l =? 1)
              (seq (n / 2 + 1) (n - n / 2))) as (y & Hfind & Hy & Hcap).
  { exists j. split; [done|]. by apply Z.eqb_eq. }
  unfold mateOfLeft. rewrite (ms_nodes _ _ _ g_state), Hfind. simpl.
  apply list_elem_of_In, in_seq in Hy. apply Z.eqb_eq in Hcap.
  split; [unfold isRight; lia|done].
Qed.

Lemma mateOfRight_spec (r i : nat) :
  isRight n r → isLeft n i → capacity g r i = 1 →
  isLeft n (mateOfRight g r) ∧ capacity g r (mateOfRight g r) = 1.
Proof.
  intros Hr Hi Hone.
  destruct (find_exists (λ i, capacity g r i =? 1) (seq 1 (n / 2)))
    as (y & Hfind & Hy & Hcap).
  { exists i. split; [|by apply Z.eqb_eq].
    apply list_elem_of_In, in_seq. unfold isLeft in Hi. lia. }
  unfold mateOfRight. rewrite (ms_nodes _ _ _ g_state), Hfind. simpl.
  apply list_elem_of_In, in_seq in Hy. apply Z.eqb_eq in Hcap.
  split; [unfold isLeft; lia|done].
Qed.

End Matched.

(** ** No matching is larger *)

Section Maximum.

Variable n : nat.
Variable edges : list (nat * nat).
Hypothesis edges_valid : validEdges n edges.
Variable g : Graph.
Hypothesis g_wf : wfGraph g.
Hypothesis g_state : matchState n edges g.
Variable d : list Z.
Hypothesis d_tree : bfsTree g 0 d.
Hypothesis d_closed : closedExcept g d (λ _ _, False).
Hypothesis d_sink : ¬ visited d (n + 1).

Lemma closed_edge (u v : nat) :
  (u < n + 2)%nat → (v < n + 2)%nat →
  visited d u → 0 < capacity g u v → visited d v.
Proof.
  intros Hu Hv Hvis Hcap.
  destruct (d_closed u v Hvis) as [?|[]]; [|done].
  split; [by rewrite (ms_total _ _ _ g_state)|].
  split; [by rewrite (ms_total _ _ _ g_state)|done].
Qed.

Lemma source_visited : visited d 0.
Proof. unfold visited. rewrite (bfs_source _ _ _ d_tree). done. Qed.

Lemma unvisited_left_matched (l : nat) :
  isLeft n l → ¬ visited d l → capacity g 0 l = 0.
Proof.
  intros Hl Hnv. pose proof (half_le n).
  pose proof (ms_nonneg _ _ _ g_state 0%nat l).
  destruct (decide (capacity g 0 l = 0)) as [|Hne]; [done|].
  destruct Hnv. apply (closed_edge 0 l); [lia| |apply source_visited|lia].
  unfold isLeft in Hl. lia.
Qed.

Lemma visited_right_matched (r : nat) :
  isRight n r → visited d r → ∃ i, isLeft n i ∧ capacity g r i = 1.
Proof.
  intros Hr Hvis. pose proof (half_le n).
  pose proof (ms_nonneg _ _ _ g_state r (n + 1)%nat).
  assert (Hzero : capacity g r (n + 1) = 0).
  { destruct (decide (capacity g r (n + 1) = 0)) as [|Hne]; [done|].
    destruct d_sink. apply (closed_edge r (n + 1)); [|lia|done|lia].
    unfold isRight in Hr. lia. }
  pose proof (right_row n edges edges_valid g g_state r Hr) as Hrow.
  destruct (sumList_pos_exists (λ i, capacity g r i) (seq 1 (n / 2)))
    as (i & Hi%list_elem_of_In%in_seq & Hpos); [lia|].
  assert (Hil : isLeft n i) by (unfold isLeft; lia).
  exists i. split; [done|].
  destruct (capacity_right_left n edges edges_valid g g_state r i); try done; lia.
Qed.

(** The edge of the reported matching at [r], for an edge [(l, r)] of the
    input with [l] visited. *)
Lemma visited_left_cover (l r : nat) :
  (l, r) ∈ edges → visited d l →
  (∃ i, isLeft n i ∧ capacity g r i = 1)
  ∧ (capacity g r l = 1 ∨ visited d r).
Proof.
  intros Hin Hvis. destruct (edges_valid l r Hin) as [Hl Hr].
  pose proof (half_le n).
  pose proof (ms_pair _ _ _ g_state l r) as Hp.
  pose proof (ms_nonneg _ _ _ g_state l r).
  pose proof (ms_nonneg _ _ _ g_state r l).
  rewrite (wiredCapacity_into_left n edges edges_valid r l Hl) in Hp.
  assert (Hw : wiredCapacity n edges l r = 1)
    by (apply wiredCapacity_one; right; by left).
  unfold isLeft, isRight in Hl, Hr. rewrite decide_False in Hp by lia.
  destruct (decide (capacity g r l = 1)) as [Hone|Hne].
  - split; [|by left]. exists l. split; [unfold isLeft; lia|done].
  - assert (Hr' : visited d r).
    { apply (closed_edge l r); [lia|lia|done|].
      destruct (capacity_right_left n edges edges_valid g g_state r l);
        unfold isLeft, isRight; try lia. }
    split; [|by right]. apply visited_right_matched; [unfold isRight; lia|done].
Qed.

Lemma coverBy_matched (l r : nat) :
  (l, r) ∈ edges → coverBy g d (l, r) ∈ matchedPairs g.
Proof.
  intros Hin. destruct (edges_valid l r Hin) as [Hl Hr].
  unfold coverBy. cbn [fst snd]. case_decide as Hvis.
  - destruct (visited_left_cover l r Hin Hvis) as [(i & Hi & Hcap) _].
    destruct (mateOfRight_spec n edges g g_state r i Hr Hi Hcap) as [Hm Hc].
    apply elem_of_matchedPairs. rewrite (ms_nodes _ _ _ g_state). done.
  - pose proof (unvisited_left_matched l Hl Hvis) as Hzero.
    destruct (mateOfLeft_spec n edges edges_valid g g_state l Hl Hzero)
      as [Hm Hc].
    apply elem_of_matchedPairs. rewrite (ms_nodes _ _ _ g_state). done.
Qed.

Lemma coverBy_injective (M : list (nat * nat)) (e1 e2 : nat * nat) :
  matching edges M → e1 ∈ M → e2 ∈ M →
  coverBy g d e1 = coverBy g d e2 → e1 = e2.
Proof.
  intros HM H1 H2. destruct e1 as [l1 r1], e2 as [l2 r2].
  pose proof (m_edges _ _ HM _ H1) as Hin1.
  pose proof (m_edges _ _ HM _ H2) as Hin2.
  destruct (edges_valid l1 r1 Hin1) as [Hl1 Hr1].
  destruct (edges_valid l2 r2 Hin2) as [Hl2 Hr2].
  assert (Hcross : ∀ la ra lb rb,
    (la, ra) ∈ edges → (lb, rb) ∈ edges → visited d la → ¬ visited d lb →
    (mateOfRight g ra, ra) = (lb, mateOfLeft g lb) → False).
  { intros la ra lb rb Ha Hb Hva Hvb [= Hm1 Hm2].
    destruct (edges_valid la ra Ha) as [Hla Hra].
    destruct (edges_valid lb rb Hb) as [Hlb Hrb].
    pose proof (half_le n).
    pose proof (unvisited_left_matched lb Hlb Hvb) as Hzero.
    destruct (mateOfLeft_spec n edges edges_valid g g_state lb Hlb Hzero)
      as [_ Hc]. rewrite <- Hm2 in Hc.
    destruct (visited_left_cover la ra Ha Hva) as [(i & Hi & Hcap) [Hone|Hvr]].
    - assert (la = lb) by (by apply (right_unique n edges edges_valid g g_state ra)).
      subst. done.
    - apply Hvb. apply (closed_edge ra lb); [|  |done|lia];
        unfold isLeft, isRight in *; lia. }
  unfold coverBy. cbn [fst snd].
  destruct (decide (visited d l1)) as [Hv1|Hv1],
           (decide (visited d l2)) as [Hv2|Hv2].
  - intros [= _ ->]. f_equal. by eapply (m_right _ _ HM).
  - intros Heq. by destruct (Hcross l1 r1 l2 r2).
  - intros Heq. by destruct (Hcross l2 r2 l1 r1).
  - intros [= -> _]. f_equal. by eapply (m_left _ _ HM).
Qed.

(** The reported matching is a maximum matching. *)
Lemma matchedPairs_maximum (M : list (nat * nat)) :
  matching edges M → (length M ≤ length (matchedPairs g))%nat.
Proof.
  intros HM. rewrite <- (length_fmap (coverBy g d) M).
  apply submseteq_length, NoDup_submseteq.
  - apply NoDup_fmap_2_strong; [|apply HM].
    intros e1 e2 H1 H2. by apply coverBy_injective with M.
  - intros e [[l r] [-> Hin]]%list_elem_of_fmap.
    apply coverBy_matched. by apply (m_edges _ _ HM).
Qed.

End Maximum.

(** ** The maximum matching *)

Lemma matchedPairs_wired (n : nat) (edges : list (nat * nat)) :
  validEdges n edges → matchedPairs (wired n edges) = [].
Proof.
  intros Hvalid. destruct (wired_spec n edges Hvalid) as (_ & Hn & _ & Hcap).
  apply elem_of_nil_inv. intros [i j] (Hi & Hj & Hc)%elem_of_matchedPairs.
  rewrite Hn in Hi, Hj. rewrite Hcap in Hc.
  rewrite (wiredCapacity_into_left n edges Hvalid j i) in Hc by done.
  pose proof (half_le n). rewrite decide_False in Hc by lia. done.
Qed.

Lemma diagonal_matching (n : nat) (edges : list (nat * nat)) :
  (∀ l r, isLeft n l → isRight n r → (l, r) ∈ edges) →
  matching edges (map (λ i, (i, (n / 2 + i)%nat)) (seq 1 (n / 2))).
Proof.
  intros Hall.
  assert (Hmem : ∀ l r,
    (l, r) ∈ map (λ i, (i, (n / 2 + i)%nat)) (seq 1 (n / 2)) →
    isLeft n l ∧ r = (n / 2 + l)%nat).
  { intros l r [i [[= -> ->] Hi%list_elem_of_In%in_seq]]%list_elem_of_fmap.
    unfold isLeft. split; [lia|done]. }
  split.
  - intros [l r] Hin. destruct (Hmem l r Hin) as [Hl ->]. apply Hall; [done|].
    unfold isLeft, isRight in *.
    assert (2 * (n / 2) ≤ n)%nat by (apply Nat.Div0.mul_div_le). lia.
  - apply NoDup_fmap_2; [|apply NoDup_seq]. intros i i' [= ->]. done.
  - intros l r r' H1 H2. destruct (Hmem l r H1) as [_ ->].
    by destruct (Hmem l r' H2) as [_ ->].
  - intros l l' r H1 H2. destruct (Hmem l r H1) as [_ E1].
    destruct (Hmem l' r H2) as [_ E2]. lia.
Qed.

(** C1: on the fully wired network of a bipartite graph with [n] nodes
    (source 0, left nodes [1 .. n/2], right nodes [n/2+1 .. n], sink
    [n + 1], every edge of capacity 1), [calculateMaxFlow(0, n + 1)]
    returns, the pairs that [printResults] then reports form a matching of
    the input edges, their number is the number of paths pushed, and no
    matching of the input edges is larger.  In particular two nodes with
    their one edge give 1 match, no edges give 0 matches, and a complete
    bipartite graph gives [n/2] matches. *)
Theorem calculateMaxFlow_maximum_matching (n : nat)
    (edges : list (nat * nat)) (fuel : nat) :
  validEdges n edges →
  ((n + 3) * (n + 3) ≤ fuel)%nat →
  ∃ st ff',
    calculateMaxFlow fuel (newFordFulkerson (wired n edges)) 0 (Z.of_nat n + 1)
      = Returned st ff'
    ∧ (∀ names,
         solve fuel (fileRead n edges) names
         = Returned (printResults (graph ff') names) ff')
    ∧ matching edges (matchedPairs (graph ff'))
    ∧ pushed st = length (matchedPairs (graph ff'))
    ∧ (∀ names, (printResults (graph ff') names).2 = Z.of_nat (pushed st))
    ∧ (∀ M, matching edges M → (length M ≤ pushed st)%nat)
    ∧ (n = 2%nat → (1%nat, 2%nat) ∈ edges → pushed st = 1%nat)
    ∧ (edges = [] → pushed st = 0%nat)
    ∧ ((∀ l r, isLeft n l → isRight n r → (l, r) ∈ edges) →
       pushed st = (n / 2)%nat).
Proof.
  intros Hvalid Hfuel.
  destruct (wired_spec n edges Hvalid) as (Hwf & Hn & HN & Hcap).
  pose proof (matchState_wired n edges Hvalid) as Hstate.
  pose proof (half_le n) as Hhalf.
  pose proof (matchedPairs_count n edges Hvalid (wired n edges) Hstate) as Hc0.
  rewrite (matchedPairs_wired n edges Hvalid) in Hc0. cbn [length] in Hc0.
  destruct (calculateMaxFlow_run (matchState n edges) fuel
              (newFordFulkerson (wired n edges)) 0 (n + 1))
    as (st & ff' & Hrun & Hwf' & Hstate' & HN' & Hn' & _ & Htree & Hclosed
        & Hsink & Hpushed & _).
  { intros g p. apply matchState_commit. }
  { done. }
  { done. }
  { cbn [graph newFordFulkerson]. lia. }
  { cbn [graph newFordFulkerson]. lia. }
  { cbn [graph newFordFulkerson]. split; [rewrite HN; lia|]. nia. }
  cbn [graph newFordFulkerson] in *.
  specialize (Hsink ltac:(lia)).
  pose proof (matchedPairs_count n edges Hvalid (graph ff') Hstate') as Hc.
  pose proof (sourceCapacity_nonneg (graph ff') 0) as Hnn.
  assert (Hlen : pushed st = length (matchedPairs (graph ff'))) by lia.
  assert (Hmax : ∀ M, matching edges M → (length M ≤ pushed st)%nat).
  { intros M HM. rewrite Hlen.
    by apply (matchedPairs_maximum n edges Hvalid (graph ff') Hstate'
                (depth ff')). }
  assert (Hrun' : calculateMaxFlow fuel (newFordFulkerson (wired n edges)) 0
                    (Z.of_nat n + 1) = Returned st ff').
  { rewrite <- Hrun. f_equal. lia. }
  exists st, ff'. split; [done|]. split; [|split; [|split; [done|split]]].
  - intros names. unfold solve.
    assert (Hnodes : nodes (fileRead n edges) = n).
    { unfold fileRead, readEdges. fold (setEdges (newGraph n) edges).
      destruct (setEdges_spec edges (newGraph n) (newGraph_wf n)) as (_ & -> & _);
        [|done].
      intros a b Hab. destruct (Hvalid a b Hab) as [Hl Hr].
      unfold isLeft, isRight in *. cbn [totalNodes newGraph]. lia. }
    rewrite Hnodes. fold (wired n edges). by rewrite Hrun'.
  - by apply (matchedPairs_matching n edges Hvalid).
  - intros names.
    rewrite printResults_matchedPairs. cbn [snd]. by rewrite Hlen.
  - split; [done|]. split; [|split].
    + intros -> Hin.
      assert (H1 : (1 ≤ pushed st)%nat).
      { apply (Hmax [(1%nat, 2%nat)]). split.
        - by intros e ->%list_elem_of_singleton.
        - apply NoDup_singleton.
        - by intros l r r' [= _ ->]%list_elem_of_singleton
                          [= _ ->]%list_elem_of_singleton.
        - by intros l l' r [= -> _]%list_elem_of_singleton
                          [= -> _]%list_elem_of_singleton. }
      change (2 / 2)%nat with 1%nat in Hc. lia.
    + intros ->.
      pose proof (m_edges _ _ (matchedPairs_matching n [] Hvalid (graph ff')
                                 Hstate')) as Hsub.
      destruct (matchedPairs (graph ff')) as [|e M]; [by rewrite Hlen|].
      specialize (Hsub e ltac:(by left)). by apply elem_of_nil in Hsub.
    + intros Hall. pose proof (Hmax _ (diagonal_matching n edges Hall)) as Hge.
      rewrite length_map, length_seq in Hge. lia.
Qed.

Lemma calculateMaxFlow_maximum_matching_witness :
  ∃ st ff',
    calculateMaxFlow 49
      (newFordFulkerson (wired 4 [(1, 3); (2, 3); (2, 4)]%nat)) 0 5
    = Returned st ff'
    ∧ pushed st = 2%nat
    ∧ matchedPairs (graph ff') = [(1, 3); (2, 4)]%nat
    ∧ ∀ M, matching [(1, 3); (2, 3); (2, 4)]%nat M → (length M ≤ 2)%nat.
Proof.
  destruct (calculateMaxFlow_maximum_matching 4
              [(1, 3); (2, 3); (2, 4)]%nat 49)
    as (st & ff' & Hrun & _ & _ & _ & _ & Hmax & _).
  - intros l r Hin. unfold isLeft, isRight.
    repeat (apply elem_of_cons in Hin as [Hin|Hin];
            [injection Hin as -> ->; vm_compute; lia|]).
    by apply elem_of_nil in Hin.
  - vm_compute; lia.
  - change (Z.of_nat 4 + 1) with 5 in Hrun.
    assert (Hst : pushed st = 2%nat
                  ∧ matchedPairs (graph ff') = [(1, 3); (2, 4)]%nat).
    { vm_compute in Hrun. injection Hrun as <- <-. split; reflexivity. }
    destruct Hst as [Hp Hm].
    exists st, ff'. split; [exact Hrun|]. split; [exact Hp|].
    split; [exact Hm|]. intros M HM. rewrite <- Hp. by apply Hmax.
Defined.

(** * Further properties *)

(** ** Cuts *)

Lemma sumTo_pick (n x : nat) (f : nat → Z) :
  (x < n)%nat →
  sumTo n (λ a, if decide (x = a) then f a else 0) = f x.
Proof.
  intros Hx.
  rewrite (sumTo_ext _ _ (λ a, f x * (if decide (a = x) then 1 else 0))).
  - assert (Hs : ∀ c m, sumTo m (λ a, c * (if decide (a = x) then 1 else 0))
                      = c * sumTo m (λ a, if decide (a = x) then 1 else 0)).
    { intros c m. induction m as [|m IH]; cbn [sumTo]; [lia|]. rewrite IH. lia. }
    rewrite Hs, (sumTo_indicator n x) by done.
    rewrite decide_True by done. lia.
  - intros a _. destruct (decide (x = a)) as [->|Hne].
    + rewrite decide_True by done. lia.
    + rewrite decide_False by congruence. lia.
Qed.

Lemma sumTo_pick_pair (n x y : nat) (f : nat → nat → Z) :
  (x < n)%nat → (y < n)%nat →
  sumTo n (λ a, sumTo n (λ b, if decide ((x, y) = (a, b)) then f a b else 0))
  = f x y.
Proof.
  intros Hx Hy.
  rewrite (sumTo_ext _ _ (λ a, if decide (x = a) then f a y else 0)).
  - by apply (sumTo_pick n x (λ a, f a y)).
  - intros a _. destruct (decide (x = a)) as [<-|Hne].
    + rewrite (sumTo_ext _ _ (λ b, if decide (y = b) then f x b else 0)).
      * by apply (sumTo_pick n y (λ b, f x b)).
      * intros b _. destruct (decide (y = b)) as [<-|Hne].
        -- by rewrite decide_True.
        -- rewrite decide_False; [done|]. congruence.
    + apply sumTo_zero. intros b _. rewrite decide_False; [done|]. congruence.
Qed.

Lemma cutCapacity_pushGraph (g : Graph) (inS : nat → bool) (u v : nat) :
  wfGraph g → (u < totalNodes g)%nat → (v < totalNodes g)%nat →
  cutCapacity (pushGraph g u v) inS
  = cutCapacity g inS - (if inS u then 1 else 0) + (if inS v then 1 else 0).
Proof.
  intros Hwf Hu Hv. unfold cutCapacity.
  cbn [totalNodes pushGraph setAdjacencyMatrix].
  set (n := totalNodes g) in *.
  set (c := λ a b : nat, inS a && negb (inS b)).
  rewrite (sumTo_ext _ _
    (λ a, sumTo n (λ b, if c a b then capacity g a b else 0)
          + (sumTo n (λ b, if decide ((v, u) = (a, b))
                           then (if c a b then 1 else 0) else 0)
             - sumTo n (λ b, if decide ((u, v) = (a, b))
                             then (if c a b then 1 else 0) else 0)))).
  - rewrite sumTo_plus, sumTo_minus, !sumTo_pick_pair by done.
    unfold c. destruct (inS u), (inS v); simpl; lia.
  - intros a _. rewrite <- sumTo_minus, <- sumTo_plus.
    apply sumTo_ext. intros b _.
    rewrite pushGraph_capacity by done. fold (c a b).
    destruct (c a b); repeat case_decide; lia.
Qed.

(** Along a path the crossings of a cut cancel, up to the two ends. *)
Lemma cutCapacity_pushAll (p : list nat) (inS : nat → bool) :
  ∀ (g : Graph) (x0 xk : nat),
    wfGraph g → (∀ v, v ∈ p → (v < totalNodes g)%nat) →
    p !! 0%nat = Some x0 → last p = Some xk →
    cutCapacity (pushAll g (consecutive p)) inS
    = cutCapacity g inS - (if inS x0 then 1 else 0) + (if inS xk then 1 else 0).
Proof.
  induction p as [|u [|v rest] IH]; intros g x0 xk Hwf Hrange Hhead Hlast.
  - done.
  - simpl in *. injection Hhead as <-. injection Hlast as <-. lia.
  - change (consecutive (u :: v :: rest)) with ((u, v) :: consecutive (v :: rest)).
    cbn [pushAll fold_left]. fold (pushAll (pushGraph g u v) (consecutive (v :: rest))).
    simpl in Hhead. injection Hhead as <-.
    assert (Hu : (u < totalNodes g)%nat) by (apply Hrange; by left).
    assert (Hv : (v < totalNodes g)%nat) by (apply Hrange; right; by left).
    rewrite (IH (pushGraph g u v) v xk).
    + rewrite cutCapacity_pushGraph by done. lia.
    + by apply pushGraph_wf.
    + intros w Hw. apply Hrange. by right.
    + done.
    + by rewrite last_cons_cons in Hlast.
Qed.

Lemma nonnegativeb_true (g : Graph) : nonnegativeb g = true → nonnegative g.
Proof.
  unfold nonnegativeb. intros H u v. unfold capacity, Matrix.get, Matrix.row.
  destruct (adjacencyMatrix g !! u) as [r|] eqn:Hr; simpl; [|done].
  destruct (r !! v) as [c|] eqn:Hc; simpl; [|done].
  rewrite forallb_forall in H.
  apply list_elem_of_lookup_2, list_elem_of_In, H in Hr.
  rewrite forallb_forall in Hr.
  apply list_elem_of_lookup_2, list_elem_of_In, Hr in Hc. lia.
Qed.

Lemma cutCapacity_nonneg (g : Graph) (inS : nat → bool) :
  nonnegative g → 0 ≤ cutCapacity g inS.
Proof.
  intros Hg. apply sumTo_nonneg. intros u _. apply sumTo_nonneg. intros v _.
  destruct (inS u && negb (inS v)); [apply Hg|done].
Qed.

(** ** The residual graphs of a computation *)

Lemma residualOf_refl (g : Graph) (source sink : nat) :
  residualOf g source sink g.
Proof. split; intros; try done; lia. Qed.

Lemma residualOf_commit (g0 : Graph) (source sink : nat) (g : Graph)
    (p : list nat) :
  wfGraph g → residualOf g0 source sink g → augmenting g source sink p →
  residualOf g0 source sink (pushAll g (consecutive p)).
Proof.
  intros Hwf Hres Ha.
  pose proof (aug_head _ _ _ _ Ha) as Hh. pose proof (aug_last _ _ _ _ Ha) as Hl.
  pose proof (aug_nodup _ _ _ _ Ha) as Hnd.
  pose proof (aug_range _ _ _ _ Ha) as Hrange.
  assert (Hcap : ∀ a b, capacity (pushAll g (consecutive p)) a b
                        = capacity g a b + occ (b, a) (consecutive p)
                          - occ (a, b) (consecutive p)).
  { intros a b. apply pushAll_capacity; [done|].
    intros u v. apply (augmenting_pairs_range _ _ _ _ _ _ Ha). }
  split.
  - destruct (pushAll_totalNodes (consecutive p) g) as [-> _]. apply Hres.
  - intros H0 a b. rewrite Hcap.
    pose proof (ro_nonneg _ _ _ _ Hres H0 a b) as Hab.
    pose proof (occ_nonneg (b, a) (consecutive p)).
    pose proof (occ_consecutive_le p a b Hnd).
    destruct (decide (0 < occ (a, b) (consecutive p))) as [Hpos|]; [|lia].
    apply occ_pos in Hpos. pose proof (aug_edges _ _ _ _ Ha a b Hpos). lia.
  - intros a b. rewrite !Hcap, <- (ro_pair _ _ _ _ Hres a b). lia.
  - intros a Hsrc Hsnk.
    destruct (pushAll_path_sums p a g source sink Hwf Hrange Hh Hl) as [-> _].
    rewrite !decide_False by congruence. rewrite (ro_row _ _ _ _ Hres) by done. lia.
  - intros a Hsrc Hsnk.
    destruct (pushAll_path_sums p a g source sink Hwf Hrange Hh Hl) as [_ ->].
    rewrite !decide_False by congruence. rewrite (ro_col _ _ _ _ Hres) by done. lia.
  - destruct (pushAll_path_sums p source g source sink Hwf Hrange Hh Hl) as [-> _].
    pose proof (aug_distinct _ _ _ _ Ha) as Hne.
    rewrite (decide_True (P := source = source)) by done.
    rewrite (decide_False (P := sink = source)) by congruence.
    rewrite (sourceCapacity_commit g source sink p) by done.
    pose proof (ro_source _ _ _ _ Hres). lia.
  - destruct (pushAll_path_sums p sink g source sink Hwf Hrange Hh Hl) as [_ ->].
    pose proof (aug_distinct _ _ _ _ Ha) as Hne.
    rewrite (decide_True (P := sink = sink)) by done.
    rewrite (decide_False (P := source = sink)) by congruence.
    rewrite (sourceCapacity_commit g source sink p) by done.
    pose proof (ro_sink _ _ _ _ Hres). lia.
  - intros inS [Hs Ht].
    rewrite (cutCapacity_pushAll p inS g source sink) by done.
    rewrite Hs, Ht. rewrite (sourceCapacity_commit g source sink p) by done.
    pose proof (ro_cut _ _ _ _ Hres inS (conj Hs Ht)). lia.
Qed.

(** *** Capacities within [int] *)

Lemma intCapacitiesb_true (g : Graph) :
  wfGraph g → intCapacitiesb g = true → intCapacities g.
Proof.
  intros Hwf H.
  assert (Hout : ∀ u v, ¬ ((u < totalNodes g)%nat ∧ (v < totalNodes g)%nat) →
                        capacity g u v = 0).
  { intros u v Hn. unfold capacity.
    destruct (decide (u < totalNodes g)%nat) as [Hu|Hu].
    - apply (get_out_col (totalNodes g)); [done|lia].
    - apply get_out_row. destruct Hwf as [-> _]. lia. }
  assert (Hin : ∀ u v, (u < totalNodes g)%nat → (v < totalNodes g)%nat →
                       INT_MIN ≤ capacity g u v ≤ INT_MAX
                       ∧ capacity g u v + capacity g v u ≤ INT_MAX).
  { intros u v Hu Hv. unfold intCapacitiesb in H.
    rewrite forallb_forall in H. specialize (H u).
    rewrite forallb_forall in H.
    assert (Hb : (INT_MIN <=? capacity g u v) && (capacity g u v <=? INT_MAX)
                 && (capacity g u v + capacity g v u <=? INT_MAX) = true).
    { apply H; apply in_seq; lia. }
    apply andb_true_iff in Hb as [[H1 H2]%andb_true_iff H3]. lia. }
  assert (HI : INT_MIN ≤ 0 ≤ INT_MAX) by (unfold INT_MIN, INT_MAX; lia).
  split; intros u v.
  - destruct (decide ((u < totalNodes g)%nat ∧ (v < totalNodes g)%nat))
      as [[Hu Hv]|Hn].
    + by destruct (Hin u v Hu Hv).
    + by rewrite (Hout u v Hn).
  - destruct (decide ((u < totalNodes g)%nat ∧ (v < totalNodes g)%nat))
      as [[Hu Hv]|Hn].
    + by destruct (Hin u v Hu Hv).
    + rewrite (Hout u v Hn), (Hout v u) by tauto. lia.
Qed.

(** The pushes of a commit stay within [int]: along the path every entry
    that is decremented is positive and every entry that is incremented is
    below [INT_MAX], and the graph after the commit is again within
    [int]. *)
Lemma intCapacities_commit (g : Graph) (source sink : nat) (p : list nat) :
  wfGraph g → intCapacities g → augmenting g source sink p →
  (∀ u v, (u, v) ∈ consecutive p →
          0 < capacity g u v ∧ capacity g v u < INT_MAX)
  ∧ intCapacities (pushAll g (consecutive p)).
Proof.
  intros Hwf [Hrange Hpair] Ha.
  pose proof (aug_nodup _ _ _ _ Ha) as Hnd.
  assert (Hedge : ∀ u v, (u, v) ∈ consecutive p →
                         0 < capacity g u v ∧ capacity g v u < INT_MAX).
  { intros u v Huv. pose proof (aug_edges _ _ _ _ Ha u v Huv).
    pose proof (Hpair u v). lia. }
  split; [done|].
  assert (Hcap : ∀ a b, capacity (pushAll g (consecutive p)) a b
                        = capacity g a b + occ (b, a) (consecutive p)
                          - occ (a, b) (consecutive p)).
  { intros a b. apply pushAll_capacity; [done|].
    intros u v. apply (augmenting_pairs_range _ _ _ _ _ _ Ha). }
  assert (Hocc : ∀ a b,
    (occ (a, b) (consecutive p) = 0
     ∨ (occ (a, b) (consecutive p) = 1 ∧ occ (b, a) (consecutive p) = 0
        ∧ 0 < capacity g a b ∧ capacity g b a < INT_MAX))).
  { intros a b. pose proof (occ_nonneg (a, b) (consecutive p)).
    pose proof (occ_consecutive_le p a b Hnd).
    destruct (decide (0 < occ (a, b) (consecutive p))) as [Hpos|]; [|lia].
    right. apply occ_pos in Hpos.
    rewrite (occ_zero (b, a)) by (by apply consecutive_no_reverse).
    rewrite (occ_consecutive_one p a b Hnd Hpos).
    destruct (Hedge a b Hpos). done. }
  split; intros a b.
  - rewrite Hcap. pose proof (Hrange a b).
    destruct (Hocc a b) as [E1|(E1 & E2 & ? & ?)],
             (Hocc b a) as [E3|(E3 & E4 & ? & ?)]; unfold INT_MIN in *; lia.
  - rewrite !Hcap. pose proof (Hpair a b). lia.
Qed.

(** [calculateMaxFlow] keeps the capacities within [int]. *)
Lemma calculateMaxFlow_int (fuel : nat) (ff : FordFulkerson)
    (source sink : nat) :
  wfGraph (graph ff) →
  (source < totalNodes (graph ff))%nat →
  (sink < totalNodes (graph ff))%nat →
  enoughFuel (graph ff) source fuel →
  intCapacities (graph ff) →
  ∃ st ff',
    calculateMaxFlow fuel ff (Z.of_nat source) (Z.of_nat sink) = Returned st ff'
    ∧ intCapacities (graph ff').
Proof.
  intros Hwf Hsrc Hsnk Hfuel Hint.
  destruct (calculateMaxFlow_run intCapacities fuel ff source sink)
    as (st & ff' & Hrun & _ & Hint' & _); try done.
  - intros g p Hg Hk Ha. by apply (intCapacities_commit g source sink p).
  - by exists st, ff'.
Qed.

(** The run of [calculateMaxFlow], with what links its last graph to its
    first. *)
Lemma calculateMaxFlow_residual (fuel : nat) (ff : FordFulkerson)
    (source sink : nat) :
  wfGraph (graph ff) →
  (source < totalNodes (graph ff))%nat →
  (sink < totalNodes (graph ff))%nat →
  enoughFuel (graph ff) source fuel →
  ∃ st ff',
    calculateMaxFlow fuel ff (Z.of_nat source) (Z.of_nat sink) = Returned st ff'
    ∧ wfGraph (graph ff')
    ∧ residualOf (graph ff) source sink (graph ff')
    ∧ nodes (graph ff') = nodes (graph ff)
    ∧ bfsTree (graph ff') source (depth ff')
    ∧ closedExcept (graph ff') (depth ff') (λ _ _, False)
    ∧ (sink ≠ source → ¬ visited (depth ff') sink)
    ∧ Z.of_nat (pushed st) =
        sourceCapacity (graph ff) source - sourceCapacity (graph ff') source
    ∧ (phases st ≤ pushed st)%nat.
Proof.
  intros Hwf Hsrc Hsnk Hfuel.
  destruct (calculateMaxFlow_run (residualOf (graph ff) source sink)
              fuel ff source sink)
    as (st & ff' & H0 & H1 & H2 & H3 & H4 & H5 & H6 & H7 & H8 & H9 & H10);
    try done.
  - intros g p. apply residualOf_commit.
  - apply residualOf_refl.
  - exists st, ff'. done.
Qed.

(** ** [calculateMaxFlow] on any network *)

(** X1: on a network without negative capacities in which the sum of the
    two capacities between any two nodes is at most [INT_MAX] (so that no
    increment of the run overflows), what [calculateMaxFlow] takes from the
    capacities is a flow.  No capacity becomes negative, what is taken from
    [capacity[u][v]] is added to [capacity[v][u]], and at every node other
    than the source and the sink the capacities that leave it, and those
    that enter it, add up to what they did before the call.  The
    capacities stay values of an [int]. *)
Theorem calculateMaxFlow_leaves_a_flow (fuel : nat) (ff : FordFulkerson)
    (source sink : nat) :
  wfGraph (graph ff) →
  (source < totalNodes (graph ff))%nat →
  (sink < totalNodes (graph ff))%nat →
  nonnegative (graph ff) →
  intCapacities (graph ff) →
  enoughFuel (graph ff) source fuel →
  ∃ st ff',
    calculateMaxFlow fuel ff (Z.of_nat source) (Z.of_nat sink) = Returned st ff'
    ∧ totalNodes (graph ff') = totalNodes (graph ff)
    ∧ wfGraph (graph ff')
    ∧ nonnegative (graph ff')
    ∧ (∀ u v, capacity (graph ff') u v + capacity (graph ff') v u
              = capacity (graph ff) u v + capacity (graph ff) v u)
    ∧ (∀ v, v ≠ source → v ≠ sink →
            rowSum (graph ff') v = rowSum (graph ff) v
            ∧ colSum (graph ff') v = colSum (graph ff) v)
    ∧ intCapacities (graph ff').
Proof.
  intros Hwf Hsrc Hsnk Hnn Hint Hfuel.
  destruct (calculateMaxFlow_residual fuel ff source sink Hwf Hsrc Hsnk Hfuel)
    as (st & ff' & Hrun & Hwf' & Hres & _).
  destruct (calculateMaxFlow_int fuel ff source sink Hwf Hsrc Hsnk Hfuel Hint)
    as (st2 & ff2 & Hrun2 & Hint').
  rewrite Hrun in Hrun2. injection Hrun2 as _ <-.
  exists st, ff'. split; [done|]. split; [apply Hres|]. split; [done|].
  split; [by apply Hres|]. split; [apply Hres|]. split; [|done].
  intros v Hs Ht. split; by apply Hres.
Qed.

Lemma calculateMaxFlow_leaves_a_flow_witness :
  ∃ st ff',
    calculateMaxFlow 30
      (newFordFulkerson
         (createEdge (createEdge (createEdge (newGraph 1) 0 1 2) 1 2 3) 1 0 4))
      0 2
    = Returned st ff'
    ∧ capacity (graph ff') 0 1 + capacity (graph ff') 1 0 = 6.
Proof.
  destruct (calculateMaxFlow_leaves_a_flow 30
              (newFordFulkerson
                 (createEdge (createEdge (createEdge (newGraph 1) 0 1 2) 1 2 3)
                    1 0 4))
              0 2) as (st & ff' & Hrun & _ & _ & _ & Hpair & _).
  - do 3 apply square_set. apply square_zero.
  - vm_compute; lia.
  - vm_compute; lia.
  - apply nonnegativeb_true. vm_compute. reflexivity.
  - apply intCapacitiesb_true; [|vm_compute; reflexivity].
    do 3 apply square_set. apply square_zero.
  - split; vm_compute; [lia|reflexivity].
  - exists st, ff'. split; [exact Hrun|]. rewrite (Hpair 0%nat 1%nat).
    vm_compute. reflexivity.
Defined.

(** X2: on a network whose capacities are values of an [int] with the sum
    of the two capacities between any two nodes at most [INT_MAX] (so that
    no increment of the run overflows), the number of paths that
    [calculateMaxFlow] has pushed is the capacity that it has taken from
    the row of the source, the capacity that it has taken from the column
    of the sink, and the capacity that it has taken from every cut between
    the source and the sink. *)
Theorem calculateMaxFlow_value (fuel : nat) (ff : FordFulkerson)
    (source sink : nat) :
  wfGraph (graph ff) →
  (source < totalNodes (graph ff))%nat →
  (sink < totalNodes (graph ff))%nat →
  intCapacities (graph ff) →
  enoughFuel (graph ff) source fuel →
  ∃ st ff',
    calculateMaxFlow fuel ff (Z.of_nat source) (Z.of_nat sink) = Returned st ff'
    ∧ Z.of_nat (pushed st)
      = rowSum (graph ff) source - rowSum (graph ff') source
    ∧ Z.of_nat (pushed st)
      = colSum (graph ff) sink - colSum (graph ff') sink
    ∧ (∀ inS, separates inS source sink →
              Z.of_nat (pushed st)
              = cutCapacity (graph ff) inS - cutCapacity (graph ff') inS)
    ∧ intCapacities (graph ff').
Proof.
  intros Hwf Hsrc Hsnk Hint Hfuel.
  destruct (calculateMaxFlow_residual fuel ff source sink Hwf Hsrc Hsnk Hfuel)
    as (st & ff' & Hrun & Hwf' & Hres & _ & _ & _ & _ & Hpushed & _).
  destruct (calculateMaxFlow_int fuel ff source sink Hwf Hsrc Hsnk Hfuel Hint)
    as (st2 & ff2 & Hrun2 & Hint').
  rewrite Hrun in Hrun2. injection Hrun2 as _ <-.
  exists st, ff'. split; [done|]. rewrite Hpushed.
  split; [by rewrite (ro_source _ _ _ _ Hres)|].
  split; [by rewrite (ro_sink _ _ _ _ Hres)|]. split; [|done].
  intros inS HS. by rewrite (ro_cut _ _ _ _ Hres inS HS).
Qed.

Lemma calculateMaxFlow_value_witness :
  ∃ st ff',
    calculateMaxFlow 30
      (newFordFulkerson
         (createEdge (createEdge (createEdge (newGraph 1) 0 1 2) 1 2 3) 1 0 4))
      0 2
    = Returned st ff'
    ∧ Z.of_nat (pushed st) = 2 - rowSum (graph ff') 0.
Proof.
  destruct (calculateMaxFlow_value 30
              (newFordFulkerson
                 (createEdge (createEdge (createEdge (newGraph 1) 0 1 2) 1 2 3)
                    1 0 4))
              0 2) as (st & ff' & Hrun & Hrow & _).
  - do 3 apply square_set. apply square_zero.
  - vm_compute; lia.
  - vm_compute; lia.
  - apply intCapacitiesb_true; [|vm_compute; reflexivity].
    do 3 apply square_set. apply square_zero.
  - split; vm_compute; [lia|reflexivity].
  - exists st, ff'. split; [exact Hrun|]. exact Hrow.
Defined.

Lemma reached_visited (d : list Z) (v : nat) :
  reached d v = true ↔ visited d v.
Proof.
  unfold reached, visited. rewrite negb_true_iff, Z.eqb_neq. done.
Qed.

(** X3: on a network without negative capacities in which the sum of the
    two capacities between any two nodes is at most [INT_MAX] (so that no
    increment of the run overflows), the number of paths that
    [calculateMaxFlow] has pushed is at most the capacity of any cut
    between the source and the sink of the network it was given, and it is
    the capacity of one of them: the cut around the nodes to which the last
    [levelGraph] has given a depth.  So no flow from the source to the sink
    carries more. *)
Theorem calculateMaxFlow_min_cut (fuel : nat) (ff : FordFulkerson)
    (source sink : nat) :
  wfGraph (graph ff) →
  (source < totalNodes (graph ff))%nat →
  (sink < totalNodes (graph ff))%nat →
  source ≠ sink →
  nonnegative (graph ff) →
  intCapacities (graph ff) →
  enoughFuel (graph ff) source fuel →
  ∃ st ff',
    calculateMaxFlow fuel ff (Z.of_nat source) (Z.of_nat sink) = Returned st ff'
    ∧ (∀ inS, separates inS source sink →
              Z.of_nat (pushed st) ≤ cutCapacity (graph ff) inS)
    ∧ separates (reached (depth ff')) source sink
    ∧ Z.of_nat (pushed st) = cutCapacity (graph ff) (reached (depth ff'))
    ∧ intCapacities (graph ff').
Proof.
  intros Hwf Hsrc Hsnk Hne Hnn Hint Hfuel.
  destruct (calculateMaxFlow_residual fuel ff source sink Hwf Hsrc Hsnk Hfuel)
    as (st & ff' & Hrun & Hwf' & Hres & _ & Htree & Hclosed & Hsink & Hpushed & _).
  destruct (calculateMaxFlow_int fuel ff source sink Hwf Hsrc Hsnk Hfuel Hint)
    as (st2 & ff2 & Hrun2 & Hint').
  rewrite Hrun in Hrun2. injection Hrun2 as _ <-.
  pose proof (ro_nonneg _ _ _ _ Hres Hnn) as Hnn'.
  exists st, ff'. split; [done|]. rewrite Hpushed.
  assert (Hsep : separates (reached (depth ff')) source sink).
  { split.
    - apply reached_visited. unfold visited.
      rewrite (bfs_source _ _ _ Htree). done.
    - destruct (reached (depth ff') sink) eqn:E; [|done].
      apply reached_visited in E. destruct Hsink; [congruence|done]. }
  split; [|split; [done|split; [|done]]].
  - intros inS HS. rewrite <- (ro_cut _ _ _ _ Hres inS HS).
    pose proof (cutCapacity_nonneg (graph ff') inS Hnn'). lia.
  - rewrite <- (ro_cut _ _ _ _ Hres _ Hsep).
    assert (cutCapacity (graph ff') (reached (depth ff')) = 0) as ->; [|lia].
    apply sumTo_zero. intros u Hu. apply sumTo_zero. intros v Hv.
    destruct (reached (depth ff') u) eqn:Eu; [|done].
    destruct (reached (depth ff') v) eqn:Ev; [done|]. simpl.
    apply reached_visited in Eu.
    destruct (decide (0 < capacity (graph ff') u v)) as [Hpos|Hle].
    + destruct (Hclosed u v Eu) as [Hv'|[]]; [done|].
      apply reached_visited in Hv'. congruence.
    + pose proof (Hnn' u v). lia.
Qed.

Lemma calculateMaxFlow_min_cut_witness :
  ∃ st ff',
    calculateMaxFlow 30
      (newFordFulkerson
         (createEdge (createEdge (createEdge (newGraph 1) 0 1 2) 1 2 3) 1 0 4))
      0 2
    = Returned st ff'
    ∧ Z.of_nat (pushed st) ≤ 2.
Proof.
  destruct (calculateMaxFlow_min_cut 30
              (newFordFulkerson
                 (createEdge (createEdge (createEdge (newGraph 1) 0 1 2) 1 2 3)
                    1 0 4))
              0 2) as (st & ff' & Hrun & Hle & _).
  - do 3 apply square_set. apply square_zero.
  - vm_compute; lia.
  - vm_compute; lia.
  - discriminate.
  - apply nonnegativeb_true. vm_compute. reflexivity.
  - apply intCapacitiesb_true; [|vm_compute; reflexivity].
    do 3 apply square_set. apply square_zero.
  - split; vm_compute; [lia|reflexivity].
  - exists st, ff'. split; [exact Hrun|].
    apply (Hle (λ v, (v =? 0)%nat)). split; reflexivity.
Defined.

(** X4: when [calculateMaxFlow] returns, the sink cannot be reached
    from the source along edges of positive capacity any more, whatever
    the capacities of the network it was given. *)
Theorem calculateMaxFlow_exhausts_paths (fuel : nat) (ff : FordFulkerson)
    (source sink : nat) :
  wfGraph (graph ff) →
  (source < totalNodes (graph ff))%nat →
  (sink < totalNodes (graph ff))%nat →
  source ≠ sink →
  enoughFuel (graph ff) source fuel →
  ∃ st ff',
    calculateMaxFlow fuel ff (Z.of_nat source) (Z.of_nat sink) = Returned st ff'
    ∧ ¬ reachable (graph ff') source sink.
Proof.
  intros Hwf Hsrc Hsnk Hne Hfuel.
  destruct (calculateMaxFlow_returns fuel ff source sink Hwf Hsrc Hsnk Hfuel)
    as (st & ff' & Hrun & _ & _ & _ & _ & Htree & Hclosed & Hsink & _).
  exists st, ff'. split; [done|]. intros Hreach.
  apply Hsink; [congruence|]. by eapply closed_reachable.
Qed.

Lemma calculateMaxFlow_exhausts_paths_witness :
  ∃ st ff',
    calculateMaxFlow 30
      (newFordFulkerson
         (createEdge (createEdge (createEdge (newGraph 1) 0 1 2) 1 2 3) 1 0 4))
      0 2
    = Returned st ff'
    ∧ ¬ reachable (graph ff') 0 2.
Proof.
  apply (calculateMaxFlow_exhausts_paths 30
           (newFordFulkerson
              (createEdge (createEdge (createEdge (newGraph 1) 0 1 2) 1 2 3)
                 1 0 4))
           0 2).
  - do 3 apply square_set. apply square_zero.
  - vm_compute; lia.
  - vm_compute; lia.
  - discriminate.
  - split; vm_compute; [lia|reflexivity].
Defined.

(** X5: with the source as the sink, [calculateMaxFlow] does nothing
    but rewrite the depth vector: [levelGraph] gives the sink its depth
    before its loop and never returns true, so that no phase is entered,
    nothing is pushed and the capacities are left as they were, also where
    a cycle leads from the node back to it. *)
Theorem calculateMaxFlow_source_is_sink (fuel : nat) (ff : FordFulkerson)
    (node : nat) :
  (node < totalNodes (graph ff))%nat →
  (totalNodes (graph ff) < fuel)%nat →
  ∃ d,
    calculateMaxFlow fuel ff (Z.of_nat node) (Z.of_nat node)
    = Returned (mkStats 0 0) (setDepth ff d)
    ∧ depthAt d node = 0.
Proof.
  intros Hnode Hfuel.
  destruct (levelGraph_result fuel ff node node Hnode Hnode Hfuel)
    as (b & d & Hrun & Htree & Htrue & _).
  destruct b; [by destruct (Htrue eq_refl)|].
  exists d. split; [|apply (bfs_source _ _ _ Htree)].
  unfold calculateMaxFlow.
  rewrite (proj2 (inRange_of_nat _ node) Hnode). cbn [andb].
  rewrite Nat2Z.id. destruct fuel as [|fuel']; [lia|].
  cbn [calculateMaxFlow_loop]. by rewrite Hrun.
Qed.

Lemma calculateMaxFlow_source_is_sink_witness :
  ∃ d,
    calculateMaxFlow 5
      (newFordFulkerson (createEdge (createEdge (newGraph 0) 0 1 1) 1 0 1))
      0 0
    = Returned (mkStats 0 0)
        (setDepth
           (newFordFulkerson (createEdge (createEdge (newGraph 0) 0 1 1) 1 0 1))
           d).
Proof.
  destruct (calculateMaxFlow_source_is_sink 5
              (newFordFulkerson
                 (createEdge (createEdge (newGraph 0) 0 1 1) 1 0 1)) 0)
    as (d & Hrun & _).
  - vm_compute; lia.
  - vm_compute; lia.
  - exists d. exact Hrun.
Defined.

(** ** [findAugmentingPath] *)

(** A search only clears entries of the snapshot. *)
Lemma searchStep_snapshot (source sink : nat) (s s' : Search) (u v : nat) :
  searchInv source sink s → searchStep source sink s s' →
  Matrix.get (maxFlow (sFF s')) u v = Matrix.get (maxFlow (sFF s)) u v
  ∨ Matrix.get (maxFlow (sFF s')) u v = 0.
Proof.
  intros Hinv [Hns Hstep]. apply findNextNodeInPath_cases in Hstep.
  inversion Hstep as [nb Hadm| |Hnone Hne]; subst; cbn [sFF]; [by left|].
  pose proof (searchInv_node source sink s Hinv) as Hnode.
  destruct (lc_depth _ _ (si_chain _ _ _ Hinv) _ _ Hnode) as [Hlt _].
  rewrite clearMaxFlowAtNode_get; [|apply Hinv|done].
  case_decide; [by right|by left].
Qed.

Lemma searchStep_rtc_snapshot (source sink : nat) (s s' : Search) (u v : nat) :
  searchInv source sink s → rtc (searchStep source sink) s s' →
  Matrix.get (maxFlow (sFF s')) u v = Matrix.get (maxFlow (sFF s)) u v
  ∨ Matrix.get (maxFlow (sFF s')) u v = 0.
Proof.
  intros Hinv Hrtc. induction Hrtc as [|s s1 s2 Hstep _ IH]; [by left|].
  destruct (searchInv_searchStep _ _ _ _ Hinv Hstep) as (Hinv1 & _).
  destruct (IH Hinv1) as [-> | ->]; [|by right].
  by apply (searchStep_snapshot source sink).
Qed.

(** The nodes of a level chain that ends at the sink can all reach it. *)
Lemma levelChain_canReach (ff : FordFulkerson) (sink : nat) (p : list nat) :
  levelChain ff p → last p = Some sink →
  ∀ i a, p !! i = Some a → canReach ff sink a.
Proof.
  intros Hc Hlast i a Hi.
  remember (length p - i)%nat as k eqn:Hk.
  revert i a Hi Hk. induction k as [|k IH]; intros i a Hi Hk.
  - apply lookup_lt_Some in Hi. lia.
  - destruct (p !! S i) as [b|] eqn:Hb.
    + apply (canReach_step _ _ a b); [|apply (IH (S i)); [done|lia]].
      destruct (lc_edges _ _ Hc i a b Hi Hb) as [Hcap Hsnap].
      destruct (lc_depth _ _ Hc i a Hi) as [_ Hda].
      destruct (lc_depth _ _ Hc (S i) b Hb) as [Hlt Hdb].
      split.
      * apply findAdjacentNodes_spec. done.
      * apply admissible_true. split; [lia|done].
    + apply lookup_ge_None in Hb. apply lookup_lt_Some in Hi as Hlt.
      rewrite last_lookup in Hlast.
      replace (pred (length p)) with i in Hlast by lia.
      rewrite Hi in Hlast. injection Hlast as ->. constructor.
Qed.

(** X6: [findAugmentingPath], called with an empty path on a source
    that is not the sink and has depth 0, returns true exactly when the
    sink can be reached from the source along admissible edges, those from
    a node to a neighbour of the graph one level deeper with capacity left
    in the snapshot.  The path it then returns leads from the source to the
    sink without visiting a node twice, its [i]-th node has depth [i], and
    each of its edges has capacity left in the graph and in the snapshot.
    The graph and the depth vector are left as they were, and the snapshot
    is changed only by clearing entries. *)
Theorem findAugmentingPath_spec (fuel : nat) (ff : FordFulkerson)
    (source sink : nat) :
  Matrix.square (totalNodes (graph ff)) (maxFlow ff) →
  (source < totalNodes (graph ff))%nat →
  depthAt (depth ff) source = 0 →
  source ≠ sink →
  ((totalNodes (graph ff) + 1) * (totalNodes (graph ff) + 1) ≤ fuel)%nat →
  ∃ b ff' p,
    findAugmentingPath fuel ff [] source sink = Some (b, ff', p)
    ∧ graph ff' = graph ff ∧ depth ff' = depth ff
    ∧ (∀ u v, Matrix.get (maxFlow ff') u v = Matrix.get (maxFlow ff) u v
              ∨ Matrix.get (maxFlow ff') u v = 0)
    ∧ (b = true ↔ canReach ff sink source)
    ∧ (b = true →
         p !! 0%nat = Some source ∧ last p = Some sink ∧ NoDup p
         ∧ (∀ i a, p !! i = Some a →
                   (a < totalNodes (graph ff))%nat
                   ∧ depthAt (depth ff) a = Z.of_nat i)
         ∧ (∀ u v, (u, v) ∈ consecutive p →
                   0 < capacity (graph ff) u v
                   ∧ 0 < Matrix.get (maxFlow ff) u v)).
Proof.
  intros Hsq Hsrc Hd Hne Hfuel.
  destruct (findAugmentingPath_terminates fuel ff source sink Hsq Hsrc Hd Hfuel)
    as [[[b ff'] p] Hrun].
  exists b, ff', p. split; [done|].
  destruct (findAugmentingPath_result fuel ff ff' source sink b p
              Hsq Hsrc Hd Hrun) as (Hg & Hdep & Hsq' & Htrue).
  split; [done|]. split; [done|].
  assert (Hsnap : ∀ u v,
            Matrix.get (maxFlow ff') u v = Matrix.get (maxFlow ff) u v
            ∨ Matrix.get (maxFlow ff') u v = 0).
  { intros u v. pose proof Hrun as Hrun'.
    apply findAugmentingPath_loop_end in Hrun' as (s1 & Hrtc & Hend & _).
    pose proof (searchInv_init ff source sink Hsq Hsrc Hd) as Hinv0.
    destruct (searchInv_rtc source sink _ _ Hinv0 Hrtc) as (Hinv & _).
    pose proof (searchStep_rtc_snapshot source sink _ _ u v Hinv0 Hrtc) as H1.
    cbn [sFF] in H1.
    destruct Hend as [[_ [= _ -> _]]|[(Hns & s' & Hstep & [= _ -> _])
                                      |(Hns & s' & Hstep & _ & [= _ -> _])]].
    - done.
    - apply findNextNodeInPath_cases in Hstep. inversion Hstep; subst. done.
    - destruct (searchStep_snapshot source sink s1 s' u v Hinv (conj Hns Hstep))
        as [-> | ->]; [done|by right]. }
  split; [done|].
  assert (Hchain : b = true → levelChain ff p).
  { intros Hb. destruct (Htrue Hb) as (Hc & _).
    split.
    - intros i a Hi. destruct (lc_depth _ _ Hc i a Hi) as [H1 H2].
      rewrite Hg in H1. rewrite Hdep in H2. done.
    - intros i a b' Hi Hi'. destruct (lc_edges _ _ Hc i a b' Hi Hi') as [H1 H2].
      rewrite Hg in H1. split; [done|].
      destruct (Hsnap a b') as [E|E]; rewrite E in H2; [done|lia]. }
  split.
  - split.
    + intros Hb. destruct (Htrue Hb) as (_ & Hhead & Hlast & _).
      by apply (levelChain_canReach ff sink p (Hchain Hb) Hlast 0%nat).
    + intros Hreach.
      by apply (findAugmentingPath_complete fuel ff ff' source sink b p).
  - intros Hb. destruct (Htrue Hb) as (_ & Hhead & Hlast & _).
    pose proof (Hchain Hb) as Hc.
    split; [done|]. split; [done|]. split; [by eapply levelChain_NoDup|].
    split; [apply Hc|].
    intros u v (i & H1 & H2)%elem_of_consecutive.
    apply (lc_edges _ _ Hc i u v H1 H2).
Qed.

Lemma findAugmentingPath_spec_witness :
  ∃ b ff' p,
    findAugmentingPath 30
      (mkFF [0; 1; 2]
         (adjacencyMatrix (createEdge (createEdge (newGraph 1) 0 1 2) 1 2 3))
         (createEdge (createEdge (newGraph 1) 0 1 2) 1 2 3))
      [] 0 2
    = Some (b, ff', p)
    ∧ graph ff' = createEdge (createEdge (newGraph 1) 0 1 2) 1 2 3.
Proof.
  destruct (findAugmentingPath_spec 30
              (mkFF [0; 1; 2]
                 (adjacencyMatrix
                    (createEdge (createEdge (newGraph 1) 0 1 2) 1 2 3))
                 (createEdge (createEdge (newGraph 1) 0 1 2) 1 2 3))
              0 2) as (b & ff' & p & Hrun & Hg & _).
  - do 2 apply square_set. apply square_zero.
  - vm_compute; lia.
  - reflexivity.
  - discriminate.
  - vm_compute; lia.
  - exists b, ff', p. split; [exact Hrun|exact Hg].
Defined.

(** ** Building the network *)

Lemma matrix_ext (n : nat) (m m' : Matrix.t) :
  Matrix.square n m → Matrix.square n m' →
  (∀ i j, (i < n)%nat → (j < n)%nat → Matrix.get m i j = Matrix.get m' i j) →
  m = m'.
Proof.
  intros [Hlen Hrows] [Hlen' Hrows'] Hget. apply list_eq. intros i.
  destruct (decide (i < n)%nat) as [Hi|Hi].
  - destruct (lookup_lt_is_Some_2 m i) as [r Hr]; [lia|].
    destruct (lookup_lt_is_Some_2 m' i) as [r' Hr']; [lia|].
    rewrite Hr, Hr'. f_equal. apply list_eq. intros j.
    pose proof (Hrows i r Hr) as Hl. pose proof (Hrows' i r' Hr') as Hl'.
    destruct (decide (j < n)%nat) as [Hj|Hj].
    + specialize (Hget i j Hi Hj). unfold Matrix.get, Matrix.row in Hget.
      rewrite Hr, Hr' in Hget. simpl in Hget.
      destruct (lookup_lt_is_Some_2 r j) as [x Hx]; [lia|].
      destruct (lookup_lt_is_Some_2 r' j) as [x' Hx']; [lia|].
      rewrite Hx, Hx' in Hget. simpl in Hget. by rewrite Hx, Hx', Hget.
    + by rewrite !lookup_ge_None_2 by lia.
  - by rewrite !lookup_ge_None_2 by lia.
Qed.

Lemma graph_ext (g g' : Graph) :
  wfGraph g → wfGraph g' → nodes g = nodes g' → totalNodes g = totalNodes g' →
  (∀ u v, capacity g u v = capacity g' u v) → g = g'.
Proof.
  destruct g as [n N m], g' as [n' N' m']. unfold wfGraph, capacity. simpl.
  intros Hwf Hwf' -> -> Hcap. f_equal.
  apply (matrix_ext N'); auto.
Qed.

Lemma fileRead_spec (n : nat) (edges : list (nat * nat)) :
  (∀ a b, (a, b) ∈ edges → (a < n + 2)%nat ∧ (b < n + 2)%nat) →
  wfGraph (fileRead n edges)
  ∧ nodes (fileRead n edges) = n
  ∧ totalNodes (fileRead n edges) = (n + 2)%nat
  ∧ ∀ u v, capacity (fileRead n edges) u v
           = if decide ((u, v) ∈ edges) then 1 else 0.
Proof.
  intros Hrange. unfold fileRead, readEdges. fold (setEdges (newGraph n) edges).
  destruct (setEdges_spec edges (newGraph n) (newGraph_wf n))
    as (Hwf & Hn & HN & Hcap); [done|].
  split; [done|]. split; [done|]. split; [done|].
  intros u v. rewrite Hcap.
  change (capacity (newGraph n) u v) with (Matrix.get (Matrix.zero (n + 2)) u v).
  by rewrite get_zero.
Qed.

(** X7: [readEdges] sets the capacity of every listed edge to 1, so
    that an edge listed twice counts once and the order of the edges does
    not matter: after [Graph(n)] and [readEdges] the capacity is 1 between
    the listed pairs and 0 elsewhere, and two lists with the same elements
    give the same graph. *)
Theorem fileRead_edge_set (n : nat) (edges edges' : list (nat * nat)) :
  (∀ a b, (a, b) ∈ edges → (a < n + 2)%nat ∧ (b < n + 2)%nat) →
  (∀ e, e ∈ edges ↔ e ∈ edges') →
  fileRead n edges = fileRead n edges'
  ∧ ∀ u v, capacity (fileRead n edges) u v
           = if decide ((u, v) ∈ edges) then 1 else 0.
Proof.
  intros Hrange Hsame.
  destruct (fileRead_spec n edges Hrange) as (Hwf & Hn & HN & Hcap).
  destruct (fileRead_spec n edges') as (Hwf' & Hn' & HN' & Hcap').
  { intros a b Hab. apply Hrange, Hsame, Hab. }
  split; [|done].
  apply graph_ext; [done|done|congruence|congruence|].
  intros u v. rewrite Hcap, Hcap'.
  destruct (decide ((u, v) ∈ edges)) as [H|H].
  - rewrite decide_True; [done|]. by apply Hsame.
  - rewrite decide_False; [done|]. by rewrite <- Hsame.
Qed.

Lemma fileRead_edge_set_witness :
  fileRead 2 [(1, 2); (2, 1); (1, 2)]%nat = fileRead 2 [(2, 1); (1, 2)]%nat.
Proof.
  apply (fileRead_edge_set 2 [(1, 2); (2, 1); (1, 2)]%nat [(2, 1); (1, 2)]%nat).
  - intros a b Hin.
    repeat (apply elem_of_cons in Hin as [Hin|Hin];
            [injection Hin as -> ->; vm_compute; lia|]).
    by apply elem_of_nil in Hin.
  - intros e. rewrite !elem_of_cons, !elem_of_nil. tauto.
Defined.

Lemma connectSourceAndSinkNodes_spec (g : Graph) (source sink : nat) :
  wfGraph g → (nodes g < totalNodes g)%nat →
  (source < totalNodes g)%nat → (sink < totalNodes g)%nat →
  wfGraph (connectSourceAndSinkNodes g source sink)
  ∧ nodes (connectSourceAndSinkNodes g source sink) = nodes g
  ∧ totalNodes (connectSourceAndSinkNodes g source sink) = totalNodes g
  ∧ ∀ u v, capacity (connectSourceAndSinkNodes g source sink) u v
           = if decide ((u = source ∧ (1 ≤ v ≤ nodes g / 2)%nat)
                        ∨ ((nodes g / 2 + 1 ≤ u ≤ nodes g)%nat ∧ v = sink))
             then 1 else capacity g u v.
Proof.
  intros Hwf Hn Hsrc Hsnk. pose proof (half_le (nodes g)) as Hhalf.
  unfold connectSourceAndSinkNodes, createSourceNode.
  rewrite fold_createEdge_source.
  destruct (setEdges_spec (map (λ i, (source, i)) (seq 1 (nodes g / 2))) g Hwf)
    as (Hwf2 & Hn2 & HN2 & Hcap2).
  { intros a b [i [[= -> ->] Hi%list_elem_of_In%in_seq]]%list_elem_of_fmap. lia. }
  set (g2 := setEdges g _) in *.
  unfold createSinkNode. rewrite fold_createEdge_sink, Hn2.
  destruct (setEdges_spec
              (map (λ i, (i, sink))
                   (seq (nodes g / 2 + 1) (nodes g - nodes g / 2))) g2 Hwf2)
    as (Hwf3 & Hn3 & HN3 & Hcap3).
  { intros a b [i [[= -> ->] Hi%list_elem_of_In%in_seq]]%list_elem_of_fmap. lia. }
  split; [done|]. split; [congruence|]. split; [congruence|].
  intros u v. rewrite Hcap3, Hcap2.
  destruct (decide ((u, v) ∈ map (λ i, (i, sink))
                                 (seq (nodes g / 2 + 1) (nodes g - nodes g / 2))))
    as [H3|H3].
  { rewrite decide_True; [done|]. right.
    apply list_elem_of_fmap in H3 as [i [[= -> ->] Hi%list_elem_of_In%in_seq]].
    split; [lia|done]. }
  destruct (decide ((u, v) ∈ map (λ i, (source, i)) (seq 1 (nodes g / 2))))
    as [H2|H2].
  { rewrite decide_True; [done|]. left.
    apply list_elem_of_fmap in H2 as [i [[= -> ->] Hi%list_elem_of_In%in_seq]].
    split; [done|lia]. }
  rewrite decide_False; [done|].
  intros [[-> Hl]|[Hr ->]].
  - apply H2. apply list_elem_of_fmap. exists v. split; [done|].
    apply list_elem_of_In, in_seq. lia.
  - apply H3. apply list_elem_of_fmap. exists u. split; [done|].
    apply list_elem_of_In, in_seq. lia.
Qed.

(** X8: [connectSourceAndSinkNodes(source, sink)] sets
    [capacity[source][i]] to 1 for the nodes [i] of [1 .. nodes/2] and
    [capacity[i][sink]] to 1 for the nodes [i] of [nodes/2+1 .. nodes],
    whatever these entries held, and leaves every other entry as it was;
    doing it a second time changes nothing. *)
Theorem connectSourceAndSinkNodes_wires (g : Graph) (source sink : nat) :
  wfGraph g → (nodes g < totalNodes g)%nat →
  (source < totalNodes g)%nat → (sink < totalNodes g)%nat →
  (∀ u v, capacity (connectSourceAndSinkNodes g source sink) u v
          = if decide ((u = source ∧ (1 ≤ v ≤ nodes g / 2)%nat)
                       ∨ ((nodes g / 2 + 1 ≤ u ≤ nodes g)%nat ∧ v = sink))
            then 1 else capacity g u v)
  ∧ connectSourceAndSinkNodes (connectSourceAndSinkNodes g source sink)
      source sink
    = connectSourceAndSinkNodes g source sink.
Proof.
  intros Hwf Hn Hsrc Hsnk.
  destruct (connectSourceAndSinkNodes_spec g source sink Hwf Hn Hsrc Hsnk)
    as (Hwf1 & Hn1 & HN1 & Hcap1).
  split; [done|].
  destruct (connectSourceAndSinkNodes_spec
              (connectSourceAndSinkNodes g source sink) source sink)
    as (Hwf2 & Hn2 & HN2 & Hcap2); [done|lia|lia|lia|].
  apply graph_ext; [done|done|done|done|].
  intros u v. rewrite Hcap2, Hn1, Hcap1. by case_decide.
Qed.

Lemma connectSourceAndSinkNodes_wires_witness :
  capacity (connectSourceAndSinkNodes (createEdge (newGraph 2) 0 1 7) 0 3) 0 1
  = 1.
Proof.
  destruct (connectSourceAndSinkNodes_wires
              (createEdge (newGraph 2) 0 1 7) 0 3) as [Hcap _].
  - apply square_set, square_zero.
  - vm_compute; lia.
  - vm_compute; lia.
  - vm_compute; lia.
  - rewrite Hcap. reflexivity.
Defined.

(** The wired network of any list of edges between nodes of the graph. *)
Lemma wired_in_range (n : nat) (edges : list (nat * nat)) :
  (∀ a b, (a, b) ∈ edges → (a < n + 2)%nat ∧ (b < n + 2)%nat) →
  wfGraph (wired n edges)
  ∧ nodes (wired n edges) = n
  ∧ totalNodes (wired n edges) = (n + 2)%nat
  ∧ ∀ u v, capacity (wired n edges) u v
           = if decide ((u = 0%nat ∧ isLeft n v)
                        ∨ (isRight n u ∧ v = (n + 1)%nat))
             then 1 else if decide ((u, v) ∈ edges) then 1 else 0.
Proof.
  intros Hrange.
  destruct (fileRead_spec n edges Hrange) as (Hwf & Hn & HN & Hcap).
  destruct (connectSourceAndSinkNodes_spec (fileRead n edges) 0 (n + 1))
    as (Hwf1 & Hn1 & HN1 & Hcap1); [done|lia|lia|lia|].
  unfold wired. split; [done|]. split; [congruence|]. split; [congruence|].
  intros u v. rewrite Hcap1, Hn, Hcap. done.
Qed.

Lemma sumTo_le (n : nat) (f f' : nat → Z) :
  (∀ i, (i < n)%nat → f i ≤ f' i) → sumTo n f ≤ sumTo n f'.
Proof.
  induction n as [|n IH]; intros H; cbn [sumTo]; [done|].
  assert (f n ≤ f' n) by (apply H; lia).
  assert (sumTo n f ≤ sumTo n f'); [|lia]. apply IH. intros i Hi. apply H. lia.
Qed.

Lemma sumTo_const (n : nat) (c : Z) : sumTo n (λ _, c) = Z.of_nat n * c.
Proof. induction n as [|n IH]; cbn [sumTo]; [lia|]. rewrite IH. lia. Qed.

Lemma wired_enoughFuel (n : nat) (edges : list (nat * nat)) (fuel : nat) :
  (∀ a b, (a, b) ∈ edges → (a < n + 2)%nat ∧ (b < n + 2)%nat) →
  ((n + 3) * (n + 3) ≤ fuel)%nat →
  enoughFuel (wired n edges) 0 fuel.
Proof.
  intros Hrange Hfuel.
  destruct (wired_in_range n edges Hrange) as (Hwf & Hn & HN & Hcap).
  split; [rewrite HN; lia|].
  unfold sourceCapacity. rewrite HN.
  pose proof (sumTo_le (n + 2) (λ v, Z.max 0 (capacity (wired n edges) 0 v))
                (λ _, 1)) as Hle.
  rewrite sumTo_const in Hle.
  assert (sumTo (n + 2) (λ v, Z.max 0 (capacity (wired n edges) 0 v))
          ≤ Z.of_nat (n + 2) * 1); [|nia].
  apply Hle. intros v _. rewrite Hcap. repeat case_decide; lia.
Qed.

Lemma solve_in_range (n : nat) (edges : list (nat * nat)) (fuel : nat)
    (names : list string) :
  (∀ a b, (a, b) ∈ edges → (a < n + 2)%nat ∧ (b < n + 2)%nat) →
  ((n + 3) * (n + 3) ≤ fuel)%nat →
  ∃ st ff',
    calculateMaxFlow fuel (newFordFulkerson (wired n edges)) 0 (Z.of_nat n + 1)
    = Returned st ff'
    ∧ solve fuel (fileRead n edges) names
      = Returned (printResults (graph ff') names) ff'
    ∧ nodes (graph ff') = n
    ∧ nonnegative (graph ff')
    ∧ ¬ reachable (graph ff') 0 (n + 1).
Proof.
  intros Hrange Hfuel.
  destruct (wired_in_range n edges Hrange) as (Hwf & Hn & HN & Hcap).
  destruct (fileRead_spec n edges Hrange) as (_ & Hn0 & _).
  destruct (calculateMaxFlow_residual fuel (newFordFulkerson (wired n edges))
              0 (n + 1))
    as (st & ff' & Hrun & Hwf' & Hres & Hn' & Htree & Hclosed & Hsink & _).
  { done. }
  { cbn [graph newFordFulkerson]. lia. }
  { cbn [graph newFordFulkerson]. lia. }
  { by apply wired_enoughFuel. }
  cbn [graph newFordFulkerson] in *.
  assert (Hrun' : calculateMaxFlow fuel (newFordFulkerson (wired n edges)) 0
                    (Z.of_nat n + 1) = Returned st ff').
  { rewrite <- Hrun. f_equal. lia. }
  exists st, ff'. split; [done|]. split; [|split; [congruence|split]].
  - unfold solve. rewrite Hn0. fold (wired n edges). by rewrite Hrun'.
  - apply (ro_nonneg _ _ _ _ Hres). intros u v. rewrite Hcap.
    repeat case_decide; lia.
  - intros Hreach. apply Hsink; [lia|]. by eapply closed_reachable.
Qed.

(** X9: [solve], given the names of the nodes (a vector of more than [n]
    entries, as [printResults] reads [names[i]] for the nodes of the pairs
    it reports), returns normally on the graph of every edge list whose
    pairs are nodes of the graph, whether or not they lead from a left node
    to a right node: the source [0] and the sink [n + 1] pass the check of
    [calculateMaxFlow], no push leaves the matrix, every name that is
    printed is an entry of the vector, and [(n + 3)²] units of fuel
    suffice.  In the graph that is left no capacity is negative and the
    sink is out of reach of the source. *)
Theorem solve_returns (n : nat) (edges : list (nat * nat)) (fuel : nat)
    (names : list string) :
  (∀ a b, (a, b) ∈ edges → (a < n + 2)%nat ∧ (b < n + 2)%nat) →
  (n < length names)%nat →
  ((n + 3) * (n + 3) ≤ fuel)%nat →
  ∃ st ff',
    calculateMaxFlow fuel (newFordFulkerson (wired n edges)) 0 (Z.of_nat n + 1)
    = Returned st ff'
    ∧ solve fuel (fileRead n edges) names
      = Returned (printResults (graph ff') names) ff'
    ∧ nodes (graph ff') = n
    ∧ nonnegative (graph ff')
    ∧ ¬ reachable (graph ff') 0 (n + 1)
    ∧ (∀ i j, (i, j) ∈ matchedPairs (graph ff') →
              is_Some (names !! i) ∧ is_Some (names !! j)).
Proof.
  intros Hrange Hlen Hfuel.
  destruct (solve_in_range n edges fuel names Hrange Hfuel)
    as (st & ff' & Hrun & Hsolve & Hn & Hnn & Hreach).
  exists st, ff'. do 5 (split; [done|]).
  intros i j (Hi & Hj & _)%elem_of_matchedPairs. rewrite Hn in Hi, Hj.
  pose proof (half_le n).
  split; apply lookup_lt_is_Some; lia.
Qed.

Lemma solve_returns_witness :
  ∃ ff',
    solve 30 (fileRead 2 [(2, 1); (0, 2)]%nat) [""; "Ann"; "Bob"]
    = Returned (["Ann / Bob"], 1) ff'.
Proof.
  destruct (solve_returns 2 [(2, 1); (0, 2)]%nat 30 [""; "Ann"; "Bob"])
    as (st & ff' & Hrun & Hsolve & _).
  - intros a b Hin.
    repeat (apply elem_of_cons in Hin as [Hin|Hin];
            [injection Hin as -> ->; vm_compute; lia|]).
    by apply elem_of_nil in Hin.
  - vm_compute; lia.
  - vm_compute; lia.
  - exists ff'. rewrite Hsolve. vm_compute in Hrun.
    injection Hrun as _ <-. reflexivity.
Defined.

(** ** Edges that lead from a right node to a left node *)

Lemma calculateMaxFlow_unreachable (fuel : nat) (ff : FordFulkerson)
    (source sink : nat) :
  (source < totalNodes (graph ff))%nat →
  (sink < totalNodes (graph ff))%nat →
  (totalNodes (graph ff) < fuel)%nat →
  ¬ reachable (graph ff) source sink →
  ∃ d, calculateMaxFlow fuel ff (Z.of_nat source) (Z.of_nat sink)
       = Returned (mkStats 0 0) (setDepth ff d).
Proof.
  intros Hsrc Hsnk Hfuel Hnr.
  destruct (levelGraph_result fuel ff source sink Hsrc Hsnk Hfuel)
    as (b & d & Hrun & Htree & Htrue & _).
  destruct b.
  { destruct (Htrue eq_refl) as [_ Hv]. destruct Hnr.
    by apply (bfs_reach _ _ _ Htree). }
  exists d. unfold calculateMaxFlow.
  rewrite (proj2 (inRange_of_nat _ source) Hsrc),
          (proj2 (inRange_of_nat _ sink) Hsnk). cbn [andb].
  rewrite !Nat2Z.id. destruct fuel as [|fuel']; [lia|].
  cbn [calculateMaxFlow_loop]. by rewrite Hrun.
Qed.

Lemma matchedPairs_NoDup (g : Graph) : NoDup (matchedPairs g).
Proof.
  unfold matchedPairs.
  apply (NoDup_pairs (λ n i, Matrix.get (adjacencyMatrix g) n i =? 1));
    apply NoDup_seq.
Qed.

(** X10: the direction of the edges of the input is not checked.
    When every edge is listed from its right node to its left node,
    [calculateMaxFlow] finds the sink out of reach and pushes nothing, and
    [printResults] reports every edge as a matched pair, since
    [capacity[right][left]] is 1 for each of them: the count is the number
    of edges, also where edges share a node. *)
Theorem solve_reversed_edges (n : nat) (edges : list (nat * nat)) (fuel : nat)
    (names : list string) :
  (∀ r l, (r, l) ∈ edges → isRight n r ∧ isLeft n l) →
  NoDup edges →
  ((n + 3) * (n + 3) ≤ fuel)%nat →
  ∃ ff',
    calculateMaxFlow fuel (newFordFulkerson (wired n edges)) 0 (Z.of_nat n + 1)
    = Returned (mkStats 0 0) ff'
    ∧ graph ff' = wired n edges
    ∧ solve fuel (fileRead n edges) names
      = Returned (printResults (wired n edges) names) ff'
    ∧ (∀ l r, (l, r) ∈ matchedPairs (wired n edges) ↔ (r, l) ∈ edges)
    ∧ (printResults (wired n edges) names).2 = Z.of_nat (length edges).
Proof.
  intros Hrev Hnd Hfuel. pose proof (half_le n) as Hhalf.
  assert (Hrange : ∀ a b, (a, b) ∈ edges → (a < n + 2)%nat ∧ (b < n + 2)%nat).
  { intros a b Hab. destruct (Hrev a b Hab) as [Hr Hl].
    unfold isLeft, isRight in *. lia. }
  destruct (wired_in_range n edges Hrange) as (Hwf & Hn & HN & Hcap).
  destruct (fileRead_spec n edges Hrange) as (_ & Hn0 & _).
  assert (Hreach : ∀ v, reachable (wired n edges) 0 v → v = 0%nat ∨ isLeft n v).
  { intros v Hv. induction Hv as [|v w _ IH (_ & _ & Hpos)]; [by left|].
    rewrite Hcap in Hpos. right.
    destruct (decide ((v = 0%nat ∧ isLeft n w)
                      ∨ (isRight n v ∧ w = (n + 1)%nat))) as [[[_ Hw]|[Hr _]]|_].
    - done.
    - unfold isLeft, isRight in *. lia.
    - destruct (decide ((v, w) ∈ edges)) as [Hin|]; [|lia].
      destruct (Hrev v w Hin) as [Hr Hl]. done. }
  destruct (calculateMaxFlow_unreachable fuel (newFordFulkerson (wired n edges))
              0 (n + 1)) as [d Hrun].
  { cbn [graph newFordFulkerson]. lia. }
  { cbn [graph newFordFulkerson]. lia. }
  { cbn [graph newFordFulkerson]. nia. }
  { cbn [graph newFordFulkerson]. intros [?|Hl]%Hreach; [lia|].
    unfold isLeft in Hl. lia. }
  assert (Hrun' : calculateMaxFlow fuel (newFordFulkerson (wired n edges)) 0
                    (Z.of_nat n + 1)
                  = Returned (mkStats 0 0)
                      (setDepth (newFordFulkerson (wired n edges)) d)).
  { rewrite <- Hrun. f_equal. lia. }
  assert (Hpairs : ∀ l r, (l, r) ∈ matchedPairs (wired n edges) ↔ (r, l) ∈ edges).
  { intros l r. rewrite elem_of_matchedPairs, Hn, Hcap. split.
    - intros (Hl & Hr & Hc).
      rewrite decide_False in Hc by (unfold isLeft, isRight; lia).
      destruct (decide ((r, l) ∈ edges)); [done|lia].
    - intros Hin. destruct (Hrev r l Hin) as [Hr Hl].
      split; [done|]. split; [done|].
      rewrite decide_False by (unfold isLeft, isRight in *; lia).
      by rewrite decide_True. }
  exists (setDepth (newFordFulkerson (wired n edges)) d).
  split; [done|]. split; [done|]. split; [|split; [done|]].
  - unfold solve. rewrite Hn0. fold (wired n edges). by rewrite Hrun'.
  - rewrite printResults_matchedPairs. cbn [snd]. f_equal.
    rewrite <- (length_fmap (λ e : nat * nat, (e.2, e.1)) edges).
    apply Permutation_length, NoDup_Permutation.
    + apply matchedPairs_NoDup.
    + apply NoDup_fmap_2; [|done]. by intros [a b] [a' b'] [= -> ->].
    + intros [l r]. rewrite Hpairs, list_elem_of_fmap. split.
      * intros Hin. by exists (r, l).
      * by intros [[a b] [[= -> ->] Hin]].
Qed.

Lemma solve_reversed_edges_witness :
  ∃ ff',
    solve 49 (fileRead 4 [(3, 1); (3, 2); (4, 1)]%nat) ["s"; "a"; "b"; "c"; "d"]
    = Returned (["a / c"; "a / d"; "b / c"], 3) ff'.
Proof.
  destruct (solve_reversed_edges 4 [(3, 1); (3, 2); (4, 1)]%nat 49
              ["s"; "a"; "b"; "c"; "d"])
    as (ff' & _ & _ & Hsolve & _).
  - intros r l Hin. unfold isLeft, isRight.
    repeat (apply elem_of_cons in Hin as [Hin|Hin];
            [injection Hin as -> ->; vm_compute; lia|]).
    by apply elem_of_nil in Hin.
  - apply (bool_decide_unpack _). vm_compute. exact I.
  - vm_compute; lia.
  - exists ff'. rewrite Hsolve. reflexivity.
Defined.

(** ** [validateName] *)

Lemma validateName_validateFrom (name : list ascii) :
  GraphPrepare.validateName name = validateFrom [] name.
Proof. done. Qed.

Lemma validateFrom_cons (acc : list ascii) (ch : ascii) (name : list ascii) :
  validateFrom acc (ch :: name)
  = validateFrom (if keeps acc ch then acc ++ [ch] else acc) name.
Proof. done. Qed.

Lemma isalnum_space : GraphPrepare.isalnum " "%char = false.
Proof. done. Qed.

Lemma keeps_true (acc : list ascii) (ch : ascii) :
  keeps acc ch = true ↔
  GraphPrepare.isalnum ch = true
  ∨ (acc ≠ [] ∧ ch = " "%char ∧ last acc ≠ Some " "%char).
Proof.
  unfold keeps.
  rewrite orb_true_iff, !andb_true_iff, !negb_true_iff,
          !bool_decide_eq_false, bool_decide_eq_true.
  tauto.
Qed.

Lemma cleanName_nil : cleanName [].
Proof.
  split.
  - by intros ch ?%elem_of_nil.
  - done.
  - by intros i.
Qed.

Lemma cleanName_snoc (acc : list ascii) (ch : ascii) :
  cleanName acc → keeps acc ch = true → cleanName (acc ++ [ch]).
Proof.
  intros [Hchars Hhead Hsingle] Hk%keeps_true. split.
  - intros c [Hc| ->%list_elem_of_singleton]%elem_of_app; [by apply Hchars|].
    destruct Hk as [?|(_ & -> & _)]; [by left|by right].
  - destruct acc as [|a acc]; [|done]. simpl.
    destruct Hk as [Hal|(Hne & _)]; [|done].
    intros [= ->]. by rewrite isalnum_space in Hal.
  - intros i Hi Hi'.
    destruct (decide (S i < length acc)%nat) as [Hlt|Hge].
    + rewrite lookup_app_l in Hi by lia. rewrite lookup_app_l in Hi' by lia.
      by apply (Hsingle i).
    + destruct (decide (S i = length acc)) as [E|Hne].
      * rewrite lookup_app_l in Hi by lia.
        rewrite lookup_app_r in Hi' by lia.
        rewrite E, Nat.sub_diag in Hi'. simpl in Hi'. injection Hi' as ->.
        destruct Hk as [Hal|(_ & _ & Hlast)].
        -- by rewrite isalnum_space in Hal.
        -- apply Hlast. rewrite last_lookup.
           replace (pred (length acc)) with i by lia. done.
      * apply lookup_lt_Some in Hi'. rewrite length_app in Hi'. simpl in Hi'.
        lia.
Qed.

Lemma validateFrom_clean (name : list ascii) :
  ∀ acc, cleanName acc → cleanName (validateFrom acc name).
Proof.
  induction name as [|ch name IH]; intros acc Hacc; [done|].
  rewrite validateFrom_cons. apply IH.
  destruct (keeps acc ch) eqn:E; [by apply cleanName_snoc|done].
Qed.

Lemma validateFrom_sublist (name : list ascii) :
  ∀ acc, ∃ r, validateFrom acc name = acc ++ r ∧ sublist r name.
Proof.
  induction name as [|ch name IH]; intros acc.
  - exists []. by rewrite app_nil_r.
  - rewrite validateFrom_cons. destruct (keeps acc ch).
    + destruct (IH (acc ++ [ch])) as (r & -> & Hr). exists (ch :: r).
      split; [by rewrite <- app_assoc|]. by constructor.
    + destruct (IH acc) as (r & -> & Hr). exists r.
      split; [done|]. by constructor.
Qed.

Lemma cleanName_app_keeps (acc : list ascii) (ch : ascii) (rest : list ascii) :
  cleanName (acc ++ ch :: rest) → keeps acc ch = true.
Proof.
  intros [Hchars Hhead Hsingle]. apply keeps_true.
  destruct (Hchars ch) as [Hal| ->]; [set_solver|by left|].
  right. split; [|split; [done|]].
  - intros ->. by apply Hhead.
  - intros Hlast. rewrite last_lookup in Hlast.
    pose proof (lookup_lt_Some _ _ _ Hlast) as Hlt.
    apply (Hsingle (pred (length acc))).
    + by rewrite lookup_app_l by lia.
    + rewrite lookup_app_r by lia.
      replace (S (pred (length acc)) - length acc)%nat with 0%nat by lia. done.
Qed.

Lemma validateFrom_fixed (name : list ascii) :
  ∀ acc, cleanName (acc ++ name) → validateFrom acc name = acc ++ name.
Proof.
  induction name as [|ch name IH]; intros acc Hclean.
  - by rewrite app_nil_r.
  - rewrite validateFrom_cons, (cleanName_app_keeps acc ch name Hclean).
    rewrite IH; rewrite <- app_assoc; done.
Qed.

(** X11: [validateName] only removes characters: what it returns is
    made of characters of the name in their order, and it is a clean name:
    letters, digits and spaces, without a space in front and without two
    spaces in a row.  (A space at the end is kept.) *)
Theorem validateName_clean (name : list ascii) :
  sublist (GraphPrepare.validateName name) name
  ∧ cleanName (GraphPrepare.validateName name).
Proof.
  rewrite validateName_validateFrom. split.
  - destruct (validateFrom_sublist name []) as (r & -> & Hr). done.
  - apply validateFrom_clean, cleanName_nil.
Qed.

(** X12: [validateName] returns a name as it is exactly when the name
    is clean; so cleaning a second time changes nothing. *)
Theorem validateName_fixed (name : list ascii) :
  (GraphPrepare.validateName name = name ↔ cleanName name)
  ∧ GraphPrepare.validateName (GraphPrepare.validateName name)
    = GraphPrepare.validateName name.
Proof.
  assert (Hfix : ∀ s, cleanName s → GraphPrepare.validateName s = s).
  { intros s Hs. rewrite validateName_validateFrom.
    by rewrite (validateFrom_fixed s []). }
  split; [split|].
  - intros <-. rewrite validateName_validateFrom.
    apply validateFrom_clean, cleanName_nil.
  - apply Hfix.
  - apply Hfix. rewrite validateName_validateFrom.
    apply validateFrom_clean, cleanName_nil.
Qed.

Lemma validateFrom_nil_iff (name : list ascii) :
  validateFrom [] name = [] ↔ Forall (λ ch, GraphPrepare.isalnum ch = false) name.
Proof.
  induction name as [|ch name IH]; [by split|].
  rewrite validateFrom_cons, Forall_cons.
  destruct (GraphPrepare.isalnum ch) eqn:Hal.
  - assert (keeps [] ch = true) as -> by (apply keeps_true; by left).
    destruct (validateFrom_sublist name ([] ++ [ch])) as (r & -> & _).
    split; [done|]. by intros [[=] _].
  - assert (keeps [] ch = false) as ->.
    { unfold keeps. by rewrite Hal. }
    rewrite IH. tauto.
Qed.

(** X13: [validateName] returns the empty name exactly for the names
    without a letter or a digit; these are the names for which
    [readNodeNames] throws "Name is invalid.". *)
Theorem validateName_empty (name : list ascii) :
  GraphPrepare.validateName name = []
  ↔ Forall (λ ch, GraphPrepare.isalnum ch = false) name.
Proof. rewrite validateName_validateFrom. apply validateFrom_nil_iff. Qed.

(** ** Reading the input *)

Lemma bind_inv {A B} (m : GraphPrepare.M A) (k : A → GraphPrepare.M B)
    (s s2 : GraphPrepare.state) (r : result B) :
  (m ≫= k) s = (r, s2) →
  (∃ a s1, m s = (Ok a, s1) ∧ k a s1 = (r, s2))
  ∨ (∃ r0, m s = (r0, s2) ∧ carried r0 r).
Proof.
  unfold mbind, GraphPrepare.M_bind.
  destruct (m s) as [[a|e| | |] s1]; intros H.
  - left. by exists a, s1.
  - right. injection H as <- <-. by exists (Throw e).
  - right. injection H as <- <-. by exists Terminate.
  - right. injection H as <- <-. by exists Undefined.
  - right. injection H as <- <-. by exists NoFuel.
Qed.

Lemma bind_ok {A B} (m : GraphPrepare.M A) (k : A → GraphPrepare.M B)
    (s s1 : GraphPrepare.state) (a : A) :
  m s = (Ok a, s1) → (m ≫= k) s = k a s1.
Proof. unfold mbind, GraphPrepare.M_bind. by intros ->. Qed.

Lemma splitLine_spec (s : list ascii) :
  ∃ sep, s = (GraphPrepare.splitLine s).1 ++ sep ++ (GraphPrepare.splitLine s).2
         ∧ (lineFeed ∉ (GraphPrepare.splitLine s).1).
Proof.
  induction s as [|ch s (sep & IH & Hnl)]; simpl.
  - exists []. split; [done|]. apply not_elem_of_nil.
  - case_bool_decide as E.
    + exists [ch]. split; [done|]. apply not_elem_of_nil.
    + destruct (GraphPrepare.splitLine s) as [line rest]. simpl in *.
      exists sep. split; [by rewrite IH at 1|].
      intros [E'|?]%elem_of_cons; [exact (E (eq_sym E'))|done].
Qed.

Lemma splitLine_line (line rest : list ascii) :
  (lineFeed ∉ line) →
  GraphPrepare.splitLine (line ++ lineFeed :: rest) = (line, rest).
Proof.
  induction line as [|ch line IH]; intros Hnl;
    cbn [app GraphPrepare.splitLine].
  - by rewrite bool_decide_eq_true_2.
  - rewrite bool_decide_eq_false_2.
    + rewrite IH; [done|]. intros ?. apply Hnl. by right.
    + intros E. apply Hnl. rewrite E. by left.
Qed.

Lemma getline_inv (s s' : GraphPrepare.state) (r : result (option (list ascii))) :
  GraphPrepare.getline s = (r, s') →
  GraphPrepare.this s' = GraphPrepare.this s
  ∧ GraphPrepare.theGraph s' = GraphPrepare.theGraph s
  ∧ ((r = Ok None ∧ GraphPrepare.inputFile s = []
      ∧ GraphPrepare.inputFile s' = [])
     ∨ (∃ line sep, r = Ok (Some line)
          ∧ GraphPrepare.inputFile s = line ++ sep ++ GraphPrepare.inputFile s')).
Proof.
  unfold GraphPrepare.getline.
  destruct (GraphPrepare.inputFile s) as [|ch rest] eqn:E.
  - intros [= <- <-]. split; [done|]. split; [done|]. left. done.
  - destruct (splitLine_spec (ch :: rest)) as (sep & Hs & _).
    destruct (GraphPrepare.splitLine (ch :: rest)) as [line rest'].
    intros [= <- <-]. split; [done|]. split; [done|]. right.
    exists line, sep. done.
Qed.

Lemma getline_line (s : GraphPrepare.state) (line rest : list ascii) :
  GraphPrepare.inputFile s = line ++ lineFeed :: rest → (lineFeed ∉ line) →
  GraphPrepare.getline s
  = (Ok (Some line),
     GraphPrepare.mkState (GraphPrepare.this s) rest (GraphPrepare.theGraph s)).
Proof.
  intros Hf Hnl. unfold GraphPrepare.getline. rewrite Hf.
  rewrite splitLine_line by done.
  destruct line; done.
Qed.

Lemma occursIn_app (line text pre : list ascii) :
  occursIn line text → occursIn line (pre ++ text).
Proof.
  intros (p & q & ->). exists (pre ++ p), q. by rewrite <- app_assoc.
Qed.

Lemma occursIn_head (line rest : list ascii) : occursIn line (line ++ rest).
Proof. by exists [], rest. Qed.

(** *** The loop of [readEdges] *)

Lemma readEdges_totalNodes (es : list (nat * nat)) :
  ∀ g, totalNodes (readEdges es g) = totalNodes g
       ∧ nodes (readEdges es g) = nodes g.
Proof.
  induction es as [|[a b] es IH]; intros g; [done|].
  simpl. destruct (IH (createEdge g a b 1)) as [-> ->]. done.
Qed.

Lemma readEdges_snoc (es : list (nat * nat)) (a b : nat) (g : Graph) :
  readEdges (es ++ [(a, b)]) g = createEdge (readEdges es g) a b 1.
Proof. unfold readEdges. by rewrite fold_left_app. Qed.

Lemma readEdges_app (es es' : list (nat * nat)) (g : Graph) :
  readEdges (es ++ es') g = readEdges es' (readEdges es g).
Proof. unfold readEdges. by rewrite fold_left_app. Qed.

Lemma readEdges_loop_inv (count : nat) :
  ∀ (s s' : GraphPrepare.state) (r : result unit),
    GraphPrepare.readEdges_loop count s = (r, s') →
    GraphPrepare.this s' = GraphPrepare.this s
    ∧ ∃ es : list (nat * nat),
        GraphPrepare.theGraph s' = readEdges es (GraphPrepare.theGraph s)
        ∧ (∀ a b, (a, b) ∈ es →
                  (a < totalNodes (GraphPrepare.theGraph s))%nat
                  ∧ (b < totalNodes (GraphPrepare.theGraph s))%nat)
        ∧ match r with
          | Ok _ => length es = count
          | Throw _ => True
          | Undefined =>
              ∃ line a b,
                occursIn line (GraphPrepare.inputFile s)
                ∧ GraphPrepare.parseEdge line = Ok (a, b)
                ∧ ¬ (0 ≤ a < Z.of_nat (totalNodes (GraphPrepare.theGraph s))
                     ∧ 0 ≤ b < Z.of_nat (totalNodes (GraphPrepare.theGraph s)))
          | Terminate | NoFuel => False
          end.
Proof.
  induction count as [|count IH]; intros s s' r Hrun.
  - injection Hrun as <- <-. split; [done|]. exists []. split; [done|].
    split; [|done]. by intros a b ?%elem_of_nil.
  - cbn [GraphPrepare.readEdges_loop] in Hrun.
    apply bind_inv in Hrun as [(oline & s1 & Hget & Hrun)|(r0 & Hget & Hc)].
    2:{ apply getline_inv in Hget as (_ & _ & [(-> & _)|(l & sp & -> & _)]);
          by destruct r. }
    apply getline_inv in Hget as (Hthis1 & Hg1 & Hline).
    destruct Hline as [(Heq & _ & _)|(line & sep & Heq & Hfile)];
      injection Heq as ->.
    { injection Hrun as <- <-. split; [done|]. exists [].
      split; [by rewrite Hg1|]. split; [|done]. by intros a b ?%elem_of_nil. }
    apply bind_inv in Hrun as [([a b] & s2 & Hparse & Hrun)|(r0 & Hparse & Hc)].
    2:{ unfold GraphPrepare.lift in Hparse. injection Hparse as <- <-.
        unfold GraphPrepare.parseEdge in Hc.
        split; [done|]. exists []. split; [by rewrite Hg1|].
        split; [by intros a b ?%elem_of_nil|].
        destruct (GraphPrepare.extract line) as [[n1 ss]|];
          [destruct (GraphPrepare.extract ss) as [[n2 ?]|]|];
          destruct r; done. }
    unfold GraphPrepare.lift in Hparse. injection Hparse as Hparse <-.
    cbn [fst snd] in Hrun.
    apply bind_inv in Hrun as [([] & s3 & Hedge & Hrun)|(r0 & Hedge & Hc)].
    + unfold GraphPrepare.graph_createEdge in Hedge.
      destruct (inRange (GraphPrepare.theGraph s1) a
                && inRange (GraphPrepare.theGraph s1) b) eqn:Hin; [|done].
      injection Hedge as <-. apply andb_true_iff in Hin as [Ha Hb].
      apply inRange_true in Ha, Hb. rewrite Hg1 in Ha, Hb.
      destruct (IH _ _ _ Hrun) as (Hthis & es & Hg & Hrange & Hr).
      cbn [GraphPrepare.this GraphPrepare.theGraph GraphPrepare.inputFile] in *.
      split; [congruence|].
      exists ((Z.to_nat a, Z.to_nat b) :: es).
      split; [by rewrite Hg, Hg1|]. split.
      * intros a' b' [[= -> ->]|Hin]%elem_of_cons; [lia|].
        destruct (Hrange a' b' Hin) as [H1 H2]. by rewrite Hg1 in H1, H2.
      * destruct r as [[]| | | |]; try done.
        -- simpl. by rewrite Hr.
        -- destruct Hr as (l' & a' & b' & Hocc & Hp' & Hout).
           exists l', a', b'. split; [|split; [done|]].
           ++ rewrite Hfile, app_assoc. by apply occursIn_app.
           ++ by rewrite Hg1 in Hout.
    + unfold GraphPrepare.graph_createEdge in Hedge.
      destruct (inRange (GraphPrepare.theGraph s1) a
                && inRange (GraphPrepare.theGraph s1) b) eqn:Hin.
      { unfold GraphPrepare.setGraph in Hedge. injection Hedge as <- _.
        by simpl in Hc. }
      injection Hedge as <- <-. split; [done|]. exists [].
      split; [by rewrite Hg1|]. split; [by intros a' b' ?%elem_of_nil|].
      destruct r; try done.
      exists line, a, b. split; [|split; [done|]].
      * rewrite Hfile. apply occursIn_head.
      * rewrite <- Hg1. intros [Ha Hb].
        apply inRange_true in Ha, Hb. by rewrite Ha, Hb in Hin.
Qed.

(** *** The loop of [readNodeNames] *)

Lemma validateName_result (line : list ascii) :
  cleanName (GraphPrepare.validateName line).
Proof. rewrite validateName_validateFrom. apply validateFrom_clean, cleanName_nil. Qed.

Lemma readNodeNames_loop_inv (count : nat) :
  ∀ (i : nat) (s s' : GraphPrepare.state) (r : result unit),
    GraphPrepare.readNodeNames_loop count i s = (r, s') →
    (i + count ≤ length (GraphPrepare.names (GraphPrepare.this s)))%nat →
    GraphPrepare.theGraph s' = GraphPrepare.theGraph s
    ∧ GraphPrepare.nodes (GraphPrepare.this s')
      = GraphPrepare.nodes (GraphPrepare.this s)
    ∧ GraphPrepare.edges (GraphPrepare.this s')
      = GraphPrepare.edges (GraphPrepare.this s)
    ∧ length (GraphPrepare.names (GraphPrepare.this s'))
      = length (GraphPrepare.names (GraphPrepare.this s))
    ∧ (∀ j, (j < i)%nat →
            GraphPrepare.names (GraphPrepare.this s') !! j
            = GraphPrepare.names (GraphPrepare.this s) !! j)
    ∧ (∃ pre, GraphPrepare.inputFile s = pre ++ GraphPrepare.inputFile s')
    ∧ match r with
      | Ok _ =>
          ∀ j, (i ≤ j < i + count)%nat →
               ∃ name,
                 GraphPrepare.names (GraphPrepare.this s') !! j
                 = Some (String.string_of_list_ascii name)
                 ∧ name ≠ [] ∧ cleanName name
      | Throw _ => True
      | Terminate | Undefined | NoFuel => False
      end.
Proof.
  induction count as [|count IH]; intros i s s' r Hrun Hlen.
  - injection Hrun as <- <-. repeat (split; [done|]).
    split; [by exists []|]. intros j Hj. lia.
  - cbn [GraphPrepare.readNodeNames_loop] in Hrun.
    apply bind_inv in Hrun as [(oline & s1 & Hget & Hrun)|(r0 & Hget & Hc)].
    2:{ apply getline_inv in Hget as (_ & _ & [(-> & _)|(l & sp & -> & _)]);
          by destruct r. }
    apply getline_inv in Hget as (Hthis1 & Hg1 & Hline).
    destruct Hline as [(Heq & Hnil0 & Hnil)|(line & sep & Heq & Hfile)];
      injection Heq as ->.
    { injection Hrun as <- <-. rewrite Hthis1. repeat (split; [done|]).
      split; [|done]. exists []. by rewrite Hnil0, Hnil. }
    case_bool_decide as Hempty.
    { injection Hrun as <- <-. rewrite Hthis1. repeat (split; [done|]).
      split; [|done]. exists (line ++ sep). by rewrite <- app_assoc. }
    apply bind_inv in Hrun as [([] & s2 & Hset & Hrun)|(r0 & Hset & Hc)].
    2:{ unfold GraphPrepare.setName in Hset. rewrite Hthis1 in Hset.
        rewrite decide_True in Hset by lia.
        unfold GraphPrepare.setNames in Hset. injection Hset as <- _.
        by simpl in Hc. }
    unfold GraphPrepare.setName in Hset. rewrite Hthis1 in Hset.
    rewrite decide_True in Hset by lia.
    unfold GraphPrepare.setNames in Hset. injection Hset as <-.
    destruct (IH (S i) _ _ _ Hrun) as (Hg & Hn & He & Hl & Hlow & [pre Hpre] & Hr).
    { cbn [GraphPrepare.this GraphPrepare.names]. rewrite length_insert. lia. }
    cbn [GraphPrepare.this GraphPrepare.names GraphPrepare.theGraph
         GraphPrepare.nodes GraphPrepare.edges GraphPrepare.inputFile] in *.
    rewrite length_insert in Hl.
    split; [congruence|]. split; [congruence|]. split; [congruence|].
    split; [done|]. split; [|split].
    + intros j Hj. rewrite Hlow by lia. apply list_lookup_insert_ne. lia.
    + exists (line ++ sep ++ pre). rewrite Hfile, Hpre, <- !app_assoc. done.
    + destruct r as [[]| | | |]; try done.
      intros j Hj. destruct (decide (j = i)) as [->|Hne].
      * exists (GraphPrepare.validateName line).
        rewrite Hlow by lia. split; [|split; [done|apply validateName_result]].
        apply list_lookup_insert_eq. lia.
      * apply Hr. lia.
Qed.

(** *** [GraphPrepare::fileRead] *)

Lemma stoi_inv (line : list ascii) (r : result Z) :
  GraphPrepare.stoi line = r →
  match r with
  | Ok _ | Throw _ => True
  | Terminate | Undefined | NoFuel => False
  end.
Proof.
  unfold GraphPrepare.stoi. intros <-.
  destruct (GraphPrepare.readNumber line) as [[v ?]|]; [|done].
  by destruct (GraphPrepare.fitsInt v).
Qed.

Lemma readNumber_inv (m : GraphPrepare.M Z) (msg : string)
    (s s' : GraphPrepare.state) (r : result Z) :
  m = (line ← GraphPrepare.getline;
       match line with
       | Some line => GraphPrepare.lift (GraphPrepare.stoi line)
       | None => GraphPrepare.throw (runtime_error msg)
       end) →
  m s = (r, s') →
  GraphPrepare.this s' = GraphPrepare.this s
  ∧ GraphPrepare.theGraph s' = GraphPrepare.theGraph s
  ∧ (∃ pre, GraphPrepare.inputFile s = pre ++ GraphPrepare.inputFile s')
  ∧ match r with
    | Ok _ | Throw _ => True
    | Terminate | Undefined | NoFuel => False
    end.
Proof.
  intros -> Hrun.
  apply bind_inv in Hrun as [(oline & s1 & Hget & Hrun)|(r0 & Hget & Hc)].
  2:{ apply getline_inv in Hget as (_ & _ & [(-> & _)|(l & sp & -> & _)]);
        by destruct r. }
  apply getline_inv in Hget as (Hthis1 & Hg1 & Hline).
  destruct Hline as [(Heq & Hnil0 & Hnil)|(line & sep & Heq & Hfile)];
    injection Heq as ->.
  - injection Hrun as <- <-. repeat (split; [done|]).
    split; [|done]. exists []. by rewrite Hnil0, Hnil.
  - unfold GraphPrepare.lift in Hrun. injection Hrun as Hrun <-.
    repeat (split; [done|]). split.
    + exists (line ++ sep). by rewrite <- app_assoc.
    + by apply (stoi_inv line).
Qed.

Lemma openFile_inv (file : option (list ascii)) (s s' : GraphPrepare.state)
    (r : result unit) :
  GraphPrepare.openFile file s = (r, s') →
  (∃ content, file = Some content ∧ content ≠ [] ∧ r = Ok tt
              ∧ s' = GraphPrepare.mkState (GraphPrepare.this s) content
                       (GraphPrepare.theGraph s))
  ∨ (∃ e, r = Throw e ∧ s' = s).
Proof.
  destruct file as [[|ch content]|]; intros [= <- <-].
  - right. by eexists.
  - left. by exists (ch :: content).
  - right. by eexists.
Qed.

Lemma validateNodes_inv (n : Z) (r : result unit) :
  GraphPrepare.validateNodes n = r →
  (r = Ok tt ∧ 2 ≤ n ∧ Z.rem n 2 = 0) ∨ (∃ e, r = Throw e).
Proof.
  unfold GraphPrepare.validateNodes. intros <-.
  destruct (Z.ltb_spec n 2); [right; by eexists|].
  destruct (Z.eqb_spec (Z.rem n 2) 0); [by left|right; by eexists].
Qed.

Lemma validateEdges_inv (e : Z) (r : result unit) :
  GraphPrepare.validateEdges e = r →
  (r = Ok tt ∧ 1 ≤ e) ∨ (∃ e', r = Throw e').
Proof.
  unfold GraphPrepare.validateEdges. intros <-.
  destruct (Z.ltb_spec e 1); [right; by eexists|by left].
Qed.

Lemma carried_throw {A B} (e : exception) (r : result B) :
  carried (Throw e : result A) r → r = Throw e.
Proof. destruct r; simpl; try done. by intros ->. Qed.

Lemma carried_cases {A B} (r0 : result A) (r : result B) :
  carried r0 r →
  match r0 with
  | Ok _ => False
  | Throw e => r = Throw e
  | Terminate => r = Terminate
  | Undefined => r = Undefined
  | NoFuel => r = NoFuel
  end.
Proof. destruct r0, r; simpl; try done. by intros ->. Qed.

(** How the [try] block of [GraphPrepare::fileRead] ends. *)
Lemma fileRead_try_cases (file : option (list ascii)) (this0 : GraphPrepare.t)
    (g0 : Graph) (r : result unit) (s' : GraphPrepare.state) :
  GraphPrepare.fileRead_try file (GraphPrepare.mkState this0 [] g0) = (r, s') →
  match r with
  | Ok _ =>
      ∃ n es,
        readSoFar (GraphPrepare.this s') (GraphPrepare.theGraph s') n es
        ∧ GraphPrepare.edges (GraphPrepare.this s') = Z.of_nat (length es)
        ∧ es ≠ []
        ∧ (∀ j, (1 ≤ j ≤ n)%nat →
                ∃ name,
                  GraphPrepare.names (GraphPrepare.this s') !! j
                  = Some (String.string_of_list_ascii name)
                  ∧ name ≠ [] ∧ cleanName name)
  | Throw _ =>
      GraphPrepare.theGraph s' = g0
      ∨ ∃ n es, readSoFar (GraphPrepare.this s') (GraphPrepare.theGraph s') n es
  | Undefined =>
      ∃ content line a b,
        file = Some content ∧ occursIn line content
        ∧ GraphPrepare.parseEdge line = Ok (a, b)
        ∧ ¬ (0 ≤ a < GraphPrepare.nodes (GraphPrepare.this s') + 2
             ∧ 0 ≤ b < GraphPrepare.nodes (GraphPrepare.this s') + 2)
  | Terminate | NoFuel => False
  end.
Proof.
  intros Htry. unfold GraphPrepare.fileRead_try in Htry.
  (* openFile *)
  apply bind_inv in Htry as [([] & s1 & Hopen & Htry)|(r0 & Hopen & Hc)].
  2:{ apply openFile_inv in Hopen as [(c & _ & _ & -> & _)|(e & -> & ->)];
        [done|].
      apply carried_throw in Hc as ->. by left. }
  apply openFile_inv in Hopen as [(content & -> & Hne & _ & ->)|(e & [=] & _)].
  cbn [GraphPrepare.this GraphPrepare.theGraph] in Htry.
  (* readNumberOfNodes *)
  apply bind_inv in Htry as [(n & s2 & Hnum & Htry)|(r0 & Hnum & Hc)].
  2:{ apply (readNumber_inv _ _ _ _ _ eq_refl) in Hnum as (_ & Hg & _ & Hr).
      apply carried_cases in Hc. destruct r0; try done. subst r. by left. }
  apply (readNumber_inv _ _ _ _ _ eq_refl) in Hnum as (Hthis2 & Hg2 & [pre2 Hpre2] & _).
  cbn [GraphPrepare.this GraphPrepare.theGraph GraphPrepare.inputFile]
    in Hthis2, Hg2, Hpre2.
  (* setNodes *)
  apply bind_inv in Htry as [([] & s3 & [= <-] & Htry)|(r0 & [= <- _] & Hc)];
    [|done].
  (* validateNodes *)
  apply bind_inv in Htry as [([] & s4 & Hval & Htry)|(r0 & Hval & Hc)].
  2:{ injection Hval as Hval <-.
      apply validateNodes_inv in Hval as [(-> & _)|(e & ->)]; [done|].
      apply carried_throw in Hc as ->. by left. }
  injection Hval as Hval <-.
  apply validateNodes_inv in Hval as [(_ & Hn2 & Heven)|(e & [=])].
  (* setGraph, getThis, setNames *)
  apply bind_inv in Htry as [([] & s5 & [= <-] & Htry)|(r0 & [= <- _] & Hc)];
    [|done].
  apply bind_inv in Htry as [(self & s6 & [= <- <-] & Htry)|(r0 & [= <- _] & Hc)];
    [|done].
  apply bind_inv in Htry as [([] & s7 & [= <-] & Htry)|(r0 & [= <- _] & Hc)];
    [|done].
  cbn [GraphPrepare.this GraphPrepare.theGraph GraphPrepare.inputFile
       GraphPrepare.nodes GraphPrepare.edges GraphPrepare.names] in Htry.
  set (nn := Z.to_nat n) in *.
  assert (Hnn : n = Z.of_nat nn) by lia.
  assert (Hnn2 : (2 ≤ nn)%nat) by lia.
  assert (Hev : Nat.Even nn).
  { exists (Z.to_nat (n / 2)). apply Z.rem_divide in Heven as [k Hk]; [|done].
    rewrite Hk, Z.div_mul by done. lia. }
  assert (Hresize : length (resize (Z.to_nat (n + 1)) EmptyString
                              (GraphPrepare.names (GraphPrepare.this s2)))
                    = S nn).
  { rewrite length_resize. lia. }
  (* readNodeNames *)
  apply bind_inv in Htry as [([] & s8 & Hnames & Htry)|(r0 & Hnames & Hc)].
  2:{ apply readNodeNames_loop_inv in Hnames
        as (Hg & Hn & _ & Hl & _ & _ & Hr);
        [|cbn [GraphPrepare.this GraphPrepare.names]; rewrite Hresize; lia].
      cbn [GraphPrepare.this GraphPrepare.theGraph GraphPrepare.nodes
           GraphPrepare.names] in Hg, Hn, Hl.
      apply carried_cases in Hc. destruct r0; try done. subst r.
      right. exists nn, []. split; [congruence|].
      split; [done|]. split; [done|]. split; [congruence|].
      split; [by intros a b ?%elem_of_nil|done]. }
  apply readNodeNames_loop_inv in Hnames
    as (Hg8 & Hn8 & _ & Hl8 & _ & [pre8 Hpre8] & Hr8);
    [|cbn [GraphPrepare.this GraphPrepare.names]; rewrite Hresize; lia].
  cbn [GraphPrepare.this GraphPrepare.theGraph GraphPrepare.nodes
       GraphPrepare.names GraphPrepare.inputFile] in Hg8, Hn8, Hl8, Hpre8, Hr8.
  (* readNumberOfEdges *)
  apply bind_inv in Htry as [(e & s9 & Hnum & Htry)|(r0 & Hnum & Hc)].
  2:{ apply (readNumber_inv _ _ _ _ _ eq_refl) in Hnum as (Hthis & Hg & _ & Hr).
      apply carried_cases in Hc. destruct r0; try done. subst r.
      right. exists nn, []. rewrite Hthis, Hg.
      split; [congruence|]. split; [done|]. split; [done|].
      split; [congruence|]. split; [by intros a b ?%elem_of_nil|done]. }
  apply (readNumber_inv _ _ _ _ _ eq_refl) in Hnum
    as (Hthis9 & Hg9 & [pre9 Hpre9] & _).
  (* setEdges, validateEdges *)
  apply bind_inv in Htry as [([] & s10 & [= <-] & Htry)|(r0 & [= <- _] & Hc)];
    [|done].
  apply bind_inv in Htry as [([] & s11 & Hval & Htry)|(r0 & Hval & Hc)].
  2:{ injection Hval as Hval <-.
      apply validateEdges_inv in Hval as [(-> & _)|(e' & ->)]; [done|].
      apply carried_throw in Hc as ->.
      right. exists nn, []. unfold readSoFar.
      cbn [GraphPrepare.this GraphPrepare.theGraph GraphPrepare.nodes
           GraphPrepare.names].
      rewrite Hthis9, Hg9.
      split; [congruence|]. split; [done|]. split; [done|].
      split; [congruence|]. split; [by intros a b ?%elem_of_nil|done]. }
  injection Hval as Hval <-.
  apply validateEdges_inv in Hval as [(_ & He1)|(e' & [=])].
  (* readEdges *)
  apply readEdges_loop_inv in Htry as (Hthis & es & Hg & Hrange & Hr).
  cbn [GraphPrepare.this GraphPrepare.theGraph GraphPrepare.nodes
       GraphPrepare.names GraphPrepare.edges GraphPrepare.inputFile]
    in Hthis, Hg, Hrange, Hr.
  rewrite Hg9, Hg8 in Hg, Hrange, Hr.
  cbn [totalNodes newGraph] in Hrange, Hr.
  assert (Hsofar : readSoFar (GraphPrepare.this s') (GraphPrepare.theGraph s')
                     nn es).
  { unfold readSoFar. rewrite Hthis.
    cbn [GraphPrepare.nodes GraphPrepare.names].
    rewrite Hthis9. split; [congruence|]. split; [done|]. split; [done|].
    split; [congruence|]. split; [done|]. done. }
  destruct r as [[]|e'| | |]; try done.
  - exists nn, es. split; [done|]. rewrite Hthis.
    cbn [GraphPrepare.nodes GraphPrepare.names GraphPrepare.edges].
    split; [lia|]. split; [destruct es; [simpl in Hr; lia|done]|].
    rewrite Hthis9. intros j Hj. apply Hr8. lia.
  - right. by exists nn, es.
  - destruct Hr as (line & a & b & Hocc & Hparse & Hout).
    exists content, line, a, b. split; [done|]. split; [|split; [done|]].
    + rewrite Hpre2, Hpre8, Hpre9. by do 3 apply occursIn_app.
    + rewrite Hthis. cbn [GraphPrepare.nodes]. rewrite Hthis9, Hn8. lia.
Qed.

(** How [GraphPrepare::fileRead] ends. *)
Lemma fileRead_cases (file : option (list ascii)) (this0 : GraphPrepare.t)
    (g0 : Graph) (r : result unit) (this1 : GraphPrepare.t) (g1 : Graph) :
  GraphPrepare.fileRead file this0 g0 = (r, this1, g1) →
  match r with
  | Ok _ =>
      ∃ n es,
        readSoFar this1 g1 n es
        ∧ GraphPrepare.edges this1 = Z.of_nat (length es)
        ∧ es ≠ []
        ∧ (∀ j, (1 ≤ j ≤ n)%nat →
                ∃ name,
                  GraphPrepare.names this1 !! j
                  = Some (String.string_of_list_ascii name)
                  ∧ name ≠ [] ∧ cleanName name)
  | Throw e =>
      e = runtime_error "Function fileRead failed."
      ∧ (g1 = g0 ∨ ∃ n es, readSoFar this1 g1 n es)
  | Undefined =>
      ∃ content line a b,
        file = Some content ∧ occursIn line content
        ∧ GraphPrepare.parseEdge line = Ok (a, b)
        ∧ ¬ (0 ≤ a < GraphPrepare.nodes this1 + 2
             ∧ 0 ≤ b < GraphPrepare.nodes this1 + 2)
  | Terminate | NoFuel => False
  end.
Proof.
  unfold GraphPrepare.fileRead.
  destruct (GraphPrepare.fileRead_try file (GraphPrepare.mkState this0 [] g0))
    as [r' s'] eqn:Htry.
  apply fileRead_try_cases in Htry.
  destruct r' as [[]|e| | |]; intros [= <- <- <-]; try done.
Qed.

(** X14: how [GraphPrepare::fileRead] ends on a file of ASCII characters,
    the number of nodes that it has stored being such that [nodes + 2], the
    size of the matrix, is an [int].  When it returns, the number of nodes
    is even and at least 2, the names of the nodes 1 to [n] are clean and
    not empty, at least one edge was read, and the graph is that of [n]
    nodes with the edges read, all of them between nodes of the graph.
    Whatever is thrown inside leaves the function as the one
    [runtime_error] "Function fileRead failed.", and the graph of the
    caller is then untouched or already replaced by the new one.  A write
    of [createEdge] outside the matrix, which is undefined, happens only
    for an edge of the file with a node outside [0 .. n + 1]: the numbers
    of an edge are not checked.  (The two assumptions keep away what else
    is undefined in the function: [std::isalnum] of a negative [char], and
    the overflow of [nodes + 2] in the constructor of [Graph].) *)
Theorem fileRead_outcome (file : option (list ascii)) (this0 : GraphPrepare.t)
    (g0 : Graph) (r : result unit) (this1 : GraphPrepare.t) (g1 : Graph) :
  asciiFile file →
  GraphPrepare.nodes this1 + 2 ≤ INT_MAX →
  GraphPrepare.fileRead file this0 g0 = (r, this1, g1) →
  match r with
  | Ok _ =>
      ∃ (n : nat) (es : list (nat * nat)),
        GraphPrepare.nodes this1 = Z.of_nat n ∧ (2 ≤ n)%nat ∧ Nat.Even n
        ∧ length (GraphPrepare.names this1) = S n
        ∧ (∀ j, (1 ≤ j ≤ n)%nat →
                ∃ name,
                  GraphPrepare.names this1 !! j
                  = Some (String.string_of_list_ascii name)
                  ∧ name ≠ [] ∧ cleanName name)
        ∧ GraphPrepare.edges this1 = Z.of_nat (length es) ∧ es ≠ []
        ∧ (∀ a b, (a, b) ∈ es → (a < n + 2)%nat ∧ (b < n + 2)%nat)
        ∧ g1 = fileRead n es
  | Throw e =>
      e = runtime_error "Function fileRead failed."
      ∧ (g1 = g0
         ∨ ∃ (n : nat) (es : list (nat * nat)),
             GraphPrepare.nodes this1 = Z.of_nat n ∧ (2 ≤ n)%nat
             ∧ (∀ a b, (a, b) ∈ es → (a < n + 2)%nat ∧ (b < n + 2)%nat)
             ∧ g1 = fileRead n es)
  | Undefined =>
      ∃ content line a b,
        file = Some content ∧ occursIn line content
        ∧ GraphPrepare.parseEdge line = Ok (a, b)
        ∧ ¬ (0 ≤ a < GraphPrepare.nodes this1 + 2
             ∧ 0 ≤ b < GraphPrepare.nodes this1 + 2)
  | Terminate | NoFuel => False
  end.
Proof.
  intros _ _ Hrun. apply fileRead_cases in Hrun.
  destruct r as [[]|e| | |]; try done.
  - destruct Hrun as (n & es & (Hn & Hn2 & Hev & Hl & Hrange & Hg) & He & Hes & Hnames).
    exists n, es. done.
  - destruct Hrun as [-> [->|(n & es & Hn & Hn2 & Hev & Hl & Hrange & Hg)]].
    + split; [done|]. by left.
    + split; [done|]. right. by exists n, es.
Qed.

Lemma fileRead_outcome_witness :
  ∃ (n : nat) (es : list (nat * nat)),
    (2 ≤ n)%nat
    ∧ (GraphPrepare.fileRead
         (Some (unlines (map String.list_ascii_of_string
                           ["2"; "Ann"; "Bob"; "1"; "1 2"])))
         GraphPrepare.new (newGraph 0)).2
      = fileRead n es.
Proof.
  destruct (GraphPrepare.fileRead
              (Some (unlines (map String.list_ascii_of_string
                                ["2"; "Ann"; "Bob"; "1"; "1 2"])))
              GraphPrepare.new (newGraph 0)) as [[r this1] g1] eqn:E.
  assert (Hnodes : GraphPrepare.nodes this1 + 2 ≤ INT_MAX).
  { vm_compute in E. injection E as _ <- _. vm_compute. discriminate. }
  assert (Hascii : asciiFile
            (Some (unlines (map String.list_ascii_of_string
                              ["2"; "Ann"; "Bob"; "1"; "1 2"]))))
    by (vm_compute; reflexivity).
  pose proof (fileRead_outcome _ _ _ _ _ _ Hascii Hnodes E) as H.
  vm_compute in E. injection E as <- <- <-.
  destruct H as (n & es & _ & Hn & _ & _ & _ & _ & _ & _ & Hg).
  exists n, es. split; [exact Hn|exact Hg].
Defined.

(** ** [BipartiteMatcher] *)

Lemma main_runs (file : option (list ascii)) (this1 : GraphPrepare.t)
    (n : nat) (es : list (nat * nat)) (fuel : nat) :
  GraphPrepare.fileRead file GraphPrepare.new (newGraph 0)
  = (Ok tt, this1, fileRead n es) →
  GraphPrepare.nodes this1 = Z.of_nat n →
  (∀ a b, (a, b) ∈ es → (a < n + 2)%nat ∧ (b < n + 2)%nat) →
  ((n + 3) * (n + 3) ≤ fuel)%nat →
  ∃ st ff',
    calculateMaxFlow fuel (newFordFulkerson (wired n es)) 0 (Z.of_nat n + 1)
    = Returned st ff'
    ∧ solve fuel (fileRead n es) (GraphPrepare.names this1)
      = Returned (printResults (graph ff') (GraphPrepare.names this1)) ff'
    ∧ BipartiteMatcher.main fuel file
      = Ok (Some (printResults (graph ff') (GraphPrepare.names this1))).
Proof.
  intros Hread Hn Hrange Hfuel.
  destruct (solve_in_range n es fuel (GraphPrepare.names this1) Hrange Hfuel)
    as (st & ff' & Hrun & Hsolve & _).
  destruct (fileRead_spec n es Hrange) as (_ & Hnodes & HN & _).
  exists st, ff'. split; [done|]. split; [done|].
  unfold BipartiteMatcher.main, BipartiteMatcher.fileRead.
  cbn [BipartiteMatcher.readGraph BipartiteMatcher.new
       BipartiteMatcher.algorithm].
  rewrite Hread.
  unfold BipartiteMatcher.solve.
  cbn [BipartiteMatcher.graph BipartiteMatcher.readGraph].
  unfold getNodes, GraphPrepare.getNodes, GraphPrepare.getNames.
  rewrite HN, Hnodes, Hn.
  replace (n + 2 =? 0)%nat with false by (symmetry; apply Nat.eqb_neq; lia).
  assert (inRange (fileRead n es) (Z.of_nat n + 1) = true) as ->.
  { apply inRange_true. rewrite HN. lia. }
  rewrite andb_false_r.
  replace (Z.to_nat (Z.of_nat n + 1)) with (n + 1)%nat by lia.
  fold (wired n es). rewrite Hrun. by destruct ff'.
Qed.

(** X15: the program as a whole.  When [fileRead] returns, [solve]
    returns too, and [main] writes what [solve] (on the graph and with the
    names that were read) reports, whether or not the edges lead from left
    nodes to right nodes; when [fileRead] throws, [main] writes
    "Program 3 Failed"; nothing is thrown past [main], and
    [std::terminate] is not called.  [main] runs into undefined behaviour
    exactly when [fileRead] does. *)
Theorem main_outcome (file : option (list ascii)) :
  ∃ fuel0, ∀ fuel, (fuel0 ≤ fuel)%nat →
    match GraphPrepare.fileRead file GraphPrepare.new (newGraph 0) with
    | (Ok _, this1, g1) =>
        ∃ out ff,
          solve fuel g1 (GraphPrepare.names this1) = Returned out ff
          ∧ BipartiteMatcher.main fuel file = Ok (Some out)
    | (Throw _, _, _) => BipartiteMatcher.main fuel file = Ok None
    | (Undefined, _, _) => BipartiteMatcher.main fuel file = Undefined
    | (Terminate, _, _) | (NoFuel, _, _) => False
    end.
Proof.
  destruct (GraphPrepare.fileRead file GraphPrepare.new (newGraph 0))
    as [[r this1] g1] eqn:E.
  pose proof (fileRead_cases _ _ _ _ _ _ E) as Hcases.
  destruct r as [[]|e| | |]; try done.
  - destruct Hcases as (n & es & (Hn & Hn2 & Hev & Hl & Hrange & ->) & _).
    exists ((n + 3) * (n + 3))%nat. intros fuel Hfuel.
    destruct (main_runs file this1 n es fuel E Hn Hrange Hfuel)
      as (st & ff' & _ & Hsolve & Hmain).
    by exists (printResults (graph ff') (GraphPrepare.names this1)), ff'.
  - exists 0%nat. intros fuel _.
    unfold BipartiteMatcher.main, BipartiteMatcher.fileRead.
    cbn [BipartiteMatcher.readGraph BipartiteMatcher.new]. by rewrite E.
  - exists 0%nat. intros fuel _.
    unfold BipartiteMatcher.main, BipartiteMatcher.fileRead.
    cbn [BipartiteMatcher.readGraph BipartiteMatcher.new]. by rewrite E.
Qed.

(** X16: [solve] on an object that was never given a file calls
    [std::terminate]: its test finds the null graph and its [throw;] has no
    exception to re-throw.  The other half of the test,
    [graph->getNodes() == 0], never holds once [fileRead] has been called,
    whether it returned or threw, since [getNodes] returns the number of
    nodes plus 2; [solve] then neither calls [std::terminate] nor writes
    outside the matrix. *)
Theorem solve_guard (fuel : nat) :
  BipartiteMatcher.solve fuel BipartiteMatcher.new
  = (Terminate, BipartiteMatcher.new)
  ∧ ∀ file this r this1,
      BipartiteMatcher.fileRead file this = (r, this1) → r ≠ Undefined →
      (BipartiteMatcher.solve fuel this1).1 ≠ Terminate
      ∧ (BipartiteMatcher.solve fuel this1).1 ≠ Undefined.
Proof.
  split; [done|]. intros file this r this1.
  unfold BipartiteMatcher.fileRead.
  destruct (GraphPrepare.fileRead file (BipartiteMatcher.readGraph this)
              (newGraph 0)) as [[r' rg] g1] eqn:E.
  intros [= <- <-] Hr. apply fileRead_cases in E.
  assert (Hg : g1 = newGraph 0
               ∨ ∃ n es, readSoFar rg g1 n es).
  { destruct r' as [[]|e| | |]; try done.
    - destruct E as (n & es & H & _). right. by exists n, es.
    - by destruct E as [_ H]. }
  unfold BipartiteMatcher.solve.
  cbn [BipartiteMatcher.graph BipartiteMatcher.readGraph].
  destruct Hg as [->|(n & es & Hn & Hn2 & Hev & Hl & Hrange & ->)].
  - cbn [getNodes totalNodes newGraph nodes]. cbn [Nat.add Nat.eqb].
    change (0 - 0 / 2 =? 0)%nat with true. cbn [negb andb].
    destruct (calculateMaxFlow _ _ _ _) as [st [d m g]|e [d m g]|]; done.
  - destruct (fileRead_spec n es Hrange) as (_ & Hnodes & HN & _).
    unfold getNodes, GraphPrepare.getNodes. rewrite HN, Hn.
    replace (n + 2 =? 0)%nat with false by (symmetry; apply Nat.eqb_neq; lia).
    assert (inRange (fileRead n es) (Z.of_nat n + 1) = true) as ->.
    { apply inRange_true. rewrite HN. lia. }
    rewrite andb_false_r.
    destruct (calculateMaxFlow _ _ _ _) as [st [d m g]|e [d m g]|]; done.
Qed.

(** ** Reading a well-formed file *)

Lemma unlines_cons (l : list ascii) (ls : list (list ascii)) (rest : list ascii) :
  unlines (l :: ls) ++ rest = l ++ lineFeed :: (unlines ls ++ rest).
Proof. unfold unlines. simpl. by rewrite <- !app_assoc. Qed.

Lemma unlines_app (ls ls' : list (list ascii)) :
  unlines (ls ++ ls') = unlines ls ++ unlines ls'.
Proof. unfold unlines. by rewrite flat_map_app. Qed.

Lemma readNumber_line (numLine rest : list ascii) (n : Z)
    (s : GraphPrepare.state) (msg : string) :
  GraphPrepare.inputFile s = numLine ++ lineFeed :: rest →
  (lineFeed ∉ numLine) →
  GraphPrepare.stoi numLine = Ok n →
  (line ← GraphPrepare.getline;
   match line with
   | Some line => GraphPrepare.lift (GraphPrepare.stoi line)
   | None => GraphPrepare.throw (runtime_error msg)
   end) s
  = (Ok n, GraphPrepare.mkState (GraphPrepare.this s) rest
             (GraphPrepare.theGraph s)).
Proof.
  intros Hf Hnl Hn.
  rewrite (bind_ok _ _ _ _ _ (getline_line s numLine rest Hf Hnl)).
  unfold GraphPrepare.lift. by rewrite Hn.
Qed.

Lemma bind_lift_ok {A B} (a : A) (k : A → GraphPrepare.M B)
    (s : GraphPrepare.state) :
  (GraphPrepare.lift (Ok a) ≫= k) s = k a s.
Proof. done. Qed.

Lemma bind_setNodes {B} (n : Z) (k : unit → GraphPrepare.M B)
    (s : GraphPrepare.state) :
  (GraphPrepare.setNodes n ≫= k) s
  = k tt (GraphPrepare.mkState
            (GraphPrepare.mk n (GraphPrepare.edges (GraphPrepare.this s))
               (GraphPrepare.names (GraphPrepare.this s)))
            (GraphPrepare.inputFile s) (GraphPrepare.theGraph s)).
Proof. done. Qed.

Lemma bind_setEdges {B} (e : Z) (k : unit → GraphPrepare.M B)
    (s : GraphPrepare.state) :
  (GraphPrepare.setEdges e ≫= k) s
  = k tt (GraphPrepare.mkState
            (GraphPrepare.mk (GraphPrepare.nodes (GraphPrepare.this s)) e
               (GraphPrepare.names (GraphPrepare.this s)))
            (GraphPrepare.inputFile s) (GraphPrepare.theGraph s)).
Proof. done. Qed.

Lemma bind_setNames {B} (l : list string) (k : unit → GraphPrepare.M B)
    (s : GraphPrepare.state) :
  (GraphPrepare.setNames l ≫= k) s
  = k tt (GraphPrepare.mkState
            (GraphPrepare.mk (GraphPrepare.nodes (GraphPrepare.this s))
               (GraphPrepare.edges (GraphPrepare.this s)) l)
            (GraphPrepare.inputFile s) (GraphPrepare.theGraph s)).
Proof. done. Qed.

Lemma bind_setGraph {B} (g : Graph) (k : unit → GraphPrepare.M B)
    (s : GraphPrepare.state) :
  (GraphPrepare.setGraph g ≫= k) s
  = k tt (GraphPrepare.mkState (GraphPrepare.this s)
            (GraphPrepare.inputFile s) g).
Proof. done. Qed.

Lemma bind_getThis {B} (k : GraphPrepare.t → GraphPrepare.M B)
    (s : GraphPrepare.state) :
  (GraphPrepare.getThis ≫= k) s = k (GraphPrepare.this s) s.
Proof. done. Qed.

Lemma setName_ok (i : nat) (cleanName : list ascii) (s : GraphPrepare.state) :
  (i < length (GraphPrepare.names (GraphPrepare.this s)))%nat →
  GraphPrepare.setName i cleanName s
  = (Ok tt,
     GraphPrepare.mkState
       (GraphPrepare.mk (GraphPrepare.nodes (GraphPrepare.this s))
          (GraphPrepare.edges (GraphPrepare.this s))
          (<[i := String.string_of_list_ascii cleanName]>
             (GraphPrepare.names (GraphPrepare.this s))))
       (GraphPrepare.inputFile s) (GraphPrepare.theGraph s)).
Proof. intros Hi. unfold GraphPrepare.setName. by rewrite decide_True. Qed.

Lemma graph_createEdge_ok (a b : nat) (c : Z) (s : GraphPrepare.state) :
  (a < totalNodes (GraphPrepare.theGraph s))%nat →
  (b < totalNodes (GraphPrepare.theGraph s))%nat →
  GraphPrepare.graph_createEdge (Z.of_nat a) (Z.of_nat b) c s
  = (Ok tt,
     GraphPrepare.mkState (GraphPrepare.this s) (GraphPrepare.inputFile s)
       (createEdge (GraphPrepare.theGraph s) a b c)).
Proof.
  intros Ha Hb. unfold GraphPrepare.graph_createEdge.
  rewrite (proj2 (inRange_of_nat _ a) Ha), (proj2 (inRange_of_nat _ b) Hb).
  by rewrite !Nat2Z.id.
Qed.

Lemma readNodeNames_loop_run (nameLines : list (list ascii)) :
  ∀ (i : nat) (s : GraphPrepare.state) (rest : list ascii),
    GraphPrepare.inputFile s = unlines nameLines ++ rest →
    Forall (λ l, (lineFeed ∉ l)
                 ∧ Exists (λ ch, GraphPrepare.isalnum ch = true) l) nameLines →
    (i + length nameLines ≤ length (GraphPrepare.names (GraphPrepare.this s)))%nat →
    GraphPrepare.readNodeNames_loop (length nameLines) i s
    = (Ok tt,
       GraphPrepare.mkState
         (GraphPrepare.mk
            (GraphPrepare.nodes (GraphPrepare.this s))
            (GraphPrepare.edges (GraphPrepare.this s))
            (take i (GraphPrepare.names (GraphPrepare.this s))
             ++ map (λ l, String.string_of_list_ascii
                            (GraphPrepare.validateName l)) nameLines
             ++ drop (i + length nameLines)
                     (GraphPrepare.names (GraphPrepare.this s))))
         rest (GraphPrepare.theGraph s)).
Proof.
  induction nameLines as [|l ls IH]; intros i s rest Hf Hall Hlen.
  - simpl in *. rewrite Nat.add_0_r, take_drop. destruct s as [[] ? ?].
    simpl in *. by subst.
  - apply Forall_cons in Hall as [[Hnl Hex] Hall].
    rewrite unlines_cons in Hf. cbn [length GraphPrepare.readNodeNames_loop].
    rewrite (bind_ok _ _ _ _ _ (getline_line s l _ Hf Hnl)).
    rewrite bool_decide_eq_false_2.
    2:{ rewrite validateName_validateFrom, validateFrom_nil_iff.
        intros Hno. apply Exists_exists in Hex as (ch & Hch & Hal).
        rewrite Forall_forall in Hno. specialize (Hno ch Hch). congruence. }
    cbn [length] in Hlen.
    assert (Hset := setName_ok i (GraphPrepare.validateName l)
                      (GraphPrepare.mkState (GraphPrepare.this s)
                         (unlines ls ++ rest) (GraphPrepare.theGraph s))).
    cbn [GraphPrepare.this GraphPrepare.names GraphPrepare.inputFile
         GraphPrepare.theGraph] in Hset.
    rewrite (bind_ok _ _ _ _ _ (Hset ltac:(lia))).
    rewrite IH with (rest := rest); cbn [GraphPrepare.this GraphPrepare.names
      GraphPrepare.inputFile GraphPrepare.theGraph GraphPrepare.nodes
      GraphPrepare.edges]; [|done|done|rewrite length_insert; lia].
    do 3 f_equal.
    set (names := GraphPrepare.names (GraphPrepare.this s)) in *.
    rewrite (take_S_r _ _ (String.string_of_list_ascii
                             (GraphPrepare.validateName l)))
      by (apply list_lookup_insert_eq; lia).
    rewrite take_insert_ge by lia.
    rewrite drop_insert_lt by lia.
    rewrite <- app_assoc. cbn [map app].
    by replace (i + S (length ls))%nat with (S i + length ls)%nat by lia.
Qed.

Lemma Forall2_and_l {A B} (P : A → Prop) (R : A → B → Prop)
    (l : list A) (k : list B) :
  Forall P l → Forall2 R l k → Forall2 (λ a b, P a ∧ R a b) l k.
Proof.
  intros HP HR. induction HR as [|a b l k Hab HR IH]; [constructor|].
  apply Forall_cons in HP as [Ha HP]. constructor; auto.
Qed.

Lemma readEdges_loop_run (edgeLines : list (list ascii)) :
  ∀ (es : list (nat * nat)) (s : GraphPrepare.state) (rest : list ascii),
    GraphPrepare.inputFile s = unlines edgeLines ++ rest →
    Forall2 (λ l e, (lineFeed ∉ l)
                    ∧ GraphPrepare.parseEdge l
                      = Ok (Z.of_nat e.1, Z.of_nat e.2)) edgeLines es →
    (∀ a b, (a, b) ∈ es →
            (a < totalNodes (GraphPrepare.theGraph s))%nat
            ∧ (b < totalNodes (GraphPrepare.theGraph s))%nat) →
    GraphPrepare.readEdges_loop (length edgeLines) s
    = (Ok tt,
       GraphPrepare.mkState (GraphPrepare.this s) rest
         (readEdges es (GraphPrepare.theGraph s))).
Proof.
  induction edgeLines as [|l ls IH]; intros es s rest Hf Hall Hrange.
  - apply Forall2_nil_inv_l in Hall as ->. simpl in *. destruct s. simpl in *.
    by subst.
  - apply Forall2_cons_inv_l in Hall as ([a b] & es' & [Hnl Hparse] & Hall & ->).
    rewrite unlines_cons in Hf. cbn [length GraphPrepare.readEdges_loop].
    rewrite (bind_ok _ _ _ _ _ (getline_line s l _ Hf Hnl)).
    rewrite Hparse, bind_lift_ok. cbn [fst snd].
    destruct (Hrange a b) as [Ha Hb]; [by left|].
    assert (Hset := graph_createEdge_ok a b 1
                      (GraphPrepare.mkState (GraphPrepare.this s)
                         (unlines ls ++ rest) (GraphPrepare.theGraph s)) Ha Hb).
    rewrite (bind_ok _ _ _ _ _ Hset).
    rewrite IH with (es := es') (rest := rest);
      cbn [GraphPrepare.this GraphPrepare.inputFile GraphPrepare.theGraph];
      [done|done|done|].
    intros a' b' Hin. apply (Hrange a' b'). by right.
Qed.

Lemma fileRead_run (numLine countLine : list ascii)
    (nameLines edgeLines : list (list ascii)) (rest : list ascii)
    (n : nat) (es : list (nat * nat)) (this0 : GraphPrepare.t) (g0 : Graph) :
  Forall (λ l, lineFeed ∉ l) (numLine :: nameLines ++ countLine :: edgeLines) →
  GraphPrepare.stoi numLine = Ok (Z.of_nat n) →
  (2 ≤ n)%nat → Nat.Even n →
  length nameLines = n →
  Forall (Exists (λ ch, GraphPrepare.isalnum ch = true)) nameLines →
  GraphPrepare.stoi countLine = Ok (Z.of_nat (length es)) →
  es ≠ [] →
  Forall2 (λ l e, GraphPrepare.parseEdge l = Ok (Z.of_nat e.1, Z.of_nat e.2))
          edgeLines es →
  (∀ a b, (a, b) ∈ es → (a < n + 2)%nat ∧ (b < n + 2)%nat) →
  GraphPrepare.fileRead
    (Some (unlines (numLine :: nameLines ++ countLine :: edgeLines) ++ rest))
    this0 g0
  = (Ok tt,
     GraphPrepare.mk (Z.of_nat n) (Z.of_nat (length es))
       (default EmptyString (head (GraphPrepare.names this0))
        :: map (λ l, String.string_of_list_ascii (GraphPrepare.validateName l))
               nameLines),
     fileRead n es).
Proof.
  intros Hnl Hnum Hn2 Hev Hlen Hal Hcount Hes Hedges Hrange.
  apply Forall_cons in Hnl as [Hnl0 Hnl].
  apply Forall_app in Hnl as [Hnl1 Hnl].
  apply Forall_cons in Hnl as [Hnl2 Hnl3].
  unfold GraphPrepare.fileRead, GraphPrepare.fileRead_try.
  rewrite unlines_cons, unlines_app, <- app_assoc, unlines_cons.
  set (s0 := GraphPrepare.mkState this0 [] g0).
  set (text1 := unlines nameLines ++ countLine ++ lineFeed :: unlines edgeLines ++ rest).
  (* openFile *)
  assert (Hopen : GraphPrepare.openFile (Some (numLine ++ lineFeed :: text1)) s0
                  = (Ok tt, GraphPrepare.mkState this0
                              (numLine ++ lineFeed :: text1) g0)).
  { by destruct numLine. }
  rewrite (bind_ok _ _ _ _ _ Hopen).
  (* readNumberOfNodes *)
  unfold GraphPrepare.readNumberOfNodes.
  pose proof (readNumber_line numLine text1 (Z.of_nat n)
                (GraphPrepare.mkState this0 (numLine ++ lineFeed :: text1) g0)
                "Reading number of nodes failed." eq_refl Hnl0 Hnum) as H1.
  rewrite (bind_ok _ _ _ _ _ H1). clear H1.
  cbn [GraphPrepare.this GraphPrepare.theGraph].
  (* setNodes, validateNodes, setGraph, getThis, setNames *)
  rewrite bind_setNodes.
  cbn [GraphPrepare.this GraphPrepare.theGraph GraphPrepare.inputFile
       GraphPrepare.nodes GraphPrepare.edges GraphPrepare.names].
  assert (Hval : GraphPrepare.validateNodes (Z.of_nat n) = Ok tt).
  { unfold GraphPrepare.validateNodes.
    destruct (Z.ltb_spec (Z.of_nat n) 2); [lia|].
    destruct Hev as [k ->].
    replace (Z.of_nat (2 * k)) with (Z.of_nat k * 2) by lia.
    by rewrite Z.rem_mul. }
  rewrite Hval, bind_lift_ok, bind_setGraph, bind_getThis, bind_setNames.
  cbn [GraphPrepare.this GraphPrepare.theGraph GraphPrepare.inputFile
       GraphPrepare.nodes GraphPrepare.edges GraphPrepare.names].
  rewrite Nat2Z.id.
  replace (Z.to_nat (Z.of_nat n + 1)) with (S n) by lia.
  (* readNodeNames *)
  unfold GraphPrepare.readNodeNames. rewrite Nat2Z.id, <- Hlen.
  pose proof (readNodeNames_loop_run nameLines 1
                (GraphPrepare.mkState
                   (GraphPrepare.mk (Z.of_nat (length nameLines))
                      (GraphPrepare.edges this0)
                      (resize (S (length nameLines)) EmptyString
                              (GraphPrepare.names this0)))
                   text1 (newGraph (length nameLines)))
                (countLine ++ lineFeed :: unlines edgeLines ++ rest) eq_refl)
    as H2.
  cbn [GraphPrepare.this GraphPrepare.theGraph GraphPrepare.inputFile
       GraphPrepare.nodes GraphPrepare.edges GraphPrepare.names] in H2.
  rewrite (bind_ok _ _ _ _ _ (H2
             ltac:(apply Forall_forall; intros l Hl; split;
                   [by apply (proj1 (Forall_forall _ _) Hnl1)
                   |by apply (proj1 (Forall_forall _ _) Hal)])
             ltac:(rewrite length_resize; lia))).
  clear H2.
  (* readNumberOfEdges *)
  unfold GraphPrepare.readNumberOfEdges.
  match goal with
  | |- context [mbind _ _ ?s] =>
      pose proof (readNumber_line countLine (unlines edgeLines ++ rest)
                    (Z.of_nat (length es)) s
                    "Reading number of edges failed." eq_refl Hnl2 Hcount) as H3
  end.
  rewrite (bind_ok _ _ _ _ _ H3). clear H3.
  cbn [GraphPrepare.this GraphPrepare.theGraph].
  rewrite bind_setEdges.
  cbn [GraphPrepare.this GraphPrepare.theGraph GraphPrepare.inputFile
       GraphPrepare.nodes GraphPrepare.edges GraphPrepare.names].
  assert (Hval' : GraphPrepare.validateEdges (Z.of_nat (length es)) = Ok tt).
  { unfold GraphPrepare.validateEdges.
    destruct (Z.ltb_spec (Z.of_nat (length es)) 1); [|done].
    destruct es; [done|simpl in *; lia]. }
  rewrite Hval', bind_lift_ok.
  (* readEdges *)
  unfold GraphPrepare.readEdges. rewrite Nat2Z.id.
  rewrite <- (Forall2_length _ _ _ Hedges).
  match goal with
  | |- context [GraphPrepare.readEdges_loop _ ?s] =>
      pose proof (readEdges_loop_run edgeLines es s rest eq_refl) as H4
  end.
  cbn [GraphPrepare.this GraphPrepare.theGraph GraphPrepare.inputFile] in H4.
  rewrite H4.
  - cbn [GraphPrepare.this GraphPrepare.theGraph]. f_equal. f_equal. f_equal.
    rewrite drop_ge by (rewrite length_resize; lia). rewrite app_nil_r.
    destruct (GraphPrepare.names this0); done.
  - by apply Forall2_and_l.
  - cbn [totalNodes newGraph]. by rewrite Hlen.
Qed.

(** X17: the file that [GraphPrepare::fileRead] accepts.  When the
    file holds, line by line, a number of nodes [n] that is even and at
    least 2, [n] names with a letter or a digit each, the number of edges,
    which is at least 1, and that many edges between nodes of
    [0 .. n + 1], then [fileRead] returns: it stores [n], the number of
    edges and the cleaned names (from index 1 on, index 0 staying as it
    was or empty), and the graph is that of [n] nodes with the edges read.
    Whatever follows the last edge in the file is not read. *)
Theorem fileRead_reads (numLine countLine : list ascii)
    (nameLines edgeLines : list (list ascii)) (rest : list ascii)
    (n : nat) (es : list (nat * nat)) (this0 : GraphPrepare.t) (g0 : Graph) :
  Forall (λ l, lineFeed ∉ l) (numLine :: nameLines ++ countLine :: edgeLines) →
  GraphPrepare.stoi numLine = Ok (Z.of_nat n) →
  (2 ≤ n)%nat → Nat.Even n →
  length nameLines = n →
  Forall (Exists (λ ch, GraphPrepare.isalnum ch = true)) nameLines →
  GraphPrepare.stoi countLine = Ok (Z.of_nat (length es)) →
  es ≠ [] →
  Forall2 (λ l e, GraphPrepare.parseEdge l = Ok (Z.of_nat e.1, Z.of_nat e.2))
          edgeLines es →
  (∀ a b, (a, b) ∈ es → (a < n + 2)%nat ∧ (b < n + 2)%nat) →
  GraphPrepare.fileRead
    (Some (unlines (numLine :: nameLines ++ countLine :: edgeLines) ++ rest))
    this0 g0
  = (Ok tt,
     GraphPrepare.mk (Z.of_nat n) (Z.of_nat (length es))
       (default EmptyString (head (GraphPrepare.names this0))
        :: map (λ l, String.string_of_list_ascii (GraphPrepare.validateName l))
               nameLines),
     fileRead n es).
Proof. apply fileRead_run. Qed.

Lemma fileRead_reads_witness :
  GraphPrepare.fileRead
    (Some (unlines (String.list_ascii_of_string "2"
                    :: [String.list_ascii_of_string "Ann";
                        String.list_ascii_of_string " Bob  Jr."]
                    ++ String.list_ascii_of_string "1"
                    :: [String.list_ascii_of_string "1 2"])
           ++ String.list_ascii_of_string "the rest"))
    GraphPrepare.new (newGraph 0)
  = (Ok tt, GraphPrepare.mk 2 1 [""; "Ann"; "Bob Jr"], fileRead 2 [(1, 2)%nat]).
Proof.
  apply (fileRead_reads
           (String.list_ascii_of_string "2") (String.list_ascii_of_string "1")
           [String.list_ascii_of_string "Ann";
            String.list_ascii_of_string " Bob  Jr."]
           [String.list_ascii_of_string "1 2"]
           (String.list_ascii_of_string "the rest")
           2 [(1, 2)%nat] GraphPrepare.new (newGraph 0)).
  - apply (bool_decide_unpack _). vm_compute. exact I.
  - reflexivity.
  - lia.
  - by exists 1%nat.
  - reflexivity.
  - apply (bool_decide_unpack _). vm_compute. exact I.
  - reflexivity.
  - discriminate.
  - repeat constructor.
  - intros a b [= -> ->]%list_elem_of_singleton. lia.
Defined.

(** ** The program on the description of a bipartite graph *)

Lemma wired_maximum (n : nat) (es : list (nat * nat)) (fuel : nat)
    (st : Stats) (ff' : FordFulkerson) :
  validEdges n es →
  ((n + 3) * (n + 3) ≤ fuel)%nat →
  calculateMaxFlow fuel (newFordFulkerson (wired n es)) 0 (Z.of_nat n + 1)
  = Returned st ff' →
  matching es (matchedPairs (graph ff'))
  ∧ pushed st = length (matchedPairs (graph ff'))
  ∧ ∀ M, matching es M → (length M ≤ length (matchedPairs (graph ff')))%nat.
Proof.
  intros Hvalid Hfuel Hrun'.
  destruct (wired_spec n es Hvalid) as (Hwf & Hn & HN & Hcap).
  pose proof (matchState_wired n es Hvalid) as Hstate.
  pose proof (half_le n) as Hhalf.
  pose proof (matchedPairs_count n es Hvalid (wired n es) Hstate) as Hc0.
  rewrite (matchedPairs_wired n es Hvalid) in Hc0. cbn [length] in Hc0.
  destruct (calculateMaxFlow_run (matchState n es) fuel
              (newFordFulkerson (wired n es)) 0 (n + 1))
    as (st0 & ff0 & Hrun & Hwf' & Hstate' & HN' & Hn' & _ & Htree & Hclosed
        & Hsink & Hpushed & _).
  { intros g p. apply matchState_commit. }
  { done. }
  { done. }
  { cbn [graph newFordFulkerson]. lia. }
  { cbn [graph newFordFulkerson]. lia. }
  { cbn [graph newFordFulkerson]. split; [rewrite HN; lia|]. nia. }
  replace (Z.of_nat (n + 1)) with (Z.of_nat n + 1) in Hrun by lia.
  change (Z.of_nat 0) with 0 in Hrun.
  rewrite Hrun in Hrun'. injection Hrun' as <- <-.
  cbn [graph newFordFulkerson] in *.
  specialize (Hsink ltac:(lia)).
  pose proof (matchedPairs_count n es Hvalid (graph ff0) Hstate') as Hc.
  pose proof (sourceCapacity_nonneg (graph ff0) 0) as Hnn.
  split; [by apply (matchedPairs_matching n es Hvalid)|].
  split; [lia|]. intros M HM.
  by apply (matchedPairs_maximum n es Hvalid (graph ff0) Hstate' (depth ff0)).
Qed.

(** X18: the program on the description of a bipartite graph.  When
    the file holds an even number [n] of at least 2, [n] names, the number
    of edges and that many edges from a node of [1 .. n/2] to a node of
    [n/2+1 .. n], [main] writes a line with the two cleaned names for each
    pair of a matching of these edges that no matching exceeds in size,
    and the number of its pairs. *)
Theorem main_maximum_matching (numLine countLine : list ascii)
    (nameLines edgeLines : list (list ascii)) (rest : list ascii)
    (n : nat) (es : list (nat * nat)) :
  Forall (λ l, lineFeed ∉ l) (numLine :: nameLines ++ countLine :: edgeLines) →
  GraphPrepare.stoi numLine = Ok (Z.of_nat n) →
  (2 ≤ n)%nat → Nat.Even n →
  length nameLines = n →
  Forall (Exists (λ ch, GraphPrepare.isalnum ch = true)) nameLines →
  GraphPrepare.stoi countLine = Ok (Z.of_nat (length es)) →
  es ≠ [] →
  Forall2 (λ l e, GraphPrepare.parseEdge l = Ok (Z.of_nat e.1, Z.of_nat e.2))
          edgeLines es →
  validEdges n es →
  ∃ fuel0, ∀ fuel, (fuel0 ≤ fuel)%nat →
    ∃ M,
      BipartiteMatcher.main fuel
        (Some (unlines (numLine :: nameLines ++ countLine :: edgeLines) ++ rest))
      = Ok (Some
              (map (λ '(i, j),
                      printLine
                        (EmptyString
                         :: map (λ l, String.string_of_list_ascii
                                        (GraphPrepare.validateName l))
                                nameLines) i j) M,
               Z.of_nat (length M)))
      ∧ matching es M
      ∧ ∀ M', matching es M' → (length M' ≤ length M)%nat.
Proof.
  intros Hnl Hnum Hn2 Hev Hlen Hal Hcount Hes Hedges Hvalid.
  assert (Hrange : ∀ a b, (a, b) ∈ es → (a < n + 2)%nat ∧ (b < n + 2)%nat).
  { intros a b Hab. destruct (Hvalid a b Hab) as [Hl Hr].
    pose proof (half_le n). unfold isLeft, isRight in *. lia. }
  pose proof (fileRead_run numLine countLine nameLines edgeLines rest n es
                GraphPrepare.new (newGraph 0) Hnl Hnum Hn2 Hev Hlen Hal Hcount
                Hes Hedges Hrange) as Hread.
  cbn [GraphPrepare.names GraphPrepare.new head default] in Hread.
  exists ((n + 3) * (n + 3))%nat. intros fuel Hfuel.
  destruct (main_runs _ _ n es fuel Hread eq_refl Hrange Hfuel)
    as (st & ff' & Hrun & _ & Hmain).
  destruct (wired_maximum n es fuel st ff' Hvalid Hfuel Hrun)
    as (Hm & _ & Hmax).
  exists (matchedPairs (graph ff')). split; [|done].
  rewrite Hmain. cbn [GraphPrepare.names]. by rewrite printResults_matchedPairs.
Qed.

Lemma main_maximum_matching_witness :
  ∃ fuel M,
    BipartiteMatcher.main fuel
      (Some (unlines (String.list_ascii_of_string "4"
                      :: [String.list_ascii_of_string "Ann";
                          String.list_ascii_of_string "Bob";
                          String.list_ascii_of_string "Cy";
                          String.list_ascii_of_string "Di"]
                      ++ String.list_ascii_of_string "3"
                      :: [String.list_ascii_of_string "1 3";
                          String.list_ascii_of_string "2 3";
                          String.list_ascii_of_string "2 4"])
             ++ []))
    = Ok (Some (map (λ '(i, j), printLine [""; "Ann"; "Bob"; "Cy"; "Di"] i j) M,
                Z.of_nat (length M)))
    ∧ matching [(1, 3); (2, 3); (2, 4)]%nat M.
Proof.
  destruct (main_maximum_matching
              (String.list_ascii_of_string "4") (String.list_ascii_of_string "3")
              [String.list_ascii_of_string "Ann";
               String.list_ascii_of_string "Bob";
               String.list_ascii_of_string "Cy";
               String.list_ascii_of_string "Di"]
              [String.list_ascii_of_string "1 3";
               String.list_ascii_of_string "2 3";
               String.list_ascii_of_string "2 4"]
              [] 4 [(1, 3); (2, 3); (2, 4)]%nat) as [fuel0 H].
  - apply (bool_decide_unpack _). vm_compute. exact I.
  - reflexivity.
  - lia.
  - by exists 2%nat.
  - reflexivity.
  - apply (bool_decide_unpack _). vm_compute. exact I.
  - reflexivity.
  - discriminate.
  - repeat constructor.
  - intros l r Hin. unfold isLeft, isRight.
    repeat (apply elem_of_cons in Hin as [Hin|Hin];
            [injection Hin as -> ->; vm_compute; lia|]).
    by apply elem_of_nil in Hin.
  - exists fuel0.
    destruct (H fuel0 ltac:(lia)) as (M & Hmain & Hm & _).
    exists M. split; [exact Hmain|exact Hm].
Defined.

(** ** The depths of [levelGraph] are distances *)

(** X19: the depths that [levelGraph] assigns are distances.  When
    it returns, every node with a depth [k] is reached from the source by
    a walk of [k] edges of positive capacity and by no shorter one; this
    holds also when it returns early, for the sink and for the nodes that
    were given a depth before it. *)
Theorem levelGraph_depths_are_distances (fuel : nat) (ff : FordFulkerson)
    (source sink : nat) :
  (source < totalNodes (graph ff))%nat →
  (sink < totalNodes (graph ff))%nat →
  (totalNodes (graph ff) < fuel)%nat →
  ∃ b d,
    levelGraph fuel ff source sink = Some (b, setDepth ff d)
    ∧ (b = true → visited d sink)
    ∧ ∀ v, (v < totalNodes (graph ff))%nat → visited d v →
           0 ≤ depthAt d v
           ∧ walk (graph ff) source v (Z.to_nat (depthAt d v))
           ∧ ∀ k, walk (graph ff) source v k → (Z.to_nat (depthAt d v) ≤ k)%nat.
Proof.
  intros Hsrc Hsnk Hfuel.
  destruct (levelGraph_result fuel ff source sink Hsrc Hsnk Hfuel)
    as (b & d & Hrun & Htree & Htrue & _).
  exists b, d. split; [done|]. split; [by intros H; apply Htrue|].
  unfold levelGraph, getNodes in Hrun.
  destruct (levelGraph_loop fuel (graph ff) sink _ [source])
    as [[b' d']|] eqn:Hloop; [|done].
  assert (d' = d) as ->.
  { by injection Hrun as _ Hd. }
  destruct (levelGraph_loop_levels (graph ff) source sink fuel _ _ 0 _ _ Hloop
              (loopLevels_init (graph ff) source Hsrc)) as [D Hb].
  intros v Hlt Hv.
  assert (Hnn : 0 ≤ depthAt d v) by (by apply (lb_nonneg _ _ _ _ Hb)).
  split; [done|]. split.
  - apply (bfsTree_walk (graph ff) source d Htree); [done|done|lia].
  - intros k Hw.
    pose proof (levelBounds_shortest (graph ff) source d D v k Hsrc Hb Hv Hw).
    lia.
Qed.

Lemma levelGraph_depths_are_distances_witness :
  ∃ b d,
    levelGraph 5
      (newFordFulkerson (createEdge (createEdge (newGraph 1) 0 1 2) 1 2 3)) 0 2
    = Some (b, setDepth
                 (newFordFulkerson
                    (createEdge (createEdge (newGraph 1) 0 1 2) 1 2 3)) d)
    ∧ (b = true → visited d 2)
    ∧ ∀ v, (v < 3)%nat → visited d v →
           0 ≤ depthAt d v
           ∧ walk (createEdge (createEdge (newGraph 1) 0 1 2) 1 2 3) 0 v
               (Z.to_nat (depthAt d v))
           ∧ ∀ k, walk (createEdge (createEdge (newGraph 1) 0 1 2) 1 2 3) 0 v k →
                  (Z.to_nat (depthAt d v) ≤ k)%nat.
Proof.
  apply (levelGraph_depths_are_distances 5
           (newFordFulkerson
              (createEdge (createEdge (newGraph 1) 0 1 2) 1 2 3)) 0 2);
    vm_compute; lia.
Defined.
